(** * poly-ir-toolkit: the query processor and the layered index generator

    A shallow embedding of the parts of [query_processor.cc],
    [index_layerify.cc] and [index_reader.h] that the specification talks
    about, together with the properties proved (or refuted) about them.

    Conventions.
    - [uint32_t] / [uint64_t] values are [Z] with the wrap-around written
      out ([wrap32], [wrap64]); [int] and [long] values are [Z].
    - [float] is IEEE binary32 and [double] is IEEE binary64, both taken
      from the standard library's executable [SpecFloat] model.
    - Arrays are lists; an index into an array is a [nat].
    - The STL algorithms of [<algorithm>] are not part of the repository:
      they enter through their ISO contracts ([Stl.conforming]) and a
      reference implementation is given to run the code. *)

From Stdlib Require Import ZArith List Bool Lia Permutation Sorted SpecFloat String Ascii OrderedTypeEx.
From stdpp Require Import gmap strings list fin_maps.

Local Open Scope Z_scope.

(** ** Machine integers *)

Definition wrap32 (z : Z) : Z := z mod 2^32.
Definition wrap64 (z : Z) : Z := z mod 2^64.

(** [numeric_limits<uint32_t>::max()], also [ListData::kNoMoreDocs]. *)
Definition u32_max : Z := 2^32 - 1.

(** ** IEEE arithmetic *)

Module F32.
Definition prec : Z := 24.
Definition emax : Z := 128.
Definition add := SFadd prec emax.
Definition sub := SFsub prec emax.
Definition mul := SFmul prec emax.
Definition div := SFdiv prec emax.
Definition ltb := SFltb.
Definition leb := SFleb.
Definition eqb := SFeqb.
(** Conversion of an integer ([int], [uint32_t]) to [float]. *)
Definition of_Z (z : Z) : spec_float := binary_normalize prec emax z 0 false.
(** [m * 2^e], rounded. *)
Definition of_bits (m e : Z) : spec_float := binary_normalize prec emax m e false.
Definition zero : spec_float := S754_zero false.
(** [numeric_limits<float>::max()]. *)
Definition max_float : spec_float := SFmax_float prec emax.
Definition is_nan (x : spec_float) : bool :=
    match x with S754_nan => true | _ => false end.
End F32.

Module F64.
Definition prec : Z := 53.
Definition emax : Z := 1024.
Definition add := SFadd prec emax.
Definition sub := SFsub prec emax.
Definition mul := SFmul prec emax.
Definition div := SFdiv prec emax.
Definition of_Z (z : Z) : spec_float := binary_normalize prec emax z 0 false.
Definition of_bits (m e : Z) : spec_float := binary_normalize prec emax m e false.
(** Narrowing conversion [double -> float] (round to nearest even). *)
Definition to_f32 (x : spec_float) : spec_float :=
    match x with
    | S754_finite s m e =>
        binary_normalize F32.prec F32.emax (cond_Zopp s (Zpos m)) e s
    | _ => x
    end.
(** Widening conversion [float -> double] is exact. *)
Definition of_f32 (x : spec_float) : spec_float :=
    match x with
    | S754_finite s m e => binary_normalize prec emax (cond_Zopp s (Zpos m)) e s
    | _ => x
    end.
(** Conversion [double -> int]: truncation toward zero (finite values in
    range; the C++ conversion is undefined otherwise, modelled as [0]). *)
Definition to_int (x : spec_float) : Z :=
    match x with
    | S754_finite s m e =>
        cond_Zopp s (if 0 <=? e then Z.shiftl (Zpos m) e else Z.shiftr (Zpos m) (- e))
    | _ => 0
    end.
(** The sign bit is clear (or the value is a NaN). *)
Definition nonneg (x : spec_float) : Prop :=
    match x with
    | S754_zero s | S754_infinity s | S754_finite s _ _ => s = false
    | S754_nan => True
    end.
End F64.

(** ** [QueryProcessor::LoadIndexProperties] *)

Module IndexProperties.

Record t := {
    collection_total_num_docs_ : Z;   (* uint32_t *)
    collection_average_doc_len_ : Z;  (* uint32_t *)
  }.

(** The arguments are the two [atol] results (type [long]) read from the
    meta file keys [total_num_docs] and [total_document_lengths].  The
    first is stored into a [uint32_t] member, the second into a local
    [uint64_t]; the comparisons [<= 0] are therefore unsigned. *)
Definition LoadIndexProperties (atol_total_num_docs atol_total_document_lengths : Z) : t :=
    let collection_total_num_docs := wrap32 atol_total_num_docs in
    let collection_total_document_lengths := wrap64 atol_total_document_lengths in
    {| collection_total_num_docs_ := collection_total_num_docs;
       collection_average_doc_len_ :=
         if (collection_total_num_docs <=? 0) || (collection_total_document_lengths <=? 0)
         then 1
         else wrap32 (collection_total_document_lengths / collection_total_num_docs) |}.

End IndexProperties.

(** ** BM25 constants, as every evaluator precomputes them *)

Module Bm25.
Definition kBm25K1 : spec_float := F32.of_Z 2.
Definition kBm25B : spec_float := F32.of_bits 3 (-2).
Definition kBm25NumeratorMul : spec_float := F32.add kBm25K1 (F32.of_Z 1).
Definition kBm25DenominatorAdd : spec_float :=
    F32.mul kBm25K1 (F32.sub (F32.of_Z 1) kBm25B).
Definition kBm25DenominatorDocLenMul (collection_average_doc_len : Z) : spec_float :=
    F32.div (F32.mul kBm25K1 kBm25B) (F32.of_Z collection_average_doc_len).
End Bm25.

(** ** The STL algorithms the code calls

    [push_heap], [pop_heap], [make_heap] and [sort] come from the C++
    standard library.  A range [first, last) is a list; the comparator is
    passed at each call, as in the code. *)

Module Stl.

Record algorithms : Type := {
  push_heap : forall A : Type, (A -> A -> bool) -> list A -> list A;
  pop_heap : forall A : Type, (A -> A -> bool) -> list A -> list A;
  make_heap : forall A : Type, (A -> A -> bool) -> list A -> list A;
  sort : forall A : Type, (A -> A -> bool) -> list A -> list A;
}.

(** The comparator requirement: a strict weak ordering on the values that
    occur ([dom]; for [float] keys these are the values other than NaN). *)
Record strict_weak_order {A : Type} (dom : A -> Prop) (comp : A -> A -> bool) : Prop := {
  swo_irrefl : forall x, dom x -> comp x x = false;
  swo_trans : forall x y z, dom x -> dom y -> dom z ->
    comp x y = true -> comp y z = true -> comp x z = true;
  swo_incomp : forall x y z, dom x -> dom y -> dom z ->
    comp x y = false -> comp y z = false -> comp x z = false;
}.

(** [std::is_heap]: no parent compares less than its child. *)
Definition is_heap {A : Type} (comp : A -> A -> bool) (l : list A) : Prop :=
  forall (i : nat) (x y : A), (0 < i)%nat ->
    l !! i = Some x -> l !! ((i - 1) / 2)%nat = Some y -> comp y x = false.

(** [std::is_sorted]: no element compares less than an earlier one. *)
Definition is_sorted {A : Type} (comp : A -> A -> bool) (l : list A) : Prop :=
  forall (i j : nat) (x y : A), (i < j)%nat ->
    l !! i = Some x -> l !! j = Some y -> comp y x = false.

(** The contracts of ISO C++ [alg.heap.operations] and [alg.sort]. *)
Record conforming (alg : algorithms) : Prop := {
  push_heap_spec : forall (A : Type) dom comp (l : list A),
    strict_weak_order dom comp -> Forall dom l -> l <> [] ->
    is_heap comp (removelast l) ->
    Permutation (push_heap alg A comp l) l /\ is_heap comp (push_heap alg A comp l);
  pop_heap_spec : forall (A : Type) dom comp (x : A) (l : list A),
    strict_weak_order dom comp -> Forall dom (x :: l) ->
    is_heap comp (x :: l) ->
    exists l', pop_heap alg A comp (x :: l) = l' ++ [x] /\
               Permutation l' l /\ is_heap comp l';
  make_heap_spec : forall (A : Type) dom comp (l : list A),
    strict_weak_order dom comp -> Forall dom l ->
    Permutation (make_heap alg A comp l) l /\ is_heap comp (make_heap alg A comp l);
  sort_spec : forall (A : Type) dom comp (l : list A),
    strict_weak_order dom comp -> Forall dom l ->
    Permutation (sort alg A comp l) l /\ is_sorted comp (sort alg A comp l);
}.

(** The algorithms see the elements only through [comp]: comparison
    objects that answer alike give the same result. *)
Definition extensional (alg : algorithms) : Prop :=
  forall (A : Type) (comp1 comp2 : A -> A -> bool) (l : list A),
    (forall x y, comp1 x y = comp2 x y) -> sort alg A comp1 l = sort alg A comp2 l.

(** A reference implementation, to run the model.  A range in which no
    element compares less than a later one is a heap, so every heap
    operation may simply restore that order by insertion. *)
Fixpoint insert_by {A : Type} (comp : A -> A -> bool) (x : A) (l : list A) : list A :=
  match l with
  | [] => [x]
  | y :: l' => if comp x y then x :: l else y :: insert_by comp x l'
  end.

Definition sort_by {A : Type} (comp : A -> A -> bool) (l : list A) : list A :=
  foldr (insert_by comp) [] l.

Definition reference : algorithms := {|
  push_heap A comp l := sort_by (flip comp) l;
  pop_heap A comp l :=
    match l with
    | [] => []
    | x :: l' => sort_by (flip comp) l' ++ [x]
    end;
  make_heap A comp l := sort_by (flip comp) l;
  sort A comp l := sort_by comp l;
|}.

(** Applying an algorithm to the range [a, a + n) of an array. *)
Definition on_range {A : Type} (n : nat) (f : list A -> list A) (a : list A) : list A :=
  f (take n a) ++ drop n a.

End Stl.

(** ** Keeping the k best: [QueryProcessor::KthScore] *)

Module TopK.

(** [std::greater<float>]. *)
Definition greater_float (a b : spec_float) : bool := SFltb b a.

(** [-numeric_limits<float>::max()], the most negative finite [float]. *)
Definition neg_max_float : spec_float := SFopp F32.max_float.

(** [KthScore(new_score, scores, num_scores, kth_score)].  The array
    [scores] holds at least [kth_score] floats; it is updated in place, so
    the model returns it beside the result.  [num_scores] is a local copy,
    incremented in the first branch and read again by the final test. *)
Definition KthScore (alg : Stl.algorithms) (new_score : spec_float)
    (scores : list spec_float) (num_scores kth_score : nat)
    : spec_float * list spec_float :=
  let '(scores, num_scores) :=
    if (num_scores <? kth_score)%nat then
      let scores := <[num_scores := new_score]> scores in
      let num_scores := S num_scores in
      (Stl.on_range num_scores (Stl.push_heap alg _ greater_float) scores, num_scores)
    else if SFltb (nth 0 scores F32.zero) new_score then
      let scores := Stl.on_range kth_score (Stl.pop_heap alg _ greater_float) scores in
      let scores := <[(kth_score - 1)%nat := new_score]> scores in
      (Stl.on_range kth_score (Stl.push_heap alg _ greater_float) scores, num_scores)
    else (scores, num_scores) in
  (if (num_scores <? kth_score)%nat then neg_max_float else nth 0 scores F32.zero,
   scores).

(** The callers' idiom [threshold = KthScore(s, top_k_scores, n++, k)] for
    the successive scores [ss], starting from [num_scores]; [last] is the
    threshold before the first call. *)
Fixpoint KthScore_calls (alg : Stl.algorithms) (k : nat) (ss : list spec_float)
    (scores : list spec_float) (num_scores : nat) (last : spec_float)
    : spec_float * list spec_float :=
  match ss with
  | [] => (last, scores)
  | s :: ss' =>
      let '(threshold, scores') := KthScore alg s scores num_scores k in
      KthScore_calls alg k ss' scores' (S num_scores) threshold
  end.

(** The insertion step that [KthScore], [IntersectLists] and [MergeLists]
    each spell out: fill the heap up to [k], then replace the top when the
    new element compares before it ([d] is what an empty array reads as). *)
Definition insert {A : Type} (alg : Stl.algorithms) (comp : A -> A -> bool) (d x : A)
    (a : list A) (n k : nat) : list A :=
  if (n <? k)%nat then
    Stl.on_range (S n) (Stl.push_heap alg A comp) (<[n := x]> a)
  else if comp x (nth 0 a d) then
    Stl.on_range k (Stl.push_heap alg A comp)
      (<[(k - 1)%nat := x]> (Stl.on_range k (Stl.pop_heap alg A comp) a))
  else a.

Fixpoint countb {A : Type} (p : A -> bool) (l : list A) : nat :=
  match l with
  | [] => 0
  | x :: l' => ((if p x then 1 else 0) + countb p l')%nat
  end.

(** [r] is the k-th largest of [ss]: it occurs in [ss], fewer than [k]
    scores are greater, and at least [k] are greater or equal. *)
Definition is_kth_largest (k : nat) (ss : list spec_float) (r : spec_float) : Prop :=
  r ∈ ss /\ (countb (SFltb r) ss < k)%nat /\ (k <= countb (SFleb r) ss)%nat.

(** Modelled from the spec: "after m insertions of scores s_1..s_m, it
    returns the k-th largest if m >= k, else -infinity". *)
Definition spec_KthScore (k : nat) (ss : list spec_float) (r : spec_float) : Prop :=
  if (k <=? length ss)%nat then is_kth_largest k ss r else r = S754_infinity true.

(** The invariant of the insertion step.  After [n] insertions of the
    elements [p] into an array [a] of [k] slots: the first [min n k] slots
    are a heap of kept elements, and every dropped element [y] is not less
    (by [comp]) than any kept one. *)
Definition kept {A : Type} (dom : A -> Prop) (comp : A -> A -> bool)
    (k : nat) (a : list A) (n : nat) (p : list A) : Prop :=
  length a = k /\ length p = n /\ Forall dom p /\
  Stl.is_heap comp (take (Nat.min n k) a) /\
  exists D, Permutation (take (Nat.min n k) a ++ D) p /\
            ((n <= k)%nat -> D = []) /\
            (forall y x, y ∈ D -> x ∈ take (Nat.min n k) a -> comp y x = false).

Definition not_nan (x : spec_float) : Prop := F32.is_nan x = false.

(** Case analysis on the comparisons inside [SFcompare]. *)
Ltac sf_cases :=
  repeat match goal with
  | |- context [Z.compare ?a ?b] => destruct (Z.compare_spec a b); try lia; simpl
  | |- context [Pos.compare_cont Eq ?a ?b] =>
      change (Pos.compare_cont Eq a b) with (Pos.compare a b);
      destruct (Pos.compare_spec a b); try lia; simpl
  | H : context [Z.compare ?a ?b] |- _ => destruct (Z.compare_spec a b); try lia; simpl in H
  | H : context [Pos.compare_cont Eq ?a ?b] |- _ =>
      change (Pos.compare_cont Eq a b) with (Pos.compare a b) in H;
      destruct (Pos.compare_spec a b); try lia; simpl in H
  end.

End TopK.

(** ** The lexicon: [LexiconData] ([index_reader.h]) *)

Module Lex.

(** [LexiconData::LayerInfo].  The fields [block_number] and
    [chunk_number] address the layer's postings inside the index file; the
    model keeps the addressed postings (docID, frequency) themselves. *)
Record LayerInfo := {
  num_docs : Z;
  score_threshold : spec_float;
  layer_postings : list (Z * Z);
}.

(** [first_layer_] followed by [additional_layers_]. *)
Record LexiconData := {
  term : string;
  layers : list LayerInfo;
}.

Definition num_layers (lex : LexiconData) : Z := Z.of_nat (length (layers lex)).

Definition no_layer : LayerInfo :=
  {| num_docs := 0; score_threshold := F32.zero; layer_postings := [] |}.

Definition layer (lex : LexiconData) (layer_num : Z) : LayerInfo :=
  nth (Z.to_nat layer_num) (layers lex) no_layer.

Definition layer_num_docs (lex : LexiconData) (layer_num : Z) : Z :=
  num_docs (layer lex layer_num).

Definition layer_score_threshold (lex : LexiconData) (layer_num : Z) : spec_float :=
  score_threshold (layer lex layer_num).

End Lex.

(** ** List cursors: [ListData] and [IndexReader::OpenList]

    Modelled from the spec: [index_reader.cc], which implements
    [ListData] and [IndexReader], is not among the sources; the header
    [index_reader.h] gives the fields and the comments, the specification
    (section 4.8) the behaviour.  Here the cursor is seen through the
    postings of the opened layer; the block and chunk mechanics are
    modelled in [Cursor] below and related to this view. *)

Module ListData.

Record t := {
  layer_num : Z;
  num_docs : Z;
  num_docs_complete_list : Z;
  score_threshold : spec_float;
  term_num : Z;
  postings : list (Z * Z);  (* docID, frequency: the opened layer *)
  position : nat;           (* the posting the cursor stands on *)
}.

Definition kNoMoreDocs : Z := u32_max.

(** The number of postings, starting at the cursor, whose docID is below
    [doc_id]. *)
Fixpoint skip (doc_id : Z) (ps : list (Z * Z)) : nat :=
  match ps with
  | [] => 0
  | p :: ps' => if fst p <? doc_id then S (skip doc_id ps') else 0
  end.

Definition current_doc_id (l : t) : Z :=
  match postings l !! position l with
  | Some p => fst p
  | None => kNoMoreDocs
  end.

(** Modelled from the spec: "returns the next greater than or equal docID
    to that of [doc_id]" ([index_reader.h]); the cursor moves forward to the first posting with docID >= [doc_id]
    and stays there; past the end the sentinel is returned. *)
Definition NextGEQ (l : t) (doc_id : Z) : Z * t :=
  let l' := {| layer_num := layer_num l; num_docs := num_docs l;
               num_docs_complete_list := num_docs_complete_list l;
               score_threshold := score_threshold l; term_num := term_num l;
               postings := postings l;
               position := (position l + skip doc_id (drop (position l) (postings l)))%nat |} in
  (current_doc_id l', l').

(** Modelled from the spec: "returns the frequency for the current
    docID" ([index_reader.h]). *)
Definition GetFreq (l : t) : Z :=
  match postings l !! position l with
  | Some p => snd p
  | None => 0
  end.

(** Modelled from the spec: "resets the inverted list to its initial
    state" ([index_reader.h]). *)
Definition ResetList (l : t) : t :=
  {| layer_num := layer_num l; num_docs := num_docs l;
     num_docs_complete_list := num_docs_complete_list l;
     score_threshold := score_threshold l; term_num := term_num l;
     postings := postings l; position := 0 |}.

(** The length of the complete inverted list of a term: with overlapping
    layers the last layer holds every posting, otherwise the layers
    partition the list. *)
Definition complete_list_num_docs (overlapping_layers : bool) (lex : Lex.LexiconData) : Z :=
  if overlapping_layers
  then Lex.layer_num_docs lex (Lex.num_layers lex - 1)
  else foldr (fun li acc => Lex.num_docs li + acc) 0 (Lex.layers lex).

(** Modelled from the spec:
    [IndexReader::OpenList(lex_data, layer_num, single_term_query, term_num)]
    opens a cursor on the first posting of the layer. *)
Definition OpenList (overlapping_layers : bool) (lex : Lex.LexiconData)
    (layer_num term_num : Z) : t :=
  {| layer_num := layer_num;
     num_docs := Lex.layer_num_docs lex layer_num;
     num_docs_complete_list := complete_list_num_docs overlapping_layers lex;
     score_threshold := Lex.layer_score_threshold lex layer_num;
     term_num := term_num;
     postings := Lex.layer_postings (Lex.layer lex layer_num);
     position := 0 |}.

(** [ListCompare]: orders cursors by list length. *)
Definition ListCompare (l r : t) : bool := num_docs l <? num_docs r.

End ListData.

(** ** The block and chunk cursor of an inverted list ([ListData], spec 4.8) *)

Module Cursor.

(** Modelled from the spec: a chunk holds the docID gaps and the
    frequencies of at most [CHUNK_SIZE] postings (spec 4.2). *)
Record Chunk := {
  doc_id_gaps : list Z;
  frequencies : list Z;
}.

(** Modelled from the spec: the header of a block gives the last docID of
    each of its chunks (spec 4.3; [BlockDecoder::chunk_last_doc_id]). *)
Record Block := {
  chunk_last_doc_ids : list Z;
  chunks : list Chunk;
}.

(** Modelled from the spec: the cursor of spec 4.8, with the member names
    of [ListData], [BlockDecoder] and [ChunkDecoder] in [index_reader.h]. *)
Record t := {
  blocks : list Block;              (* the blocks of the opened layer *)
  last_doc_ids_ : list Z;           (* block-level index: the last docID of every block *)
  block_skipping_ : bool;
  curr_block_idx_ : nat;
  curr_chunk_ : nat;
  curr_document_offset_ : nat;
  prev_decoded_doc_id_ : Z;         (* the gap base *)
}.

Definition kNoMoreDocs : Z := u32_max.

(** The last docID of a block: the header entry of its last chunk, as
    [QueryProcessor::BuildBlockLevelIndex] reads it. *)
Definition block_last_doc_id (b : Block) : Z := List.last (chunk_last_doc_ids b) 0.

(** Modelled from the spec: [open_list(lex_entry, layer, ...)] puts the
    cursor on the first posting of the layer. *)
Definition OpenList (layer : list Block) (block_skipping : bool) : t :=
  {| blocks := layer;
     last_doc_ids_ := map block_last_doc_id layer;
     block_skipping_ := block_skipping;
     curr_block_idx_ := 0;
     curr_chunk_ := 0;
     curr_document_offset_ := 0;
     prev_decoded_doc_id_ := 0 |}.

(** Modelled from the spec: "binary search for the first block whose
    [last_doc_id >= target]", over the blocks [lo .. hi-1]. *)
Fixpoint BlockBinarySearch (fuel : nat) (last_doc_ids : list Z) (lo hi : nat) (doc_id : Z)
    : nat :=
  match fuel with
  | O => lo
  | S fuel =>
      if (hi <=? lo)%nat then lo
      else
        let mid := ((lo + hi) / 2)%nat in
        if nth mid last_doc_ids 0 <? doc_id
        then BlockBinarySearch fuel last_doc_ids (S mid) hi doc_id
        else BlockBinarySearch fuel last_doc_ids lo mid doc_id
  end.

(** Modelled from the spec: "else linear advance", one block after the
    other, reading the last docID from the block's header. *)
Fixpoint BlockSequentialSearch (rest : list Block) (idx : nat) (doc_id : Z) : nat :=
  match rest with
  | [] => idx
  | b :: rest' =>
      if doc_id <=? block_last_doc_id b then idx
      else BlockSequentialSearch rest' (S idx) doc_id
  end.

Definition no_block : Block := {| chunk_last_doc_ids := []; chunks := [] |}.

(** Modelled from the spec: the cursor jumps to block [idx]; the gap base
    becomes the last docID of the block before it
    ([prev_block_last_doc_id_]). *)
Definition SkipToBlock (c : t) (idx : nat) : t :=
  {| blocks := blocks c; last_doc_ids_ := last_doc_ids_ c;
     block_skipping_ := block_skipping_ c;
     curr_block_idx_ := idx;
     curr_chunk_ := 0;
     curr_document_offset_ := 0;
     prev_decoded_doc_id_ :=
       match idx with
       | O => 0
       | S i => block_last_doc_id (nth i (blocks c) no_block)
       end |}.

(** Modelled from the spec: step 1 of [NextGEQ], "if [target] > last docID
    of current block, advance blocks". *)
Definition AdvanceBlock (c : t) (doc_id : Z) : t :=
  match blocks c !! curr_block_idx_ c with
  | None => c
  | Some b =>
      if doc_id <=? block_last_doc_id b then c
      else
        let next := S (curr_block_idx_ c) in
        let num_blocks := length (blocks c) in
        SkipToBlock c
          (if block_skipping_ c
           then BlockBinarySearch (S num_blocks) (last_doc_ids_ c) next num_blocks doc_id
           else BlockSequentialSearch (drop next (blocks c)) next doc_id)
  end.

(** Modelled from the spec: step 2, "advance chunks using the header's
    per-chunk last-doc-ids until the current chunk's last >= target";
    [last_doc_ids] are the header entries from the current chunk on.  The
    result is the chunk index, the document offset and the gap base. *)
Fixpoint AdvanceChunk (last_doc_ids : list Z) (curr_chunk curr_document_offset : nat)
    (prev_decoded_doc_id doc_id : Z) : nat * nat * Z :=
  match last_doc_ids with
  | [] => (curr_chunk, curr_document_offset, prev_decoded_doc_id)
  | last_doc_id :: rest =>
      if doc_id <=? last_doc_id
      then (curr_chunk, curr_document_offset, prev_decoded_doc_id)
      else AdvanceChunk rest (S curr_chunk) 0 last_doc_id doc_id
  end.

(** Modelled from the spec: step 3, "walk from [curr_document_offset]
    forward, converting gaps to absolutes against [prev_decoded_doc_id],
    until [absolute >= target]"; [gaps] are the gaps from the current
    offset on.  The result is the docID found, its offset and the gap
    base in front of it. *)
Fixpoint walk (gaps : list Z) (curr_document_offset : nat) (prev_decoded_doc_id doc_id : Z)
    : option (Z * nat * Z) :=
  match gaps with
  | [] => None
  | gap :: rest =>
      let curr_doc_id := prev_decoded_doc_id + gap in
      if doc_id <=? curr_doc_id
      then Some (curr_doc_id, curr_document_offset, prev_decoded_doc_id)
      else walk rest (S curr_document_offset) curr_doc_id doc_id
  end.

Definition set_position (c : t) (curr_chunk curr_document_offset : nat)
    (prev_decoded_doc_id : Z) : t :=
  {| blocks := blocks c; last_doc_ids_ := last_doc_ids_ c;
     block_skipping_ := block_skipping_ c;
     curr_block_idx_ := curr_block_idx_ c;
     curr_chunk_ := curr_chunk;
     curr_document_offset_ := curr_document_offset;
     prev_decoded_doc_id_ := prev_decoded_doc_id |}.

(** Modelled from the spec: [NextGEQ(target)], steps 1 to 3; the sentinel
    is returned when no block is left. *)
Definition NextGEQ (c : t) (doc_id : Z) : Z * t :=
  let c := AdvanceBlock c doc_id in
  match blocks c !! curr_block_idx_ c with
  | None => (kNoMoreDocs, c)
  | Some b =>
      let '(curr_chunk, curr_document_offset, prev_decoded_doc_id) :=
        AdvanceChunk (drop (curr_chunk_ c) (chunk_last_doc_ids b)) (curr_chunk_ c)
          (curr_document_offset_ c) (prev_decoded_doc_id_ c) doc_id in
      match chunks b !! curr_chunk with
      | None => (kNoMoreDocs, set_position c curr_chunk curr_document_offset prev_decoded_doc_id)
      | Some chunk =>
          match walk (drop curr_document_offset (doc_id_gaps chunk)) curr_document_offset
                  prev_decoded_doc_id doc_id with
          | Some (curr_doc_id, curr_document_offset, prev_decoded_doc_id) =>
              (curr_doc_id, set_position c curr_chunk curr_document_offset prev_decoded_doc_id)
          | None =>
              (kNoMoreDocs,
               set_position c curr_chunk (length (doc_id_gaps chunk)) prev_decoded_doc_id)
          end
      end
  end.

(** Modelled from the spec: [GetFreq()] "returns
    [frequencies[curr_document_offset]]". *)
Definition GetFreq (c : t) : Z :=
  match blocks c !! curr_block_idx_ c with
  | None => 0
  | Some b =>
      match chunks b !! curr_chunk_ c with
      | None => 0
      | Some chunk => nth (curr_document_offset_ c) (frequencies chunk) 0
      end
  end.

(** The successive calls [NextGEQ(t_0)], [NextGEQ(t_1)], ... on one
    cursor, and the docIDs they return. *)
Fixpoint NextGEQ_calls (c : t) (targets : list Z) : list Z :=
  match targets with
  | [] => []
  | doc_id :: targets' =>
      let '(r, c') := NextGEQ c doc_id in
      r :: NextGEQ_calls c' targets'
  end.

(** The docIDs of a layer, from its gaps alone. *)
Fixpoint decode (prev_decoded_doc_id : Z) (gaps : list Z) : list Z :=
  match gaps with
  | [] => []
  | gap :: rest => (prev_decoded_doc_id + gap) :: decode (prev_decoded_doc_id + gap) rest
  end.

Definition block_gaps (b : Block) : list Z := concat (map doc_id_gaps (chunks b)).

Definition layer_gaps (layer : list Block) : list Z := concat (map block_gaps layer).

Definition doc_ids (layer : list Block) : list Z := decode 0 (layer_gaps layer).

(** A layer as the index builder writes it: no chunk and no block is
    empty, gaps are unsigned, and every header entry is the last docID of
    its chunk. *)
Fixpoint chunks_ok (prev : Z) (last_doc_ids : list Z) (chunks : list Chunk) : Prop :=
  match last_doc_ids, chunks with
  | [], [] => True
  | last_doc_id :: last_doc_ids', chunk :: chunks' =>
      doc_id_gaps chunk <> [] /\ Forall (fun gap => 0 <= gap) (doc_id_gaps chunk) /\
      last_doc_id = List.last (decode prev (doc_id_gaps chunk)) prev /\
      chunks_ok last_doc_id last_doc_ids' chunks'
  | _, _ => False
  end.

Fixpoint blocks_ok (prev : Z) (layer : list Block) : Prop :=
  match layer with
  | [] => True
  | b :: layer' =>
      chunks b <> [] /\ chunks_ok prev (chunk_last_doc_ids b) (chunks b) /\
      blocks_ok (block_last_doc_id b) layer'
  end.

Definition well_formed (layer : list Block) : Prop :=
  blocks_ok 0 layer /\ Forall (fun doc_id => doc_id < kNoMoreDocs) (doc_ids layer).

(** The docIDs from [doc_id] on, in an ascending list. *)
Fixpoint drop_below (doc_id : Z) (ids : list Z) : list Z :=
  match ids with
  | [] => []
  | d :: ids' => if d <? doc_id then drop_below doc_id ids' else ids
  end.

(** The docIDs the cursor has not passed: the one it stands on and those
    after it. *)
Definition rest (c : t) : list Z :=
  match blocks c !! curr_block_idx_ c with
  | None => []
  | Some b =>
      decode (prev_decoded_doc_id_ c)
        (match chunks b !! curr_chunk_ c with
         | Some chunk => drop (curr_document_offset_ c) (doc_id_gaps chunk)
         | None => []
         end
         ++ concat (map doc_id_gaps (drop (S (curr_chunk_ c)) (chunks b)))
         ++ layer_gaps (drop (S (curr_block_idx_ c)) (blocks c)))
  end.

(** The cursor is consistent with the layer it traverses: the header
    entry of the current chunk is what decoding the rest of the chunk
    from the gap base arrives at. *)
Definition consistent (c : t) : Prop :=
  blocks_ok 0 (blocks c) /\
  last_doc_ids_ c = map block_last_doc_id (blocks c) /\
  forall b, blocks c !! curr_block_idx_ c = Some b ->
    exists chunk, chunks b !! curr_chunk_ c = Some chunk /\
      (curr_document_offset_ c < length (doc_id_gaps chunk))%nat /\
      nth (curr_chunk_ c) (chunk_last_doc_ids b) 0 =
        List.last (decode (prev_decoded_doc_id_ c)
                     (drop (curr_document_offset_ c) (doc_id_gaps chunk)))
                  (prev_decoded_doc_id_ c).

(** [r] answers [NextGEQ(doc_id)] on a list with the docIDs [ids]. *)
Definition is_next_geq (ids : list Z) (doc_id r : Z) : Prop :=
  (r ∈ ids /\ doc_id <= r /\ forall d, d ∈ ids -> doc_id <= d -> r <= d) \/
  (r = kNoMoreDocs /\ forall d, d ∈ ids -> d < doc_id).

End Cursor.

(** ** The query evaluators ([query_processor.cc]) *)

Module QP.

(** [QueryProcessor::QueryAlgorithm]. *)
Inductive QueryAlgorithm :=
  | kDefault | kDaatAnd | kDaatOr | kTaatOr
  | kDualLayeredOverlappingDaat | kDualLayeredOverlappingMergeDaat
  | kLayeredTaatOrEarlyTerminated
  | kWand | kDualLayeredWand | kMaxScore | kDualLayeredMaxScore
  | kDaatAndTopPositions.

(** [typedef std::pair<float, uint32_t> Result]: score, docID. *)
Definition Result : Type := spec_float * Z.

(** [ResultCompare]: [l.first > r.first]. *)
Definition ResultCompare (l r : Result) : bool := SFltb (fst r) (fst l).

(** What a default-constructed [Result] holds. *)
Definition no_result : Result := (F32.zero, 0).

(** The [ListData] objects created by [OpenList]; a [ListData*] is an
    index into this store, so that a cursor reached through two pointer
    arrays is one shared object. *)
Definition store : Type := list ListData.t.

Definition total_postings (st : store) : nat :=
  foldr (fun l acc => (length (ListData.postings l) + acc)%nat) 0%nat st.

(** The end of [LoadIndexProperties]: the query algorithm is checked
    against the kind of index, and [kDefault] is resolved.  [None] is the
    fatal error "The selected query algorithm is not appropriate for this
    index type" (for [kTaatOr]: "not yet supported"). *)
Definition resolve_query_algorithm (query_algorithm_ : QueryAlgorithm)
    (index_layered_ index_overlapping_layers_ : bool) (index_num_layers_ : Z)
    : option QueryAlgorithm :=
  match query_algorithm_ with
  | kDefault =>
      if negb index_layered_ || index_overlapping_layers_ then Some kDaatAnd
      else Some kLayeredTaatOrEarlyTerminated
  | kDaatAnd | kDaatOr | kWand | kDualLayeredWand | kMaxScore | kDualLayeredMaxScore
  | kDaatAndTopPositions =>
      if index_layered_ && negb index_overlapping_layers_ then None
      else Some query_algorithm_
  | kDualLayeredOverlappingDaat | kDualLayeredOverlappingMergeDaat =>
      if negb index_layered_ || negb index_overlapping_layers_
         || negb (index_num_layers_ =? 2)
      then None else Some query_algorithm_
  | kLayeredTaatOrEarlyTerminated =>
      if negb index_layered_ || index_overlapping_layers_ then None
      else Some query_algorithm_
  | kTaatOr => None
  end.

(** Two cursors that stand at the same place of the same postings, with
    the same list lengths; the layer number, the threshold and the term
    number may differ. *)
Definition same_list (l l' : ListData.t) : Prop :=
  ListData.num_docs l = ListData.num_docs l' /\
  ListData.num_docs_complete_list l = ListData.num_docs_complete_list l' /\
  ListData.postings l = ListData.postings l' /\
  ListData.position l = ListData.position l'.

Section Evaluators.

Variable alg : Stl.algorithms.
(** [log10] of [<cmath>], on [double]. *)
Variable log10 : spec_float -> spec_float.
(** [IndexReader::GetDocLen], the document map. *)
Variable GetDocLen : Z -> Z.
Variables collection_average_doc_len_ collection_total_num_docs_ : Z.

(** [index_reader_.NextGEQ(list, doc_id)]. *)
Definition NextGEQ (st : store) (list : nat) (doc_id : Z) : Z * store :=
  match st !! list with
  | Some l => let '(d, l') := ListData.NextGEQ l doc_id in (d, <[list := l']> st)
  | None => (ListData.kNoMoreDocs, st)
  end.

(** [index_reader_.GetFreq(list, doc_id)]. *)
Definition GetFreq (st : store) (list : nat) : Z :=
  match st !! list with
  | Some l => ListData.GetFreq l
  | None => 0
  end.

(** [idf_t = log10(1 + (collection_total_num_docs_ - num_docs_t + 0.5) /
    (num_docs_t + 0.5))]: the subtraction is done in [uint32_t], the rest
    in [double], and the result is stored into a [float]. *)
Definition idf (num_docs_t : Z) : spec_float :=
  F64.to_f32
    (log10
       (F64.add (F64.of_Z 1)
          (F64.div
             (F64.add (F64.of_Z (wrap32 (collection_total_num_docs_ - num_docs_t)))
                      (F64.of_bits 1 (-1)))
             (F64.add (F64.of_Z num_docs_t) (F64.of_bits 1 (-1)))))).

(** [idf_t[i] = ...] for [num_docs_t = lists[i]->num_docs_complete_list()]. *)
Definition idf_of_lists (st : store) (lists : list nat) : list spec_float :=
  map (fun p => idf (match st !! p with
                     | Some l => ListData.num_docs_complete_list l
                     | None => 0
                     end)) lists.

(** [idf_t * (f_d_t * kBm25NumeratorMul) /
     (f_d_t + kBm25DenominatorAdd + kBm25DenominatorDocLenMul * doc_len)]. *)
Definition bm25 (idf_t : spec_float) (f_d_t doc_len : Z) : spec_float :=
  F32.div
    (F32.mul idf_t (F32.mul (F32.of_Z f_d_t) Bm25.kBm25NumeratorMul))
    (F32.add (F32.add (F32.of_Z f_d_t) Bm25.kBm25DenominatorAdd)
             (F32.mul (Bm25.kBm25DenominatorDocLenMul collection_average_doc_len_)
                      (F32.of_Z doc_len))).

(** The top-k bookkeeping that [IntersectLists] and [MergeLists] both
    spell out: [results] is a min-heap (by score) of capacity
    [num_results]. *)
Definition update_results (results : list Result) (total_num_results num_results : nat)
    (bm25_sum : spec_float) (did : Z) : list Result :=
  if (total_num_results <? num_results)%nat then
    let results := <[total_num_results := (bm25_sum, did)]> results in
    Stl.on_range (S total_num_results) (Stl.push_heap alg _ ResultCompare) results
  else if SFltb (fst (nth 0 results no_result)) bm25_sum then
    let results := Stl.on_range num_results (Stl.pop_heap alg _ ResultCompare) results in
    let results := <[(num_results - 1)%nat := (bm25_sum, did)]> results in
    Stl.on_range num_results (Stl.push_heap alg _ ResultCompare) results
  else results.

(** "Sort top-k results in descending order by document score." *)
Definition sort_results (results : list Result) (num_results total_num_results : nat)
    : list Result :=
  Stl.on_range (Nat.min num_results total_num_results) (Stl.sort alg _ ResultCompare) results.

(** *** [IntersectLists] *)

(** The lowest docID >= [did] over the merge lists. *)
Fixpoint merge_lists_min (st : store) (merge_lists : list nat) (did min_doc_id : Z)
    : Z * store :=
  match merge_lists with
  | [] => (min_doc_id, st)
  | l :: merge_lists' =>
      let '(d, st) := NextGEQ st l did in
      merge_lists_min st merge_lists' did (if d <? min_doc_id then d else min_doc_id)
  end.

(** [for (; (i < num_lists) && ((d = NextGEQ(lists[i], did)) == did); ++i)]:
    returns the final [d]. *)
Fixpoint same_doc_id (st : store) (lists : list nat) (did : Z) : Z * store :=
  match lists with
  | [] => (did, st)
  | l :: lists' =>
      let '(d, st) := NextGEQ st l did in
      if d =? did then same_doc_id st lists' did else (d, st)
  end.

(** "Compute BM25 score from frequencies." *)
Fixpoint bm25_sum_of (st : store) (lists : list nat) (idf_t : list spec_float) (did : Z)
    (bm25_sum : spec_float) : spec_float :=
  match lists, idf_t with
  | l :: lists', idf_l :: idf_t' =>
      bm25_sum_of st lists' idf_t' did
        (F32.add bm25_sum (bm25 idf_l (GetFreq st l) (GetDocLen did)))
  | _, _ => bm25_sum
  end.

(** The loop [while (did < numeric_limits<uint32_t>::max())]. *)
Fixpoint IntersectLists_loop (fuel : nat) (merge_lists : option (list nat))
    (lists : list nat) (idf_t : list spec_float) (num_results : nat)
    (st : store) (did : Z) (total_num_results : nat) (results : list Result)
    : nat * list Result * store :=
  match fuel with
  | O => (total_num_results, results, st)
  | S fuel =>
      if did <? u32_max then
        let '(did, i, st) :=
          match merge_lists with
          | Some merge_lists =>
              let '(min_doc_id, st) := merge_lists_min st merge_lists did u32_max in
              (min_doc_id, 0%nat, st)
          | None =>
              let '(d, st) := NextGEQ st (nth 0 lists 0%nat) did in
              (d, 1%nat, st)
          end in
        if did =? u32_max then (total_num_results, results, st)
        else
          let '(d, st) := same_doc_id st (drop i lists) did in
          if did <? d then
            IntersectLists_loop fuel merge_lists lists idf_t num_results
              st d total_num_results results
          else
            let bm25_sum := bm25_sum_of st lists idf_t did F32.zero in
            let results :=
              update_results results total_num_results num_results bm25_sum did in
            IntersectLists_loop fuel merge_lists lists idf_t num_results
              st (wrap32 (did + 1)) (S total_num_results) results
      else (total_num_results, results, st)
  end.

(** [IntersectLists(merge_lists, num_merge_lists, lists, num_lists,
    results, num_results)]; [merge_lists = None] is the [NULL] of the
    four-argument overload.  Every iteration but the last moves a cursor
    forward, so one more step than there are postings is fuel enough. *)
Definition IntersectListsMerge (merge_lists : option (list nat)) (lists : list nat)
    (results : list Result) (num_results : nat) (st : store)
    : nat * list Result * store :=
  let idf_t := idf_of_lists st lists in
  let '(total_num_results, results, st) :=
    IntersectLists_loop (S (total_postings st)) merge_lists lists idf_t num_results
      st 0 0%nat results in
  (total_num_results, sort_results results num_results total_num_results, st).

Definition IntersectLists (lists : list nat) (results : list Result) (num_results : nat)
    (st : store) : nat * list Result * store :=
  IntersectListsMerge None lists results num_results st.

(** *** [MergeLists] (standard DAAT OR)

    The compile-time switches [kScoreCompleteDoc] and
    [kUseArrayInsteadOfHeapList] are both [true]; the branches they disable
    are not modelled. *)

(** [lists_curr_postings]: for every list that is not empty, its first
    docID and its index [i] in [lists]. *)
Fixpoint init_curr_postings (st : store) (lists : list nat) (i : nat)
    : list (Z * nat) * store :=
  match lists with
  | [] => ([], st)
  | l :: lists' =>
      let '(curr_doc_id, st) := NextGEQ st l 0 in
      let '(rest, st) := init_curr_postings st lists' (S i) in
      (if curr_doc_id <? u32_max then (curr_doc_id, i) :: rest else rest, st)
  end.

(** [top = &lists_curr_postings[0]; for (i = 1; i < n; ++i)
    if (lists_curr_postings[i].first < top->first) top = ...]. *)
Fixpoint lowest_from (ps : list (Z * nat)) (i top : nat) (top_first : Z) : nat :=
  match ps with
  | [] => top
  | p :: ps' =>
      if fst p <? top_first then lowest_from ps' (S i) i (fst p)
      else lowest_from ps' (S i) top top_first
  end.

Definition lowest (lists_curr_postings : list (Z * nat)) (num_lists_remaining : nat) : nat :=
  match take num_lists_remaining lists_curr_postings with
  | [] => 0%nat
  | p :: ps => lowest_from ps 1 0 (fst p)
  end.

(** [while (top != &lists_curr_postings[num_lists_remaining])]: scores the
    postings of [curr_doc_id] and moves their lists on; an exhausted list
    is overwritten by the last entry ([--top] then [++top] leaves the
    index where it is). *)
Fixpoint score_complete_doc (fuel : nat) (st : store) (lists : list nat)
    (idf_t : list spec_float) (lists_curr_postings : list (Z * nat))
    (num_lists_remaining top : nat) (curr_doc_id : Z) (bm25_sum : spec_float)
    : spec_float * list (Z * nat) * nat * store :=
  match fuel with
  | O => (bm25_sum, lists_curr_postings, num_lists_remaining, st)
  | S fuel =>
      if (top =? num_lists_remaining)%nat
      then (bm25_sum, lists_curr_postings, num_lists_remaining, st)
      else
        let '(first, second) := nth top lists_curr_postings (0, 0%nat) in
        if first =? curr_doc_id then
          let list := nth second lists 0%nat in
          let f_d_t := GetFreq st list in
          let doc_len := GetDocLen first in
          let bm25_sum :=
            F32.add bm25_sum (bm25 (nth second idf_t F32.zero) f_d_t doc_len) in
          let '(next, st) := NextGEQ st list (wrap32 (first + 1)) in
          let lists_curr_postings := <[top := (next, second)]> lists_curr_postings in
          if next =? u32_max then
            let num_lists_remaining := (num_lists_remaining - 1)%nat in
            let lists_curr_postings :=
              <[top := nth num_lists_remaining lists_curr_postings (0, 0%nat)]>
                lists_curr_postings in
            score_complete_doc fuel st lists idf_t lists_curr_postings
              num_lists_remaining top curr_doc_id bm25_sum
          else
            score_complete_doc fuel st lists idf_t lists_curr_postings
              num_lists_remaining (S top) curr_doc_id bm25_sum
        else
          score_complete_doc fuel st lists idf_t lists_curr_postings
            num_lists_remaining (S top) curr_doc_id bm25_sum
  end.

(** The loop [while (num_lists_remaining)]. *)
Fixpoint MergeLists_loop (fuel : nat) (st : store) (lists : list nat)
    (idf_t : list spec_float) (num_results : nat)
    (lists_curr_postings : list (Z * nat)) (num_lists_remaining : nat)
    (total_num_results : nat) (results : list Result)
    : nat * list Result * store :=
  match fuel with
  | O => (total_num_results, results, st)
  | S fuel =>
      if (num_lists_remaining =? 0)%nat then (total_num_results, results, st)
      else
        let top := lowest lists_curr_postings num_lists_remaining in
        let curr_doc_id := fst (nth top lists_curr_postings (0, 0%nat)) in
        let '(bm25_sum, lists_curr_postings, num_lists_remaining, st) :=
          score_complete_doc (length lists_curr_postings) st lists idf_t
            lists_curr_postings num_lists_remaining top curr_doc_id F32.zero in
        let results :=
          update_results results total_num_results num_results bm25_sum curr_doc_id in
        MergeLists_loop fuel st lists idf_t num_results lists_curr_postings
          num_lists_remaining (S total_num_results) results
  end.

(** [MergeLists(lists, num_lists, results, num_results)]. *)
Definition MergeLists (lists : list nat) (results : list Result) (num_results : nat)
    (st : store) : nat * list Result * store :=
  let idf_t := idf_of_lists st lists in
  let '(lists_curr_postings, st) := init_curr_postings st lists 0 in
  let num_lists_remaining := length lists_curr_postings in
  if (0 <? num_lists_remaining)%nat then
    let '(total_num_results, results, st) :=
      MergeLists_loop (S (total_postings st)) st lists idf_t num_results
        lists_curr_postings num_lists_remaining 0%nat results in
    (total_num_results, sort_results results num_results total_num_results, st)
  else (0%nat, results, st).

(** *** [ProcessQuery] *)

(** [sort(list_data_pointers, list_data_pointers + n, ListCompare())]. *)
Definition sort_lists (st : store) (lists : list nat) : list nat :=
  Stl.sort alg _
    (fun l r => match st !! l, st !! r with
                | Some l, Some r => ListData.ListCompare l r
                | _, _ => false
                end) lists.

Variable index_overlapping_layers_ : bool.

(** Opens the last layer of every query term. *)
Definition open_last_layers (query_term_data : list Lex.LexiconData) : store :=
  map (fun lex => ListData.OpenList index_overlapping_layers_ lex (Lex.num_layers lex - 1) 0)
      query_term_data.

(** [IntersectListsTopPositions] copies position lists around and is
    not modelled; [ProcessQuery] only dispatches to it. *)
Variable IntersectListsTopPositions :
  list nat -> list Result -> nat -> store -> nat * list Result * store.

(** [ProcessQuery(query_term_data, num_query_terms, results, num_results)];
    the result is [total_num_results], the new [*num_results] and the
    [results] array ([None]: the [assert(false)] of the default case). *)
Definition ProcessQuery (query_algorithm_ : QueryAlgorithm)
    (query_term_data : list Lex.LexiconData)
    (results : list Result) (num_results : nat) : option (nat * nat * list Result) :=
  let kMaxNumResults := num_results in
  let st := open_last_layers query_term_data in
  let list_data_pointers := seq 0 (length query_term_data) in
  let run :=
    match query_algorithm_ with
    | kDaatAnd =>
        Some (IntersectLists (sort_lists st list_data_pointers) results kMaxNumResults st)
    | kDaatOr => Some (MergeLists list_data_pointers results kMaxNumResults st)
    | kDaatAndTopPositions =>
        Some (IntersectListsTopPositions (sort_lists st list_data_pointers)
                results kMaxNumResults st)
    | _ => None
    end in
  match run with
  | Some (total_num_results, results, _) =>
      Some (total_num_results, Nat.min total_num_results kMaxNumResults, results)
  | None => None
  end.

(** *** [ProcessLayeredQuery] (dual-layered overlapping DAAT) *)

(** [MAX_LIST_LAYERS] of [index_layout_parameters.h] (not among the
    sources). *)
Variable MAX_LIST_LAYERS : nat.

(** [list_data_pointers[i][j]] in the store built by [OpenListLayers]. *)
Definition layer_ptr (i j : nat) : nat := (i * MAX_LIST_LAYERS + j)%nat.

(** [OpenListLayers]: every layer of every term is opened; for a layer a
    term does not have, its last layer is opened once more. *)
Definition open_term_layers (i : nat) (lex : Lex.LexiconData) : store :=
  map (fun j : nat =>
         ListData.OpenList index_overlapping_layers_ lex
           (if Z.of_nat j <? Lex.num_layers lex then Z.of_nat j else Lex.num_layers lex - 1)
           (Z.of_nat i))
      (seq 0 MAX_LIST_LAYERS).

Fixpoint open_all_layers (i : nat) (query_term_data : list Lex.LexiconData) : store :=
  match query_term_data with
  | [] => []
  | lex :: rest => open_term_layers i lex ++ open_all_layers (S i) rest
  end.

(** [single_layer_list_idx]: the first term with a single layer, or [-1]. *)
Fixpoint single_layer_list_idx (i : Z) (query_term_data : list Lex.LexiconData) : Z :=
  match query_term_data with
  | [] => -1
  | lex :: rest =>
      if Lex.num_layers lex =? 1 then i else single_layer_list_idx (i + 1) rest
  end.

(** [list->ResetList(...)] through a pointer. *)
Definition ResetList (st : store) (list : nat) : store :=
  match st !! list with
  | Some l => <[list := ListData.ResetList l]> st
  | None => st
  end.

(** "Need to reset the 2nd layers after running the query". *)
Fixpoint reset_second_layers (st : store) (lists : list nat) : store :=
  match lists with
  | [] => st
  | l :: lists' =>
      let st :=
        match st !! l with
        | Some ld => if ListData.layer_num ld =? 1 then ResetList st l else st
        | None => st
        end in
      reset_second_layers st lists'
  end.

(** The loop over [i]: the first layer of term [i] is intersected with the
    second layers of all other terms.  Returns [all_results],
    [num_intersection_results], [total_num_results] and the store. *)
Fixpoint first_layer_intersections (terms : list nat) (num_query_terms kMaxNumResults : nat)
    (st : store) (total_num_results : nat)
    : list (list Result) * list nat * nat * store :=
  match terms with
  | [] => ([], [], total_num_results, st)
  | i :: terms' =>
      let curr_intersection_list_data_pointers :=
        map (fun j : nat => if (j =? i)%nat then layer_ptr j 0 else layer_ptr j 1)
            (seq 0 num_query_terms) in
      let curr_intersection_list_data_pointers :=
        sort_lists st curr_intersection_list_data_pointers in
      let '(curr_total_num_results, results_i, st) :=
        IntersectLists curr_intersection_list_data_pointers
          (replicate kMaxNumResults no_result) kMaxNumResults st in
      let st := reset_second_layers st curr_intersection_list_data_pointers in
      let '(all_results, num_intersection_results, total_num_results, st) :=
        first_layer_intersections terms' num_query_terms kMaxNumResults st
          (total_num_results + curr_total_num_results)%nat in
      (results_i :: all_results,
       Nat.min curr_total_num_results kMaxNumResults :: num_intersection_results,
       total_num_results, st)
  end.

(** [operator<] of [std::pair]. *)
Definition pair_lt {A B : Type} (ltA : A -> A -> bool) (ltB : B -> B -> bool)
    (a b : A * B) : bool :=
  ltA (fst a) (fst b) || (negb (ltA (fst b) (fst a)) && ltB (snd a) (snd b)).

(** An entry of [result_heap]: a result, the index of its intersection and
    the index of the next result of that intersection. *)
Definition heap_entry : Type := Result * (nat * nat).

Definition heap_entry_lt : heap_entry -> heap_entry -> bool :=
  pair_lt (pair_lt SFltb Z.ltb) (pair_lt Nat.ltb Nat.ltb).

Definition no_heap_entry : heap_entry := (no_result, (0%nat, 0%nat)).

(** The loop that seeds [result_heap]: entry [i] is written at index [i],
    while only [result_heap_size] is advanced. *)
Fixpoint seed_result_heap (i : nat) (all_results : list (list Result))
    (num_intersection_results : list nat) (result_heap : list heap_entry)
    (result_heap_size : nat) : list nat * list heap_entry * nat :=
  match all_results, num_intersection_results with
  | results_i :: all_results', n_i :: rest =>
      if (0 <? n_i)%nat then
        let result_heap := <[i := (nth 0 results_i no_result, (i, 1%nat))]> result_heap in
        let '(rest, result_heap, result_heap_size) :=
          seed_result_heap (S i) all_results' rest result_heap (S result_heap_size) in
        ((n_i - 1)%nat :: rest, result_heap, result_heap_size)
      else
        let '(rest, result_heap, result_heap_size) :=
          seed_result_heap (S i) all_results' rest result_heap result_heap_size in
        (n_i :: rest, result_heap, result_heap_size)
  | _, _ => (num_intersection_results, result_heap, result_heap_size)
  end.

(** [while (result_heap_size && curr_result < kMaxNumResults)]. *)
Fixpoint merge_results (fuel : nat) (all_results : list (list Result))
    (num_intersection_results : list nat) (result_heap : list heap_entry)
    (result_heap_size : nat) (results : list Result) (curr_result kMaxNumResults : nat)
    : list Result * nat :=
  match fuel with
  | O => (results, curr_result)
  | S fuel =>
      if (result_heap_size =? 0)%nat || negb (curr_result <? kMaxNumResults)%nat
      then (results, curr_result)
      else
        let result_heap :=
          Stl.on_range result_heap_size (Stl.pop_heap alg _ heap_entry_lt) result_heap in
        let '(curr_top_result, (top_intersection_index, next)) :=
          nth (result_heap_size - 1) result_heap no_heap_entry in
        let '(results, curr_result) :=
          if (curr_result =? 0)%nat
             || negb (snd (nth (curr_result - 1) results no_result) =? snd curr_top_result)
          then (<[curr_result := curr_top_result]> results, S curr_result)
          else (results, curr_result) in
        if (0 <? nth top_intersection_index num_intersection_results 0)%nat then
          let num_intersection_results :=
            <[top_intersection_index :=
                (nth top_intersection_index num_intersection_results 0 - 1)%nat]>
              num_intersection_results in
          let result_heap :=
            <[(result_heap_size - 1)%nat :=
                (nth next (nth top_intersection_index all_results []) no_result,
                 (top_intersection_index, S next))]> result_heap in
          let result_heap :=
            Stl.on_range result_heap_size (Stl.push_heap alg _ heap_entry_lt) result_heap in
          merge_results fuel all_results num_intersection_results result_heap
            result_heap_size results curr_result kMaxNumResults
        else
          merge_results fuel all_results num_intersection_results result_heap
            (result_heap_size - 1) results curr_result kMaxNumResults
  end.

(** [remaining_document_score_upperbound]: the sum of the last-layer
    thresholds of the query terms. *)
Definition remaining_document_score_upperbound (query_term_data : list Lex.LexiconData)
    : spec_float :=
  fold_left
    (fun acc lex => F32.add acc (Lex.layer_score_threshold lex (Lex.num_layers lex - 1)))
    query_term_data F32.zero.

(** Which of the statistics counters a layered query bumps. *)
Inductive layered_outcome :=
  | EarlyTerminated          (* num_queries_kth_result_meeting_threshold_ *)
  | ThresholdNotMet          (* num_queries_kth_result_not_meeting_threshold_ *)
  | NotEnoughResults         (* not_enough_results_definitely_ / _possibly_ *)
  | SingleLayeredTerm.       (* num_queries_containing_single_layered_terms_ *)

Record layered_result := {
  total_num_results : nat;
  num_results : nat;
  results : list Result;
  outcome : layered_outcome;
  run_standard_intersection : bool;
}.

(** The re-run "on the last layers for each list (this is actually the
    standard DAAT approach)". *)
Definition standard_intersection (query_term_data : list Lex.LexiconData)
    (st : store) (results : list Result) (kMaxNumResults : nat)
    : nat * list Result * store :=
  let last_layers :=
    imap (fun i lex => layer_ptr i (Z.to_nat (Lex.num_layers lex - 1))) query_term_data in
  let st := fold_left ResetList last_layers st in
  IntersectLists (sort_lists st last_layers) results kMaxNumResults st.

Variable query_algorithm_ : QueryAlgorithm.

(** "We merge all the first layers together ... and then treat it as one
    virtual list and intersect with all the 2nd layers." *)
Definition merged_first_layers (num_query_terms kMaxNumResults : nat)
    (results : list Result) (st : store) : nat * nat * list Result * store :=
  let merge_list_data_pointers := map (fun i => layer_ptr i 0) (seq 0 num_query_terms) in
  let curr_intersection_list_data_pointers :=
    sort_lists st (map (fun i => layer_ptr i 1) (seq 0 num_query_terms)) in
  let '(total_num_results, results, st) :=
    IntersectListsMerge (Some merge_list_data_pointers)
      curr_intersection_list_data_pointers results kMaxNumResults st in
  (total_num_results, Nat.min total_num_results kMaxNumResults, results, st).

(** The other branch: one intersection per term, then "merge the results
    from all the previous intersection(s) using a heap". *)
Definition per_term_first_layers (num_query_terms kMaxNumResults : nat)
    (results : list Result) (st : store) : nat * nat * list Result * store :=
  let '(all_results, num_intersection_results, total_num_results, st) :=
    first_layer_intersections (seq 0 num_query_terms) num_query_terms
      kMaxNumResults st 0%nat in
  let '(num_intersection_results, result_heap, result_heap_size) :=
    seed_result_heap 0 all_results num_intersection_results
      (replicate num_query_terms no_heap_entry) 0%nat in
  let result_heap :=
    Stl.on_range result_heap_size (Stl.make_heap alg _ heap_entry_lt) result_heap in
  let '(results, curr_result) :=
    merge_results (S (num_query_terms * S kMaxNumResults)) all_results
      num_intersection_results result_heap result_heap_size results
      0%nat kMaxNumResults in
  (total_num_results, curr_result, results, st).

Definition is_merge_daat (a : QueryAlgorithm) : bool :=
  match a with kDualLayeredOverlappingMergeDaat => true | _ => false end.

(** [if (run_standard_intersection) ...] and the return. *)
Definition finish_layered (query_term_data : list Lex.LexiconData) (kMaxNumResults : nat)
    (outcome : layered_outcome) (total_num_results num_results : nat)
    (results : list Result) (st : store) : layered_result :=
  match outcome with
  | EarlyTerminated =>
      {| total_num_results := total_num_results; num_results := num_results;
         results := results; outcome := outcome;
         run_standard_intersection := false |}
  | _ =>
      let '(total_num_results, results, _) :=
        standard_intersection query_term_data st results kMaxNumResults in
      {| total_num_results := total_num_results;
         num_results := Nat.min total_num_results kMaxNumResults;
         results := results; outcome := outcome;
         run_standard_intersection := true |}
  end.

(** [ProcessLayeredQuery(query_term_data, num_query_terms, results,
    num_results)], with [kMaxNumResults = *num_results] at least 1. *)
Definition ProcessLayeredQuery (query_term_data : list Lex.LexiconData)
    (results : list Result) (kMaxNumResults : nat) : layered_result :=
  let num_query_terms := length query_term_data in
  let st := open_all_layers 0 query_term_data in
  if single_layer_list_idx 0 query_term_data =? -1 then
    let '(total_num_results, num_results, results, st) :=
      if is_merge_daat query_algorithm_ && (2 <? num_query_terms)%nat
      then merged_first_layers num_query_terms kMaxNumResults results st
      else per_term_first_layers num_query_terms kMaxNumResults results st in
    if (kMaxNumResults <=? num_results)%nat then
      let min_result :=
        nth (Nat.min (kMaxNumResults - 1) (num_results - 1)) results no_result in
      if SFltb (remaining_document_score_upperbound query_term_data) (fst min_result)
      then finish_layered query_term_data kMaxNumResults
             EarlyTerminated total_num_results num_results results st
      else finish_layered query_term_data kMaxNumResults
             ThresholdNotMet total_num_results num_results results st
    else finish_layered query_term_data kMaxNumResults
           NotEnoughResults total_num_results num_results results st
  else finish_layered query_term_data kMaxNumResults
         SingleLayeredTerm 0%nat kMaxNumResults results st.

(** *** [ExecuteQuery] *)

(** [isupper] / [tolower] / [isspace] in the "C" locale. *)
Definition isupper (c : ascii) : bool :=
  (65 <=? nat_of_ascii c)%nat && (nat_of_ascii c <=? 90)%nat.

Definition tolower (c : ascii) : ascii :=
  if isupper c then ascii_of_nat (nat_of_ascii c + 32) else c.

Definition isspace (c : ascii) : bool :=
  (nat_of_ascii c =? 32)%nat || ((9 <=? nat_of_ascii c)%nat && (nat_of_ascii c <=? 13)%nat).

(** "All the words in the lexicon are lower case, so queries must be too". *)
Fixpoint lower_case (query_line : string) : string :=
  match query_line with
  | EmptyString => EmptyString
  | String c rest => String (tolower c) (lower_case rest)
  end.

(** [while (qss >> term)]: the whitespace-separated words of the line;
    [term] accumulates the current word. *)
Fixpoint extract_terms (query_line : string) (term : string) : list string :=
  match query_line with
  | EmptyString => if decide (term = EmptyString) then [] else [term]
  | String c rest =>
      if isspace c then
        if decide (term = EmptyString) then extract_terms rest EmptyString
        else term :: extract_terms rest EmptyString
      else extract_terms rest (term +:+ String c EmptyString)
  end.

(** [std::unique]: keeps the first of every run of equal elements. *)
Fixpoint unique (words : list string) : list string :=
  match words with
  | [] => []
  | w :: rest =>
      match rest with
      | [] => [w]
      | w' :: _ => if decide (w = w') then unique rest else w :: unique rest
      end
  end.

Inductive ProcessingSemantics := kAnd | kOr.

(** The first [switch (query_algorithm_)]; [None] is [kUndefined], where
    the code asserts. *)
Definition processing_semantics (a : QueryAlgorithm) : option ProcessingSemantics :=
  match a with
  | kDaatAnd | kDualLayeredOverlappingDaat | kDualLayeredOverlappingMergeDaat => Some kAnd
  | kDaatOr | kLayeredTaatOrEarlyTerminated | kWand | kDualLayeredWand
  | kMaxScore | kDualLayeredMaxScore => Some kOr
  | _ => None
  end.

Variable stop_words_ : gset string.
(** [index_reader_.lexicon()]; [GetEntry] is the lookup. *)
Variable lexicon : gmap string Lex.LexiconData.
Variable max_num_results_ : nat.

(** The evaluators that are dispatched to but not modelled here: they get
    the query terms and the result capacity, and give back
    [total_num_results], [results_size] and the results.  They stand for
    the evaluators where these return: the asserts at their entry (a
    layered index with two overlapping layers in [MergeListsWand] and
    [MergeListsMaxScore], at most 32 query terms in the TAAT evaluator)
    are not part of [run_query_algorithm], whose [None] is the
    [assert(false)] of [ExecuteQuery] itself; [Pruned.MergeListsPruned]
    below models the former. *)
Variable ProcessLayeredTaatPrunedEarlyTerminatedQuery :
  list Lex.LexiconData -> nat -> nat * nat * list Result.
Variable MergeListsWand : list Lex.LexiconData -> nat -> bool -> nat * nat * list Result.
Variable MergeListsMaxScore : list Lex.LexiconData -> nat -> bool -> nat * nat * list Result.

(** The second [switch (query_algorithm_)], on [ranked_results] of
    [max_num_results_] entries. *)
Definition run_query_algorithm (query_term_data : list Lex.LexiconData)
    : option (nat * nat * list Result) :=
  let ranked_results := replicate max_num_results_ no_result in
  match query_algorithm_ with
  | kDaatAnd | kDaatOr | kDaatAndTopPositions =>
      ProcessQuery query_algorithm_ query_term_data ranked_results max_num_results_
  | kDualLayeredOverlappingDaat | kDualLayeredOverlappingMergeDaat =>
      let r := ProcessLayeredQuery query_term_data ranked_results max_num_results_ in
      Some (total_num_results r, num_results r, results r)
  | kLayeredTaatOrEarlyTerminated =>
      Some (ProcessLayeredTaatPrunedEarlyTerminatedQuery query_term_data max_num_results_)
  | kWand => Some (MergeListsWand query_term_data max_num_results_ false)
  | kDualLayeredWand => Some (MergeListsWand query_term_data max_num_results_ true)
  | kMaxScore => Some (MergeListsMaxScore query_term_data max_num_results_ false)
  | kDualLayeredMaxScore => Some (MergeListsMaxScore query_term_data max_num_results_ true)
  | _ => None
  end.

(** What one call of [ExecuteQuery] does: the lexicon entries it asks for,
    the evaluator call it makes (if any), and what it reports. *)
Record execution := {
  lexicon_lookups : list string;
  evaluator_call : option (QueryAlgorithm * list Lex.LexiconData);
  results_size : nat;
  reported_total_num_results : nat;
  ranked_results : list Result;
}.

Definition no_execution (lookups : list string) : execution :=
  {| lexicon_lookups := lookups; evaluator_call := None; results_size := 0;
     reported_total_num_results := 0; ranked_results := [] |}.

(** The words of a query line, after lower-casing and the stop list. *)
Definition query_words (query_line : string) : list string :=
  let terms := extract_terms (lower_case query_line) EmptyString in
  if bool_decide (stop_words_ = ∅) then terms
  else List.filter (fun term => bool_decide (term ∉ stop_words_)) terms.

(** [ExecuteQuery(query_line, qid)]; [None] stands for a failed
    [assert]. *)
Definition ExecuteQuery (query_line : string) : option execution :=
  let words := query_words query_line in
  if (length words =? 0)%nat then Some (no_execution [])
  else
    let words := unique (Stl.sort alg _ String.ltb words) in
    let num_query_terms := length words in
    match processing_semantics query_algorithm_ with
    | None => None
    | Some semantics =>
        let query_term_data := omap (fun w => lexicon !! w) words in
        let curr_query_term_num := length query_term_data in
        let num_query_terms :=
          match semantics with kOr => curr_query_term_num | kAnd => num_query_terms end in
        if (curr_query_term_num =? num_query_terms)%nat then
          match run_query_algorithm query_term_data with
          | Some (total_num_results, results_size, ranked_results) =>
              Some {| lexicon_lookups := words;
                      evaluator_call := Some (query_algorithm_, query_term_data);
                      results_size := results_size;
                      reported_total_num_results := total_num_results;
                      ranked_results := take results_size ranked_results |}
          | None => None
          end
        else Some (no_execution words)
    end.

End Evaluators.

(** Notions used to state the properties of [ExecuteQuery]. *)
Definition str_le (x y : string) : Prop := String.ltb y x = false.
Definition str_lt (x y : string) : Prop := String.ltb x y = true.

Definition no_space (s : string) : Prop :=
  forall c, c ∈ list_ascii_of_string s -> isspace c = false.

Definition all_lower (s : string) : Prop :=
  forall c, c ∈ list_ascii_of_string s -> isupper c = false.

End QP.

(** ** A two-document collection

    doc 1 = "alpha beta beta", doc 2 = "alpha gamma": the index an indexer
    builds from them, used for the end-to-end scenarios. *)

Module Toy.

(** [log10] at the arguments met below (the correctly rounded doubles):
    [log10(1.2) = 0x3FB44538DE3B27EB], [log10(2) = 0x3FD34413509F79FF],
    [log10(10) = 1], [log10(14) = 0x3FF2568A59E4449F]. *)
Definition log10 (x : spec_float) : spec_float :=
  if SFeqb x (F64.of_bits 5404319552844595 (-52)) then F64.of_bits 5705610083117035 (-56)
  else if SFeqb x (F64.of_Z 2) then F64.of_bits 5422874305198591 (-54)
  else if SFeqb x (F64.of_Z 10) then F64.of_Z 1
  else if SFeqb x (F64.of_Z 14) then F64.of_bits 5161701794399391 (-52)
  else S754_nan.

Definition single_layer (postings : list (Z * Z)) : list Lex.LayerInfo :=
  [ {| Lex.num_docs := Z.of_nat (length postings);
       Lex.score_threshold := F32.zero;
       Lex.layer_postings := postings |} ].

Definition alpha : Lex.LexiconData :=
  {| Lex.term := "alpha"; Lex.layers := single_layer [(1, 1); (2, 1)] |}.
Definition beta : Lex.LexiconData :=
  {| Lex.term := "beta"; Lex.layers := single_layer [(1, 2)] |}.
Definition gamma : Lex.LexiconData :=
  {| Lex.term := "gamma"; Lex.layers := single_layer [(2, 1)] |}.

Definition lexicon : gmap string Lex.LexiconData :=
  <["alpha" := alpha]> (<["beta" := beta]> (<["gamma" := gamma]> ∅)).

(** The document map: the lengths of doc 1 and doc 2. *)
Definition GetDocLen (doc_id : Z) : Z :=
  if doc_id =? 1 then 3 else if doc_id =? 2 then 2 else 0.

(** The meta file: [total_num_docs = 2], [total_document_lengths = 5]. *)
Definition properties : IndexProperties.t := IndexProperties.LoadIndexProperties 2 5.

Definition not_modelled (_ : list Lex.LexiconData) (_ : nat) : nat * nat * list QP.Result :=
  (0%nat, 0%nat, []).

(** [ExecuteQuery] of a query processor over this index, with
    [max_number_results = 10] and no stop-word list. *)
Definition ExecuteQuery (query_algorithm_ : QP.QueryAlgorithm) (stop_words_ : gset string)
    (query_line : string) : option QP.execution :=
  QP.ExecuteQuery Stl.reference log10 GetDocLen
    (IndexProperties.collection_average_doc_len_ properties)
    (IndexProperties.collection_total_num_docs_ properties)
    false (fun _ results _ st => (0%nat, results, st)) 8
    query_algorithm_ stop_words_ lexicon 10
    not_modelled (fun q k _ => not_modelled q k) (fun q k _ => not_modelled q k)
    query_line.

(** Scenario S1 as the specification words it: both documents are
    reported, doc 1 first, with equal scores. *)
Definition scenario_S1 (e : QP.execution) : Prop :=
  QP.results_size e = 2%nat /\
  exists s1 s2, QP.ranked_results e = [(s1, 1); (s2, 2)] /\ SFeqb s1 s2 = true.

End Toy.

(** ** [LayeredIndexGenerator] ([index_layerify.cc]) *)

Module Layerify.

(** [IndexEntry]: a posting held in memory (positions are not supported by
    the generator: [assert(includes_positions_ == false)]). *)
Record IndexEntry := {
  doc_id : Z;
  frequency : Z;
}.

Definition no_entry : IndexEntry := {| doc_id := 0; frequency := 0 |}.

(** One layer as handed to the index builder: its postings in docID
    order, the maximum score of each chunk, and the threshold passed to
    [FinalizeLayer]. *)
Record Layer := {
  layer_entries : list IndexEntry;
  chunk_max_scores : list spec_float;
  score_threshold : spec_float;
}.

Inductive LayerSplitMode := kPercentage | kPercentageFixedBounded | kExponentiallyIncreasing.

Definition layer_percentages : list Z := [5; 5; 10; 15; 25; 40; 0; 0].
Definition layer_max_sizes : list Z := [1024; 8192; 0; 0; 0; 0; 0; 0].
Definition layer_min_sizes : list Z := [1024; 2048; 4096; 8192; 16384; 32768; 65536; 131072].

Section CreateLayeredIndex.

Variable alg : Stl.algorithms.
(** [DocIdScoreComparison::Bm25Score] ([index_layerify.h] is not among the
    sources): the partial BM25 score of a posting. *)
Variable Bm25Score : IndexEntry -> spec_float.
(** [pow] of [<cmath>], on [double]. *)
Variable pow : spec_float -> spec_float -> spec_float.
(** [CHUNK_SIZE] of [index_layout_parameters.h]: also [kLayerMinSize]
    and [ChunkEncoder::kChunkSize]. *)
Variable CHUNK_SIZE : Z.
Variable num_layers_ : Z.
Variable overlapping_layers_ : bool.
Variable layer_splitting_strategy : LayerSplitMode.

(** [DocIdScoreComparison::operator()]: descending score. *)
Definition doc_id_score_comparator (lhs rhs : IndexEntry) : bool :=
  SFltb (Bm25Score rhs) (Bm25Score lhs).

(** [IndexEntryDocIdComparison]: ascending docID. *)
Definition IndexEntryDocIdComparison (lhs rhs : IndexEntry) : bool :=
  doc_id lhs <? doc_id rhs.

Definition entry_at (index_entry_buffer : list IndexEntry) (idx : Z) : IndexEntry :=
  nth (Z.to_nat idx) index_entry_buffer no_entry.

(** The [switch (layer_splitting_strategy)]: the size first proposed for
    layer [i]; the arithmetic is in [double] and the result is truncated
    to [int]. *)
Definition proposed_layer_size (i total_num_postings : Z) : Z :=
  let percentage :=
    F64.to_int
      (F64.mul (F64.div (F64.of_Z (nth (Z.to_nat i) layer_percentages 0)) (F64.of_Z 100))
               (F64.of_Z total_num_postings)) in
  match layer_splitting_strategy with
  | kPercentage => percentage
  | kPercentageFixedBounded =>
      let max_size := nth (Z.to_nat i) layer_max_sizes 0 in
      if max_size =? 0 then percentage else Z.min percentage max_size
  | kExponentiallyIncreasing =>
      let base :=
        F64.to_f32 (pow (F64.of_Z total_num_postings)
                        (F64.div (F64.of_Z 1) (F64.of_Z num_layers_))) in
      let size :=
        F64.to_int (F64.mul (F64.sub (F64.of_f32 base) (F64.of_Z 1))
                            (pow (F64.of_f32 base) (F64.of_Z i))) in
      let min_size := nth (Z.to_nat i) layer_min_sizes 0 in
      if min_size =? 0 then size else Z.max size min_size
  end.

(** The [do ... while (true)] that moves the layer boundary: as long as
    the first posting of the current layer does not score higher than the
    first posting of the next one, the current layer takes one more
    posting. *)
Fixpoint fix_boundary (fuel : nat) (index_entry_buffer : list IndexEntry)
    (i total_num_postings num_postings_curr_layer num_postings_left : Z) : Z * Z :=
  match fuel with
  | O => (num_postings_curr_layer, num_postings_left)
  | S fuel =>
      if (i =? num_layers_ - 1) || (num_postings_left <=? 0)
      then (num_postings_curr_layer, num_postings_left)
      else
        let curr_layer_threshold_idx :=
          total_num_postings - num_postings_left - num_postings_curr_layer in
        let next_layer_threshold_idx := total_num_postings - num_postings_left in
        let curr_layer_threshold :=
          Bm25Score (entry_at index_entry_buffer curr_layer_threshold_idx) in
        let next_layer_threshold :=
          Bm25Score (entry_at index_entry_buffer next_layer_threshold_idx) in
        if SFleb curr_layer_threshold next_layer_threshold then
          fix_boundary fuel index_entry_buffer i total_num_postings
            (num_postings_curr_layer + 1) (num_postings_left - 1)
        else (num_postings_curr_layer, num_postings_left)
  end.

(** [GetChunkMaxScore]: sorts the chunk's entries by score, in place, and
    returns the score of the first. *)
Definition GetChunkMaxScore (chunk_entries : list IndexEntry) : spec_float * list IndexEntry :=
  let chunk_entries := Stl.sort alg _ doc_id_score_comparator chunk_entries in
  (Bm25Score (nth 0 chunk_entries no_entry), chunk_entries).

(** [DumpToIndex]: the entries go to the index builder in chunks of
    [CHUNK_SIZE]; the result is the maximum score of every chunk and the
    entries as [GetChunkMaxScore] leaves them in the buffer. *)
Fixpoint DumpToIndex (fuel : nat) (index_entries : list IndexEntry)
    : list spec_float * list IndexEntry :=
  match fuel with
  | O => ([], index_entries)
  | S fuel =>
      match index_entries with
      | [] => ([], [])
      | _ =>
          let n := Z.to_nat (Z.max 1 CHUNK_SIZE) in
          let '(max_score, chunk) := GetChunkMaxScore (take n index_entries) in
          let '(max_scores, rest) := DumpToIndex fuel (drop n index_entries) in
          (max_score :: max_scores, chunk ++ rest)
      end
  end.

(** The first part of the body of the loop over the layers: the number of
    postings of layer [i] and the number left for the layers below. *)
Definition split_layer (index_entry_buffer : list IndexEntry)
    (i total_num_postings num_postings_left : Z) : Z * Z :=
  let num_postings_curr_layer := proposed_layer_size i total_num_postings in
  let num_postings_curr_layer := Z.min num_postings_curr_layer num_postings_left in
  let kLayerMinSize := CHUNK_SIZE in
  let num_postings_curr_layer :=
    if (num_postings_curr_layer <? kLayerMinSize) && (kLayerMinSize <=? num_postings_left)
    then kLayerMinSize else num_postings_curr_layer in
  let num_postings_left := num_postings_left - num_postings_curr_layer in
  let '(num_postings_curr_layer, num_postings_left) :=
    if (i =? num_layers_ - 1) && (0 <? num_postings_left)
    then (num_postings_curr_layer + num_postings_left, 0)
    else (num_postings_curr_layer, num_postings_left) in
  fix_boundary (Z.to_nat num_postings_left) index_entry_buffer i total_num_postings
    num_postings_curr_layer num_postings_left.

(** The [for (int i = 0; i < num_layers_; ++i)] loop over the layers of
    one term; [fuel] counts the iterations left.  The result is the layers
    given to the index builder, in order.  ([assert(num_postings_curr_layer > 0)]
    is compiled out of a release build;
    [kOverlappingLayerThresholdIncludesAllDocs] is [false].) *)
Fixpoint layers_loop (fuel : nat) (i : Z) (index_entry_buffer : list IndexEntry)
    (total_num_postings num_postings_left : Z) : list Layer :=
  match fuel with
  | O => []
  | S fuel =>
      if num_postings_left <=? 0 then []
      else
        let '(num_postings_curr_layer, num_postings_left) :=
          split_layer index_entry_buffer i total_num_postings num_postings_left in
        let curr_layer_start :=
          total_num_postings - num_postings_left - num_postings_curr_layer in
        let layer_start := if overlapping_layers_ then 0 else curr_layer_start in
        let score_threshold := Bm25Score (entry_at index_entry_buffer curr_layer_start) in
        let layer_end := curr_layer_start + num_postings_curr_layer in
        let sorted :=
          Stl.sort alg _ IndexEntryDocIdComparison
            (drop (Z.to_nat layer_start) (take (Z.to_nat layer_end) index_entry_buffer)) in
        let '(max_scores, dumped) := DumpToIndex (S (length sorted)) sorted in
        let index_entry_buffer :=
          take (Z.to_nat layer_start) index_entry_buffer ++ dumped
            ++ drop (Z.to_nat layer_end) index_entry_buffer in
        {| layer_entries := sorted; chunk_max_scores := max_scores;
           score_threshold := score_threshold |}
        :: layers_loop fuel (i + 1) index_entry_buffer total_num_postings num_postings_left
  end.

(** The body of [while (index_->NextTerm())] for one inverted list. *)
Definition layerify_list (postings : list IndexEntry) : list Layer :=
  let index_entry_buffer := Stl.sort alg _ doc_id_score_comparator postings in
  let total_num_postings := Z.of_nat (length postings) in
  layers_loop (Z.to_nat num_layers_) 0 index_entry_buffer total_num_postings total_num_postings.

(** [CreateLayeredIndex] over the terms of the input index. *)
Definition CreateLayeredIndex (index : list (string * list IndexEntry))
    : list (string * list Layer) :=
  map (fun '(term, postings) => (term, layerify_list postings)) index.

(** [IndexBuilder::posting_count()]: the postings added to the builder. *)
Definition posting_count (layered : list (string * list Layer)) : Z :=
  foldr (fun '(_, layers) acc =>
           foldr (fun l acc => Z.of_nat (length (layer_entries l)) + acc) acc layers)
        0 layered.

(** The meta file: the numeric value of each key, as [GetNumericalValue]
    reads it and [Stringify] writes it. *)
Definition meta_file : Type := gmap string Z.

Definition GetResultValue (meta : meta_file) (key : string) : Z := default 0 (meta !! key).

(** The constructor copies the collection counters of the input meta
    file; [WriteMetaFile] writes them out with the posting count of the
    index builder.  (The builder's own statistics, the coder names and the
    boolean flags are left out.) *)
Definition WriteMetaFile (input_meta : meta_file) (layered : list (string * list Layer))
    : meta_file :=
  let total_num_docs_ := GetResultValue input_meta "total_num_docs" in
  let total_unique_num_docs_ := GetResultValue input_meta "total_unique_num_docs" in
  let total_document_lengths_ := GetResultValue input_meta "total_document_lengths" in
  let document_posting_count_ := GetResultValue input_meta "document_posting_count" in
  let first_doc_id_in_index_ := GetResultValue input_meta "first_doc_id" in
  let last_doc_id_in_index_ := GetResultValue input_meta "last_doc_id" in
  <["num_layers" := num_layers_]>
  (<["total_document_lengths" := total_document_lengths_]>
  (<["total_num_docs" := total_num_docs_]>
  (<["total_unique_num_docs" := total_unique_num_docs_]>
  (<["first_doc_id" := first_doc_id_in_index_]>
  (<["last_doc_id" := last_doc_id_in_index_]>
  (<["document_posting_count" := document_posting_count_]>
  (<["index_posting_count" := posting_count layered]> ∅))))))).

End CreateLayeredIndex.

End Layerify.

(** ** The lexicon of an index, before and after layering *)

Module IndexFiles.

Definition posting (e : Layerify.IndexEntry) : Z * Z :=
  (Layerify.doc_id e, Layerify.frequency e).

(** Modelled from the spec: the lexicon entry that the index builder
    writes for a term of a layered index ([IndexBuilder] is not among the
    sources): for every layer the number of postings added, the threshold
    given to [FinalizeLayer] and the place of the postings. *)
Definition layered_entry (term : string) (layers : list Layerify.Layer) : Lex.LexiconData :=
  {| Lex.term := term;
     Lex.layers :=
       map (fun l => {| Lex.num_docs := Z.of_nat (length (Layerify.layer_entries l));
                        Lex.score_threshold := Layerify.score_threshold l;
                        Lex.layer_postings := map posting (Layerify.layer_entries l) |})
           layers |}.

(** Modelled from the spec: the lexicon entry of a term of an index
    without layers: a single layer with all the postings. *)
Definition plain_entry (score_threshold : spec_float) (term : string)
    (postings : list Layerify.IndexEntry) : Lex.LexiconData :=
  {| Lex.term := term;
     Lex.layers :=
       [ {| Lex.num_docs := Z.of_nat (length postings);
            Lex.score_threshold := score_threshold;
            Lex.layer_postings := map posting postings |} ] |}.

(** An inverted list of an index: not empty, docIDs strictly ascending. *)
Definition inverted_list (postings : list Layerify.IndexEntry) : Prop :=
  postings <> [] /\
  StronglySorted (fun a b => Layerify.doc_id a < Layerify.doc_id b) postings.

End IndexFiles.

(** ** A small inverted list for the layer generator

    Forty postings, docIDs 1 to 40.  Document 1 holds the term five times,
    every other document once; the documents have the same length, so the
    partial score grows with the frequency alone, and the score is taken
    to be the frequency.  Two layers without overlap, chunks of 128
    postings. *)

Module LayerifyExample.

Definition postings : list Layerify.IndexEntry :=
  map (fun d => {| Layerify.doc_id := Z.of_nat d;
                   Layerify.frequency := if (d =? 1)%nat then 5 else 1 |})
      (seq 1 40).

Definition Bm25Score (e : Layerify.IndexEntry) : spec_float :=
  F32.of_Z (Layerify.frequency e).

Definition pow (x y : spec_float) : spec_float := S754_nan.

Definition layerify_list (overlapping_layers_ : bool) : list Layerify.Layer :=
  Layerify.layerify_list Stl.reference Bm25Score pow 128 2 overlapping_layers_
    Layerify.kPercentageFixedBounded postings.

Definition index : list (string * list Layerify.IndexEntry) :=
  [("alpha"%string, postings);
   ("beta"%string, [{| Layerify.doc_id := 1; Layerify.frequency := 2 |}])].

Definition input_meta : Layerify.meta_file :=
  list_to_map
    [("total_num_docs"%string, 40); ("total_unique_num_docs"%string, 40);
     ("total_document_lengths"%string, 400); ("document_posting_count"%string, 400);
     ("index_posting_count"%string, 41); ("first_doc_id"%string, 1);
     ("last_doc_id"%string, 40)].

Definition CreateLayeredIndex (overlapping_layers_ : bool) :=
  Layerify.CreateLayeredIndex Stl.reference Bm25Score pow 128 2 overlapping_layers_
    Layerify.kPercentageFixedBounded index.

End LayerifyExample.

(** ** A small layer for the cursor

    Two blocks; the first has two chunks with the docIDs 3, 5 and 9, the
    second one chunk with the docIDs 10 and 20. *)

Module CursorExample.

Definition layer : list Cursor.Block :=
  [ {| Cursor.chunk_last_doc_ids := [5; 9];
       Cursor.chunks := [ {| Cursor.doc_id_gaps := [3; 2]; Cursor.frequencies := [1; 2] |};
                          {| Cursor.doc_id_gaps := [4]; Cursor.frequencies := [1] |} ] |};
    {| Cursor.chunk_last_doc_ids := [20];
       Cursor.chunks := [ {| Cursor.doc_id_gaps := [1; 10]; Cursor.frequencies := [3; 1] |} ] |} ].

Definition targets : list Z := [4; 9; 10; 21].

End CursorExample.

(** ** A layered index with three terms

    A collection of 34 documents, all of length 10.  Term [a] occurs in
    the documents 1 (nine times), 2 and 4; term [b] in 1, 2 and 3 (nine
    times); term [c] in 1 and 2 (nine times).  The index is layered with
    two overlapping layers; the score of a posting is its BM25 term
    score. *)

Module LayeredExample.

Definition properties : IndexProperties.t := IndexProperties.LoadIndexProperties 34 340.

Definition GetDocLen (doc_id : Z) : Z := 10.

Definition term_score (list_length : Z) (e : Layerify.IndexEntry) : spec_float :=
  QP.bm25 (IndexProperties.collection_average_doc_len_ properties)
    (QP.idf Toy.log10 (IndexProperties.collection_total_num_docs_ properties) list_length)
    (Layerify.frequency e) (GetDocLen (Layerify.doc_id e)).

Definition entries (postings : list (Z * Z)) : list Layerify.IndexEntry :=
  map (fun p => {| Layerify.doc_id := fst p; Layerify.frequency := snd p |}) postings.

Definition layered_term (term : string) (postings : list (Z * Z)) : Lex.LexiconData :=
  IndexFiles.layered_entry term
    (Layerify.layerify_list Stl.reference (term_score (Z.of_nat (length postings)))
       LayerifyExample.pow 128 2 true Layerify.kPercentageFixedBounded (entries postings)).

Definition a : Lex.LexiconData := layered_term "a" [(1, 9); (2, 1); (4, 1)].
Definition b : Lex.LexiconData := layered_term "b" [(1, 1); (2, 1); (3, 9)].
Definition c : Lex.LexiconData := layered_term "c" [(1, 1); (2, 9)].

(** The query [a b c] with [max_number_results = 1], by the dual-layered
    algorithm and by standard DAAT-AND on the last layers. *)
Definition ProcessLayeredQuery : QP.layered_result :=
  QP.ProcessLayeredQuery Stl.reference Toy.log10 GetDocLen
    (IndexProperties.collection_average_doc_len_ properties)
    (IndexProperties.collection_total_num_docs_ properties)
    true 8 QP.kDualLayeredOverlappingDaat [a; b; c] [QP.no_result] 1.

Definition ProcessQuery : option (nat * nat * list QP.Result) :=
  QP.ProcessQuery Stl.reference Toy.log10 GetDocLen
    (IndexProperties.collection_average_doc_len_ properties)
    (IndexProperties.collection_total_num_docs_ properties)
    true (fun _ results _ st => (0%nat, results, st)) QP.kDaatAnd [a; b; c] [QP.no_result] 1.

End LayeredExample.

(** ** What [CreateLayeredIndex] writes, seen from the list sorted by score *)

Module LayerCuts.

Section Cuts.

Variable Bm25Score : Layerify.IndexEntry -> spec_float.
Variable CHUNK_SIZE : Z.
Variable overlapping_layers_ : bool.
(** The postings of the term in the order of [index_entry_buffer] after
    the first [sort]: by descending score. *)
Variable sorted_by_score : list Layerify.IndexEntry.

Definition total_num_postings : Z := Z.of_nat (length sorted_by_score).

(** [cut left layers]: [layers] are layers for the last [left] postings of
    [sorted_by_score].  A layer takes the next postings (with overlap: all
    the postings up to there), in docID order; its threshold is the score
    of the first posting it takes; it takes at least [CHUNK_SIZE]
    postings when that many are left. *)
Inductive cut : Z -> list Layerify.Layer -> Prop :=
  | cut_done : cut 0 []
  | cut_layer (left left' : Z) (l : Layerify.Layer) (layers : list Layerify.Layer) :
      0 <= left' < left ->
      Permutation (Layerify.layer_entries l)
        (drop (Z.to_nat (if overlapping_layers_ then 0 else total_num_postings - left))
              (take (Z.to_nat (total_num_postings - left')) sorted_by_score)) ->
      Stl.is_sorted Layerify.IndexEntryDocIdComparison (Layerify.layer_entries l) ->
      Layerify.score_threshold l
        = Bm25Score (Layerify.entry_at sorted_by_score (total_num_postings - left)) ->
      (CHUNK_SIZE <= left -> CHUNK_SIZE <= left - left') ->
      cut left' layers -> cut left (l :: layers).

End Cuts.

(** [a] does not score less than [b]. *)
Definition scores_at_least (Bm25Score : Layerify.IndexEntry -> spec_float)
    (a b : Layerify.IndexEntry) : Prop :=
  SFltb (Bm25Score a) (Bm25Score b) = false.

(** The chunks [DumpToIndex] hands to the index builder. *)
Fixpoint chunks_of (fuel : nat) (n : nat) (index_entries : list Layerify.IndexEntry)
    : list (list Layerify.IndexEntry) :=
  match fuel with
  | O => []
  | S fuel =>
      match index_entries with
      | [] => []
      | _ => take n index_entries :: chunks_of fuel n (drop n index_entries)
      end
  end.

(** The [doc_ids] array of [DumpToIndex]: every docID minus the one before
    it, in [uint32_t]; [prev_doc_id] runs on from chunk to chunk. *)
Fixpoint doc_id_gaps (prev_doc_id : Z) (index_entries : list Layerify.IndexEntry) : list Z :=
  match index_entries with
  | [] => []
  | curr_index_entry :: rest =>
      wrap32 (Layerify.doc_id curr_index_entry - prev_doc_id)
      :: doc_id_gaps (Layerify.doc_id curr_index_entry) rest
  end.

(** The [assert] in the loop of [DumpToIndex]: a gap is zero only for a
    first posting with docID 0. *)
Fixpoint gaps_asserted (index_entries_offset : nat) (prev_doc_id : Z)
    (index_entries : list Layerify.IndexEntry) : bool :=
  match index_entries with
  | [] => true
  | curr_index_entry :: rest =>
      (negb (wrap32 (Layerify.doc_id curr_index_entry - prev_doc_id) =? 0)
       || ((index_entries_offset =? 0)%nat && (Layerify.doc_id curr_index_entry =? 0)))
      && gaps_asserted (S index_entries_offset) (Layerify.doc_id curr_index_entry) rest
  end.

(** The test in [WriteMetaFile] that logs "Inconsistency in the
    'index_posting_count' meta file property detected". *)
Definition posting_count_inconsistent (overlapping_layers_ : bool)
    (index_posting_count_ posting_count : Z) : bool :=
  (negb overlapping_layers_ && negb (index_posting_count_ =? posting_count))
  || (overlapping_layers_ && (posting_count <? index_posting_count_)).

End LayerCuts.

(** ** The documents of a conjunctive query

    The vocabulary in which the results of [IntersectLists] are stated:
    the documents that occur in every list and their scores, read off the
    postings. *)

Module Conjunction.

Definition docs (l : ListData.t) : list Z := map fst (ListData.postings l).

(** The frequency of the term of [l] in the document [did]; 0 when the
    document is not in the list. *)
Definition frequency (l : ListData.t) (did : Z) : Z :=
  match List.find (fun p => fst p =? did) (ListData.postings l) with
  | Some p => snd p
  | None => 0
  end.

Definition contains (did : Z) (l : ListData.t) : bool := existsb (Z.eqb did) (docs l).

(** The documents that occur in every list, in the order of the first. *)
Definition matches (ls : list ListData.t) : list Z :=
  match ls with
  | [] => []
  | l :: ls' => List.filter (fun did => forallb (contains did) ls') (docs l)
  end.

(** The BM25 score of [did]: the term scores added up in the order of the
    lists, in [float]. *)
Definition score (log10 : spec_float -> spec_float) (GetDocLen : Z -> Z)
    (collection_average_doc_len_ collection_total_num_docs_ : Z)
    (ls : list ListData.t) (did : Z) : spec_float :=
  fold_left
    (fun bm25_sum l =>
       F32.add bm25_sum
         (QP.bm25 collection_average_doc_len_
            (QP.idf log10 collection_total_num_docs_ (ListData.num_docs_complete_list l))
            (frequency l did) (GetDocLen did)))
    ls F32.zero.

(** A list as [OpenList] hands it out: the cursor is on the first posting,
    the docIDs ascend and stay below the sentinel. *)
Definition opened (l : ListData.t) : Prop :=
  ListData.position l = 0%nat /\
  StronglySorted Z.lt (docs l) /\
  Forall (fun d => 0 <= d < u32_max) (docs l).

(** The postings the cursor has not passed. *)
Definition remaining (l : ListData.t) : list (Z * Z) :=
  drop (ListData.position l) (ListData.postings l).

(** [l] is the list [l0] after some calls of [NextGEQ] that passed only
    docIDs below [did]. *)
Definition follows (l0 l : ListData.t) (did : Z) : Prop :=
  ListData.postings l = ListData.postings l0 /\
  ListData.num_docs_complete_list l = ListData.num_docs_complete_list l0 /\
  Forall (fun p => fst p < did) (take (ListData.position l) (ListData.postings l)).

Definition stands_on (l : ListData.t) (did : Z) : Prop :=
  exists f rest, remaining l = (did, f) :: rest.

End Conjunction.

(** ** [IndexDiff::Diff] ([index_diff.cc]): the positions of one posting

    When both indices hold a posting for the same term and document, the
    two position arrays are compared by a merge.  An output line is the
    number [WhichIndex] gives (1 or 2) and the position printed. *)

Module IndexDiff.

Section Positions.

Variables curr_positions1 curr_positions2 : list Z.
Variables num_positions1 num_positions2 : nat.

(** [while (i1 < num_positions1 && i2 < num_positions2)]; the result is
    the lines printed and the final [i1] and [i2]. *)
Fixpoint merge_positions (fuel : nat) (i1 i2 : nat) : list (Z * Z) * nat * nat :=
  match fuel with
  | O => ([], i1, i2)
  | S fuel =>
      if (i1 <? num_positions1)%nat && (i2 <? num_positions2)%nat then
        let p1 := nth i1 curr_positions1 0 in
        let p2 := nth i2 curr_positions2 0 in
        if p1 =? p2 then merge_positions fuel (S i1) (S i2)
        else if p1 <? p2 then
          let '(out, i1, i2) := merge_positions fuel (S i1) i2 in
          ((1, p1) :: out, i1, i2)
        else if p2 <? p1 then
          let '(out, i1, i2) := merge_positions fuel i1 (S i2) in
          ((2, p2) :: out, i1, i2)
        else merge_positions fuel i1 i2
      else ([], i1, i2)
  end.

(** [while (i < num_positions) { printf(...); ++i; }] for the index
    [which]. *)
Definition remaining_positions (which : Z) (curr_positions : list Z)
    (i num_positions : nat) : list (Z * Z) :=
  map (fun i => (which, nth i curr_positions 0)) (seq i (num_positions - i)).

(** The [if (includes_positions_)] block. *)
Definition diff_positions : list (Z * Z) :=
  let '(out, i1, i2) := merge_positions (num_positions1 + num_positions2) 0 0 in
  out ++ remaining_positions 1 curr_positions1 i1 num_positions1
      ++ remaining_positions 2 curr_positions2 i2 num_positions2.

End Positions.

End IndexDiff.

(** ** [QueryProcessor::RunBatchQueries]: the lines of a query log *)

Module Batch.

(** [query_line.find(':')]; [None] is [string::npos]. *)
Fixpoint find_colon (query_line : string) : option nat :=
  match query_line with
  | EmptyString => None
  | String c rest =>
      if Ascii.eqb c ":"%char then Some 0%nat
      else option_map S (find_colon rest)
  end.

(** The query pushed for one line of the log: what follows the first
    colon, unless the colon is the last character. *)
Definition batch_query (query_line : string) : string :=
  match find_colon query_line with
  | Some colon_pos =>
      if (colon_pos <? String.length query_line - 1)%nat
      then substring (colon_pos + 1) (String.length query_line - (colon_pos + 1)) query_line
      else query_line
  | None => query_line
  end.

End Batch.

(** ** The documents of a disjunctive query

    The vocabulary in which the results of [MergeLists] are stated. *)

Module Disjunction.

(** The lists, by their place in the query, that hold the document. *)
Definition holders (ls : list ListData.t) (did : Z) : list nat :=
  List.filter (fun i => match ls !! i with
                        | Some l => Conjunction.contains did l
                        | None => false
                        end)
              (seq 0 (length ls)).

(** The BM25 score of [did] when the term scores of the lists [order] are
    added up in that order, in [float]. *)
Definition score (log10 : spec_float -> spec_float) (GetDocLen : Z -> Z)
    (collection_average_doc_len_ collection_total_num_docs_ : Z)
    (ls : list ListData.t) (order : list nat) (did : Z) : spec_float :=
  fold_left
    (fun bm25_sum i =>
       match ls !! i with
       | Some l =>
           F32.add bm25_sum
             (QP.bm25 collection_average_doc_len_
                (QP.idf log10 collection_total_num_docs_ (ListData.num_docs_complete_list l))
                (Conjunction.frequency l did) (GetDocLen did))
       | None => bm25_sum
       end)
    order F32.zero.

End Disjunction.

(** ** Term-at-a-time processing: the accumulator table ([query_processor.cc]) *)

Module Taat.

(** [struct Accumulator] ([query_processor.h]). *)
Record Accumulator := {
  doc_id : Z;
  curr_score : spec_float;
  term_bitmap : Z;
}.

(** What a slot of the table reads as before it is written. *)
Definition no_accumulator : Accumulator :=
  {| doc_id := 0; curr_score := F32.zero; term_bitmap := 0 |}.

(** [Accumulator::operator<]. *)
Definition AccumulatorCompare (lhs rhs : Accumulator) : bool := doc_id lhs <? doc_id rhs.

(** [1 << list->term_num()], stored into a [uint32_t]; [list_data] is the
    parameter [list] of the code. *)
Definition term_bit (list_data : ListData.t) : Z := wrap32 (Z.shiftl 1 (ListData.term_num list_data)).

(** [std::inplace_merge(first, middle, last, comp)] on the range
    [first, last), with [middle] given as an offset. *)
Definition inplace_merge_t : Type :=
  forall A : Type, (A -> A -> bool) -> nat -> list A -> list A.

(** The contract of ISO C++ [alg.merge]. *)
Definition inplace_merge_conforming (inplace_merge : inplace_merge_t) : Prop :=
  forall (A : Type) dom comp (middle : nat) (l : list A),
    Stl.strict_weak_order dom comp -> Forall dom l ->
    Stl.is_sorted comp (take middle l) -> Stl.is_sorted comp (drop middle l) ->
    Permutation (inplace_merge A comp middle l) l /\
    Stl.is_sorted comp (inplace_merge A comp middle l).

(** A reference implementation, to run the model. *)
Definition reference_inplace_merge : inplace_merge_t :=
  fun A comp _ l => Stl.sort_by comp l.

Section ListLayers.

Variable alg : Stl.algorithms.
Variable inplace_merge : inplace_merge_t.
Variable log10 : spec_float -> spec_float.
Variable GetDocLen : Z -> Z.
Variables collection_average_doc_len_ collection_total_num_docs_ : Z.

(** "Compute partial BM25 sum." *)
Definition partial_bm25_sum (idf_t : spec_float) (list_data : ListData.t) (curr_doc_id : Z)
    : spec_float :=
  let f_d_t := ListData.GetFreq list_data in
  let doc_len := GetDocLen curr_doc_id in
  QP.bm25 collection_average_doc_len_ idf_t f_d_t doc_len.

(** *** [ProcessListLayerAnd] *)

(** The loop [while (accumulator_offset < num_accumulators)]. *)
Fixpoint ProcessListLayerAnd_loop (fuel : nat) (list_data : ListData.t)
    (accumulators : list Accumulator) (num_accumulators : nat)
    (top_k_scores : list spec_float) (k : nat) (idf_t : spec_float)
    (accumulator_offset num_top_k_scores : nat) (threshold : spec_float)
    : spec_float * list Accumulator * list spec_float * ListData.t :=
  match fuel with
  | O => (threshold, accumulators, top_k_scores, list_data)
  | S fuel =>
      if (accumulator_offset <? num_accumulators)%nat then
        let acc := nth accumulator_offset accumulators no_accumulator in
        let '(curr_doc_id, list_data) := ListData.NextGEQ list_data (doc_id acc) in
        if curr_doc_id =? doc_id acc then
          let acc :=
            {| doc_id := doc_id acc;
               curr_score := F32.add (curr_score acc) (partial_bm25_sum idf_t list_data curr_doc_id);
               term_bitmap := Z.lor (term_bitmap acc) (term_bit list_data) |} in
          let accumulators := <[accumulator_offset := acc]> accumulators in
          let '(threshold, top_k_scores) :=
            TopK.KthScore alg (curr_score acc) top_k_scores num_top_k_scores k in
          ProcessListLayerAnd_loop fuel list_data accumulators num_accumulators top_k_scores k
            idf_t (S accumulator_offset) (S num_top_k_scores) threshold
        else
          let '(threshold, top_k_scores) :=
            TopK.KthScore alg (curr_score acc) top_k_scores num_top_k_scores k in
          ProcessListLayerAnd_loop fuel list_data accumulators num_accumulators top_k_scores k
            idf_t (S accumulator_offset) (S num_top_k_scores) threshold
      else (threshold, accumulators, top_k_scores, list_data)
  end.

(** [ProcessListLayerAnd(list, accumulators, num_accumulators,
    top_k_scores, k)]: the threshold, the table, the heap of scores and
    the list cursor.  Every iteration moves on to the next accumulator. *)
Definition ProcessListLayerAnd (list_data : ListData.t) (accumulators : list Accumulator)
    (num_accumulators : nat) (top_k_scores : list spec_float) (k : nat)
    : spec_float * list Accumulator * list spec_float * ListData.t :=
  let num_docs_t := ListData.num_docs_complete_list list_data in
  let idf_t := QP.idf log10 collection_total_num_docs_ num_docs_t in
  ProcessListLayerAnd_loop num_accumulators list_data accumulators num_accumulators
    top_k_scores k idf_t 0 0 F32.zero.

(** *** [ProcessListLayer] *)

(** The inner loop: the old accumulators below [curr_doc_id] keep their
    scores and are only counted for the threshold. *)
Fixpoint pass_accumulators (fuel : nat) (accumulators : list Accumulator)
    (num_sorted_accumulators : nat) (curr_doc_id : Z)
    (top_k_scores : list spec_float) (k : nat)
    (curr_accumulator_idx num_top_k_scores : nat) (threshold : spec_float)
    : nat * nat * spec_float * list spec_float :=
  match fuel with
  | O => (curr_accumulator_idx, num_top_k_scores, threshold, top_k_scores)
  | S fuel =>
      if (curr_accumulator_idx <? num_sorted_accumulators)%nat
         && (doc_id (nth curr_accumulator_idx accumulators no_accumulator) <? curr_doc_id)
      then
        let '(threshold, top_k_scores) :=
          TopK.KthScore alg
            (curr_score (nth curr_accumulator_idx accumulators no_accumulator))
            top_k_scores num_top_k_scores k in
        pass_accumulators fuel accumulators num_sorted_accumulators curr_doc_id
          top_k_scores k (S curr_accumulator_idx) (S num_top_k_scores) threshold
      else (curr_accumulator_idx, num_top_k_scores, threshold, top_k_scores)
  end.

(** "Resize accumulator array": an array of twice the size, with the
    accumulators copied over. *)
Definition resize (accumulators : list Accumulator) (num_accumulators : nat)
    : list Accumulator :=
  let accumulators_array_size := (length accumulators * 2)%nat in
  take num_accumulators accumulators
  ++ replicate (accumulators_array_size - num_accumulators) no_accumulator.

(** The loop [while ((curr_doc_id = NextGEQ(list, curr_doc_id)) < max)];
    the length of [accumulators] is [accumulators_size]. *)
Fixpoint ProcessListLayer_loop (fuel : nat) (list_data : ListData.t)
    (accumulators : list Accumulator) (num_accumulators : nat)
    (top_k_scores : list spec_float) (k : nat) (idf_t : spec_float)
    (num_sorted_accumulators curr_accumulator_idx : nat) (curr_doc_id : Z)
    (num_top_k_scores : nat) (threshold : spec_float)
    : spec_float * list Accumulator * nat * list spec_float * ListData.t :=
  match fuel with
  | O => (threshold, accumulators, num_accumulators, top_k_scores, list_data)
  | S fuel =>
      let '(curr_doc_id, list_data) := ListData.NextGEQ list_data curr_doc_id in
      if curr_doc_id <? u32_max then
        let '(curr_accumulator_idx, num_top_k_scores, threshold, top_k_scores) :=
          pass_accumulators num_sorted_accumulators accumulators num_sorted_accumulators
            curr_doc_id top_k_scores k curr_accumulator_idx num_top_k_scores threshold in
        let partial_bm25_sum := partial_bm25_sum idf_t list_data curr_doc_id in
        if (curr_accumulator_idx <? num_sorted_accumulators)%nat
           && (doc_id (nth curr_accumulator_idx accumulators no_accumulator) =? curr_doc_id)
        then
          let acc := nth curr_accumulator_idx accumulators no_accumulator in
          let acc :=
            {| doc_id := doc_id acc;
               curr_score := F32.add (curr_score acc) partial_bm25_sum;
               term_bitmap := Z.lor (term_bitmap acc) (term_bit list_data) |} in
          let accumulators := <[curr_accumulator_idx := acc]> accumulators in
          let '(threshold, top_k_scores) :=
            TopK.KthScore alg (curr_score acc) top_k_scores num_top_k_scores k in
          ProcessListLayer_loop fuel list_data accumulators num_accumulators top_k_scores k
            idf_t num_sorted_accumulators (S curr_accumulator_idx)
            (wrap32 (curr_doc_id + 1)) (S num_top_k_scores) threshold
        else
          let accumulators :=
            if (length accumulators <=? num_accumulators)%nat
            then resize accumulators num_accumulators
            else accumulators in
          let acc :=
            {| doc_id := curr_doc_id;
               curr_score := partial_bm25_sum;
               term_bitmap := term_bit list_data |} in
          let accumulators := <[num_accumulators := acc]> accumulators in
          let '(threshold, top_k_scores) :=
            TopK.KthScore alg (curr_score acc) top_k_scores num_top_k_scores k in
          ProcessListLayer_loop fuel list_data accumulators (S num_accumulators) top_k_scores k
            idf_t num_sorted_accumulators curr_accumulator_idx
            (wrap32 (curr_doc_id + 1)) (S num_top_k_scores) threshold
      else (threshold, accumulators, num_accumulators, top_k_scores, list_data)
  end.

(** [sort(accumulators + num_sorted_accumulators,
    accumulators + *num_accumulators)]. *)
Definition sort_new_accumulators (accumulators : list Accumulator)
    (num_sorted_accumulators num_accumulators : nat) : list Accumulator :=
  take num_sorted_accumulators accumulators
  ++ Stl.on_range (num_accumulators - num_sorted_accumulators)
       (Stl.sort alg _ AccumulatorCompare) (drop num_sorted_accumulators accumulators).

(** [ProcessListLayer(list, accumulators_array, accumulators_array_size,
    num_accumulators, top_k_scores, k)]: the threshold, the table (its
    length is the new [*accumulators_array_size]), the new
    [*num_accumulators], the heap of scores and the list cursor; [None]
    stands for a failed [assert].  Every iteration but the last moves the
    cursor of the list to another posting. *)
Definition ProcessListLayer (list_data : ListData.t) (accumulators : list Accumulator)
    (num_accumulators : nat) (top_k_scores : list spec_float) (k : nat)
    : option (spec_float * list Accumulator * nat * list spec_float * ListData.t) :=
  if (0 <? length accumulators)%nat && (num_accumulators <=? length accumulators)%nat then
    let num_docs_t := ListData.num_docs_complete_list list_data in
    let idf_t := QP.idf log10 collection_total_num_docs_ num_docs_t in
    let num_sorted_accumulators := num_accumulators in
    let '(threshold, accumulators, num_accumulators, top_k_scores, list_data) :=
      ProcessListLayer_loop (S (length (ListData.postings list_data))) list_data accumulators
        num_accumulators top_k_scores k idf_t num_sorted_accumulators 0 0 0 F32.zero in
    let accumulators :=
      sort_new_accumulators accumulators num_sorted_accumulators num_accumulators in
    let accumulators :=
      Stl.on_range num_accumulators
        (inplace_merge _ AccumulatorCompare num_sorted_accumulators) accumulators in
    Some (threshold, accumulators, num_accumulators, top_k_scores, list_data)
  else None.

(** *** Pruning the table ([ProcessLayeredTaatPrunedEarlyTerminatedQuery]) *)

(** [acc_upperbound]: the score, plus the upper bound of every term whose
    bit is not set. *)
Definition acc_upperbound (term_upperbounds : list spec_float) (num_query_terms : nat)
    (acc : Accumulator) : spec_float :=
  fold_left
    (fun acc_upperbound k =>
       if Z.land (Z.shiftr (term_bitmap acc) (Z.of_nat k)) 1 =? 0
       then F32.add acc_upperbound (nth k term_upperbounds F32.zero)
       else acc_upperbound)
    (seq 0 num_query_terms) (curr_score acc).

(** "Here we calculate the upperbound for each accumulator, and remove
    those that can't possibly exceed the threshold.  We also compact the
    accumulator table": the loop over [j]; the result is the table, the
    new [num_accumulators] and [early_termination_condition_one]. *)
Fixpoint prune_loop (fuel : nat) (term_upperbounds : list spec_float)
    (num_query_terms : nat) (threshold : spec_float) (accumulators : list Accumulator)
    (num_accumulators j num_invalidated_accumulators : nat)
    (early_termination_condition_one : bool) : list Accumulator * nat * bool :=
  match fuel with
  | O => (accumulators, (num_accumulators - num_invalidated_accumulators)%nat,
          early_termination_condition_one)
  | S fuel =>
      if (j <? num_accumulators)%nat then
        let acc := nth j accumulators no_accumulator in
        let acc_upperbound := acc_upperbound term_upperbounds num_query_terms acc in
        let early_termination_condition_one :=
          if early_termination_condition_one && SFltb (curr_score acc) threshold
             && SFltb threshold acc_upperbound
          then false else early_termination_condition_one in
        if SFltb acc_upperbound threshold then
          prune_loop fuel term_upperbounds num_query_terms threshold accumulators
            num_accumulators (S j) (S num_invalidated_accumulators)
            early_termination_condition_one
        else
          let accumulators :=
            <[(j - num_invalidated_accumulators)%nat := acc]> accumulators in
          prune_loop fuel term_upperbounds num_query_terms threshold accumulators
            num_accumulators (S j) num_invalidated_accumulators
            early_termination_condition_one
      else (accumulators, (num_accumulators - num_invalidated_accumulators)%nat,
            early_termination_condition_one)
  end.

Definition prune (term_upperbounds : list spec_float) (num_query_terms : nat)
    (threshold : spec_float) (accumulators : list Accumulator) (num_accumulators : nat)
    : list Accumulator * nat * bool :=
  prune_loop num_accumulators term_upperbounds num_query_terms threshold accumulators
    num_accumulators 0 0 true.

End ListLayers.

(** *** The vocabulary of the properties *)

(** The accumulator after [list] has been processed, for a document the
    list holds. *)
Definition updated (log10 : spec_float -> spec_float) (GetDocLen : Z -> Z)
    (collection_average_doc_len_ collection_total_num_docs_ : Z)
    (list_data : ListData.t) (acc : Accumulator) : Accumulator :=
  if Conjunction.contains (doc_id acc) list_data then
    {| doc_id := doc_id acc;
       curr_score :=
         F32.add (curr_score acc)
           (QP.bm25 collection_average_doc_len_
              (QP.idf log10 collection_total_num_docs_ (ListData.num_docs_complete_list list_data))
              (Conjunction.frequency list_data (doc_id acc)) (GetDocLen (doc_id acc)));
       term_bitmap := Z.lor (term_bitmap acc) (term_bit list_data) |}
  else acc.

(** The accumulator of a document that only [list] has held so far. *)
Definition inserted (log10 : spec_float -> spec_float) (GetDocLen : Z -> Z)
    (collection_average_doc_len_ collection_total_num_docs_ : Z)
    (list_data : ListData.t) (did : Z) : Accumulator :=
  {| doc_id := did;
     curr_score :=
       QP.bm25 collection_average_doc_len_
         (QP.idf log10 collection_total_num_docs_ (ListData.num_docs_complete_list list_data))
         (Conjunction.frequency list_data did) (GetDocLen did);
     term_bitmap := term_bit list_data |}.

End Taat.

(** ** WAND and MaxScore: the query of one term ([query_processor.cc])

    [MergeListsWand] and [MergeListsMaxScore] begin and end alike and
    treat a query of one term alike; what they do for several terms is a
    parameter here. *)

Module Pruned.

Section SingleTerm.

Variable alg : Stl.algorithms.
Variable log10 : spec_float -> spec_float.
Variable GetDocLen : Z -> Z.
Variables collection_average_doc_len_ collection_total_num_docs_ : Z.
Variables index_layered_ index_overlapping_layers_ : bool.
Variable index_num_layers_ : Z.

(** The branch [num_query_terms != 1]: from the query terms, [results],
    [kMaxNumResults] and [two_tiered] to [total_num_results] and
    [results]. *)
Variable several_terms :
  list Lex.LexiconData -> list QP.Result -> nat -> bool -> nat * list QP.Result.

(** [MergeLists(list_data_pointers, 1, results, kMaxNumResults)] on the
    layer [layer_num] of the only term. *)
Definition merge_one_layer (lex : Lex.LexiconData) (layer_num : Z)
    (results : list QP.Result) (kMaxNumResults : nat) : nat * list QP.Result :=
  let list_data_pointers := [ListData.OpenList index_overlapping_layers_ lex layer_num 0] in
  let '(total_num_results, results, _) :=
    QP.MergeLists alg log10 GetDocLen collection_average_doc_len_
      collection_total_num_docs_ [0%nat] results kMaxNumResults list_data_pointers in
  (total_num_results, results).

(** "Do standard DAAT OR mode processing, since WAND won't help." *)
Definition one_term (lex : Lex.LexiconData) (results : list QP.Result)
    (kMaxNumResults : nat) : nat * list QP.Result :=
  if index_layered_ && (Lex.num_layers lex =? 2) then
    let '(total_num_results, results) := merge_one_layer lex 0 results kMaxNumResults in
    if (total_num_results <? kMaxNumResults)%nat then
      merge_one_layer lex (Lex.num_layers lex - 1) results kMaxNumResults
    else (total_num_results, results)
  else merge_one_layer lex 0 results kMaxNumResults.

(** [MergeListsWand(query_term_data, num_query_terms, results,
    num_results, two_tiered)] and [MergeListsMaxScore] of the same
    arguments: [total_num_results], the new [*num_results] and [results];
    [None] stands for a failed [assert]. *)
Definition MergeListsPruned (query_term_data : list Lex.LexiconData)
    (results : list QP.Result) (num_results : nat) (two_tiered : bool)
    : option (nat * nat * list QP.Result) :=
  if index_layered_ && index_overlapping_layers_ && (index_num_layers_ =? 2) then
    let kMaxNumResults := num_results in
    let '(total_num_results, results) :=
      match query_term_data with
      | [lex] => one_term lex results kMaxNumResults
      | _ => several_terms query_term_data results kMaxNumResults two_tiered
      end in
    let results := QP.sort_results alg results kMaxNumResults total_num_results in
    Some (total_num_results, Nat.min total_num_results kMaxNumResults, results)
  else None.

End SingleTerm.

Definition MergeListsWand := MergeListsPruned.
Definition MergeListsMaxScore := MergeListsPruned.

End Pruned.

(** * Properties *)


Section StlFacts.
Context {A : Type} (dom : A -> Prop) (comp : A -> A -> bool).
Hypothesis Hswo : Stl.strict_weak_order dom comp.

Lemma swo_flip : Stl.strict_weak_order dom (flip comp).
Proof.
  destruct Hswo as [Hi Ht Hn]. split; unfold flip.
  - intros x Hx. by apply Hi.
  - intros x y z Hx Hy Hz H1 H2. by apply (Ht z y x).
  - intros x y z Hx Hy Hz H1 H2. by apply (Hn z y x).
Qed.

Lemma swo_asym x y : dom x -> dom y -> comp x y = true -> comp y x = false.
Proof.
  intros Hx Hy H. destruct (comp y x) eqn:E; [|done].
  pose proof (Stl.swo_trans _ _ Hswo x y x Hx Hy Hx H E) as Hxx.
  by rewrite (Stl.swo_irrefl _ _ Hswo x Hx) in Hxx.
Qed.

(** The first element of a heap is not less than any other. *)
Lemma is_heap_top (l : list A) (t : A) :
  Forall dom l -> Stl.is_heap comp l -> l !! 0%nat = Some t ->
  forall x, x ∈ l -> comp t x = false.
Proof.
  intros Hd Hh Ht x Hx.
  apply list_elem_of_lookup in Hx as [i Hi].
  revert x Hi. induction i as [i IH] using lt_wf_ind. intros x Hi.
  destruct (decide (i = 0%nat)) as [->|Hne].
  - rewrite Ht in Hi. injection Hi as <-.
    apply (Stl.swo_irrefl _ _ Hswo). eapply Forall_lookup_1; eauto.
  - assert (Hp : ((i - 1) / 2 < i)%nat).
    { apply Nat.Div0.div_lt_upper_bound. lia. }
    destruct (lookup_lt_is_Some_2 l ((i - 1) / 2)%nat) as [y Hy].
    { apply lookup_lt_Some in Hi. lia. }
    eapply (Stl.swo_incomp _ _ Hswo t y x).
    + eapply Forall_lookup_1; eauto.
    + eapply Forall_lookup_1; eauto.
    + eapply Forall_lookup_1; eauto.
    + eapply IH; eauto.
    + apply (Hh i x y); [lia|done|done].
Qed.

Lemma is_sorted_flip_is_heap (l : list A) :
  Stl.is_sorted (flip comp) l -> Stl.is_heap comp l.
Proof.
  intros Hs i x y Hi Hx Hy.
  assert (Hp : ((i - 1) / 2 < i)%nat).
  { apply Nat.Div0.div_lt_upper_bound. lia. }
  exact (Hs _ _ _ _ Hp Hy Hx).
Qed.

Lemma is_sorted_nil : Stl.is_sorted comp [].
Proof. intros i j x y _ H. rewrite lookup_nil in H. done. Qed.

Lemma is_sorted_cons (a : A) (l : list A) :
  Stl.is_sorted comp l -> (forall x, x ∈ l -> comp x a = false) ->
  Stl.is_sorted comp (a :: l).
Proof.
  intros Hs Ha i j x y Hij Hx Hy.
  destruct j as [|j]; [lia|]. simpl in Hy.
  destruct i as [|i]; simpl in Hx.
  - injection Hx as <-. apply Ha. eapply list_elem_of_lookup_2; eauto.
  - apply (Hs i j x y); [lia|done|done].
Qed.

Lemma is_sorted_inv (a : A) (l : list A) :
  Stl.is_sorted comp (a :: l) ->
  Stl.is_sorted comp l /\ (forall x, x ∈ l -> comp x a = false).
Proof.
  intros Hs. split.
  - intros i j x y Hij Hx Hy. apply (Hs (S i) (S j) x y); auto. lia.
  - intros x Hx. apply list_elem_of_lookup in Hx as [i Hi].
    apply (Hs 0%nat (S i) a x); auto. lia.
Qed.

Lemma insert_by_perm (x : A) (l : list A) :
  Permutation (Stl.insert_by comp x l) (x :: l).
Proof.
  induction l as [|y l IH]; simpl; [done|].
  destruct (comp x y); [done|].
  rewrite IH. apply perm_swap.
Qed.

Lemma sort_by_perm (l : list A) : Permutation (Stl.sort_by comp l) l.
Proof.
  induction l as [|x l IH]; simpl; [done|].
  unfold Stl.sort_by in *. simpl. rewrite insert_by_perm. by constructor.
Qed.

Lemma insert_by_sorted (x : A) (l : list A) :
  dom x -> Forall dom l ->
  Stl.is_sorted comp l -> Stl.is_sorted comp (Stl.insert_by comp x l).
Proof.
  intros Hx. induction l as [|y l IH]; intros Hd Hs; simpl.
  - apply is_sorted_cons; [apply is_sorted_nil|]. intros z Hz. by apply elem_of_nil in Hz.
  - apply Forall_cons in Hd as [Hy Hd].
    apply is_sorted_inv in Hs as Hs'. destruct Hs' as [Hs1 Hs2].
    destruct (comp x y) eqn:E.
    + apply is_sorted_cons; [done|].
      intros z Hz. apply elem_of_cons in Hz as [->|Hz].
      * by apply swo_asym.
      * destruct (comp z x) eqn:E2; [|done].
        assert (Hdz : dom z) by (rewrite Forall_forall in Hd; by apply Hd).
        pose proof (Stl.swo_trans _ _ Hswo z x y Hdz Hx Hy E2 E) as Hzy.
        rewrite (Hs2 z Hz) in Hzy. done.
    + apply is_sorted_cons; [by apply IH|].
      intros z Hz. rewrite insert_by_perm in Hz.
      apply elem_of_cons in Hz as [->|Hz]; auto.
Qed.

Lemma sort_by_sorted (l : list A) :
  Forall dom l -> Stl.is_sorted comp (Stl.sort_by comp l).
Proof.
  induction l as [|x l IH]; intros Hd.
  - apply is_sorted_nil.
  - apply Forall_cons in Hd as [Hx Hd]. unfold Stl.sort_by in *. simpl.
    apply insert_by_sorted; auto.
    eapply Permutation_Forall; [|exact Hd]. symmetry. apply sort_by_perm.
Qed.

End StlFacts.

Lemma reference_conforming : Stl.conforming Stl.reference.
Proof.
  split; simpl.
  - intros A dom comp l Hswo Hd _ _. split.
    + apply sort_by_perm.
    + apply is_sorted_flip_is_heap. eapply sort_by_sorted; eauto. by apply swo_flip.
  - intros A dom comp x l Hswo Hd _. apply Forall_cons in Hd as [Hx Hd].
    exists (Stl.sort_by (flip comp) l). split; [done|]. split.
    + apply sort_by_perm.
    + apply is_sorted_flip_is_heap. eapply sort_by_sorted; eauto. by apply swo_flip.
  - intros A dom comp l Hswo Hd. split.
    + apply sort_by_perm.
    + apply is_sorted_flip_is_heap. eapply sort_by_sorted; eauto. by apply swo_flip.
  - intros A dom comp l Hswo Hd. split.
    + apply sort_by_perm.
    + eapply sort_by_sorted; eauto.
Qed.

Lemma SFltb_irrefl x : SFltb x x = false.
Proof.
  destruct x as [s|s| |s m e]; try destruct s; unfold SFltb; simpl; try done;
  rewrite Z.compare_refl; change (Pos.compare_cont Eq m m) with (Pos.compare m m);
  rewrite Pos.compare_refl; done.
Qed.

Lemma SFltb_trans x y z :
  SFltb x y = true -> SFltb y z = true -> SFltb x z = true.
Proof.
  unfold SFltb.
  destruct x as [sx|sx| |sx mx ex], y as [sy|sy| |sy my ey], z as [sz|sz| |sz mz ez];
    simpl; try done;
    try destruct sx; try destruct sy; try destruct sz; simpl; try done;
    intros H1 H2; TopK.sf_cases; try done; try lia.
Qed.

Lemma SFltb_incomp x y z :
  TopK.not_nan x -> TopK.not_nan y -> TopK.not_nan z ->
  SFltb x y = false -> SFltb y z = false -> SFltb x z = false.
Proof.
  unfold SFltb, TopK.not_nan.
  destruct x as [sx|sx| |sx mx ex], y as [sy|sy| |sy my ey], z as [sz|sz| |sz mz ez];
    simpl; try done;
    try destruct sx; try destruct sy; try destruct sz; simpl; try done;
    intros _ _ _ H1 H2; TopK.sf_cases; try done; try lia.
Qed.

Lemma SFltb_swo : Stl.strict_weak_order TopK.not_nan SFltb.
Proof.
  split.
  - intros x _. apply SFltb_irrefl.
  - intros x y z _ _ _. apply SFltb_trans.
  - apply SFltb_incomp.
Qed.

(** ** Keeping the k best *)

Section TopKFacts.
Context {A : Type} (alg : Stl.algorithms) (dom : A -> Prop) (comp : A -> A -> bool) (d : A).
Hypothesis Halg : Stl.conforming alg.
Hypothesis Hswo : Stl.strict_weak_order dom comp.

Local Abbreviation kept := (TopK.kept dom comp).

Lemma kept_init (k : nat) (a : list A) : length a = k -> kept k a 0 [].
Proof.
  intros Ha. repeat split; auto.
  - intros i x y _ Hx. simpl in Hx. by rewrite take_0, lookup_nil in Hx.
  - exists []. simpl. rewrite take_0. repeat split; auto.
    intros y x Hy. by apply elem_of_nil in Hy.
Qed.

Lemma on_range_length (n : nat) (f : list A -> list A) (a : list A) :
  (forall l, length (f l) = length l) ->
  length (Stl.on_range n f a) = length a.
Proof.
  intros Hf. unfold Stl.on_range. rewrite length_app, Hf, length_take, length_drop. lia.
Qed.

Lemma on_range_take (n : nat) (f : list A -> list A) (a : list A) :
  (n <= length a)%nat -> length (f (take n a)) = n ->
  take n (Stl.on_range n f a) = f (take n a).
Proof.
  intros Hn Hf. unfold Stl.on_range. by rewrite take_app_length'.
Qed.

Lemma kept_insert (k : nat) (a : list A) (n : nat) (p : list A) (x : A) :
  (0 < k)%nat -> dom x -> kept k a n p ->
  kept k (TopK.insert alg comp d x a n k) (S n) (p ++ [x]).
Proof.
  intros Hk Hx (Hlen & Hn & Hdom & Hheap & D & Hperm & HD & Hle).
  assert (Hdomh : Forall dom (take (Nat.min n k) a)).
  { eapply Permutation_Forall in Hdom; [|symmetry; exact Hperm].
    by apply Forall_app in Hdom as [? _]. }
  unfold kept, TopK.insert. destruct (Nat.ltb_spec n k) as [Hlt|Hge].
  - (* the heap is not full yet *)
    rewrite Nat.min_l in * by lia.
    rewrite (HD ltac:(lia)) in Hperm. rewrite app_nil_r in Hperm.
    assert (Htk : take (S n) (<[n:=x]> a) = take n a ++ [x]).
    { rewrite (take_S_r _ _ x), take_insert_ge by (auto; apply list_lookup_insert_eq; lia).
      done. }
    destruct (Stl.push_heap_spec alg Halg A dom comp (take n a ++ [x]) Hswo) as [Hp Hh].
    { apply Forall_app; split; auto. }
    { by destruct (take n a). }
    { by rewrite removelast_last. }
    assert (Hl : length (Stl.push_heap alg A comp (take n a ++ [x])) = S n).
    { rewrite (Permutation_length Hp), length_app, length_take. simpl. lia. }
    assert (Hon : take (S n) (Stl.on_range (S n) (Stl.push_heap alg A comp) (<[n:=x]> a))
                  = Stl.push_heap alg A comp (take n a ++ [x])).
    { unfold Stl.on_range. rewrite Htk. by rewrite take_app_length'. }
    repeat split.
    + unfold Stl.on_range. rewrite Htk, length_app, Hl, length_drop, length_insert. lia.
    + rewrite length_app. simpl. lia.
    + apply Forall_app; split; auto.
    + rewrite ?Nat.min_l by lia. by rewrite Hon.
    + exists []. rewrite ?Nat.min_l by lia. rewrite Hon, app_nil_r. repeat split.
      * rewrite Hp. by rewrite Hperm.
      * intros y z Hy. by apply elem_of_nil in Hy.
  - (* the heap is full *)
    rewrite Nat.min_r in * by lia.
    assert (Hta : take k a = a) by (apply take_ge; lia).
    rewrite Hta in *.
    destruct a as [|t l]; [simpl in Hlen; lia|].
    simpl nth.
    assert (Htop : forall z, z ∈ t :: l -> comp t z = false).
    { by apply (is_heap_top dom comp Hswo (t :: l) t). }
    destruct (comp x t) eqn:Ext.
    + (* replace the top *)
      destruct (Stl.pop_heap_spec alg Halg A dom comp t l Hswo Hdomh Hheap)
        as (l' & Hpop & Hpl & Hhl).
      assert (Hll : length l' = (k - 1)%nat).
      { rewrite (Permutation_length Hpl). simpl in Hlen. lia. }
      assert (Hr1 : Stl.on_range k (Stl.pop_heap alg A comp) (t :: l) = l' ++ [t]).
      { unfold Stl.on_range. rewrite Hta, Hpop.
        rewrite drop_ge by lia. by rewrite app_nil_r. }
      rewrite Hr1.
      assert (Hr2 : <[(k - 1)%nat:=x]> (l' ++ [t]) = l' ++ [x]).
      { rewrite <- Hll. rewrite insert_app_r_alt by lia.
        by rewrite Nat.sub_diag. }
      rewrite Hr2.
      assert (Hdl : Forall dom l').
      { apply Forall_cons in Hdomh as [_ Hdl]. by rewrite Hpl. }
      destruct (Stl.push_heap_spec alg Halg A dom comp (l' ++ [x]) Hswo) as [Hp Hh].
      { apply Forall_app; split; auto. }
      { by destruct l'. }
      { by rewrite removelast_last. }
      assert (Hlx : length (l' ++ [x]) = k).
      { rewrite length_app, Hll. simpl. lia. }
      assert (Hr3 : Stl.on_range k (Stl.push_heap alg A comp) (l' ++ [x])
                    = Stl.push_heap alg A comp (l' ++ [x])).
      { unfold Stl.on_range. rewrite take_ge, drop_ge by lia. by rewrite app_nil_r. }
      rewrite Hr3.
      assert (Hlp : length (Stl.push_heap alg A comp (l' ++ [x])) = k).
      { by rewrite (Permutation_length Hp). }
      rewrite ?Nat.min_r by lia. rewrite (take_ge _ k) by lia.
      repeat split; auto.
      * rewrite length_app. simpl. lia.
      * apply Forall_app; split; auto.
      * exists (t :: D). repeat split.
        -- rewrite Hp, <- Hperm, Hpl.
           rewrite <- !app_assoc. simpl.
           rewrite (Permutation_app_comm D [x]). simpl.
           rewrite <- !Permutation_middle. apply perm_swap.
        -- intros Hc. lia.
        -- intros y z Hy Hz. rewrite Hp in Hz.
           assert (Hdt : dom t) by (by apply Forall_cons in Hdomh as [? _]).
           assert (Hdz : dom z).
           { rewrite Forall_forall in Hdl. apply elem_of_app in Hz as [Hz|Hz]; auto.
             apply list_elem_of_singleton in Hz as ->. done. }
           assert (Htz : comp t z = false).
           { apply elem_of_app in Hz as [Hz|Hz].
             - apply Htop. right. by rewrite <- Hpl.
             - apply list_elem_of_singleton in Hz as ->.
               by apply (swo_asym dom comp Hswo). }
           apply elem_of_cons in Hy as [->|Hy]; [done|].
           assert (Hdy : dom y).
           { rewrite Forall_forall in Hdom. apply Hdom. rewrite <- Hperm.
             apply elem_of_app. by right. }
           apply (Stl.swo_incomp _ _ Hswo y t z); auto.
           apply Hle; auto. by left.
    + (* the new element is dropped *)
      rewrite ?Nat.min_r by lia. rewrite ?Hta.
      repeat split; auto.
      * rewrite length_app. simpl. lia.
      * apply Forall_app; split; auto.
      * exists (x :: D). repeat split.
        -- rewrite <- Hperm. rewrite <- app_assoc. apply Permutation_app_head.
           rewrite (Permutation_app_comm D). done.
        -- intros Hc. lia.
        -- intros y z Hy Hz.
           apply elem_of_cons in Hy as [->|Hy]; [|by apply Hle].
           assert (Hdt : dom t) by (by apply Forall_cons in Hdomh as [? _]).
           assert (Hdz : dom z) by (rewrite Forall_forall in Hdomh; auto).
           apply (Stl.swo_incomp _ _ Hswo x t z); auto.
Qed.

End TopKFacts.

(** ** [KthScore] returns the k-th largest score *)

Lemma SFleb_of_not_ltb x y :
  TopK.not_nan x -> TopK.not_nan y -> SFltb x y = false -> SFleb y x = true.
Proof.
  unfold SFltb, SFleb, TopK.not_nan.
  destruct x as [sx|sx| |sx mx ex], y as [sy|sy| |sy my ey];
    simpl; try done;
    try destruct sx; try destruct sy; simpl; try done;
    intros _ _ H; TopK.sf_cases; try done; try lia.
Qed.

Lemma greater_float_swo : Stl.strict_weak_order TopK.not_nan TopK.greater_float.
Proof. apply (swo_flip _ _ SFltb_swo). Qed.

Lemma countb_app {A : Type} (p : A -> bool) (l1 l2 : list A) :
  TopK.countb p (l1 ++ l2) = (TopK.countb p l1 + TopK.countb p l2)%nat.
Proof. induction l1 as [|x l1 IH]; simpl; [done|]. rewrite IH. lia. Qed.

Lemma countb_perm {A : Type} (p : A -> bool) (l1 l2 : list A) :
  Permutation l1 l2 -> TopK.countb p l1 = TopK.countb p l2.
Proof. induction 1; simpl; lia. Qed.

Lemma countb_le_length {A : Type} (p : A -> bool) (l : list A) :
  (TopK.countb p l <= length l)%nat.
Proof. induction l as [|x l IH]; simpl; [lia|]. destruct (p x); lia. Qed.

Lemma countb_all {A : Type} (p : A -> bool) (l : list A) :
  (forall x, x ∈ l -> p x = true) -> TopK.countb p l = length l.
Proof.
  induction l as [|x l IH]; intros H; simpl; [done|].
  rewrite (H x) by left. rewrite IH; [done|]. intros y Hy. apply H. by right.
Qed.

Lemma countb_none {A : Type} (p : A -> bool) (l : list A) :
  (forall x, x ∈ l -> p x = false) -> TopK.countb p l = 0%nat.
Proof.
  induction l as [|x l IH]; intros H; simpl; [done|].
  rewrite (H x) by left. rewrite IH; [done|]. intros y Hy. apply H. by right.
Qed.

Lemma countb_lt_length {A : Type} (p : A -> bool) (l : list A) (x : A) :
  x ∈ l -> p x = false -> (TopK.countb p l < length l)%nat.
Proof.
  induction l as [|y l IH]; intros Hx Hp; [by apply elem_of_nil in Hx|].
  simpl. apply elem_of_cons in Hx as [->|Hx].
  - rewrite Hp. pose proof (countb_le_length p l). lia.
  - specialize (IH Hx Hp). destruct (p y); lia.
Qed.

Section KthScoreFacts.
Context (alg : Stl.algorithms).
Hypothesis Halg : Stl.conforming alg.

Lemma KthScore_insert (s : spec_float) (a : list spec_float) (n k : nat) :
  TopK.KthScore alg s a n k =
  let a' := TopK.insert alg TopK.greater_float F32.zero s a n k in
  (if (S n <? k)%nat then TopK.neg_max_float else nth 0 a' F32.zero, a').
Proof.
  unfold TopK.KthScore, TopK.insert, TopK.greater_float.
  destruct (Nat.ltb_spec n k) as [Hlt|Hge]; [done|].
  assert (HS : (S n <? k)%nat = false) by (apply Nat.ltb_ge; lia).
  assert (Hn : (n <? k)%nat = false) by (apply Nat.ltb_ge; lia).
  destruct (SFltb (nth 0 a F32.zero) s); simpl; by rewrite ?HS, ?Hn.
Qed.

Lemma KthScore_calls_kept (k : nat) (ss : list spec_float) :
  (0 < k)%nat -> Forall TopK.not_nan ss ->
  forall a n p last r a',
    TopK.kept TopK.not_nan TopK.greater_float k a n p ->
    TopK.KthScore_calls alg k ss a n last = (r, a') ->
    TopK.kept TopK.not_nan TopK.greater_float k a' (n + length ss) (p ++ ss) /\
    (ss <> [] ->
     r = if (n + length ss <? k)%nat then TopK.neg_max_float else nth 0 a' F32.zero).
Proof.
  intros Hk. induction ss as [|s ss IH]; intros Hnan a n p last r a' Hkept Hrun.
  - simpl in Hrun. injection Hrun as <- <-. rewrite Nat.add_0_r, app_nil_r. done.
  - apply Forall_cons in Hnan as [Hs Hnan]. simpl in Hrun.
    rewrite KthScore_insert in Hrun. simpl in Hrun.
    pose proof (kept_insert alg TopK.not_nan TopK.greater_float F32.zero Halg
                  greater_float_swo k a n p s Hk Hs Hkept) as Hkept'.
    destruct (IH Hnan _ _ _ _ _ _ Hkept' Hrun) as [Hfin Hret].
    simpl length. rewrite Nat.add_succ_r. rewrite <- app_assoc in Hfin. simpl in Hfin.
    split; [done|]. intros _.
    destruct ss as [|s' ss'].
    + simpl in Hrun. injection Hrun as <- <-. simpl. by rewrite Nat.add_0_r.
    + rewrite Hret by done. reflexivity.
Qed.

Lemma kept_kth_largest (k : nat) (a ss : list spec_float) :
  (0 < k)%nat -> (k <= length ss)%nat ->
  TopK.kept TopK.not_nan TopK.greater_float k a (length ss) ss ->
  TopK.is_kth_largest k ss (nth 0 a F32.zero).
Proof.
  intros Hk Hle (Hlen & _ & Hdom & Hheap & D & Hperm & _ & HD).
  rewrite Nat.min_r in * by lia.
  rewrite take_ge in * by lia.
  destruct a as [|t l]; [simpl in Hlen; lia|]. simpl nth.
  assert (Hdomh : Forall TopK.not_nan (t :: l)).
  { eapply Permutation_Forall in Hdom; [|symmetry; exact Hperm].
    by apply Forall_app in Hdom as [? _]. }
  assert (Htop : forall z, z ∈ t :: l -> TopK.greater_float t z = false).
  { by apply (is_heap_top TopK.not_nan TopK.greater_float greater_float_swo (t :: l) t). }
  assert (Hdt : TopK.not_nan t) by (by apply Forall_cons in Hdomh as [? _]).
  repeat split.
  - rewrite <- Hperm. apply elem_of_app. left. by left.
  - rewrite <- (countb_perm _ _ _ Hperm), countb_app.
    rewrite (countb_none _ D).
    + pose proof (countb_lt_length (SFltb t) (t :: l) t ltac:(by left) (SFltb_irrefl t)).
      lia.
    + intros y Hy. apply (HD y t Hy). by left.
  - rewrite <- (countb_perm _ _ _ Hperm), countb_app.
    rewrite (countb_all _ (t :: l)); [lia|].
    intros z Hz. apply SFleb_of_not_ltb; auto.
    + rewrite Forall_forall in Hdomh. auto.
    + by apply Htop.
Qed.

End KthScoreFacts.

(** C4, amended.  [KthScore] keeps a min-heap of capacity [k]: after the
    scores [ss] (none of them NaN) have been passed to it one by one, with
    [num_scores = 0, 1, ...], the value returned by the last call is the
    k-th largest of [ss] when [k <= length ss], and the most negative
    finite float [-numeric_limits<float>::max()], which is not negative
    infinity, when [length ss < k].  This holds for
    every conforming implementation of [push_heap] / [pop_heap] and every
    initial content of the [k]-slot array. *)
Theorem KthScore_kth_largest (alg : Stl.algorithms) (k : nat)
    (scores0 ss : list spec_float) (last : spec_float) :
  Stl.conforming alg -> (0 < k)%nat -> length scores0 = k ->
  ss <> [] -> Forall TopK.not_nan ss ->
  let r := fst (TopK.KthScore_calls alg k ss scores0 0 last) in
  ((k <= length ss)%nat -> TopK.is_kth_largest k ss r) /\
  ((length ss < k)%nat -> r = TopK.neg_max_float).
Proof.
  intros Halg Hk Hlen Hne Hnan r.
  destruct (TopK.KthScore_calls alg k ss scores0 0 last) as [r' a'] eqn:Hrun.
  subst r. simpl.
  destruct (KthScore_calls_kept alg Halg k ss Hk Hnan scores0 0%nat [] last r' a'
              (kept_init TopK.not_nan TopK.greater_float k scores0 Hlen) Hrun) as [Hkept Hret].
  simpl in Hkept, Hret. specialize (Hret Hne). split.
  - intros Hle. rewrite Hret.
    assert ((length ss <? k)%nat = false) as -> by (apply Nat.ltb_ge; lia).
    by apply kept_kth_largest.
  - intros Hlt. rewrite Hret.
    by assert ((length ss <? k)%nat = true) as -> by (apply Nat.ltb_lt; lia).
Qed.

Lemma KthScore_kth_largest_witness :
  let ss := [F32.of_Z 5; F32.of_Z 1; F32.of_Z 7; F32.of_Z 3] in
  let r := fst (TopK.KthScore_calls Stl.reference 2 ss [F32.zero; F32.zero] 0 F32.zero) in
  r = F32.of_Z 5 /\
  (((2 <= length ss)%nat -> TopK.is_kth_largest 2 ss r) /\
   ((length ss < 2)%nat -> r = TopK.neg_max_float)).
Proof.
  split; [vm_compute; reflexivity|].
  apply (KthScore_kth_largest Stl.reference 2 [F32.zero; F32.zero]
           [F32.of_Z 5; F32.of_Z 1; F32.of_Z 7; F32.of_Z 3] F32.zero).
  - exact reference_conforming.
  - lia.
  - reflexivity.
  - discriminate.
  - repeat constructor.
Defined.

(** C4, counterexample.  With fewer than [k] scores inserted, [KthScore]
    does not return negative infinity: after one insertion into a heap of
    capacity 2 it returns [-numeric_limits<float>::max()], a finite float
    that negative infinity is less than.  And the k-th largest is returned
    only when no score is NaN: after NaN and 5 are inserted into a heap of
    capacity 1, NaN is returned, where the largest score is 5. *)
Lemma KthScore_not_spec_KthScore :
  let r1 :=
    fst (TopK.KthScore_calls Stl.reference 2 [F32.of_Z 5] [F32.zero; F32.zero] 0 F32.zero) in
  let r2 :=
    fst (TopK.KthScore_calls Stl.reference 1 [S754_nan; F32.of_Z 5] [F32.zero] 0 F32.zero) in
  (r1 = TopK.neg_max_float /\ SFltb (S754_infinity true) r1 = true /\
   ~ TopK.spec_KthScore 2 [F32.of_Z 5] r1) /\
  (r2 = S754_nan /\ TopK.is_kth_largest 1 [S754_nan; F32.of_Z 5] (F32.of_Z 5) /\
   ~ TopK.spec_KthScore 1 [S754_nan; F32.of_Z 5] r2).
Proof.
  cbv zeta. split.
  - assert (E : fst (TopK.KthScore_calls Stl.reference 2 [F32.of_Z 5] [F32.zero; F32.zero]
                       0 F32.zero) = TopK.neg_max_float) by (vm_compute; reflexivity).
    rewrite E. split; [reflexivity|]. split; [vm_compute; reflexivity|].
    unfold TopK.spec_KthScore. cbn [length Nat.leb]. vm_compute. discriminate.
  - assert (E : fst (TopK.KthScore_calls Stl.reference 1 [S754_nan; F32.of_Z 5] [F32.zero]
                       0 F32.zero) = S754_nan) by (vm_compute; reflexivity).
    rewrite E. split; [reflexivity|]. split.
    + split; [right; left|]. split; vm_compute; lia.
    + unfold TopK.spec_KthScore. cbn [length Nat.leb].
      intros (_ & _ & H). vm_compute in H. lia.
Qed.

(** ** [LoadIndexProperties] *)

Lemma LoadIndexProperties_average (n t : Z) :
  0 < n < 2^32 -> 0 < t < 2^64 ->
  IndexProperties.collection_average_doc_len_ (IndexProperties.LoadIndexProperties n t)
  = wrap32 (t / n).
Proof.
  intros Hn Ht. unfold IndexProperties.LoadIndexProperties, wrap32, wrap64. simpl.
  rewrite !Z.mod_small by lia.
  destruct (Z.leb_spec n 0); [lia|]. destruct (Z.leb_spec t 0); [lia|]. done.
Qed.

(** C10 fails on the code.  With [total_num_docs = 5] and
    [total_document_lengths = 3] both counters are positive, the guard does
    not fire, and the truncating division stores an average document length
    of [0]; the BM25 document-length multiplier [k1 * b / 0] is then
    [+infinity]. *)
Lemma LoadIndexProperties_average_can_be_zero :
  IndexProperties.collection_average_doc_len_ (IndexProperties.LoadIndexProperties 5 3) = 0 /\
  Bm25.kBm25DenominatorDocLenMul
    (IndexProperties.collection_average_doc_len_ (IndexProperties.LoadIndexProperties 5 3))
  = S754_infinity false.
Proof. split; vm_compute; reflexivity. Qed.

(** A negative counter is not caught either: the members are unsigned, so
    [-5] is read as [4294967291] and [<= 0] is false. *)
Lemma LoadIndexProperties_negative_counter :
  IndexProperties.LoadIndexProperties (-5) 3 =
  {| IndexProperties.collection_total_num_docs_ := 4294967291;
     IndexProperties.collection_average_doc_len_ := 0 |}.
Proof. vm_compute. reflexivity. Qed.

(** ** Queries: lower case, stop words, duplicates *)

Lemma string_compare_refl (s : string) : String.compare s s = Eq.
Proof.
  induction s as [|c s IH]; simpl; [done|].
  assert (Ascii.compare c c = Eq) as ->; [|done].
  unfold Ascii.compare. apply N.compare_refl.
Qed.

Lemma string_ltb_lt (x y : string) : String.ltb x y = true <-> String_as_OT.lt x y.
Proof.
  rewrite <- String_as_OT.cmp_lt. unfold String.ltb, String_as_OT.cmp.
  destruct (String.compare x y); split; congruence.
Qed.

Lemma string_ltb_total (x y : string) :
  String.ltb x y = false -> String.ltb y x = false -> x = y.
Proof.
  unfold String.ltb. rewrite (String.compare_antisym x y).
  destruct (String.compare y x) eqn:E; simpl; try done.
  intros _ _. symmetry. by apply String.compare_eq_iff.
Qed.

Lemma string_ltb_swo : Stl.strict_weak_order (fun _ => True) String.ltb.
Proof.
  split.
  - intros x _. unfold String.ltb. by rewrite string_compare_refl.
  - intros x y z _ _ _ H1 H2. apply string_ltb_lt.
    apply (String_as_OT.lt_trans x y z); by apply string_ltb_lt.
  - intros x y z _ _ _ H1 H2.
    destruct (String.ltb x z) eqn:E; [|done].
    destruct (String.ltb y x) eqn:Eyx.
    + (* y < x < z contradicts not (y < z) *)
      assert (String.ltb y z = true); [|congruence].
      apply string_ltb_lt. apply (String_as_OT.lt_trans y x z); by apply string_ltb_lt.
    + assert (x = y) as -> by (by apply string_ltb_total). congruence.
Qed.


Lemma is_sorted_StronglySorted (l : list string) :
  Stl.is_sorted String.ltb l -> StronglySorted QP.str_le l.
Proof.
  induction l as [|a l IH]; intros Hs; [constructor|].
  apply is_sorted_inv in Hs as [Hs Ha]. constructor; [by apply IH|].
  apply Forall_forall. intros x Hx. by apply Ha.
Qed.

Lemma unique_head (w : string) (rest : list string) :
  exists tl, QP.unique (w :: rest) = w :: tl.
Proof.
  revert w. induction rest as [|w' r IH]; intros w; simpl; [by eexists|].
  destruct (decide (w = w')) as [->|Hne]; [apply (IH w')|by eexists].
Qed.

Lemma unique_strictly_sorted (l : list string) :
  StronglySorted QP.str_le l ->
  StronglySorted QP.str_lt (QP.unique l) /\ (forall x, x ∈ QP.unique l <-> x ∈ l).
Proof.
  induction l as [|w rest IH]; intros Hs; [split; [constructor|done]|].
  apply StronglySorted_inv in Hs as [Hrest Hw].
  destruct (IH Hrest) as [IHs IHe].
  destruct rest as [|w' r]; [split; [repeat constructor|done]|].
  change (QP.unique (w :: w' :: r))
    with (if decide (w = w') then QP.unique (w' :: r) else w :: QP.unique (w' :: r)).
  destruct (decide (w = w')) as [->|Hne].
  - split; [done|]. intros x. rewrite IHe. rewrite !elem_of_cons. tauto.
  - split.
    + constructor; [done|]. apply Forall_forall. intros x Hx.
      apply IHe in Hx. rewrite Forall_forall in Hw.
      pose proof (Hw x Hx) as Hle. unfold QP.str_le in Hle. unfold QP.str_lt.
      destruct (String.ltb w x) eqn:E; [done|].
      assert (w = x) as <- by (by apply string_ltb_total).
      apply elem_of_cons in Hx as [?|Hx]; [done|].
      apply StronglySorted_inv in Hrest as [_ Hw'].
      rewrite Forall_forall in Hw'. specialize (Hw' w Hx). unfold QP.str_le in Hw'.
      pose proof (Hw w' ltac:(left)) as Hww'. unfold QP.str_le in Hww'.
      exfalso. apply Hne. by apply string_ltb_total.
    + intros x. rewrite !(elem_of_cons _ x w). by rewrite IHe.
Qed.

Lemma strictly_sorted_unique_repr (l1 l2 : list string) :
  StronglySorted QP.str_lt l1 -> StronglySorted QP.str_lt l2 ->
  (forall x, x ∈ l1 <-> x ∈ l2) -> l1 = l2.
Proof.
  assert (Hirr : forall x, ~ QP.str_lt x x).
  { intros x Hx. unfold QP.str_lt in Hx.
    by rewrite (Stl.swo_irrefl _ _ string_ltb_swo x I) in Hx. }
  assert (Hasym : forall x y, QP.str_lt x y -> QP.str_lt y x -> False).
  { intros x y H1 H2. apply (Hirr x). unfold QP.str_lt in *.
    by apply (Stl.swo_trans _ _ string_ltb_swo x y x). }
  revert l2. induction l1 as [|a1 l1 IH]; intros l2 H1 H2 He.
  - destruct l2 as [|a2 l2]; [done|]. exfalso.
    by apply (elem_of_nil a2), He; left.
  - destruct l2 as [|a2 l2].
    { exfalso. by apply (elem_of_nil a1), He; left. }
    apply StronglySorted_inv in H1 as [H1 Ha1].
    apply StronglySorted_inv in H2 as [H2 Ha2].
    rewrite Forall_forall in Ha1, Ha2.
    assert (a1 = a2) as <-.
    { destruct (decide (a1 = a2)) as [|Hne]; [done|]. exfalso.
      assert (Hin1 : a1 ∈ a2 :: l2) by (apply He; left).
      assert (Hin2 : a2 ∈ a1 :: l1) by (apply He; left).
      apply elem_of_cons in Hin1 as [?|Hin1]; [done|].
      apply elem_of_cons in Hin2 as [?|Hin2]; [done|].
      exact (Hasym a1 a2 (Ha1 _ Hin2) (Ha2 _ Hin1)). }
    f_equal. apply IH; auto.
    intros x. split; intros Hx.
    + assert (Hin : x ∈ a1 :: l2) by (apply He; by right).
      apply elem_of_cons in Hin as [->|]; [|done].
      exfalso. exact (Hirr a1 (Ha1 _ Hx)).
    + assert (Hin : x ∈ a1 :: l1) by (apply He; by right).
      apply elem_of_cons in Hin as [->|]; [|done].
      exfalso. exact (Hirr a1 (Ha2 _ Hx)).
Qed.

Section QueryWords.
Context (alg : Stl.algorithms).
Hypothesis Halg : Stl.conforming alg.

Lemma sort_strings (l : list string) :
  Permutation (Stl.sort alg _ String.ltb l) l /\
  Stl.is_sorted String.ltb (Stl.sort alg _ String.ltb l).
Proof.
  apply (Stl.sort_spec alg Halg string (fun _ => True) String.ltb l string_ltb_swo).
  by apply Forall_forall.
Qed.

Lemma unique_sort_elem (l : list string) (x : string) :
  x ∈ QP.unique (Stl.sort alg _ String.ltb l) <-> x ∈ l.
Proof.
  destruct (sort_strings l) as [Hp Hs].
  destruct (unique_strictly_sorted _ (is_sorted_StronglySorted _ Hs)) as [_ He].
  rewrite He. by rewrite Hp.
Qed.

Lemma unique_sort_same_set (l1 l2 : list string) :
  (forall x, x ∈ l1 <-> x ∈ l2) ->
  QP.unique (Stl.sort alg _ String.ltb l1) = QP.unique (Stl.sort alg _ String.ltb l2).
Proof.
  intros He. apply strictly_sorted_unique_repr.
  - apply unique_strictly_sorted, is_sorted_StronglySorted, sort_strings.
  - apply unique_strictly_sorted, is_sorted_StronglySorted, sort_strings.
  - intros x. by rewrite !unique_sort_elem.
Qed.

End QueryWords.

(** Words of a line. *)


Lemma string_app_cons (c : ascii) (a b : string) :
  String c a +:+ b = String c (a +:+ b).
Proof. reflexivity. Qed.

Lemma string_app_nil_l (b : string) : EmptyString +:+ b = b.
Proof. reflexivity. Qed.

Lemma no_space_empty : QP.no_space EmptyString.
Proof. intros c Hc. by apply elem_of_nil in Hc. Qed.

Lemma list_ascii_app (a b : string) :
  list_ascii_of_string (a +:+ b) = list_ascii_of_string a ++ list_ascii_of_string b.
Proof.
  induction a as [|c a IH]; [done|].
  rewrite string_app_cons. simpl. by rewrite IH.
Qed.

Lemma string_app_nil_r (a : string) : a +:+ EmptyString = a.
Proof. induction a as [|c a IH]; [done|]. by rewrite string_app_cons, IH. Qed.

Lemma string_app_assoc (a b c : string) : (a +:+ b) +:+ c = a +:+ (b +:+ c).
Proof. induction a as [|x a IH]; [done|]. by rewrite !string_app_cons, IH. Qed.

Lemma lower_case_app (a b : string) :
  QP.lower_case (a +:+ b) = QP.lower_case a +:+ QP.lower_case b.
Proof.
  induction a as [|c a IH]; [done|].
  rewrite string_app_cons. simpl. by rewrite IH, string_app_cons.
Qed.

Lemma tolower_not_upper (c : ascii) : QP.isupper (QP.tolower c) = false.
Proof.
  unfold QP.tolower. destruct (QP.isupper c) eqn:E; [|done].
  unfold QP.isupper in *. apply andb_prop in E as [H1 H2].
  apply Nat.leb_le in H1, H2.
  rewrite nat_ascii_embedding by lia.
  apply andb_false_iff. right. apply Nat.leb_gt. lia.
Qed.

Lemma lower_case_all_lower (s : string) : QP.all_lower (QP.lower_case s).
Proof.
  induction s as [|c s IH]; intros x Hx; simpl in Hx; [by apply elem_of_nil in Hx|].
  apply elem_of_cons in Hx as [->|Hx]; [apply tolower_not_upper|by apply IH].
Qed.

Lemma lower_case_id (s : string) : QP.all_lower s -> QP.lower_case s = s.
Proof.
  induction s as [|c s IH]; intros Hs; simpl; [done|].
  rewrite IH by (intros x Hx; apply Hs; simpl; by right).
  unfold QP.tolower. by rewrite (Hs c) by (simpl; left).
Qed.

(** A separator ends the current word. *)
Lemma extract_terms_sep (a b term : string) (c : ascii) :
  QP.isspace c = true ->
  QP.extract_terms (a +:+ String c b) term
  = QP.extract_terms a term ++ QP.extract_terms b EmptyString.
Proof.
  intros Hc. revert term. induction a as [|x a IH]; intros term;
    rewrite ?string_app_cons, ?string_app_nil_l; simpl.
  - rewrite Hc. by destruct (decide (term = EmptyString)).
  - destruct (QP.isspace x).
    + destruct (decide (term = EmptyString)); simpl; by rewrite IH.
    + by rewrite IH.
Qed.

(** A word without separators is extracted whole. *)
Lemma extract_terms_word (w term : string) :
  QP.no_space w -> term +:+ w <> EmptyString ->
  QP.extract_terms w term = [term +:+ w].
Proof.
  revert term. induction w as [|c w IH]; intros term Hw Hne; simpl.
  - rewrite string_app_nil_r in *. by destruct (decide (term = EmptyString)).
  - rewrite (Hw c) by (simpl; left).
    rewrite IH.
    + by rewrite string_app_assoc.
    + intros x Hx. apply Hw. simpl. by right.
    + rewrite string_app_assoc, string_app_cons. by destruct term.
Qed.

(** Every extracted word is non-empty, free of separators, and made of
    characters of the line (or of the pending word). *)
Lemma extract_terms_elem (s term w : string) :
  QP.no_space term -> w ∈ QP.extract_terms s term ->
  w <> EmptyString /\ QP.no_space w /\
  (forall c, c ∈ list_ascii_of_string w ->
             c ∈ list_ascii_of_string term \/ c ∈ list_ascii_of_string s).
Proof.
  revert term. induction s as [|c s IH]; intros term Ht Hw; simpl in Hw.
  - destruct (decide (term = EmptyString)); [by apply elem_of_nil in Hw|].
    apply list_elem_of_singleton in Hw as ->. repeat split; auto.
  - destruct (QP.isspace c) eqn:Ec.
    + destruct (decide (term = EmptyString)).
      * destruct (IH EmptyString) as (H1 & H2 & H3); auto.
        { intros x Hx. by apply elem_of_nil in Hx. }
        repeat split; auto. intros x Hx. destruct (H3 x Hx) as [H|H].
        -- by apply elem_of_nil in H.
        -- right. simpl. by right.
      * apply elem_of_cons in Hw as [->|Hw]; [repeat split; auto|].
        destruct (IH EmptyString) as (H1 & H2 & H3); auto.
        { intros x Hx. by apply elem_of_nil in Hx. }
        repeat split; auto. intros x Hx. destruct (H3 x Hx) as [H|H].
        -- by apply elem_of_nil in H.
        -- right. simpl. by right.
    + destruct (IH (term +:+ String c EmptyString)) as (H1 & H2 & H3); auto.
      { intros x Hx. rewrite list_ascii_app in Hx. apply elem_of_app in Hx as [Hx|Hx]; auto.
        simpl in Hx. apply list_elem_of_singleton in Hx as ->. done. }
      repeat split; auto. intros x Hx. destruct (H3 x Hx) as [H|H].
      * rewrite list_ascii_app in H. apply elem_of_app in H as [H|H]; auto.
        simpl in H. apply list_elem_of_singleton in H as ->. right. simpl. by left.
      * right. simpl. by right.
Qed.

Lemma extract_terms_spaces (s : string) :
  (forall c, c ∈ list_ascii_of_string s -> QP.isspace c = true) ->
  QP.extract_terms s EmptyString = [].
Proof.
  induction s as [|c s IH]; intros Hs; simpl; [done|].
  rewrite (Hs c) by (simpl; left). simpl. apply IH.
  intros x Hx. apply Hs. simpl. by right.
Qed.

Lemma isspace_tolower (c : ascii) : QP.isspace (QP.tolower c) = QP.isspace c.
Proof.
  unfold QP.tolower. destruct (QP.isupper c) eqn:E; [|done].
  unfold QP.isupper in E. apply andb_prop in E as [H1 H2].
  apply Nat.leb_le in H1, H2. unfold QP.isspace.
  rewrite nat_ascii_embedding by lia.
  repeat match goal with
  | |- context [(?a =? ?b)%nat] => destruct (Nat.eqb_spec a b); try lia
  | |- context [(?a <=? ?b)%nat] => destruct (Nat.leb_spec a b); try lia
  end; done.
Qed.

Lemma lower_case_spaces (s : string) :
  (forall c, c ∈ list_ascii_of_string s -> QP.isspace c = true) ->
  (forall c, c ∈ list_ascii_of_string (QP.lower_case s) -> QP.isspace c = true).
Proof.
  induction s as [|x s IH]; intros Hs c Hc; simpl in Hc; [by apply elem_of_nil in Hc|].
  apply elem_of_cons in Hc as [->|Hc].
  - rewrite isspace_tolower. apply Hs. simpl. by left.
  - apply IH; auto. intros y Hy. apply Hs. simpl. by right.
Qed.

Section ExecuteQueryFacts.
Context (alg : Stl.algorithms) (log10 : spec_float -> spec_float) (GetDocLen : Z -> Z)
  (collection_average_doc_len_ collection_total_num_docs_ : Z)
  (index_overlapping_layers_ : bool)
  (IntersectListsTopPositions :
     list nat -> list QP.Result -> nat -> QP.store -> nat * list QP.Result * QP.store)
  (MAX_LIST_LAYERS : nat) (query_algorithm_ : QP.QueryAlgorithm)
  (stop_words_ : gset string) (lexicon : gmap string Lex.LexiconData)
  (max_num_results_ : nat)
  (ProcessLayeredTaatPrunedEarlyTerminatedQuery :
     list Lex.LexiconData -> nat -> nat * nat * list QP.Result)
  (MergeListsWand MergeListsMaxScore :
     list Lex.LexiconData -> nat -> bool -> nat * nat * list QP.Result).

Local Abbreviation ExecuteQuery :=
  (QP.ExecuteQuery alg log10 GetDocLen collection_average_doc_len_
     collection_total_num_docs_ index_overlapping_layers_ IntersectListsTopPositions
     MAX_LIST_LAYERS query_algorithm_ stop_words_ lexicon max_num_results_
     ProcessLayeredTaatPrunedEarlyTerminatedQuery MergeListsWand MergeListsMaxScore).
Local Abbreviation run_query_algorithm :=
  (QP.run_query_algorithm alg log10 GetDocLen collection_average_doc_len_
     collection_total_num_docs_ index_overlapping_layers_ IntersectListsTopPositions
     MAX_LIST_LAYERS query_algorithm_ max_num_results_
     ProcessLayeredTaatPrunedEarlyTerminatedQuery MergeListsWand MergeListsMaxScore).

Hypothesis Halg : Stl.conforming alg.

Lemma ExecuteQuery_same_words (l1 l2 : string) :
  (forall w, w ∈ QP.query_words stop_words_ l1 <-> w ∈ QP.query_words stop_words_ l2) ->
  ExecuteQuery l1 = ExecuteQuery l2.
Proof.
  intros He. unfold QP.ExecuteQuery.
  rewrite (unique_sort_same_set alg Halg _ _ He).
  destruct (QP.query_words stop_words_ l1) as [|w1 r1] eqn:E1,
           (QP.query_words stop_words_ l2) as [|w2 r2] eqn:E2; simpl; try done.
  - exfalso. by apply (elem_of_nil w2), He; left.
  - exfalso. by apply (elem_of_nil w1), He; left.
Qed.

Lemma query_words_elem (line w : string) :
  w ∈ QP.query_words stop_words_ line ->
  w ∈ QP.extract_terms (QP.lower_case line) EmptyString /\ w ∉ stop_words_.
Proof.
  unfold QP.query_words. destruct (bool_decide (stop_words_ = ∅)) eqn:E.
  - apply bool_decide_eq_true in E. intros Hw. split; [done|]. rewrite E. set_solver.
  - intros Hw. apply list_elem_of_In, filter_In in Hw as [Hw Hb].
    apply bool_decide_eq_true in Hb. split; [by apply list_elem_of_In|done].
Qed.

Lemma query_words_intro (line w : string) :
  w ∈ QP.extract_terms (QP.lower_case line) EmptyString -> w ∉ stop_words_ ->
  w ∈ QP.query_words stop_words_ line.
Proof.
  intros Hw Hs. unfold QP.query_words. destruct (bool_decide (stop_words_ = ∅)); [done|].
  apply list_elem_of_In, filter_In. split; [by apply list_elem_of_In|].
  by apply bool_decide_eq_true.
Qed.

Lemma query_words_repeat (line w : string) :
  w ∈ QP.query_words stop_words_ line ->
  forall x, x ∈ QP.query_words stop_words_ (line +:+ " " +:+ w)
            <-> x ∈ QP.query_words stop_words_ line.
Proof.
  intros Hw x. apply query_words_elem in Hw as [Hw Hs].
  destruct (extract_terms_elem _ _ _ no_space_empty Hw) as (Hne & Hsp & Hch).
  assert (Hlow : QP.lower_case w = w).
  { apply lower_case_id. intros c Hc. destruct (Hch c Hc) as [H|H].
    - by apply elem_of_nil in H.
    - by apply (lower_case_all_lower line). }
  assert (Hex : QP.extract_terms (QP.lower_case (line +:+ " " +:+ w)) EmptyString
                = QP.extract_terms (QP.lower_case line) EmptyString ++ [w]).
  { rewrite !lower_case_app, Hlow.
    change (QP.lower_case " ") with (String " "%char EmptyString).
    rewrite string_app_cons, string_app_nil_l.
    rewrite extract_terms_sep by done.
    by rewrite (extract_terms_word w EmptyString Hsp). }
  split; intros Hx.
  - apply query_words_elem in Hx as [Hx Hxs]. rewrite Hex in Hx.
    apply elem_of_app in Hx as [Hx|Hx]; [by apply query_words_intro|].
    apply list_elem_of_singleton in Hx as ->. by apply query_words_intro.
  - apply query_words_elem in Hx as [Hx Hxs]. apply query_words_intro; [|done].
    rewrite Hex. apply elem_of_app. by left.
Qed.

Lemma ExecuteQuery_no_words (line : string) :
  QP.query_words stop_words_ line = [] -> ExecuteQuery line = Some (QP.no_execution []).
Proof. intros H. unfold QP.ExecuteQuery. by rewrite H. Qed.

(** C9.  [ExecuteQuery] lower-cases the line, drops stop words and then
    duplicates before it consults the lexicon, so that (1) two lines that
    agree up to letter case are executed identically; (2) so are two lines
    with the same set of words, in particular (3) a line and the same line
    with one of its words repeated; and (4, 5) a line whose words are all
    stop words, or that holds only white space, ends with no result, no
    lexicon lookup and no evaluator call.  Stop words are matched against
    the lower-cased words. *)
Theorem ExecuteQuery_case_and_repetition :
  (forall l1 l2, QP.lower_case l1 = QP.lower_case l2 -> ExecuteQuery l1 = ExecuteQuery l2) /\
  (forall l1 l2,
     (forall w, w ∈ QP.query_words stop_words_ l1 <-> w ∈ QP.query_words stop_words_ l2) ->
     ExecuteQuery l1 = ExecuteQuery l2) /\
  (forall line w, w ∈ QP.query_words stop_words_ line ->
     ExecuteQuery (line +:+ " " +:+ w) = ExecuteQuery line) /\
  (forall line,
     (forall w, w ∈ QP.extract_terms (QP.lower_case line) EmptyString -> w ∈ stop_words_) ->
     ExecuteQuery line = Some (QP.no_execution [])) /\
  (forall line,
     (forall c, c ∈ list_ascii_of_string line -> QP.isspace c = true) ->
     ExecuteQuery line = Some (QP.no_execution [])).
Proof.
  repeat split.
  - intros l1 l2 H. unfold QP.ExecuteQuery, QP.query_words. by rewrite H.
  - apply ExecuteQuery_same_words.
  - intros line w Hw. apply ExecuteQuery_same_words. by apply query_words_repeat.
  - intros line Hstop. apply ExecuteQuery_no_words.
    destruct (QP.query_words stop_words_ line) as [|w r] eqn:E; [done|]. exfalso.
    assert (Hw : w ∈ QP.query_words stop_words_ line) by (rewrite E; left).
    apply query_words_elem in Hw as [Hw Hn]. by apply Hn, Hstop.
  - intros line Hsp. apply ExecuteQuery_no_words.
    unfold QP.query_words.
    rewrite (extract_terms_spaces _ (lower_case_spaces _ Hsp)).
    by destruct (bool_decide (stop_words_ = ∅)).
Qed.

Lemma omap_length_lt {A B : Type} (f : A -> option B) (l : list A) (x : A) :
  x ∈ l -> f x = None -> (length (omap f l) < length l)%nat.
Proof.
  induction l as [|a l IH]; intros Hx Hf; [by apply elem_of_nil in Hx|].
  assert (Hle : forall l' : list A, (length (omap f l') <= length l')%nat).
  { induction l' as [|b l' IH']; csimpl; [lia|]. destruct (f b); csimpl; lia. }
  apply elem_of_cons in Hx as [->|Hx]; csimpl.
  - rewrite Hf. specialize (Hle l). csimpl. lia.
  - specialize (IH Hx Hf). destruct (f a); csimpl; lia.
Qed.

Lemma omap_filter_is_Some {A B : Type} (f : A -> option B) (l : list A) :
  omap f (List.filter (fun x => bool_decide (is_Some (f x))) l) = omap f l.
Proof.
  induction l as [|a l IH]; csimpl; [done|].
  destruct (f a) as [b|] eqn:E; csimpl; rewrite ?E; by rewrite ?IH.
Qed.

Lemma StronglySorted_filter {A : Type} (R : A -> A -> Prop) (p : A -> bool) (l : list A) :
  StronglySorted R l -> StronglySorted R (List.filter p l).
Proof.
  induction 1 as [|a l Hs IH Ha]; simpl; [constructor|].
  destruct (p a); [|done]. constructor; [done|].
  rewrite Forall_forall in *. intros x Hx.
  apply list_elem_of_In, filter_In in Hx as [Hx _]. by apply Ha, list_elem_of_In.
Qed.

(** The entries the evaluator gets when the words of [line'] are the words
    of [line] that the lexicon knows. *)
Lemma present_terms (line line' : string) :
  (forall w, w ∈ QP.query_words stop_words_ line' <->
             w ∈ QP.query_words stop_words_ line /\ is_Some (lexicon !! w)) ->
  omap (fun w => lexicon !! w)
    (QP.unique (Stl.sort alg _ String.ltb (QP.query_words stop_words_ line')))
  = omap (fun w => lexicon !! w)
      (QP.unique (Stl.sort alg _ String.ltb (QP.query_words stop_words_ line))).
Proof.
  intros He.
  rewrite <- (omap_filter_is_Some _
               (QP.unique (Stl.sort alg _ String.ltb (QP.query_words stop_words_ line)))).
  f_equal. apply strictly_sorted_unique_repr.
  - apply unique_strictly_sorted, is_sorted_StronglySorted, sort_strings, Halg.
  - apply StronglySorted_filter.
    apply unique_strictly_sorted, is_sorted_StronglySorted, sort_strings, Halg.
  - intros x. rewrite (unique_sort_elem alg Halg), He. split.
    + intros [Hx Hs]. apply list_elem_of_In, filter_In. split.
      * apply list_elem_of_In. by rewrite (unique_sort_elem alg Halg).
      * by apply bool_decide_eq_true.
    + intros Hx. apply list_elem_of_In, filter_In in Hx as [Hx Hs].
      apply list_elem_of_In in Hx. rewrite (unique_sort_elem alg Halg) in Hx.
      apply bool_decide_eq_true in Hs. by split.
Qed.

(** C5.  A query with a word the lexicon does not know: under the AND
    algorithms ([kDaatAnd], [kDualLayeredOverlappingDaat],
    [kDualLayeredOverlappingMergeDaat]) nothing is evaluated and no result
    is reported; under the OR algorithms the evaluator runs on the entries
    of the known words only, exactly as for a line made of those words. *)
Theorem ExecuteQuery_missing_term (line : string) :
  (exists w, w ∈ QP.query_words stop_words_ line /\ lexicon !! w = None) ->
  let words := QP.unique (Stl.sort alg _ String.ltb (QP.query_words stop_words_ line)) in
  let query_term_data := omap (fun w => lexicon !! w) words in
  (query_algorithm_ ∈ [QP.kDaatAnd; QP.kDualLayeredOverlappingDaat;
                        QP.kDualLayeredOverlappingMergeDaat] ->
   ExecuteQuery line = Some (QP.no_execution words)) /\
  (query_algorithm_ ∈ [QP.kDaatOr; QP.kLayeredTaatOrEarlyTerminated; QP.kWand;
                        QP.kDualLayeredWand; QP.kMaxScore; QP.kDualLayeredMaxScore] ->
   (length query_term_data < length words)%nat /\
   (forall lex, lex ∈ query_term_data <->
      exists w, w ∈ QP.query_words stop_words_ line /\ lexicon !! w = Some lex) /\
   (exists total_num_results results_size ranked_results,
      run_query_algorithm query_term_data
        = Some (total_num_results, results_size, ranked_results) /\
      ExecuteQuery line
        = Some {| QP.lexicon_lookups := words;
                  QP.evaluator_call := Some (query_algorithm_, query_term_data);
                  QP.results_size := results_size;
                  QP.reported_total_num_results := total_num_results;
                  QP.ranked_results := take results_size ranked_results |}) /\
   (forall line',
      (forall w, w ∈ QP.query_words stop_words_ line' <->
                 w ∈ QP.query_words stop_words_ line /\ is_Some (lexicon !! w)) ->
      QP.query_words stop_words_ line' <> [] ->
      exists e e', ExecuteQuery line = Some e /\ ExecuteQuery line' = Some e' /\
        QP.evaluator_call e = QP.evaluator_call e' /\
        QP.results_size e = QP.results_size e' /\
        QP.reported_total_num_results e = QP.reported_total_num_results e' /\
        QP.ranked_results e = QP.ranked_results e')).
Proof.
  intros (w & Hw & Hnone) words query_term_data.
  assert (Hne : (length (QP.query_words stop_words_ line) =? 0)%nat = false).
  { apply Nat.eqb_neq. destruct (QP.query_words stop_words_ line); [|done].
    by apply elem_of_nil in Hw. }
  assert (Hlt : (length query_term_data < length words)%nat).
  { apply (omap_length_lt _ _ w); [|done].
    unfold words. by rewrite (unique_sort_elem alg Halg). }
  split.
  - intros Halgo. unfold QP.ExecuteQuery. rewrite Hne. fold words.
    assert (QP.processing_semantics query_algorithm_ = Some QP.kAnd) as ->.
    { rewrite !elem_of_cons in Halgo.
      destruct Halgo as [->|[->|[->|H]]]; try done. by apply elem_of_nil in H. }
    fold query_term_data.
    assert ((length query_term_data =? length words)%nat = false) as ->; [|done].
    apply Nat.eqb_neq. lia.
  - intros Halgo.
    assert (Hsem : QP.processing_semantics query_algorithm_ = Some QP.kOr).
    { rewrite !elem_of_cons in Halgo.
      destruct Halgo as [->|[->|[->|[->|[->|[->|H]]]]]]; try done.
      by apply elem_of_nil in H. }
    assert (Hrun : forall qtd, exists t n r, run_query_algorithm qtd = Some (t, n, r)).
    { intros qtd. unfold QP.run_query_algorithm.
      rewrite !elem_of_cons in Halgo.
      destruct Halgo as [->|[->|[->|[->|[->|[->|H]]]]]];
        try (by apply elem_of_nil in H);
        try match goal with
        | |- context [Some ?x] => destruct x as [[t n] r]; by exists t, n, r
        end.
      unfold QP.ProcessQuery.
      destruct (QP.MergeLists _ _ _ _ _ _ _ _ _) as [[t r] st]. by eexists _, _, _. }
    assert (Hexec : forall l, QP.query_words stop_words_ l <> [] ->
      let ws := QP.unique (Stl.sort alg _ String.ltb (QP.query_words stop_words_ l)) in
      let qtd := omap (fun w => lexicon !! w) ws in
      exists t n r, run_query_algorithm qtd = Some (t, n, r) /\
        ExecuteQuery l
        = Some {| QP.lexicon_lookups := ws;
                  QP.evaluator_call := Some (query_algorithm_, qtd);
                  QP.results_size := n;
                  QP.reported_total_num_results := t;
                  QP.ranked_results := take n r |}).
    { intros l Hl ws qtd. destruct (Hrun qtd) as (t & n & r & Hr).
      exists t, n, r. split; [done|]. unfold QP.ExecuteQuery.
      assert ((length (QP.query_words stop_words_ l) =? 0)%nat = false) as ->.
      { apply Nat.eqb_neq. by destruct (QP.query_words stop_words_ l). }
      fold ws. rewrite Hsem. fold qtd. rewrite Nat.eqb_refl, Hr. done. }
    split; [done|]. split; [|split].
    + intros lex. unfold query_term_data. rewrite list_elem_of_omap. split.
      * intros (x & Hx & Hl). exists x. split; [|done].
        unfold words in Hx. by rewrite (unique_sort_elem alg Halg) in Hx.
      * intros (x & Hx & Hl). exists x. split; [|done].
        unfold words. by rewrite (unique_sort_elem alg Halg).
    + apply Hexec. destruct (QP.query_words stop_words_ line); [|done].
      by apply elem_of_nil in Hw.
    + intros line' He Hne'.
      destruct (Hexec line) as (t & n & r & Hr & Hx).
      { destruct (QP.query_words stop_words_ line); [|done]. by apply elem_of_nil in Hw. }
      destruct (Hexec line' Hne') as (t' & n' & r' & Hr' & Hx').
      rewrite (present_terms line line' He) in Hr', Hx'.
      fold words query_term_data in Hr, Hx, Hr', Hx'.
      rewrite Hr in Hr'. injection Hr' as <- <- <-.
      eexists _, _. split; [exact Hx|]. split; [exact Hx'|]. done.
Qed.

End ExecuteQueryFacts.

(** ** Witnesses for the [ExecuteQuery] theorems, on the toy collection *)

Lemma ExecuteQuery_case_and_repetition_witness :
  Toy.ExecuteQuery QP.kDaatOr {["the"]} "Alpha BETA" = Toy.ExecuteQuery QP.kDaatOr {["the"]} "alpha beta" /\
  Toy.ExecuteQuery QP.kDaatOr {["the"]} "alpha beta alpha"
    = Toy.ExecuteQuery QP.kDaatOr {["the"]} "alpha beta" /\
  Toy.ExecuteQuery QP.kDaatOr {["the"]} " The  the " = Some (QP.no_execution []).
Proof.
  pose proof (ExecuteQuery_case_and_repetition Stl.reference Toy.log10 Toy.GetDocLen
    (IndexProperties.collection_average_doc_len_ Toy.properties)
    (IndexProperties.collection_total_num_docs_ Toy.properties)
    false (fun _ results _ st => (0%nat, results, st)) 8 QP.kDaatOr {["the"]} Toy.lexicon 10
    Toy.not_modelled (fun q k _ => Toy.not_modelled q k) (fun q k _ => Toy.not_modelled q k)
    reference_conforming) as (Hcase & _ & Hrep & Hstop & _).
  split; [|split].
  - apply Hcase. reflexivity.
  - apply (Hrep "alpha beta" "alpha"). vm_compute. left.
  - apply Hstop. intros w Hw. vm_compute in Hw.
    apply elem_of_cons in Hw as [->|Hw]; [set_solver|].
    apply elem_of_cons in Hw as [->|Hw]; [set_solver|].
    by apply elem_of_nil in Hw.
Defined.

Lemma ExecuteQuery_missing_term_witness :
  Toy.ExecuteQuery QP.kDaatAnd ∅ "alpha delta" = Some (QP.no_execution ["alpha"; "delta"]) /\
  exists e, Toy.ExecuteQuery QP.kDaatOr ∅ "alpha delta" = Some e /\
            QP.evaluator_call e = Some (QP.kDaatOr, [Toy.alpha]).
Proof.
  assert (Hmiss : exists w, w ∈ QP.query_words ∅ "alpha delta" /\ Toy.lexicon !! w = None).
  { exists "delta". split; [vm_compute; right; left|reflexivity]. }
  split.
  - pose proof (ExecuteQuery_missing_term Stl.reference Toy.log10 Toy.GetDocLen
      (IndexProperties.collection_average_doc_len_ Toy.properties)
      (IndexProperties.collection_total_num_docs_ Toy.properties)
      false (fun _ results _ st => (0%nat, results, st)) 8 QP.kDaatAnd ∅ Toy.lexicon 10
      Toy.not_modelled (fun q k _ => Toy.not_modelled q k) (fun q k _ => Toy.not_modelled q k)
      reference_conforming "alpha delta" Hmiss) as [Hand _].
    apply Hand. left.
  - pose proof (ExecuteQuery_missing_term Stl.reference Toy.log10 Toy.GetDocLen
      (IndexProperties.collection_average_doc_len_ Toy.properties)
      (IndexProperties.collection_total_num_docs_ Toy.properties)
      false (fun _ results _ st => (0%nat, results, st)) 8 QP.kDaatOr ∅ Toy.lexicon 10
      Toy.not_modelled (fun q k _ => Toy.not_modelled q k) (fun q k _ => Toy.not_modelled q k)
      reference_conforming "alpha delta" Hmiss) as [_ Hor].
    destruct (Hor ltac:(left)) as (_ & _ & (t & n & r & _ & Hx) & _).
    eexists. split; [exact Hx|]. reflexivity.
Defined.

(** ** Scenario S1: the single-term OR query [alpha] *)

(** C8, counterexample.  The query does not report doc 1 first with equal
    scores: doc 2 is shorter and scores higher. *)
Lemma toy_alpha_not_scenario_S1 :
  ~ (exists e, Toy.ExecuteQuery QP.kDaatOr ∅ "alpha" = Some e /\ Toy.scenario_S1 e).
Proof.
  intros (e & He & _ & s1 & s2 & Hr & _).
  vm_compute in He. injection He as <-. simpl in Hr. discriminate Hr.
Qed.

(** C8, amended.  On the toy collection the average document length is
    [5 / 2 = 2]; the OR query [alpha] scores both documents (frequency 1
    each) with [idf = (float) log10(1.2)]: doc 2 (length 2) gets
    [idf * 3 / 3] and doc 1 (length 3) gets [idf * 3 / 3.75], strictly
    less; two results are reported, docID 2 first. *)
Theorem toy_alpha_or_query :
  IndexProperties.collection_average_doc_len_ Toy.properties = 2 /\
  QP.GetFreq (QP.open_last_layers false [Toy.alpha]) 0 = 1 /\
  let idf := F64.to_f32 (F64.of_bits 5705610083117035 (-56)) in
  let score1 := F32.div (F32.mul idf (F32.of_Z 3)) (F32.of_bits 15 (-2)) in
  let score2 := F32.div (F32.mul idf (F32.of_Z 3)) (F32.of_Z 3) in
  SFltb score1 score2 = true /\
  Toy.ExecuteQuery QP.kDaatOr ∅ "alpha"
  = Some {| QP.lexicon_lookups := ["alpha"];
            QP.evaluator_call := Some (QP.kDaatOr, [Toy.alpha]);
            QP.results_size := 2;
            QP.reported_total_num_results := 2;
            QP.ranked_results := [(score2, 2); (score1, 1)] |}.
Proof. vm_compute. repeat split; reflexivity. Qed.
(** ** [LayeredIndexGenerator]: layer sizes, thresholds and the meta file *)

Lemma binary_round_aux_nonneg prec emax m e l :
  F64.nonneg (binary_round_aux prec emax false m e l).
Proof.
  unfold binary_round_aux.
  destruct (shr_fexp prec emax m e l) as [mrs' e'].
  destruct (shr_fexp prec emax _ e' loc_Exact) as [mrs'' e''].
  destruct (shr_m mrs''); simpl; try done.
  destruct (Z.leb _ _); done.
Qed.

Lemma F64_of_Z_nonneg z : 0 <= z -> F64.nonneg (F64.of_Z z).
Proof.
  intros Hz. unfold F64.of_Z, binary_normalize.
  destruct z as [|p|p]; [done| |lia].
  unfold binary_round. destruct (shl_align _ _ _) as [mz ez].
  apply binary_round_aux_nonneg.
Qed.

Lemma F64_mul_nonneg x y : F64.nonneg x -> F64.nonneg y -> F64.nonneg (F64.mul x y).
Proof.
  unfold F64.mul, SFmul.
  destruct x as [sx|sx| |sx mx ex], y as [sy|sy| |sy my ey]; simpl; try done;
    intros -> ->; try done.
  apply binary_round_aux_nonneg.
Qed.

Lemma F64_to_int_nonneg x : F64.nonneg x -> 0 <= F64.to_int x.
Proof.
  destruct x as [s|s| |s m e]; simpl; try lia.
  intros ->. simpl. destruct (0 <=? e).
  - apply Z.shiftl_nonneg. lia.
  - apply Z.shiftr_nonneg. lia.
Qed.

Lemma layer_percentage_nonneg n :
  F64.nonneg (F64.div (F64.of_Z (nth n Layerify.layer_percentages 0)) (F64.of_Z 100)).
Proof.
  do 9 (destruct n as [|n]; [vm_compute; done|]). 
  destruct n; vm_compute; done.
Qed.

Section LayerifyFacts.

Context (alg : Stl.algorithms) (Bm25Score : Layerify.IndexEntry -> spec_float)
  (pow : spec_float -> spec_float -> spec_float) (CHUNK_SIZE num_layers_ : Z)
  (overlapping_layers_ : bool) (layer_splitting_strategy : Layerify.LayerSplitMode).
Hypothesis Halg : Stl.conforming alg.
Hypothesis Hscore : forall e, TopK.not_nan (Bm25Score e).

Local Abbreviation proposed_layer_size :=
  (Layerify.proposed_layer_size pow num_layers_ layer_splitting_strategy).
Local Abbreviation fix_boundary := (Layerify.fix_boundary Bm25Score num_layers_).
Local Abbreviation split_layer :=
  (Layerify.split_layer Bm25Score pow CHUNK_SIZE num_layers_ layer_splitting_strategy).
Local Abbreviation DumpToIndex := (Layerify.DumpToIndex alg Bm25Score CHUNK_SIZE).
Local Abbreviation layers_loop :=
  (Layerify.layers_loop alg Bm25Score pow CHUNK_SIZE num_layers_ overlapping_layers_
     layer_splitting_strategy).
Local Abbreviation layerify_list :=
  (Layerify.layerify_list alg Bm25Score pow CHUNK_SIZE num_layers_ overlapping_layers_
     layer_splitting_strategy).
Local Abbreviation score_at buf idx := (Bm25Score (Layerify.entry_at buf idx)).

Lemma proposed_layer_size_nonneg i total :
  0 <= i < 8 -> 0 <= total -> 0 <= proposed_layer_size i total.
Proof.
  intros Hi Ht. unfold Layerify.proposed_layer_size.
  assert (Hp : 0 <= F64.to_int
      (F64.mul (F64.div (F64.of_Z (nth (Z.to_nat i) Layerify.layer_percentages 0)) (F64.of_Z 100))
               (F64.of_Z total))).
  { apply F64_to_int_nonneg, F64_mul_nonneg.
    - apply layer_percentage_nonneg.
    - by apply F64_of_Z_nonneg. }
  destruct layer_splitting_strategy.
  - done.
  - destruct (Z.eqb_spec (nth (Z.to_nat i) Layerify.layer_max_sizes 0) 0); [done|].
    apply Z.min_glb; [done|].
    assert (Hn : (Z.to_nat i < 8)%nat) by lia.
    revert Hn. generalize (Z.to_nat i). intros k Hk.
    do 8 (destruct k as [|k]; [vm_compute; congruence|]). lia.
  - assert (Hn : (Z.to_nat i < 8)%nat) by lia.
    assert (Hm : 0 < nth (Z.to_nat i) Layerify.layer_min_sizes 0).
    { revert Hn. generalize (Z.to_nat i). intros k Hk.
      do 8 (destruct k as [|k]; [vm_compute; congruence|]). lia. }
    destruct (Z.eqb_spec (nth (Z.to_nat i) Layerify.layer_min_sizes 0) 0); lia.
Qed.

Lemma fix_boundary_spec fuel buf i total curr left curr' left' :
  fix_boundary fuel buf i total curr left = (curr', left') ->
  0 <= left -> left <= Z.of_nat fuel ->
  curr' + left' = curr + left /\ 0 <= left' <= left /\
  (0 < left' -> i <> num_layers_ - 1 ->
   SFleb (score_at buf (total - left - curr)) (score_at buf (total - left')) = false).
Proof.
  revert curr left. induction fuel as [|fuel IH]; intros curr left; simpl.
  - intros [= <- <-] H0 H1. repeat split; lia.
  - destruct (Z.eqb_spec i (num_layers_ - 1)) as [Hi|Hi]; simpl.
    { intros [= <- <-] H0 H1. repeat split; try lia. }
    destruct (Z.leb_spec left 0) as [Hl|Hl].
    { intros [= <- <-] H0 H1. repeat split; try lia. }
    destruct (SFleb _ _) eqn:Hcmp.
    + intros Hf H0 H1. apply IH in Hf; [|lia|lia].
      destruct Hf as (Hsum & Hle & Hlt). repeat split; try lia.
      intros Hp Hne. specialize (Hlt Hp Hne).
      replace (total - (left - 1) - (curr + 1)) with (total - left - curr) in Hlt by lia.
      done.
    + intros [= <- <-] H0 H1. repeat split; try lia. done.
Qed.

Lemma split_layer_spec buf i total left curr' left' :
  split_layer buf i total left = (curr', left') ->
  0 <= i < 8 -> 0 < left -> left <= total ->
  curr' + left' = left /\ 0 <= left' /\ 0 < curr' /\
  (i = num_layers_ - 1 -> left' = 0) /\
  (0 < left' -> SFleb (score_at buf (total - left)) (score_at buf (total - left')) = false).
Proof.
  unfold Layerify.split_layer. intros Hs Hi Hl Ht.
  pose proof (proposed_layer_size_nonneg i total Hi ltac:(lia)) as Hp.
  set (c0 := Z.min (proposed_layer_size i total) left) in Hs.
  set (c1 := if (c0 <? CHUNK_SIZE) && (CHUNK_SIZE <=? left) then CHUNK_SIZE else c0) in Hs.
  assert (Hc0 : 0 <= c0 <= left) by (unfold c0; lia).
  assert (Hc1 : 0 <= c1 <= left).
  { unfold c1. destruct (Z.ltb_spec c0 CHUNK_SIZE), (Z.leb_spec CHUNK_SIZE left); simpl; lia. }
  clearbody c1. clear c0 Hc0 Hp.
  destruct ((i =? num_layers_ - 1) && (0 <? left - c1)) eqn:Hlast.
  - apply andb_true_iff in Hlast as [Hi1%Z.eqb_eq Hpos%Z.ltb_lt].
    simpl in Hs. injection Hs as <- <-. repeat split; lia.
  - apply fix_boundary_spec in Hs; [|lia|lia].
    destruct Hs as (Hsum & Hle & Hlt).
    assert (Hlast' : i = num_layers_ - 1 -> left' = 0).
    { intros ->. rewrite Z.eqb_refl in Hlast. simpl in Hlast. apply Z.ltb_ge in Hlast. lia. }
    assert (Hcmp : 0 < left' ->
      SFleb (score_at buf (total - left)) (score_at buf (total - left')) = false).
    { intros Hp. replace (total - left) with (total - (left - c1) - c1) by lia.
      apply Hlt; [done|]. intros Heq. specialize (Hlast' Heq). lia. }
    repeat split; try lia; try done.
    destruct (Z.ltb_spec 0 left') as [Hp|Hp]; [|lia].
    specialize (Hcmp Hp).
    destruct (Z.eq_dec curr' 0) as [->|]; [|lia].
    replace (total - left') with (total - left) in Hcmp by lia.
    pose proof (Hscore (Layerify.entry_at buf (total - left))) as Hn.
    rewrite (SFleb_of_not_ltb _ _ Hn Hn (SFltb_irrefl _)) in Hcmp. done.
Qed.

Lemma SFltb_of_not_leb x y :
  TopK.not_nan x -> TopK.not_nan y -> SFleb x y = false -> SFltb y x = true.
Proof.
  intros Hx Hy Hle. destruct (SFltb y x) eqn:Hlt; [done|].
  rewrite (SFleb_of_not_ltb _ _ Hy Hx Hlt) in Hle. done.
Qed.

Lemma doc_id_score_comparator_swo :
  Stl.strict_weak_order (fun _ => True) (Layerify.doc_id_score_comparator Bm25Score).
Proof.
  unfold Layerify.doc_id_score_comparator. split.
  - intros x _. apply SFltb_irrefl.
  - intros x y z _ _ _ H1 H2. exact (SFltb_trans _ _ _ H2 H1).
  - intros x y z _ _ _ H1 H2.
    exact (SFltb_incomp _ _ _ (Hscore z) (Hscore y) (Hscore x) H2 H1).
Qed.

Lemma IndexEntryDocIdComparison_swo :
  Stl.strict_weak_order (fun _ => True) Layerify.IndexEntryDocIdComparison.
Proof.
  unfold Layerify.IndexEntryDocIdComparison. split.
  - intros x _. apply Z.ltb_irrefl.
  - intros x y z _ _ _ H1%Z.ltb_lt H2%Z.ltb_lt. apply Z.ltb_lt. lia.
  - intros x y z _ _ _ H1%Z.ltb_ge H2%Z.ltb_ge. apply Z.ltb_ge. lia.
Qed.

Lemma Forall_True {A} (l : list A) : Forall (fun _ => True) l.
Proof. induction l; constructor; done. Qed.

Lemma sort_by_score_perm l :
  Permutation (Stl.sort alg _ (Layerify.doc_id_score_comparator Bm25Score) l) l.
Proof.
  apply (Stl.sort_spec _ Halg _ _ _ l doc_id_score_comparator_swo (Forall_True l)).
Qed.

Lemma sort_by_doc_id_perm l :
  Permutation (Stl.sort alg _ Layerify.IndexEntryDocIdComparison l) l.
Proof.
  apply (Stl.sort_spec _ Halg _ _ _ l IndexEntryDocIdComparison_swo (Forall_True l)).
Qed.

Lemma DumpToIndex_perm fuel l :
  (length l < fuel)%nat ->
  Permutation (DumpToIndex fuel l).2 l /\
  length (DumpToIndex fuel l).1 =
    Z.to_nat ((Z.of_nat (length l) + Z.max 1 CHUNK_SIZE - 1) / Z.max 1 CHUNK_SIZE).
Proof.
  revert l. induction fuel as [|fuel IH]; intros l Hl; [lia|].
  destruct l as [|e l].
  { cbn [Layerify.DumpToIndex fst snd length]. split; [constructor|]. change (Z.of_nat 0) with 0. rewrite Z.div_small by lia. done. }
  cbn [Layerify.DumpToIndex].
  set (n := Z.to_nat (Z.max 1 CHUNK_SIZE)).
  assert (Hn : (0 < n)%nat) by (unfold n; lia).
  unfold Layerify.GetChunkMaxScore.
  destruct (DumpToIndex fuel (drop n (e :: l))) as [max_scores rest] eqn:Hd.
  assert (Hlen : (length (drop n (e :: l)) < fuel)%nat).
  { rewrite length_drop. simpl in *. lia. }
  destruct (IH _ Hlen) as [Hperm Hcnt]. rewrite Hd in Hperm, Hcnt. simpl in Hperm, Hcnt.
  cbn [fst snd]. split.
  - rewrite sort_by_score_perm, Hperm. by rewrite take_drop.
  - cbn [length]. rewrite Hcnt. rewrite length_drop.
    set (c := Z.max 1 CHUNK_SIZE) in *.
    destruct (le_lt_dec (length (e :: l)) n) as [Hle|Hgt].
    + replace (length (e :: l) - n)%nat with 0%nat by lia.
      rewrite (Z.div_small (_ + c - 1)) by lia.
      assert (1 <= Z.of_nat (length (e :: l)) <= c) by (simpl in *; lia).
      change (S (length l)) with (length (e :: l)).
      replace ((Z.of_nat (length (e :: l)) + c - 1) / c) with 1; [simpl; lia|].
      apply Z.div_unique with (r := Z.of_nat (length (e :: l)) - 1); lia.
    + change (S (length l)) with (length (e :: l)).
      replace (Z.of_nat (length (e :: l)) + c - 1)
        with ((Z.of_nat (length (e :: l) - n) + c - 1) + 1 * c) by lia.
      rewrite Z.div_add by lia.
      assert (0 <= (Z.of_nat (length (e :: l) - n) + c - 1) / c)
        by (apply Z.div_pos; lia).
      lia.
Qed.


Lemma entry_at_update buf s e dumped idx :
  0 <= s <= e -> e <= Z.of_nat (length buf) -> Z.of_nat (length dumped) = e - s ->
  e <= idx ->
  Layerify.entry_at (take (Z.to_nat s) buf ++ dumped ++ drop (Z.to_nat e) buf) idx
  = Layerify.entry_at buf idx.
Proof.
  intros Hs He Hd Hi. unfold Layerify.entry_at.
  rewrite app_assoc, app_nth2; rewrite length_app, length_take; [|lia].
  rewrite <- (take_drop (Z.to_nat e) buf) at 3.
  rewrite (app_nth2 (take _ _)); rewrite length_take; [|lia].
  f_equal. lia.
Qed.

Lemma length_update (buf dumped : list Layerify.IndexEntry) s e :
  0 <= s <= e -> e <= Z.of_nat (length buf) -> Z.of_nat (length dumped) = e - s ->
  length (take (Z.to_nat s) buf ++ dumped ++ drop (Z.to_nat e) buf) = length buf.
Proof.
  intros Hs He Hd. rewrite !length_app, length_take, length_drop. lia.
Qed.

Lemma length_range (buf : list Layerify.IndexEntry) s e :
  0 <= s <= e -> e <= Z.of_nat (length buf) ->
  Z.of_nat (length (drop (Z.to_nat s) (take (Z.to_nat e) buf))) = e - s.
Proof. intros Hs He. rewrite length_drop, length_take. lia. Qed.

(** One iteration of the loop over the layers, with the facts about the
    sizes that the later iterations rely on. *)
Lemma layers_loop_step fuel i buf total left :
  0 <= i < 8 -> 0 < left -> left <= total -> total = Z.of_nat (length buf) ->
  exists l buf' left',
    layers_loop (S fuel) i buf total left = l :: layers_loop fuel (i + 1) buf' total left' /\
    Layerify.score_threshold l = score_at buf (total - left) /\
    Z.of_nat (length (Layerify.layer_entries l)) =
      (if overlapping_layers_ then total - left' else left - left') /\
    0 <= left' < left /\
    (i = num_layers_ - 1 -> left' = 0) /\
    (0 < left' -> SFltb (score_at buf (total - left')) (score_at buf (total - left)) = true) /\
    total = Z.of_nat (length buf') /\
    (forall idx, total - left' <= idx ->
       Layerify.entry_at buf' idx = Layerify.entry_at buf idx).
Proof.
  intros Hi Hl Ht Hlen. cbn [Layerify.layers_loop].
  destruct (Z.leb_spec left 0) as [|_]; [lia|].
  destruct (split_layer buf i total left) as [curr' left'] eqn:Hs.
  apply split_layer_spec in Hs; [|done..].
  destruct Hs as (Hsum & Hl' & Hc' & Hlast & Hcmp).
  set (cstart := total - left' - curr').
  set (lstart := if overlapping_layers_ then 0 else cstart).
  set (range := drop (Z.to_nat lstart) (take (Z.to_nat (cstart + curr')) buf)).
  set (sorted := Stl.sort alg _ Layerify.IndexEntryDocIdComparison range).
  destruct (DumpToIndex (S (length sorted)) sorted) as [max_scores dumped] eqn:Hd.
  assert (Hls : 0 <= lstart <= cstart + curr') by (unfold lstart, cstart; destruct overlapping_layers_; lia).
  assert (Hce : cstart + curr' <= Z.of_nat (length buf)) by (unfold cstart; lia).
  assert (Hrange : Z.of_nat (length range) = cstart + curr' - lstart)
    by (apply length_range; done).
  assert (Hsorted : length sorted = length range)
    by (apply Permutation_length, sort_by_doc_id_perm).
  assert (Hdumped : length dumped = length sorted).
  { pose proof (DumpToIndex_perm (S (length sorted)) sorted ltac:(lia)) as [Hp _].
    rewrite Hd in Hp. apply Permutation_length in Hp. done. }
  eexists _, _, left'. split; [reflexivity|]. cbn [Layerify.score_threshold Layerify.layer_entries].
  repeat split.
  - f_equal. f_equal. unfold cstart. lia.
  - rewrite Hsorted, Hrange. unfold lstart, cstart. destruct overlapping_layers_; lia.
  - lia.
  - lia.
  - done.
  - intros Hp. apply SFltb_of_not_leb; [apply Hscore..|]. by apply Hcmp.
  - rewrite length_update; [done|done|done|]. lia.
  - intros idx Hidx. apply entry_at_update; [done|done|lia|]. unfold cstart. lia.
Qed.

Lemma layers_loop_nil fuel i buf total left :
  left <= 0 -> layers_loop fuel i buf total left = [].
Proof.
  intros Hl. destruct fuel; [done|]. cbn [Layerify.layers_loop].
  destruct (Z.leb_spec left 0); [done|lia].
Qed.

(** The thresholds of consecutive layers, read off the buffer. *)
Lemma layers_loop_thresholds fuel : forall i buf total left,
  0 <= i -> i + Z.of_nat fuel <= 8 -> 0 <= left <= total -> total = Z.of_nat (length buf) ->
  let layers := layers_loop fuel i buf total left in
  (forall l, layers !! 0%nat = Some l ->
     Layerify.score_threshold l = score_at buf (total - left)) /\
  (forall j l1 l2, layers !! j = Some l1 -> layers !! S j = Some l2 ->
     SFltb (Layerify.score_threshold l2) (Layerify.score_threshold l1) = true).
Proof.
  induction fuel as [|fuel IH]; intros i buf total left Hi Hf Hl Hlen; cbn zeta.
  { simpl. split; intros; done. }
  destruct (Z.leb_spec left 0) as [Hz|Hp].
  { rewrite layers_loop_nil by done. split; intros; done. }
  destruct (layers_loop_step fuel i buf total left) as
    (l & buf' & left' & -> & Hthr & _ & Hl' & _ & Hcmp & Hlen' & Hsame); [lia..|done|].
  destruct (IH (i + 1) buf' total left') as [IH0 IHj]; [lia..|done|].
  split.
  - intros l0 [= <-]. done.
  - intros [|j] l1 l2.
    + intros [= <-] H2. cbn in H2. rewrite (IH0 _ H2), Hthr, Hsame by lia.
      apply Hcmp. destruct (Z.leb_spec left' 0) as [Hz|]; [|done].
      rewrite layers_loop_nil in H2; done.
    + intros H1 H2. exact (IHj j l1 l2 H1 H2).
Qed.

(** Without overlap the layers partition the list. *)
Lemma layers_loop_posting_count fuel : forall i buf total left,
  overlapping_layers_ = false ->
  0 <= i -> i + Z.of_nat fuel = num_layers_ -> num_layers_ <= 8 ->
  0 <= left <= total -> total = Z.of_nat (length buf) ->
  (fuel = 0%nat -> left = 0) ->
  foldr (fun l acc => Z.of_nat (length (Layerify.layer_entries l)) + acc) 0
        (layers_loop fuel i buf total left) = left.
Proof.
  induction fuel as [|fuel IH]; intros i buf total left Hov Hi Hf Hn Hl Hlen H0.
  { simpl. rewrite H0; done. }
  destruct (Z.leb_spec left 0) as [Hz|Hp].
  { rewrite layers_loop_nil by done. simpl. lia. }
  destruct (layers_loop_step fuel i buf total left) as
    (l & buf' & left' & -> & _ & Hsize & Hl' & Hlast & _ & Hlen' & _); [lia..|done|].
  rewrite Hov in Hsize. cbn [foldr]. rewrite Hsize.
  rewrite (IH (i + 1) buf' total left'); [lia|done|lia..|done|].
  intros ->. apply Hlast. lia.
Qed.

End LayerifyFacts.
(** Rounding a non-negative significand never yields a NaN. *)
Lemma shr_1_nonneg mrs : 0 <= shr_m mrs -> 0 <= shr_m (shr_1 mrs).
Proof. destruct mrs as [m r s]. simpl. destruct m as [|[p|p|]|p]; simpl; lia. Qed.

Lemma iter_pos_shr_1_nonneg p mrs :
  0 <= shr_m mrs -> 0 <= shr_m (SpecFloat.iter_pos shr_1 p mrs).
Proof.
  revert mrs. induction p as [p IH|p IH|]; intros mrs H; simpl.
  - apply IH, IH, shr_1_nonneg, H.
  - apply IH, IH, H.
  - by apply shr_1_nonneg.
Qed.

Lemma shr_fexp_nonneg prec emax m e l :
  0 <= m -> 0 <= shr_m (shr_fexp prec emax m e l).1.
Proof.
  intros Hm. unfold shr_fexp, shr.
  assert (H0 : 0 <= shr_m (shr_record_of_loc m l)) by (destruct l as [|[]]; simpl; lia).
  destruct (fexp prec emax (Zdigits2 m + e) - e); simpl; try done.
  by apply iter_pos_shr_1_nonneg.
Qed.

Lemma binary_round_aux_not_nan prec emax sx m e l :
  0 <= m -> binary_round_aux prec emax sx m e l <> S754_nan.
Proof.
  intros Hm. unfold binary_round_aux.
  pose proof (shr_fexp_nonneg prec emax m e l Hm) as H1.
  destruct (shr_fexp prec emax m e l) as [mrs' e']. simpl in H1.
  assert (H2 : 0 <= round_nearest_even (shr_m mrs') (loc_of_shr_record mrs')).
  { unfold round_nearest_even. destruct (loc_of_shr_record mrs') as [|[]]; try lia.
    destruct (IntDef.Z.even _); lia. }
  pose proof (shr_fexp_nonneg prec emax _ e' loc_Exact H2) as H3.
  destruct (shr_fexp prec emax _ e' loc_Exact) as [mrs'' e'']. simpl in H3.
  destruct (shr_m mrs''); [done| |lia].
  destruct (_ <=? _); done.
Qed.

Lemma binary_normalize_not_nan prec emax m e s :
  binary_normalize prec emax m e s <> S754_nan.
Proof.
  unfold binary_normalize, binary_round. destruct m as [|p|p]; [done|..];
    destruct (shl_align _ _ _); apply binary_round_aux_not_nan; lia.
Qed.

Lemma F32_of_Z_not_nan z : TopK.not_nan (F32.of_Z z).
Proof.
  unfold TopK.not_nan, F32.of_Z.
  pose proof (binary_normalize_not_nan F32.prec F32.emax z 0 false) as H.
  destruct (binary_normalize _ _ _ _ _); done.
Qed.
Section LayeredIndexGenerator.

Context (alg : Stl.algorithms) (Bm25Score : Layerify.IndexEntry -> spec_float)
  (pow : spec_float -> spec_float -> spec_float) (CHUNK_SIZE num_layers_ : Z)
  (layer_splitting_strategy : Layerify.LayerSplitMode).
Hypothesis Halg : Stl.conforming alg.
Hypothesis Hscore : forall e, TopK.not_nan (Bm25Score e).
Hypothesis Hnum_layers : 0 < num_layers_ <= 8.

(** X1. The thresholds written for the layers of one term are strictly
    decreasing in the layer index, with or without overlap. *)
Theorem layerify_list_thresholds_decreasing overlapping_layers_ postings j l1 l2 :
  let layers :=
    Layerify.layerify_list alg Bm25Score pow CHUNK_SIZE num_layers_ overlapping_layers_
      layer_splitting_strategy postings in
  layers !! j = Some l1 -> layers !! S j = Some l2 ->
  SFltb (Layerify.score_threshold l2) (Layerify.score_threshold l1) = true.
Proof.
  intros layers. unfold layers, Layerify.layerify_list.
  eapply (layers_loop_thresholds alg Bm25Score pow CHUNK_SIZE num_layers_ overlapping_layers_
            layer_splitting_strategy Halg Hscore); try lia.
  symmetry. f_equal. apply Permutation_length.
  apply (sort_by_score_perm alg Bm25Score Halg Hscore).
Qed.

Lemma layerify_list_posting_count postings :
  foldr (fun l acc => Z.of_nat (length (Layerify.layer_entries l)) + acc) 0
    (Layerify.layerify_list alg Bm25Score pow CHUNK_SIZE num_layers_ false
       layer_splitting_strategy postings)
  = Z.of_nat (length postings).
Proof.
  unfold Layerify.layerify_list.
  apply (layers_loop_posting_count alg Bm25Score pow CHUNK_SIZE num_layers_ false
           layer_splitting_strategy Halg Hscore); try done; try lia.
  symmetry. f_equal. apply Permutation_length.
  apply (sort_by_score_perm alg Bm25Score Halg Hscore).
Qed.

Lemma foldr_layer_lengths (layers : list Layerify.Layer) acc :
  foldr (fun l acc => Z.of_nat (length (Layerify.layer_entries l)) + acc) acc layers
  = foldr (fun l acc => Z.of_nat (length (Layerify.layer_entries l)) + acc) 0 layers + acc.
Proof. induction layers as [|l layers IH]; simpl; lia. Qed.

Lemma CreateLayeredIndex_posting_count index :
  Layerify.posting_count
    (Layerify.CreateLayeredIndex alg Bm25Score pow CHUNK_SIZE num_layers_ false
       layer_splitting_strategy index)
  = foldr (fun '(_, postings) acc => Z.of_nat (length postings) + acc) 0 index.
Proof.
  unfold Layerify.posting_count, Layerify.CreateLayeredIndex.
  induction index as [|[term postings] index IH]; [done|].
  cbn [map foldr]. rewrite foldr_layer_lengths, layerify_list_posting_count, IH. done.
Qed.

(** C7. The meta file of the layered index repeats the collection counters
    of the input meta file, and without overlap its posting count is the
    number of postings of the input index, which a consistent input meta
    file records. *)
Theorem WriteMetaFile_round_trip overlapping_layers_ input_meta index key :
  let layered :=
    Layerify.CreateLayeredIndex alg Bm25Score pow CHUNK_SIZE num_layers_ overlapping_layers_
      layer_splitting_strategy index in
  let output_meta := Layerify.WriteMetaFile num_layers_ input_meta layered in
  (key ∈ ["total_num_docs"; "total_document_lengths"; "first_doc_id"; "last_doc_id"]%string ->
     is_Some (input_meta !! key) -> output_meta !! key = input_meta !! key) /\
  (overlapping_layers_ = false ->
   input_meta !! "index_posting_count"%string =
     Some (foldr (fun '(_, postings) acc => Z.of_nat (length postings) + acc) 0 index) ->
   output_meta !! "index_posting_count"%string = input_meta !! "index_posting_count"%string).
Proof.
  intros layered output_meta. split.
  - intros Hkey [v Hv]. unfold output_meta, Layerify.WriteMetaFile, Layerify.GetResultValue.
    repeat (apply elem_of_cons in Hkey as [->|Hkey]);
      [..|by apply elem_of_nil in Hkey];
      rewrite Hv; simpl; by simplify_map_eq.
  - intros -> Hcount. unfold output_meta, Layerify.WriteMetaFile.
    rewrite Hcount. simplify_map_eq. f_equal.
    apply CreateLayeredIndex_posting_count.
Qed.

End LayeredIndexGenerator.

Lemma WriteMetaFile_round_trip_witness :
  Layerify.WriteMetaFile 2 LayerifyExample.input_meta (LayerifyExample.CreateLayeredIndex false)
    !! "index_posting_count"%string
  = LayerifyExample.input_meta !! "index_posting_count"%string.
Proof.
  apply (WriteMetaFile_round_trip Stl.reference LayerifyExample.Bm25Score
    LayerifyExample.pow 128 2 Layerify.kPercentageFixedBounded reference_conforming
    ltac:(intros e; apply F32_of_Z_not_nan) ltac:(lia)
    false LayerifyExample.input_meta LayerifyExample.index "total_num_docs"%string).
  - reflexivity.
  - vm_compute. reflexivity.
Defined.

Lemma layerify_list_thresholds_decreasing_witness :
  exists l1 l2,
    LayerifyExample.layerify_list true = [l1; l2] /\
    SFltb (Layerify.score_threshold l2) (Layerify.score_threshold l1) = true.
Proof.
  eexists _, _. split; [vm_compute; reflexivity|].
  apply (layerify_list_thresholds_decreasing Stl.reference LayerifyExample.Bm25Score
    LayerifyExample.pow 128 2 Layerify.kPercentageFixedBounded reference_conforming
    ltac:(intros e; apply F32_of_Z_not_nan) ltac:(lia) true LayerifyExample.postings 0%nat);
  vm_compute; reflexivity.
Defined.

(** C6. On the forty postings of [LayerifyExample] the first layer ends
    with the posting of document 40 and every posting of the second layer
    has the same score as it: none was moved up.  The boundary loop compares the first posting of the
    current layer, not its last. *)
Theorem layer_boundary_tie_not_migrated :
  exists l1 l2,
    LayerifyExample.layerify_list false = [l1; l2] /\
    map Layerify.doc_id (Layerify.layer_entries l1) = [1; 40] /\
    map Layerify.doc_id (Layerify.layer_entries l2) = map Z.of_nat (seq 2 38) /\
    Forall (fun e => SFeqb (LayerifyExample.Bm25Score e)
                       (LayerifyExample.Bm25Score {| Layerify.doc_id := 40; Layerify.frequency := 1 |}) = true)
           (Layerify.layer_entries l2) /\
    {| Layerify.doc_id := 40; Layerify.frequency := 1 |} ∈ Layerify.layer_entries l1.
Proof.
  eexists _, _. split; [vm_compute; reflexivity|].
  cbn [Layerify.layer_entries]. repeat split; try reflexivity.
  - repeat (constructor; [vm_compute; reflexivity|]). constructor.
  - set_solver.
Qed.
(** ** The cursor returns the smallest docID at or above the target *)

Lemma last_cons_default {A} (x d : A) l : List.last (x :: l) d = List.last l x.
Proof.
  revert x d. induction l as [|y l IH]; intros x d; [reflexivity|].
  change (List.last (x :: y :: l) d) with (List.last (y :: l) d).
  rewrite (IH y d), (IH y x). reflexivity.
Qed.

Lemma decode_app p g1 g2 :
  Cursor.decode p (g1 ++ g2)
  = Cursor.decode p g1 ++ Cursor.decode (List.last (Cursor.decode p g1) p) g2.
Proof.
  revert p. induction g1 as [|g g1 IH]; intros p; [done|].
  cbn [Cursor.decode app]. rewrite IH, last_cons_default. done.
Qed.

Lemma last_app_default {A} (l1 l2 : list A) d :
  List.last (l1 ++ l2) d = List.last l2 (List.last l1 d).
Proof.
  revert d. induction l1 as [|x l1 IH]; intros d; [done|].
  rewrite <- app_comm_cons, !last_cons_default. apply IH.
Qed.

Lemma decode_last_app p g1 g2 :
  List.last (Cursor.decode p (g1 ++ g2)) p
  = List.last (Cursor.decode (List.last (Cursor.decode p g1) p) g2)
              (List.last (Cursor.decode p g1) p).
Proof. rewrite decode_app. apply last_app_default. Qed.

Lemma decode_bounds p g :
  Forall (fun gap => 0 <= gap) g ->
  Forall (fun d => p <= d <= List.last (Cursor.decode p g) p) (Cursor.decode p g).
Proof.
  revert p. induction g as [|x g IH]; intros p Hg; [constructor|].
  apply Forall_cons in Hg as [Hx Hg]. cbn [Cursor.decode].
  rewrite last_cons_default.
  specialize (IH (p + x) Hg).
  assert (Hl : p + x <= List.last (Cursor.decode (p + x) g) (p + x)).
  { destruct (Cursor.decode (p + x) g) as [|d l] eqn:E; [simpl; lia|].
    apply Forall_cons in IH as [IH _]. lia. }
  constructor; [lia|].
  eapply Forall_impl; [exact IH|]. simpl. intros d ?. lia.
Qed.

Lemma decode_last_ge p g :
  Forall (fun gap => 0 <= gap) g -> p <= List.last (Cursor.decode p g) p.
Proof.
  intros Hg. pose proof (decode_bounds p g Hg) as H.
  destruct (Cursor.decode p g) as [|d l] eqn:E; [simpl; lia|].
  apply Forall_cons in H as [H _]. lia.
Qed.

Lemma drop_below_app_lt t l1 l2 :
  Forall (fun d => d < t) l1 -> Cursor.drop_below t (l1 ++ l2) = Cursor.drop_below t l2.
Proof.
  induction 1 as [|d l1 Hd _ IH]; [done|]. simpl.
  destruct (Z.ltb_spec d t); [done|lia].
Qed.

Lemma drop_below_all_lt t l :
  Forall (fun d => d < t) l -> Cursor.drop_below t l = [].
Proof. intros H. rewrite <- (app_nil_r l), drop_below_app_lt; done. Qed.

(** Step 3. *)
Lemma walk_spec g : forall o p t,
  match Cursor.walk g o p t with
  | Some (d, o', p') =>
      exists n, o' = (o + n)%nat /\ (n < length g)%nat /\
        Cursor.drop_below t (Cursor.decode p g) = Cursor.decode p' (drop n g) /\
        (forall l2, Cursor.drop_below t (Cursor.decode p g ++ l2)
                    = Cursor.decode p' (drop n g) ++ l2) /\
        hd 0 (Cursor.decode p' (drop n g)) = d /\ t <= d /\
        List.last (Cursor.decode p' (drop n g)) p' = List.last (Cursor.decode p g) p
  | None => Forall (fun d => d < t) (Cursor.decode p g)
  end.
Proof.
  induction g as [|x g IH]; intros o p t; [constructor|].
  cbn [Cursor.walk]. destruct (Z.leb_spec t (p + x)) as [Hle|Hlt].
  - exists 0%nat. cbn [drop Cursor.decode Cursor.drop_below hd app].
    destruct (Z.ltb_spec (p + x) t); [lia|].
    repeat split; try done; simpl; lia.
  - specialize (IH (S o) (p + x) t).
    destruct (Cursor.walk g (S o) (p + x) t) as [[[d o'] p']|].
    + destruct IH as (n & -> & Hn & Hd & Hd2 & Hhd & Hle & Hlast).
      exists (S n). cbn [drop Cursor.decode Cursor.drop_below app].
      destruct (Z.ltb_spec (p + x) t); [|lia].
      repeat split; try done; try (simpl; lia).
      rewrite Hlast, last_cons_default. done.
    + cbn [Cursor.decode]. constructor; done.
Qed.

Lemma drop_below_suffix t l : exists l1, l = l1 ++ Cursor.drop_below t l.
Proof.
  induction l as [|d l [l1 IH]]; [by exists []|]. simpl.
  destruct (d <? t); [|by exists []]. exists (d :: l1). simpl. by rewrite <- IH.
Qed.

Lemma last_drop_below t l d d' :
  Cursor.drop_below t l <> [] -> List.last (Cursor.drop_below t l) d' = List.last l d.
Proof.
  intros Hne. destruct (drop_below_suffix t l) as [l1 Hl].
  rewrite Hl at 2. rewrite last_app_default.
  destruct (Cursor.drop_below t l) as [|x l2]; [done|].
  by rewrite !last_cons_default.
Qed.

Lemma decode_nil_inv p g : Cursor.decode p g = [] -> g = [].
Proof. destruct g; done. Qed.

Lemma decode_last_in p g : g <> [] -> List.last (Cursor.decode p g) p ∈ Cursor.decode p g.
Proof.
  revert p. induction g as [|x g IH]; intros p Hne; [done|].
  cbn [Cursor.decode]. rewrite last_cons_default.
  destruct g as [|y g]; [simpl; set_solver|].
  apply elem_of_cons. right. apply IH. done.
Qed.

(** The docIDs of consecutive chunks, and the header entries. *)
Lemma chunks_ok_length p lasts chs :
  Cursor.chunks_ok p lasts chs -> length lasts = length chs.
Proof.
  revert p chs. induction lasts as [|l lasts IH]; intros p [|ch chs]; simpl; try done.
  intros (_ & _ & _ & H). f_equal. by apply (IH l).
Qed.

Lemma chunks_ok_last p lasts chs :
  Cursor.chunks_ok p lasts chs ->
  List.last (Cursor.decode p (concat (map Cursor.doc_id_gaps chs))) p = List.last lasts p /\
  Forall (fun gap => 0 <= gap) (concat (map Cursor.doc_id_gaps chs)).
Proof.
  revert p chs. induction lasts as [|l lasts IH]; intros p [|ch chs];
    cbn [Cursor.chunks_ok map concat]; try done.
  intros (Hne & Hpos & Hl & Hok).
  destruct (IH l chs Hok) as [IH1 IH2]. split.
  - rewrite decode_last_app, <- Hl, IH1. by rewrite last_cons_default.
  - apply Forall_app. done.
Qed.

(** Steps 2 and 3 inside one block. *)
Lemma chunk_steps chs : forall lasts k o p t ch chs' l lasts',
  chs = ch :: chs' -> lasts = l :: lasts' ->
  (o < length (Cursor.doc_id_gaps ch))%nat ->
  Forall (fun gap => 0 <= gap) (Cursor.doc_id_gaps ch) ->
  l = List.last (Cursor.decode p (drop o (Cursor.doc_id_gaps ch))) p ->
  Cursor.chunks_ok l lasts' chs' ->
  t <= List.last lasts 0 ->
  let '(k', o0, p0) := Cursor.AdvanceChunk lasts k o p t in
  exists n ch', k' = (k + n)%nat /\ chs !! n = Some ch' /\
    match Cursor.walk (drop o0 (Cursor.doc_id_gaps ch')) o0 p0 t with
    | Some (d, o', p') =>
        (o' < length (Cursor.doc_id_gaps ch'))%nat /\ t <= d /\
        (forall l2,
           Cursor.drop_below t
             (Cursor.decode p
                (drop o (Cursor.doc_id_gaps ch) ++ concat (map Cursor.doc_id_gaps chs')) ++ l2)
           = Cursor.decode p'
               (drop o' (Cursor.doc_id_gaps ch')
                  ++ concat (map Cursor.doc_id_gaps (drop (S n) chs))) ++ l2) /\
        hd 0 (Cursor.decode p' (drop o' (Cursor.doc_id_gaps ch'))) = d /\
        nth n lasts 0 = List.last (Cursor.decode p' (drop o' (Cursor.doc_id_gaps ch'))) p'
    | None => False
    end.
Proof.
  induction chs as [|ch0 chs0 IH]; intros lasts k o p t ch chs' l lasts' Hchs Hlasts Ho Hpos Hl Hok Ht;
    [done|].
  injection Hchs as -> ->. subst lasts. cbn [Cursor.AdvanceChunk].
  set (g := drop o (Cursor.doc_id_gaps ch)) in *.
  assert (Hg : g <> []).
  { unfold g. intros E. apply (f_equal length) in E. rewrite length_drop in E. simpl in E. lia. }
  assert (Hgpos : Forall (fun gap => 0 <= gap) g) by (by apply Forall_drop).
  destruct (Z.leb_spec t l) as [Hle|Hlt].
  - exists 0%nat, ch. split; [lia|]. split; [done|].
    pose proof (walk_spec g o p t) as Hw. fold g.
    destruct (Cursor.walk g o p t) as [[[d o'] p']|].
    + destruct Hw as (n & -> & Hn & Hd & Hd2 & Hhd & Hd_le & Hlast).
      assert (Hdrop : drop (o + n) (Cursor.doc_id_gaps ch) = drop n g)
        by (unfold g; rewrite drop_drop; done).
      rewrite Hdrop. unfold g in Hn. rewrite length_drop in Hn.
      repeat split; try done; try lia.
      * intros l2. rewrite !decode_app, <- !app_assoc, Hd2, Hlast. done.
      * simpl. rewrite Hlast. done.
    + pose proof (decode_last_in p g Hg) as Hin.
      rewrite Forall_forall in Hw. specialize (Hw _ Hin). lia.
  - destruct lasts' as [|l1 lasts1].
    { simpl in Ht. lia. }
    destruct chs' as [|ch1 chs1]; [done|].
    destruct Hok as (Hne1 & Hpos1 & Hl1 & Hok1).
    specialize (IH (l1 :: lasts1) (S k) 0%nat l t ch1 chs1 l1 lasts1 eq_refl eq_refl).
    rewrite drop_0 in IH.
    assert (Hlen1 : (0 < length (Cursor.doc_id_gaps ch1))%nat)
      by (destruct (Cursor.doc_id_gaps ch1); [done|simpl; lia]).
    specialize (IH Hlen1 Hpos1 Hl1 Hok1).
    assert (Ht1 : t <= List.last (l1 :: lasts1) 0) by exact Ht.
    specialize (IH Ht1).
    destruct (Cursor.AdvanceChunk (l1 :: lasts1) (S k) 0 l t) as [[k' o0] p0].
    destruct IH as (n & ch' & -> & Hlook & Hw).
    exists (S n), ch'. split; [lia|]. split; [done|].
    destruct (Cursor.walk _ o0 p0 t) as [[[d o'] p']|]; [|done].
    destruct Hw as (Ho' & Hd & Hdrop & Hhd & Hnth).
    repeat split; try done.
    intros l2. cbn [map concat]. rewrite (decode_app p g), <- app_assoc, <- Hl.
    rewrite drop_below_app_lt; [apply Hdrop|].
    pose proof (decode_bounds p g Hgpos) as Hb. rewrite <- Hl in Hb.
    eapply Forall_impl; [exact Hb|]. simpl. intros; lia.
Qed.

Lemma last_nonempty_default {A} (l : list A) d d' : l <> [] -> List.last l d = List.last l d'.
Proof. destruct l as [|x l]; [done|]. intros _. by rewrite !last_cons_default. Qed.

Lemma last_drop_nth (l : list Z) k :
  (k < length l)%nat -> List.last (drop (S k) l) (nth k l 0) = List.last l 0.
Proof.
  revert k. induction l as [|x l IH]; intros k Hk; [simpl in Hk; lia|].
  destruct k as [|k].
  - simpl drop. rewrite drop_0. cbn [nth]. by rewrite last_cons_default.
  - cbn [drop nth]. rewrite last_cons_default. simpl in Hk.
    rewrite IH by lia. destruct l; [simpl in Hk; lia|]. by rewrite !last_cons_default.
Qed.

Lemma chunks_ok_lookup lasts : forall p chs k ch,
  Cursor.chunks_ok p lasts chs -> chs !! k = Some ch ->
  let base := match k with O => p | S i => nth i lasts 0 end in
  Cursor.doc_id_gaps ch <> [] /\ Forall (fun gap => 0 <= gap) (Cursor.doc_id_gaps ch) /\
  nth k lasts 0 = List.last (Cursor.decode base (Cursor.doc_id_gaps ch)) base /\
  Cursor.chunks_ok (nth k lasts 0) (drop (S k) lasts) (drop (S k) chs).
Proof.
  induction lasts as [|l lasts IH]; intros p [|ch0 chs] k ch Hok Hk; try done.
  destruct Hok as (Hne & Hpos & Hl & Hok).
  destruct k as [|k].
  - injection Hk as <-. cbn [nth drop]. rewrite !drop_0. done.
  - cbn in Hk. specialize (IH l chs k ch Hok Hk). cbn [nth drop].
    destruct k as [|k]; exact IH.
Qed.

Lemma block_docs p b :
  Cursor.chunks b <> [] -> Cursor.chunks_ok p (Cursor.chunk_last_doc_ids b) (Cursor.chunks b) ->
  List.last (Cursor.decode p (Cursor.block_gaps b)) p = Cursor.block_last_doc_id b /\
  Forall (fun gap => 0 <= gap) (Cursor.block_gaps b) /\
  p <= Cursor.block_last_doc_id b.
Proof.
  intros Hne Hok. destruct (chunks_ok_last _ _ _ Hok) as [Hlast Hpos].
  assert (Hl : Cursor.chunk_last_doc_ids b <> []).
  { intros E. apply chunks_ok_length in Hok. rewrite E in Hok. destruct (Cursor.chunks b); done. }
  unfold Cursor.block_gaps, Cursor.block_last_doc_id.
  rewrite Hlast, (last_nonempty_default _ p 0 Hl). repeat split; [done|].
  rewrite <- (last_nonempty_default _ p 0 Hl), <- Hlast. by apply decode_last_ge.
Qed.

Lemma blocks_ok_lookup layer : forall p i b,
  Cursor.blocks_ok p layer -> layer !! i = Some b ->
  let base := match i with O => p | S j => Cursor.block_last_doc_id (nth j layer Cursor.no_block) end in
  Cursor.chunks b <> [] /\
  Cursor.chunks_ok base (Cursor.chunk_last_doc_ids b) (Cursor.chunks b) /\
  Cursor.blocks_ok (Cursor.block_last_doc_id b) (drop (S i) layer).
Proof.
  induction layer as [|b0 layer IH]; intros p i b Hok Hi; [done|].
  destruct Hok as (Hne & Hch & Hok).
  destruct i as [|i].
  - injection Hi as <-. cbn [drop]. rewrite drop_0. done.
  - cbn in Hi. specialize (IH _ i b Hok Hi). cbn [nth drop].
    destruct i as [|i]; exact IH.
Qed.

Lemma layer_gaps_cons b layer :
  Cursor.layer_gaps (b :: layer) = Cursor.block_gaps b ++ Cursor.layer_gaps layer.
Proof. done. Qed.

(** Step 1 without the block-level index. *)
Lemma BlockSequentialSearch_spec rest : forall idx t prev,
  Cursor.blocks_ok prev rest ->
  exists n, Cursor.BlockSequentialSearch rest idx t = (idx + n)%nat /\ (n <= length rest)%nat /\
    (forall i b, (i < n)%nat -> rest !! i = Some b -> Cursor.block_last_doc_id b < t) /\
    (forall b, rest !! n = Some b -> t <= Cursor.block_last_doc_id b) /\
    Cursor.drop_below t (Cursor.decode prev (Cursor.layer_gaps rest))
    = Cursor.drop_below t
        (Cursor.decode
           match n with O => prev | S j => Cursor.block_last_doc_id (nth j rest Cursor.no_block) end
           (Cursor.layer_gaps (drop n rest))).
Proof.
  induction rest as [|b rest IH]; intros idx t prev Hok.
  { exists 0%nat. simpl. repeat split; try done; try lia. }
  destruct Hok as (Hne & Hch & Hok). cbn [Cursor.BlockSequentialSearch].
  destruct (Z.leb_spec t (Cursor.block_last_doc_id b)) as [Hle|Hlt].
  - exists 0%nat. rewrite Nat.add_0_r.
    split; [done|]. split; [simpl; lia|]. split; [intros; lia|].
    split; [intros b' [= <-]; done|]. done.
  - destruct (IH (S idx) t _ Hok) as (n & -> & Hn & Hbelow & Hat & Hdrop).
    exists (S n).
    split; [lia|]. split; [simpl; lia|]. split; [|split; [exact Hat|]].
    + intros [|i] b' Hi Hb'.
      * injection Hb' as <-. done.
      * apply (Hbelow i b'); [lia|done].
    + destruct (block_docs prev b Hne Hch) as (Hlast & Hpos & _).
      rewrite layer_gaps_cons, decode_app, Hlast.
      rewrite drop_below_app_lt.
      * rewrite Hdrop. cbn [drop nth]. destruct n; done.
      * pose proof (decode_bounds prev _ Hpos) as Hb. rewrite Hlast in Hb.
        eapply Forall_impl; [exact Hb|]. simpl. intros; lia.
Qed.

Lemma nth_map_lookup (layer : list Cursor.Block) i b :
  layer !! i = Some b -> nth i (map Cursor.block_last_doc_id layer) 0 = Cursor.block_last_doc_id b.
Proof.
  revert i. induction layer as [|b0 layer IH]; intros [|i] H; try done.
  - by injection H as <-.
  - by apply IH.
Qed.

Lemma nth_lookup_block (layer : list Cursor.Block) i b :
  layer !! i = Some b -> nth i layer Cursor.no_block = b.
Proof.
  revert i. induction layer as [|b0 layer IH]; intros [|i] H; try done.
  - by injection H as <-.
  - by apply IH.
Qed.

Lemma blocks_ok_lasts_ge layer : forall p i b,
  Cursor.blocks_ok p layer -> layer !! i = Some b -> p <= Cursor.block_last_doc_id b.
Proof.
  induction layer as [|b0 layer IH]; intros p i b Hok Hi; [done|].
  destruct Hok as (Hne & Hch & Hok).
  destruct (block_docs p b0 Hne Hch) as (_ & _ & Hle).
  destruct i as [|i].
  - by injection Hi as <-.
  - specialize (IH _ i b Hok Hi). lia.
Qed.

Lemma blocks_ok_sorted p layer i j bi bj :
  Cursor.blocks_ok p layer -> (i <= j)%nat -> layer !! i = Some bi -> layer !! j = Some bj ->
  Cursor.block_last_doc_id bi <= Cursor.block_last_doc_id bj.
Proof.
  intros Hok Hij Hi Hj.
  destruct (decide (i = j)) as [->|Hne]; [rewrite Hi in Hj; injection Hj as <-; lia|].
  destruct (blocks_ok_lookup layer p i bi Hok Hi) as (_ & _ & Hrest).
  apply (blocks_ok_lasts_ge _ _ (j - S i)%nat bj Hrest).
  rewrite lookup_drop. rewrite <- Hj. f_equal. lia.
Qed.

(** Step 1 with the block-level index: the binary search finds the block
    that the linear advance finds. *)
Lemma BlockBinarySearch_spec fuel : forall a lo hi t,
  (forall i j, (i <= j < length a)%nat -> nth i a 0 <= nth j a 0) ->
  (lo <= hi <= length a)%nat -> (hi - lo < fuel)%nat ->
  let j := Cursor.BlockBinarySearch fuel a lo hi t in
  (lo <= j <= hi)%nat /\
  (forall i, (lo <= i < j)%nat -> nth i a 0 < t) /\
  (forall i, (j <= i < hi)%nat -> t <= nth i a 0).
Proof.
  induction fuel as [|fuel IH]; intros a lo hi t Hsorted Hlh Hfuel; [lia|].
  cbn [Cursor.BlockBinarySearch].
  destruct (Nat.leb_spec hi lo) as [Hle|Hlt].
  { cbn zeta. repeat split; try lia; intros; lia. }
  set (mid := ((lo + hi) / 2)%nat).
  assert (Hmid : (lo <= mid < hi)%nat).
  { unfold mid. split.
    - apply Nat.div_le_lower_bound; lia.
    - apply Nat.Div0.div_lt_upper_bound; lia. }
  destruct (Z.ltb_spec (nth mid a 0) t) as [Hm|Hm].
  - destruct (IH a (S mid) hi t Hsorted ltac:(lia) ltac:(lia)) as (Hj & Hlow & Hhigh).
    cbn zeta. split; [lia|]. split; [|done].
    intros i Hi. destruct (le_lt_dec i mid) as [Him|Him].
    + specialize (Hsorted i mid ltac:(lia)). lia.
    + apply Hlow. lia.
  - destruct (IH a lo mid t Hsorted ltac:(lia) ltac:(lia)) as (Hj & Hlow & Hhigh).
    cbn zeta. split; [lia|]. split; [done|].
    intros i Hi. destruct (le_lt_dec mid i) as [Him|Him].
    + specialize (Hsorted mid i ltac:(lia)). lia.
    + apply Hhigh. lia.
Qed.

Lemma BlockBinarySearch_sequential layer p next t :
  Cursor.blocks_ok p layer -> (next <= length layer)%nat ->
  Cursor.BlockBinarySearch (S (length layer)) (map Cursor.block_last_doc_id layer)
    next (length layer) t
  = Cursor.BlockSequentialSearch (drop next layer) next t.
Proof.
  intros Hok Hnext.
  assert (Hsorted : forall i j, (i <= j < length (map Cursor.block_last_doc_id layer))%nat ->
    nth i (map Cursor.block_last_doc_id layer) 0 <= nth j (map Cursor.block_last_doc_id layer) 0).
  { intros i j Hij. rewrite length_map in Hij.
    destruct (lookup_lt_is_Some_2 layer i ltac:(lia)) as [bi Hi].
    destruct (lookup_lt_is_Some_2 layer j ltac:(lia)) as [bj Hj].
    rewrite (nth_map_lookup _ _ _ Hi), (nth_map_lookup _ _ _ Hj).
    apply (blocks_ok_sorted p layer i j); [done|lia|done|done]. }
  pose proof (BlockBinarySearch_spec (S (length layer)) _ next (length layer) t Hsorted
                ltac:(rewrite length_map; lia) ltac:(lia)) as (Hj & Hlow & Hhigh).
  set (j := Cursor.BlockBinarySearch _ _ _ _ _) in *.
  assert (Hrest : exists q, Cursor.blocks_ok q (drop next layer)).
  { destruct next as [|i]; [exists p; by rewrite drop_0|].
    destruct (lookup_lt_is_Some_2 layer i ltac:(lia)) as [bi Hi].
    destruct (blocks_ok_lookup layer p i bi Hok Hi) as (_ & _ & Hr). by eexists. }
  destruct Hrest as [q Hq].
  destruct (BlockSequentialSearch_spec (drop next layer) next t q Hq)
    as (n & -> & Hn & Hbelow & Hat & _).
  rewrite length_drop in Hn.
  destruct (lt_eq_lt_dec j (next + n)) as [[Hlt|Heq]|Hgt]; [|done|].
  - exfalso.
    destruct (lookup_lt_is_Some_2 layer j ltac:(lia)) as [bj Hbj].
    specialize (Hhigh j ltac:(lia)). rewrite (nth_map_lookup _ _ _ Hbj) in Hhigh.
    assert (Hb : Cursor.block_last_doc_id bj < t).
    { apply (Hbelow (j - next)%nat bj); [lia|]. rewrite lookup_drop. rewrite <- Hbj. f_equal. lia. }
    lia.
  - exfalso.
    destruct (lookup_lt_is_Some_2 layer (next + n) ltac:(lia)) as [bn Hbn].
    specialize (Hlow (next + n)%nat ltac:(lia)). rewrite (nth_map_lookup _ _ _ Hbn) in Hlow.
    assert (Hb : t <= Cursor.block_last_doc_id bn).
    { apply Hat. rewrite lookup_drop. done. }
    lia.
Qed.

(** The docIDs left in the current block, from the cursor on. *)
Lemma current_block_rest b k o p ch :
  Cursor.chunks b !! k = Some ch -> (o < length (Cursor.doc_id_gaps ch))%nat ->
  Forall (fun gap => 0 <= gap) (Cursor.doc_id_gaps ch) ->
  nth k (Cursor.chunk_last_doc_ids b) 0 = List.last (Cursor.decode p (drop o (Cursor.doc_id_gaps ch))) p ->
  Cursor.chunks_ok (nth k (Cursor.chunk_last_doc_ids b) 0)
    (drop (S k) (Cursor.chunk_last_doc_ids b)) (drop (S k) (Cursor.chunks b)) ->
  length (Cursor.chunk_last_doc_ids b) = length (Cursor.chunks b) ->
  let g := drop o (Cursor.doc_id_gaps ch)
             ++ concat (map Cursor.doc_id_gaps (drop (S k) (Cursor.chunks b))) in
  List.last (Cursor.decode p g) p = Cursor.block_last_doc_id b /\
  Forall (fun d => d <= Cursor.block_last_doc_id b) (Cursor.decode p g).
Proof.
  intros Hk Ho Hpos Hl Hok Hlen g.
  destruct (chunks_ok_last _ _ _ Hok) as [Hlast Hpos'].
  assert (Hg : List.last (Cursor.decode p g) p = Cursor.block_last_doc_id b).
  { unfold g. rewrite decode_last_app, <- Hl, Hlast.
    apply last_drop_nth. rewrite Hlen. by apply lookup_lt_Some in Hk. }
  split; [done|].
  assert (Hgpos : Forall (fun gap => 0 <= gap) g).
  { unfold g. apply Forall_app. split; [by apply Forall_drop|done]. }
  pose proof (decode_bounds p g Hgpos) as Hb. rewrite Hg in Hb.
  eapply Forall_impl; [exact Hb|]. simpl. intros; lia.
Qed.

Lemma consistent_current c b :
  Cursor.consistent c -> Cursor.blocks c !! Cursor.curr_block_idx_ c = Some b ->
  exists ch,
    Cursor.chunks b !! Cursor.curr_chunk_ c = Some ch /\
    (Cursor.curr_document_offset_ c < length (Cursor.doc_id_gaps ch))%nat /\
    Forall (fun gap => 0 <= gap) (Cursor.doc_id_gaps ch) /\
    nth (Cursor.curr_chunk_ c) (Cursor.chunk_last_doc_ids b) 0
      = List.last (Cursor.decode (Cursor.prev_decoded_doc_id_ c)
                     (drop (Cursor.curr_document_offset_ c) (Cursor.doc_id_gaps ch)))
                  (Cursor.prev_decoded_doc_id_ c) /\
    Cursor.chunks_ok (nth (Cursor.curr_chunk_ c) (Cursor.chunk_last_doc_ids b) 0)
      (drop (S (Cursor.curr_chunk_ c)) (Cursor.chunk_last_doc_ids b))
      (drop (S (Cursor.curr_chunk_ c)) (Cursor.chunks b)) /\
    length (Cursor.chunk_last_doc_ids b) = length (Cursor.chunks b) /\
    Cursor.blocks_ok (Cursor.block_last_doc_id b)
      (drop (S (Cursor.curr_block_idx_ c)) (Cursor.blocks c)).
Proof.
  intros (Hok & _ & Hpos) Hb.
  destruct (Hpos b Hb) as (ch & Hch & Ho & Hl).
  destruct (blocks_ok_lookup _ _ _ _ Hok Hb) as (Hne & Hchunks & Hrest).
  destruct (chunks_ok_lookup _ _ _ _ _ Hchunks Hch) as (_ & Hgpos & _ & Hdrop).
  exists ch. repeat split; try done. by apply chunks_ok_length in Hchunks.
Qed.

Lemma rest_current c b ch :
  Cursor.blocks c !! Cursor.curr_block_idx_ c = Some b ->
  Cursor.chunks b !! Cursor.curr_chunk_ c = Some ch ->
  Cursor.rest c =
    Cursor.decode (Cursor.prev_decoded_doc_id_ c)
      ((drop (Cursor.curr_document_offset_ c) (Cursor.doc_id_gaps ch)
         ++ concat (map Cursor.doc_id_gaps (drop (S (Cursor.curr_chunk_ c)) (Cursor.chunks b))))
       ++ Cursor.layer_gaps (drop (S (Cursor.curr_block_idx_ c)) (Cursor.blocks c))).
Proof. intros Hb Hch. unfold Cursor.rest. rewrite Hb, Hch, <- app_assoc. done. Qed.

Lemma rest_block_start c b :
  Cursor.blocks c !! Cursor.curr_block_idx_ c = Some b ->
  Cursor.chunks b <> [] ->
  Cursor.curr_chunk_ c = 0%nat -> Cursor.curr_document_offset_ c = 0%nat ->
  Cursor.rest c =
    Cursor.decode (Cursor.prev_decoded_doc_id_ c)
      (Cursor.layer_gaps (drop (Cursor.curr_block_idx_ c) (Cursor.blocks c))).
Proof.
  intros Hb Hne Hk Ho. unfold Cursor.rest. rewrite Hb, Hk, Ho.
  rewrite (drop_S _ _ _ Hb), layer_gaps_cons. unfold Cursor.block_gaps.
  destruct (Cursor.chunks b) as [|ch chs]; [done|]. cbn [lookup list_lookup drop map concat].
  rewrite !drop_0, <- app_assoc. done.
Qed.

Lemma AdvanceBlock_spec c t :
  Cursor.consistent c ->
  let c1 := Cursor.AdvanceBlock c t in
  Cursor.consistent c1 /\ Cursor.blocks c1 = Cursor.blocks c /\
  Cursor.drop_below t (Cursor.rest c1) = Cursor.drop_below t (Cursor.rest c) /\
  (forall b, Cursor.blocks c1 !! Cursor.curr_block_idx_ c1 = Some b ->
     t <= Cursor.block_last_doc_id b).
Proof.
  intros Hc. unfold Cursor.AdvanceBlock.
  destruct (Cursor.blocks c !! Cursor.curr_block_idx_ c) as [b|] eqn:Hb.
  2:{ cbn zeta. split; [done|]. split; [done|]. split; [done|].
      intros b Hb'. rewrite Hb in Hb'. done. }
  destruct (Z.leb_spec t (Cursor.block_last_doc_id b)) as [Hle|Hlt].
  { cbn zeta. split; [done|]. split; [done|]. split; [done|].
    intros b' Hb'. rewrite Hb in Hb'. by injection Hb' as <-. }
  destruct (consistent_current c b Hc Hb) as (ch & Hch & Ho & Hgpos & Hl & Hdrop & Hlen & Hrest).
  destruct (current_block_rest b _ _ _ ch Hch Ho Hgpos Hl Hdrop Hlen) as [Hlast Hbound].
  destruct Hc as (Hok & Hidx & Hpos).
  set (next := S (Cursor.curr_block_idx_ c)).
  assert (Hnext : (next <= length (Cursor.blocks c))%nat)
    by (apply lookup_lt_Some in Hb; unfold next; lia).
  set (j := if Cursor.block_skipping_ c then _ else _).
  assert (Hj : j = Cursor.BlockSequentialSearch (drop next (Cursor.blocks c)) next t).
  { unfold j. destruct (Cursor.block_skipping_ c); [|done].
    rewrite Hidx. apply (BlockBinarySearch_sequential _ 0); done. }
  clearbody j. subst j.
  destruct (BlockSequentialSearch_spec (drop next (Cursor.blocks c)) next t _ Hrest)
    as (n & -> & Hn & _ & Hat & Hdropb).
  cbn zeta.
  set (c1 := Cursor.SkipToBlock c (next + n)).
  assert (Hprev1 : Cursor.prev_decoded_doc_id_ c1 =
    match n with
    | O => Cursor.block_last_doc_id b
    | S i => Cursor.block_last_doc_id (nth i (drop next (Cursor.blocks c)) Cursor.no_block)
    end).
  { unfold c1, Cursor.SkipToBlock, next. cbn [Cursor.prev_decoded_doc_id_ Nat.add].
    destruct n as [|i].
    - rewrite Nat.add_0_r. by rewrite (nth_lookup_block _ _ _ Hb).
    - rewrite Nat.add_succ_r.
      destruct (lookup_lt_is_Some_2 (drop next (Cursor.blocks c)) i ltac:(lia)) as [bi Hbi].
      unfold next in Hbi. rewrite (nth_lookup_block _ _ _ Hbi). rewrite lookup_drop in Hbi.
      cbn [Nat.add] in Hbi. by rewrite (nth_lookup_block _ _ _ Hbi). }
  assert (Hrest1 : Cursor.rest c1 =
    Cursor.decode (Cursor.prev_decoded_doc_id_ c1)
      (Cursor.layer_gaps (drop n (drop next (Cursor.blocks c))))).
  { destruct (Cursor.blocks c1 !! Cursor.curr_block_idx_ c1) as [b1|] eqn:Hb1.
    - destruct (blocks_ok_lookup _ _ _ _ Hok Hb1) as (Hne1 & _ & _).
      rewrite (rest_block_start c1 b1 Hb1 Hne1 eq_refl eq_refl).
      unfold c1 at 2 3. cbn [Cursor.SkipToBlock Cursor.curr_block_idx_ Cursor.blocks].
      rewrite drop_drop. done.
    - unfold Cursor.rest. rewrite Hb1.
      unfold c1 in Hb1. cbn [Cursor.SkipToBlock Cursor.curr_block_idx_ Cursor.blocks] in Hb1.
      apply lookup_ge_None in Hb1. rewrite drop_drop.
      rewrite drop_ge by lia. done. }
  split; [|split; [done|split]].
  - split; [done|]. split; [done|].
    intros b1 Hb1.
    destruct (blocks_ok_lookup _ _ _ _ Hok Hb1) as (Hne1 & Hch1 & _).
    destruct (Cursor.chunks b1) as [|ch1 chs1] eqn:Hchs; [done|].
    exists ch1. cbn [Cursor.SkipToBlock Cursor.curr_chunk_ Cursor.curr_document_offset_
                     Cursor.curr_block_idx_ Cursor.prev_decoded_doc_id_] in *.
    destruct (Cursor.chunk_last_doc_ids b1) as [|l1 ls1]; [done|].
    destruct Hch1 as (Hne & Hgp & Hl1 & _).
    split; [done|]. split; [destruct (Cursor.doc_id_gaps ch1); [done|simpl; lia]|].
    rewrite drop_0. cbn [nth]. rewrite Hl1.
    replace (next + n)%nat with (S (Cursor.curr_block_idx_ c + n)) by (unfold next; lia).
    done.
  - rewrite Hrest1, Hprev1, <- Hdropb.
    rewrite (rest_current c b ch Hb Hch), decode_app, Hlast.
    rewrite drop_below_app_lt; [done|].
    eapply Forall_impl; [exact Hbound|]. simpl. intros; lia.
  - intros b1 Hb1. apply Hat.
    unfold c1 in Hb1. cbn [Cursor.SkipToBlock Cursor.curr_block_idx_ Cursor.blocks] in Hb1.
    rewrite lookup_drop. done.
Qed.

Lemma drop_below_head t l d l' : Cursor.drop_below t l = d :: l' -> t <= d.
Proof.
  induction l as [|x l IH]; [done|]. simpl.
  destruct (Z.ltb_spec x t); [done|]. intros [= <- <-]. done.
Qed.

Lemma drop_below_split t l :
  exists l1, l = l1 ++ Cursor.drop_below t l /\ Forall (fun d => d < t) l1.
Proof.
  induction l as [|d l (l1 & IH & Hl1)]; [by exists []|]. simpl.
  destruct (Z.ltb_spec d t); [|by exists []].
  exists (d :: l1). split; [simpl; by rewrite <- IH|]. by constructor.
Qed.

Lemma nth_drop_Z (l : list Z) k n : nth n (drop k l) 0 = nth (k + n) l 0.
Proof.
  revert k. induction l as [|x l IH]; intros k.
  - rewrite drop_nil. by destruct (k + n)%nat, n.
  - destruct k; [done|]. simpl. apply IH.
Qed.

(** One call of [NextGEQ]: the cursor drops the docIDs below the target
    and returns the first one left. *)
Lemma NextGEQ_spec c t :
  Cursor.consistent c ->
  Cursor.consistent (Cursor.NextGEQ c t).2 /\
  Cursor.rest (Cursor.NextGEQ c t).2 = Cursor.drop_below t (Cursor.rest c) /\
  (Cursor.NextGEQ c t).1 = hd Cursor.kNoMoreDocs (Cursor.rest (Cursor.NextGEQ c t).2).
Proof.
  intros Hc. unfold Cursor.NextGEQ.
  destruct (AdvanceBlock_spec c t Hc) as (Hc1 & Hblocks & Hdrop & Hlast).
  set (c1 := Cursor.AdvanceBlock c t) in *. clearbody c1. rewrite <- Hdrop. clear Hdrop Hblocks Hc c.
  destruct (Cursor.blocks c1 !! Cursor.curr_block_idx_ c1) as [b|] eqn:Hb.
  2:{ cbn [fst snd]. unfold Cursor.rest. rewrite Hb. done. }
  specialize (Hlast b eq_refl).
  destruct (consistent_current c1 b Hc1 Hb) as (ch & Hch & Ho & Hgpos & Hl & Hok & Hlen & Hrest).
  set (k := Cursor.curr_chunk_ c1) in *. set (o := Cursor.curr_document_offset_ c1) in *.
  set (p := Cursor.prev_decoded_doc_id_ c1) in *.
  assert (Hk : (k < length (Cursor.chunk_last_doc_ids b))%nat)
    by (rewrite Hlen; by apply lookup_lt_Some in Hch).
  assert (Hlasts : drop k (Cursor.chunk_last_doc_ids b)
                   = nth k (Cursor.chunk_last_doc_ids b) 0 :: drop (S k) (Cursor.chunk_last_doc_ids b)).
  { destruct (lookup_lt_is_Some_2 _ _ Hk) as [l Hlk].
    rewrite (drop_S _ _ _ Hlk). f_equal. symmetry. by apply nth_lookup_Some with (d := 0) in Hlk. }
  pose proof (chunk_steps (drop k (Cursor.chunks b)) (drop k (Cursor.chunk_last_doc_ids b))
                k o p t ch _ _ _ (drop_S _ _ _ Hch) Hlasts Ho Hgpos Hl Hok) as Hsteps.
  assert (Ht : t <= List.last (drop k (Cursor.chunk_last_doc_ids b)) 0).
  { rewrite Hlasts, last_cons_default, last_drop_nth by done. done. }
  specialize (Hsteps Ht).
  destruct (Cursor.AdvanceChunk _ k o p t) as [[k' o0] p0].
  destruct Hsteps as (n & ch' & -> & Hch' & Hw).
  rewrite lookup_drop in Hch'. rewrite Hch'.
  destruct (Cursor.walk _ o0 p0 t) as [[[d o'] p']|]; [|done].
  destruct Hw as (Ho' & Hd & Hdrop & Hhd & Hnth).
  cbn [fst snd].
  set (c' := Cursor.set_position c1 (k + n) o' p').
  assert (Hb' : Cursor.blocks c' !! Cursor.curr_block_idx_ c' = Some b) by exact Hb.
  assert (Hch2 : Cursor.chunks b !! Cursor.curr_chunk_ c' = Some ch') by exact Hch'.
  rewrite nth_drop_Z in Hnth.
  split; [|split].
  - destruct Hc1 as (H1 & H2 & _). split; [done|]. split; [done|].
    intros b0 Hb0. rewrite Hb' in Hb0. injection Hb0 as <-.
    exists ch'. done.
  - rewrite (rest_current c' b ch' Hb' Hch2), (rest_current c1 b ch Hb Hch).
    cbn [Cursor.set_position Cursor.curr_chunk_ Cursor.curr_document_offset_
         Cursor.prev_decoded_doc_id_ Cursor.curr_block_idx_ Cursor.blocks c'].
    fold k o p.
    rewrite (decode_app p), Hdrop, (decode_app p').
    rewrite drop_drop. replace (k + S n)%nat with (S (k + n)) by lia.
    f_equal.
    set (B := Cursor.decode p' _).
    pose proof (Hdrop []) as HB. rewrite !app_nil_r in HB.
    rewrite drop_drop in HB. replace (k + S n)%nat with (S (k + n)) in HB by lia.
    fold B in HB. rewrite <- HB.
    assert (HBne : Cursor.drop_below t
      (Cursor.decode p (drop o (Cursor.doc_id_gaps ch)
         ++ concat (map Cursor.doc_id_gaps (drop (S k) (Cursor.chunks b))))) <> []).
    { rewrite HB. unfold B. intros E. apply decode_nil_inv in E.
      apply app_eq_nil in E as [E _]. apply (f_equal length) in E.
      rewrite length_drop in E. simpl in E. lia. }
    rewrite (last_drop_below t _ p p' HBne). done.
  - rewrite (rest_current c' b ch' Hb' Hch2).
    cbn [Cursor.set_position Cursor.curr_chunk_ Cursor.curr_document_offset_
         Cursor.prev_decoded_doc_id_ Cursor.curr_block_idx_ Cursor.blocks c'].
    rewrite <- Hhd.
    destruct (drop o' (Cursor.doc_id_gaps ch')) as [|x xs] eqn:E; [|done].
    apply (f_equal length) in E. rewrite length_drop in E. simpl in E. lia.
Qed.

Lemma decode_sorted p g :
  Forall (fun gap => 0 <= gap) g -> StronglySorted Z.le (Cursor.decode p g).
Proof.
  revert p. induction g as [|x g IH]; intros p Hg; [constructor|].
  apply Forall_cons in Hg as [Hx Hg]. cbn [Cursor.decode]. constructor; [by apply IH|].
  pose proof (decode_bounds (p + x) g Hg) as Hb.
  eapply Forall_impl; [exact Hb|]. simpl. intros; lia.
Qed.

Lemma blocks_ok_gaps layer : forall p,
  Cursor.blocks_ok p layer -> Forall (fun gap => 0 <= gap) (Cursor.layer_gaps layer).
Proof.
  induction layer as [|b layer IH]; intros p Hok; [constructor|].
  destruct Hok as (Hne & Hch & Hok). rewrite layer_gaps_cons. apply Forall_app. split.
  - by destruct (block_docs p b Hne Hch) as (_ & H & _).
  - by apply (IH _ Hok).
Qed.

Lemma OpenList_consistent layer block_skipping :
  Cursor.blocks_ok 0 layer ->
  Cursor.consistent (Cursor.OpenList layer block_skipping) /\
  Cursor.rest (Cursor.OpenList layer block_skipping) = Cursor.doc_ids layer.
Proof.
  intros Hok. split.
  - split; [done|]. split; [done|]. intros b Hb. cbn in Hb.
    destruct layer as [|b0 layer]; [done|]. injection Hb as ->.
    destruct Hok as (Hne & Hch & _). cbn [Cursor.OpenList Cursor.curr_chunk_
      Cursor.curr_document_offset_ Cursor.prev_decoded_doc_id_].
    destruct (Cursor.chunks b) as [|ch chs]; [done|].
    destruct (Cursor.chunk_last_doc_ids b) as [|l ls]; [done|].
    destruct Hch as (Hg & _ & Hl & _). exists ch. split; [done|].
    split; [destruct (Cursor.doc_id_gaps ch); [done|simpl; lia]|]. by rewrite drop_0.
  - destruct layer as [|b layer]; [done|].
    destruct Hok as (Hne & _ & _).
    rewrite (rest_block_start (Cursor.OpenList (b :: layer) block_skipping) b); try done.
Qed.

Lemma sorted_app_r (l1 l2 : list Z) :
  StronglySorted Z.le (l1 ++ l2) -> StronglySorted Z.le l2.
Proof.
  induction l1 as [|x l1 IH]; [done|]. simpl. intros H.
  apply StronglySorted_inv in H as [H _]. by apply IH.
Qed.

Lemma NextGEQ_calls_spec ids targets : forall c passed bound,
  Cursor.consistent c -> ids = passed ++ Cursor.rest c ->
  StronglySorted Z.le ids -> Forall (fun d => d < bound) passed ->
  Forall (fun t => bound <= t) targets -> StronglySorted Z.lt targets ->
  Forall2 (Cursor.is_next_geq ids) targets (Cursor.NextGEQ_calls c targets).
Proof.
  induction targets as [|t targets IH]; intros c passed bound Hc Hids Hsorted Hpassed Hbound Hts;
    [constructor|].
  cbn [Cursor.NextGEQ_calls].
  destruct (NextGEQ_spec c t Hc) as (Hc' & Hrest & Hr).
  destruct (Cursor.NextGEQ c t) as [r c']. cbn [fst snd] in *.
  apply Forall_cons in Hbound as [Hbt Hbound].
  apply StronglySorted_inv in Hts as [Hts Hlt].
  destruct (drop_below_split t (Cursor.rest c)) as (l1 & Hl1 & Hl1lt).
  rewrite <- Hrest in Hl1.
  assert (Hpassed' : Forall (fun d => d < t) (passed ++ l1)).
  { apply Forall_app. split; [|done]. eapply Forall_impl; [exact Hpassed|]. simpl; intros; lia. }
  assert (Hids' : ids = (passed ++ l1) ++ Cursor.rest c') by (rewrite <- app_assoc, <- Hl1; done).
  constructor.
  - destruct (Cursor.rest c') as [|d l'] eqn:Hrc'.
    + right. split; [done|]. intros d Hd. rewrite Hids', app_nil_r in Hd.
      rewrite Forall_forall in Hpassed'. by apply Hpassed'.
    + left. simpl in Hr. subst r.
      assert (Htd : t <= d) by (symmetry in Hrest; exact (drop_below_head _ _ _ _ Hrest)).
      split; [rewrite Hids'; set_solver|]. split; [done|].
      intros d' Hd' Htd'. rewrite Hids' in Hd', Hsorted.
      apply elem_of_app in Hd' as [Hd'|Hd'].
      * rewrite Forall_forall in Hpassed'. specialize (Hpassed' _ Hd'). lia.
      * apply elem_of_cons in Hd' as [->|Hd']; [lia|].
        apply sorted_app_r in Hsorted.
        apply StronglySorted_inv in Hsorted as [_ Hall].
        rewrite Forall_forall in Hall. by apply Hall.
  - apply (IH c' (passed ++ l1) t); try done.
    eapply Forall_impl; [exact Hlt|]. simpl; intros; lia.
Qed.

Lemma is_next_geq_monotone ids t1 t2 r1 r2 :
  Forall (fun d => d < Cursor.kNoMoreDocs) ids -> t1 <= t2 ->
  Cursor.is_next_geq ids t1 r1 -> Cursor.is_next_geq ids t2 r2 -> r1 <= r2.
Proof.
  intros Hids Ht H1 H2. rewrite Forall_forall in Hids.
  destruct H2 as [(Hin2 & Hle2 & _)|(-> & _)].
  - destruct H1 as [(_ & _ & Hmin)|(_ & Hall)].
    + apply Hmin; [done|lia].
    + specialize (Hall _ Hin2). lia.
  - destruct H1 as [(Hin1 & _)|(-> & _)]; [|lia].
    specialize (Hids _ Hin1). lia.
Qed.

Lemma is_next_geq_sorted ids targets : forall results,
  Forall (fun d => d < Cursor.kNoMoreDocs) ids -> StronglySorted Z.lt targets ->
  Forall2 (Cursor.is_next_geq ids) targets results -> StronglySorted Z.le results.
Proof.
  induction targets as [|t targets IH]; intros results Hids Hts Hall.
  { apply Forall2_nil_inv_l in Hall as ->. constructor. }
  apply Forall2_cons_inv_l in Hall as (r & results' & Hr & Hall & ->).
  apply StronglySorted_inv in Hts as [Hts Hlt].
  constructor; [by apply IH|].
  clear IH Hts. revert results' Hall.
  induction targets as [|t' targets IH']; intros results' Hall.
  { apply Forall2_nil_inv_l in Hall as ->. constructor. }
  apply Forall2_cons_inv_l in Hall as (r' & results'' & Hr' & Hall & ->).
  apply Forall_cons in Hlt as [Hlt Hlts].
  constructor; [|by apply IH'].
  apply (is_next_geq_monotone ids t t'); [done|lia|done|done].
Qed.

(** C1. On a cursor opened on a well-formed layer, the calls
    [NextGEQ(t_0)], [NextGEQ(t_1)], ... with strictly increasing targets
    return a non-decreasing sequence, and each call returns the smallest
    docID of the layer that is at least its target, or [kNoMoreDocs] when
    the layer has none; with or without the block-level index. *)
Theorem NextGEQ_increasing_targets layer block_skipping targets :
  Cursor.well_formed layer -> StronglySorted Z.lt targets ->
  let results := Cursor.NextGEQ_calls (Cursor.OpenList layer block_skipping) targets in
  StronglySorted Z.le results /\
  Forall2 (Cursor.is_next_geq (Cursor.doc_ids layer)) targets results.
Proof.
  intros [Hok Hmax] Hts results.
  destruct (OpenList_consistent layer block_skipping Hok) as [Hc Hrest].
  assert (Hall : Forall2 (Cursor.is_next_geq (Cursor.doc_ids layer)) targets results).
  { unfold results. destruct targets as [|t targets]; [constructor|].
    apply (NextGEQ_calls_spec _ _ _ [] t); try done.
    - apply decode_sorted. by apply (blocks_ok_gaps layer 0).
    - apply StronglySorted_inv in Hts as [_ Hlt]. constructor; [lia|].
      eapply Forall_impl; [exact Hlt|]. simpl; intros; lia. }
  split; [|done]. by apply (is_next_geq_sorted (Cursor.doc_ids layer) targets).
Qed.

Lemma NextGEQ_increasing_targets_witness :
  StronglySorted Z.le
    (Cursor.NextGEQ_calls (Cursor.OpenList CursorExample.layer true) CursorExample.targets) /\
  Forall2 (Cursor.is_next_geq (Cursor.doc_ids CursorExample.layer)) CursorExample.targets
    (Cursor.NextGEQ_calls (Cursor.OpenList CursorExample.layer true) CursorExample.targets).
Proof.
  apply (NextGEQ_increasing_targets CursorExample.layer true CursorExample.targets).
  - split.
    + simpl. repeat split; try done; repeat constructor; lia.
    + change (Forall (fun d => d < Cursor.kNoMoreDocs) [3; 5; 9; 10; 20]).
      repeat (constructor; [reflexivity|]). constructor.
  - unfold CursorExample.targets. repeat constructor; lia.
Defined.

Lemma example_results :
  Cursor.NextGEQ_calls (Cursor.OpenList CursorExample.layer true) CursorExample.targets
  = [5; 9; 10; Cursor.kNoMoreDocs] /\
  Cursor.NextGEQ_calls (Cursor.OpenList CursorExample.layer false) CursorExample.targets
  = [5; 9; 10; Cursor.kNoMoreDocs].
Proof. split; vm_compute; reflexivity. Qed.

(** *** The flat list that the evaluators traverse *)

Lemma skip_drop_below t (ps : list (Z * Z)) :
  map fst (drop (ListData.skip t ps) ps) = Cursor.drop_below t (map fst ps).
Proof.
  induction ps as [|p ps IH]; [done|]. simpl.
  destruct (fst p <? t); [exact IH|done].
Qed.

Lemma ListData_NextGEQ_spec l t :
  let remaining l := map fst (drop (ListData.position l) (ListData.postings l)) in
  remaining (ListData.NextGEQ l t).2 = Cursor.drop_below t (remaining l) /\
  (ListData.NextGEQ l t).1 = hd ListData.kNoMoreDocs (remaining (ListData.NextGEQ l t).2).
Proof.
  cbn zeta. unfold ListData.NextGEQ, ListData.current_doc_id.
  cbn [fst snd ListData.position ListData.postings]. split.
  - rewrite <- drop_drop. apply skip_drop_below.
  - set (n := (ListData.position l + _)%nat).
    destruct (ListData.postings l !! n) as [p|] eqn:Hp.
    + by rewrite (drop_S _ _ _ Hp).
    + apply lookup_ge_None in Hp. by rewrite drop_ge.
Qed.

(** X2. The cursor over blocks and chunks and the flat list of postings
    answer [NextGEQ] alike, call after call. *)
Theorem NextGEQ_cursor_refines_list c l t :
  Cursor.consistent c ->
  map fst (drop (ListData.position l) (ListData.postings l)) = Cursor.rest c ->
  (Cursor.NextGEQ c t).1 = (ListData.NextGEQ l t).1 /\
  map fst (drop (ListData.position (ListData.NextGEQ l t).2)
             (ListData.postings (ListData.NextGEQ l t).2))
  = Cursor.rest (Cursor.NextGEQ c t).2 /\
  Cursor.consistent (Cursor.NextGEQ c t).2.
Proof.
  intros Hc Hrel.
  destruct (NextGEQ_spec c t Hc) as (Hc' & Hrest & Hr).
  destruct (ListData_NextGEQ_spec l t) as (Hrest' & Hr').
  cbn zeta in *. rewrite Hr, Hr', Hrest, Hrest', Hrel. done.
Qed.

Lemma NextGEQ_cursor_refines_list_witness :
  (Cursor.NextGEQ (Cursor.OpenList CursorExample.layer false) 4).1
  = (ListData.NextGEQ
       (ListData.OpenList false
          {| Lex.term := "alpha";
             Lex.layers := [ {| Lex.num_docs := 5; Lex.score_threshold := F32.zero;
                                Lex.layer_postings := [(3, 1); (5, 2); (9, 1); (10, 3); (20, 1)] |} ] |}
          0 0) 4).1.
Proof.
  apply NextGEQ_cursor_refines_list.
  - apply OpenList_consistent. simpl. repeat split; try done; repeat constructor; lia.
  - vm_compute. reflexivity.
Defined.

(** ** With overlapping layers the last layer is the whole list *)

Section LastLayer.

Context (alg : Stl.algorithms) (Bm25Score : Layerify.IndexEntry -> spec_float)
  (pow : spec_float -> spec_float -> spec_float) (CHUNK_SIZE num_layers_ : Z)
  (layer_splitting_strategy : Layerify.LayerSplitMode).
Hypothesis Halg : Stl.conforming alg.
Hypothesis Hscore : forall e, TopK.not_nan (Bm25Score e).

Local Abbreviation layers_loop :=
  (Layerify.layers_loop alg Bm25Score pow CHUNK_SIZE num_layers_ true layer_splitting_strategy).

Lemma layers_loop_step_overlapping fuel i buf total left :
  0 <= i < 8 -> 0 < left -> left <= total -> total = Z.of_nat (length buf) ->
  exists l buf' left',
    layers_loop (S fuel) i buf total left = l :: layers_loop fuel (i + 1) buf' total left' /\
    Layerify.layer_entries l =
      Stl.sort alg _ Layerify.IndexEntryDocIdComparison (take (Z.to_nat (total - left')) buf) /\
    0 <= left' < left /\
    (i = num_layers_ - 1 -> left' = 0) /\
    total = Z.of_nat (length buf') /\
    Permutation buf' buf.
Proof.
  intros Hi Hl Ht Hlen. cbn [Layerify.layers_loop].
  destruct (Z.leb_spec left 0) as [|_]; [lia|].
  destruct (Layerify.split_layer Bm25Score pow CHUNK_SIZE num_layers_ layer_splitting_strategy
              buf i total left) as [curr' left'] eqn:Hs.
  apply (split_layer_spec Bm25Score pow CHUNK_SIZE num_layers_ layer_splitting_strategy Hscore)
    in Hs; [|done..].
  destruct Hs as (Hsum & Hl' & Hc' & Hlast & _).
  replace (total - left' - curr' + curr') with (total - left') by lia.
  change (Z.to_nat 0) with 0%nat. rewrite drop_0, take_0. cbn [app].
  set (range := take (Z.to_nat (total - left')) buf).
  set (sorted := Stl.sort alg _ Layerify.IndexEntryDocIdComparison range).
  destruct (Layerify.DumpToIndex alg Bm25Score CHUNK_SIZE (S (length sorted)) sorted)
    as [max_scores dumped] eqn:Hd.
  assert (Hsorted : Permutation sorted range)
    by apply (sort_by_doc_id_perm alg Halg).
  assert (Hdumped : Permutation dumped sorted).
  { pose proof (DumpToIndex_perm alg Bm25Score CHUNK_SIZE Halg Hscore
                  (S (length sorted)) sorted ltac:(lia)) as [Hp _].
    by rewrite Hd in Hp. }
  assert (Hperm : Permutation (dumped ++ drop (Z.to_nat (total - left')) buf) buf).
  { rewrite Hdumped, Hsorted. unfold range. by rewrite take_drop. }
  eexists _, _, left'. split; [reflexivity|]. cbn [Layerify.layer_entries].
  split; [done|]. split; [lia|]. split; [done|]. split; [|done].
  rewrite (Permutation_length Hperm). done.
Qed.

Lemma layers_loop_last fuel : forall i buf total left,
  0 <= i -> i + Z.of_nat fuel = num_layers_ -> num_layers_ <= 8 ->
  0 < left -> left <= total -> total = Z.of_nat (length buf) -> (0 < fuel)%nat ->
  exists l buf0,
    last (layers_loop fuel i buf total left) = Some l /\
    Layerify.layer_entries l = Stl.sort alg _ Layerify.IndexEntryDocIdComparison buf0 /\
    Permutation buf0 buf.
Proof.
  induction fuel as [|fuel IH]; intros i buf total left Hi Hf Hn Hl Ht Hlen Hfuel; [lia|].
  destruct (layers_loop_step_overlapping fuel i buf total left) as
    (l & buf' & left' & -> & Hentries & Hl' & Hlast & Hlen' & Hperm); [lia..|done|].
  destruct (Z.leb_spec left' 0) as [Hz|Hp].
  - rewrite (layers_loop_nil alg Bm25Score pow CHUNK_SIZE num_layers_ true
               layer_splitting_strategy) by done.
    exists l, buf. split; [done|]. split; [|done].
    rewrite Hentries. replace left' with 0 by lia. rewrite Z.sub_0_r.
    rewrite take_ge by lia. done.
  - assert (Hfuel' : (0 < fuel)%nat).
    { destruct fuel; [|lia]. assert (left' = 0) by (apply Hlast; lia). lia. }
    destruct (IH (i + 1) buf' total left') as (l' & buf0 & Hlast' & Hentries' & Hperm');
      [lia..|done|done|].
    exists l', buf0. split; [|split; [done|by rewrite Hperm']].
    destruct (layers_loop fuel (i + 1) buf' total left') as [|l2 rest]; [done|].
    done.
Qed.

(** A list sorted by docID that is a permutation of a list with strictly
    ascending docIDs is that list. *)
Lemma doc_id_sorted_unique (l1 l2 : list Layerify.IndexEntry) :
  Stl.is_sorted Layerify.IndexEntryDocIdComparison l1 ->
  StronglySorted (fun a b => Layerify.doc_id a < Layerify.doc_id b) l2 ->
  Permutation l1 l2 -> l1 = l2.
Proof.
  revert l2. induction l1 as [|a l1 IH]; intros l2 H1 H2 Hp.
  { apply Permutation_nil in Hp. done. }
  destruct l2 as [|b l2].
  { symmetry in Hp. apply Permutation_nil in Hp. done. }
  apply is_sorted_inv in H1 as [H1 Ha].
  apply StronglySorted_inv in H2 as [H2 Hb]. rewrite Forall_forall in Hb.
  assert (a = b) as <-.
  { assert (Hin1 : a ∈ b :: l2) by (rewrite <- Hp; left).
    assert (Hin2 : b ∈ a :: l1) by (rewrite Hp; left).
    apply elem_of_cons in Hin1 as [?|Hin1]; [done|].
    apply elem_of_cons in Hin2 as [?|Hin2]; [done|]. exfalso.
    specialize (Hb _ Hin1). specialize (Ha _ Hin2).
    unfold Layerify.IndexEntryDocIdComparison in Ha. apply Z.ltb_ge in Ha. lia. }
  f_equal. apply IH; [done|done|]. by apply Permutation_cons_inv in Hp.
Qed.

Lemma layerify_list_last_layer postings :
  0 < num_layers_ <= 8 -> postings <> [] ->
  StronglySorted (fun a b => Layerify.doc_id a < Layerify.doc_id b) postings ->
  exists l,
    last (Layerify.layerify_list alg Bm25Score pow CHUNK_SIZE num_layers_ true
            layer_splitting_strategy postings) = Some l /\
    Layerify.layer_entries l = postings.
Proof.
  intros Hn Hne Hsorted. unfold Layerify.layerify_list.
  set (buf := Stl.sort alg _ (Layerify.doc_id_score_comparator Bm25Score) postings).
  assert (Hbuf : Permutation buf postings)
    by apply (sort_by_score_perm alg Bm25Score Halg Hscore).
  assert (Hlen : (0 < length postings)%nat) by (destruct postings; [done|simpl; lia]).
  destruct (layers_loop_last (Z.to_nat num_layers_) 0 buf (Z.of_nat (length postings))
              (Z.of_nat (length postings))) as (l & buf0 & Hlast & Hentries & Hperm);
    try lia.
  { by rewrite (Permutation_length Hbuf). }
  exists l. split; [done|]. rewrite Hentries.
  apply doc_id_sorted_unique; [|done|].
  - apply (Stl.sort_spec _ Halg _ (fun _ => True)); [apply IndexEntryDocIdComparison_swo|].
    apply Forall_True.
  - rewrite (sort_by_doc_id_perm alg Halg), Hperm. done.
Qed.

End LastLayer.

(** ** The evaluators look at a cursor only through its postings, its
    position and the two list lengths *)

Section SameLists.

Context (alg : Stl.algorithms) (log10 : spec_float -> spec_float) (GetDocLen : Z -> Z)
  (collection_average_doc_len_ collection_total_num_docs_ : Z).
Hypothesis Hext : Stl.extensional alg.

Local Abbreviation same_store := (Forall2 QP.same_list).
Local Abbreviation IntersectLists_loop :=
  (QP.IntersectLists_loop alg GetDocLen collection_average_doc_len_).
Local Abbreviation IntersectListsMerge :=
  (QP.IntersectListsMerge alg log10 GetDocLen collection_average_doc_len_
     collection_total_num_docs_).
Local Abbreviation MergeLists :=
  (QP.MergeLists alg log10 GetDocLen collection_average_doc_len_ collection_total_num_docs_).

Lemma same_list_NextGEQ l l' d :
  QP.same_list l l' ->
  (ListData.NextGEQ l d).1 = (ListData.NextGEQ l' d).1 /\
  QP.same_list (ListData.NextGEQ l d).2 (ListData.NextGEQ l' d).2.
Proof.
  intros (H1 & H2 & H3 & H4). unfold ListData.NextGEQ, ListData.current_doc_id.
  cbn [fst snd ListData.postings ListData.position]. rewrite H3, H4. split; [done|].
  repeat split; done.
Qed.

Lemma same_store_lookup (st st' : QP.store) (list : nat) :
  same_store st st' ->
  match st !! list, st' !! list with
  | Some l, Some l' => QP.same_list l l'
  | None, None => True
  | _, _ => False
  end.
Proof.
  intros H. revert list. induction H as [|l l' st st' Hl _ IH]; intros [|list]; simpl; try done.
  apply IH.
Qed.

Lemma same_store_insert (st st' : QP.store) (list : nat) l l' :
  same_store st st' -> QP.same_list l l' -> same_store (<[list := l]> st) (<[list := l']> st').
Proof.
  intros H Hl. revert list. induction H as [|x x' st st' Hx Hst IH]; intros [|list]; simpl;
    try by constructor.
Qed.

Lemma NextGEQ_same (st st' : QP.store) list d :
  same_store st st' ->
  (QP.NextGEQ st list d).1 = (QP.NextGEQ st' list d).1 /\
  same_store (QP.NextGEQ st list d).2 (QP.NextGEQ st' list d).2.
Proof.
  intros H. unfold QP.NextGEQ. pose proof (same_store_lookup st st' list H) as Hl.
  destruct (st !! list) as [l|], (st' !! list) as [l'|]; try done.
  destruct (same_list_NextGEQ l l' d Hl) as [Hr Hs].
  destruct (ListData.NextGEQ l d) as [r l1], (ListData.NextGEQ l' d) as [r' l1'].
  cbn [fst snd] in *. split; [done|]. by apply same_store_insert.
Qed.

Lemma GetFreq_same (st st' : QP.store) list :
  same_store st st' -> QP.GetFreq st list = QP.GetFreq st' list.
Proof.
  intros H. unfold QP.GetFreq. pose proof (same_store_lookup st st' list H) as Hl.
  destruct (st !! list) as [l|], (st' !! list) as [l'|]; try done.
  destruct Hl as (_ & _ & H3 & H4). unfold ListData.GetFreq. by rewrite H3, H4.
Qed.

Lemma idf_of_lists_same (st st' : QP.store) lists :
  same_store st st' ->
  QP.idf_of_lists log10 collection_total_num_docs_ st lists
  = QP.idf_of_lists log10 collection_total_num_docs_ st' lists.
Proof.
  intros H. unfold QP.idf_of_lists. apply map_ext. intros list.
  pose proof (same_store_lookup st st' list H) as Hl.
  destruct (st !! list) as [l|], (st' !! list) as [l'|]; try done.
  destruct Hl as (_ & -> & _). done.
Qed.

Lemma total_postings_same (st st' : QP.store) :
  same_store st st' -> QP.total_postings st = QP.total_postings st'.
Proof.
  induction 1 as [|l l' st st' (_ & _ & H3 & _) _ IH]; [done|].
  simpl. by rewrite H3, IH.
Qed.

Lemma sort_lists_same (st st' : QP.store) lists :
  same_store st st' -> QP.sort_lists alg st lists = QP.sort_lists alg st' lists.
Proof.
  intros H. unfold QP.sort_lists. apply Hext. intros x y.
  pose proof (same_store_lookup st st' x H) as Hx.
  pose proof (same_store_lookup st st' y H) as Hy.
  destruct (st !! x) as [l|], (st' !! x) as [l'|]; try done.
  destruct (st !! y) as [r|], (st' !! y) as [r'|]; try done.
  destruct Hx as (Hx & _), Hy as (Hy & _). unfold ListData.ListCompare. by rewrite Hx, Hy.
Qed.

Lemma merge_lists_min_same merge_lists : forall (st st' : QP.store) did min_doc_id,
  same_store st st' ->
  (QP.merge_lists_min st merge_lists did min_doc_id).1
  = (QP.merge_lists_min st' merge_lists did min_doc_id).1 /\
  same_store (QP.merge_lists_min st merge_lists did min_doc_id).2
             (QP.merge_lists_min st' merge_lists did min_doc_id).2.
Proof.
  induction merge_lists as [|l merge_lists IH]; intros st st' did min_doc_id H; [done|].
  cbn [QP.merge_lists_min].
  destruct (NextGEQ_same st st' l did H) as [Hr Hs].
  destruct (QP.NextGEQ st l did) as [d st1], (QP.NextGEQ st' l did) as [d' st1'].
  cbn [fst snd] in *. subst d'. by apply IH.
Qed.

Lemma same_doc_id_same lists : forall (st st' : QP.store) did,
  same_store st st' ->
  (QP.same_doc_id st lists did).1 = (QP.same_doc_id st' lists did).1 /\
  same_store (QP.same_doc_id st lists did).2 (QP.same_doc_id st' lists did).2.
Proof.
  induction lists as [|l lists IH]; intros st st' did H; [done|].
  cbn [QP.same_doc_id].
  destruct (NextGEQ_same st st' l did H) as [Hr Hs].
  destruct (QP.NextGEQ st l did) as [d st1], (QP.NextGEQ st' l did) as [d' st1'].
  cbn [fst snd] in *. subst d'. destruct (d =? did); [by apply IH|done].
Qed.

Lemma bm25_sum_of_same lists : forall (st st' : QP.store) idf_t did bm25_sum,
  same_store st st' ->
  QP.bm25_sum_of GetDocLen collection_average_doc_len_ st lists idf_t did bm25_sum
  = QP.bm25_sum_of GetDocLen collection_average_doc_len_ st' lists idf_t did bm25_sum.
Proof.
  induction lists as [|l lists IH]; intros st st' idf_t did bm25_sum H; [done|].
  destruct idf_t as [|idf_l idf_t]; [done|]. cbn [QP.bm25_sum_of].
  rewrite (GetFreq_same st st' l H). by apply IH.
Qed.

Lemma IntersectLists_loop_same fuel :
  forall merge_lists lists idf_t num_results (st st' : QP.store) did total_num_results results,
  same_store st st' ->
  (IntersectLists_loop fuel merge_lists lists idf_t num_results st did
     total_num_results results).1
  = (IntersectLists_loop fuel merge_lists lists idf_t num_results st' did
     total_num_results results).1 /\
  same_store
    (IntersectLists_loop fuel merge_lists lists idf_t num_results st did
       total_num_results results).2
    (IntersectLists_loop fuel merge_lists lists idf_t num_results st' did
       total_num_results results).2.
Proof.
  induction fuel as [|fuel IH];
    intros merge_lists lists idf_t num_results st st' did total_num_results results H; [done|].
  cbn [QP.IntersectLists_loop].
  destruct (did <? u32_max); [|done].
  assert (Hfirst :
    let first st :=
      match merge_lists with
      | Some merge_lists =>
          let '(min_doc_id, st) := QP.merge_lists_min st merge_lists did u32_max in
          (min_doc_id, 0%nat, st)
      | None =>
          let '(d, st) := QP.NextGEQ st (nth 0 lists 0%nat) did in (d, 1%nat, st)
      end in
    (first st).1 = (first st').1 /\ same_store (first st).2 (first st').2).
  { cbn zeta. destruct merge_lists as [merge_lists|].
    - destruct (merge_lists_min_same merge_lists st st' did u32_max H) as [Hr Hs].
      destruct (QP.merge_lists_min st _ _ _) as [m st1], (QP.merge_lists_min st' _ _ _) as [m' st1'].
      cbn [fst snd] in *. by subst m'.
    - destruct (NextGEQ_same st st' (nth 0 lists 0%nat) did H) as [Hr Hs].
      destruct (QP.NextGEQ st _ _) as [d st1], (QP.NextGEQ st' _ _) as [d' st1'].
      cbn [fst snd] in *. by subst d'. }
  cbn zeta in Hfirst. destruct Hfirst as [Hr Hs].
  destruct (match merge_lists with Some _ => _ | None => _ end) as [[did1 i] st1].
  destruct (match merge_lists with Some _ => _ | None => _ end) as [[did1' i'] st1'].
  cbn [fst snd] in Hr, Hs. injection Hr as <- <-.
  destruct (did1 =? u32_max); [done|].
  destruct (same_doc_id_same (drop i lists) st1 st1' did1 Hs) as [Hr2 Hs2].
  destruct (QP.same_doc_id st1 _ _) as [d st2], (QP.same_doc_id st1' _ _) as [d' st2'].
  cbn [fst snd] in Hr2, Hs2. subst d'.
  destruct (did1 <? d); [by apply IH|].
  rewrite (bm25_sum_of_same lists st2 st2' idf_t did1 F32.zero Hs2). by apply IH.
Qed.

Lemma IntersectListsMerge_same merge_lists lists results num_results (st st' : QP.store) :
  same_store st st' ->
  (IntersectListsMerge merge_lists lists results num_results st).1
  = (IntersectListsMerge merge_lists lists results num_results st').1.
Proof.
  intros H. unfold QP.IntersectListsMerge.
  rewrite (idf_of_lists_same st st' lists H), (total_postings_same st st' H).
  destruct (IntersectLists_loop_same (S (QP.total_postings st')) merge_lists lists
              (QP.idf_of_lists log10 collection_total_num_docs_ st' lists) num_results
              st st' 0 0%nat results H) as [Hr _].
  destruct (IntersectLists_loop _ _ _ _ _ st _ _ _) as [[t r] s].
  destruct (IntersectLists_loop _ _ _ _ _ st' _ _ _) as [[t' r'] s'].
  cbn [fst snd] in *. by injection Hr as -> ->.
Qed.

Lemma init_curr_postings_same lists : forall (st st' : QP.store) i,
  same_store st st' ->
  (QP.init_curr_postings st lists i).1 = (QP.init_curr_postings st' lists i).1 /\
  same_store (QP.init_curr_postings st lists i).2 (QP.init_curr_postings st' lists i).2.
Proof.
  induction lists as [|l lists IH]; intros st st' i H; [done|].
  cbn [QP.init_curr_postings].
  destruct (NextGEQ_same st st' l 0 H) as [Hr Hs].
  destruct (QP.NextGEQ st l 0) as [d st1], (QP.NextGEQ st' l 0) as [d' st1'].
  cbn [fst snd] in *. subst d'.
  destruct (IH st1 st1' (S i) Hs) as [Hr2 Hs2].
  destruct (QP.init_curr_postings st1 lists (S i)) as [rest st2].
  destruct (QP.init_curr_postings st1' lists (S i)) as [rest' st2'].
  cbn [fst snd] in *. subst rest'. done.
Qed.

Lemma score_complete_doc_same fuel :
  forall (st st' : QP.store) lists idf_t lists_curr_postings num_lists_remaining top
         curr_doc_id bm25_sum,
  same_store st st' ->
  let run st :=
    QP.score_complete_doc GetDocLen collection_average_doc_len_ fuel st lists idf_t
      lists_curr_postings num_lists_remaining top curr_doc_id bm25_sum in
  (run st).1 = (run st').1 /\ same_store (run st).2 (run st').2.
Proof.
  induction fuel as [|fuel IH];
    intros st st' lists idf_t lists_curr_postings num_lists_remaining top curr_doc_id bm25_sum H;
    [done|].
  cbn zeta. cbn [QP.score_complete_doc].
  destruct (top =? num_lists_remaining)%nat; [done|].
  destruct (nth top lists_curr_postings (0, 0%nat)) as [first second].
  destruct (first =? curr_doc_id); [|by apply IH].
  rewrite (GetFreq_same st st' _ H).
  destruct (NextGEQ_same st st' (nth second lists 0%nat) (wrap32 (first + 1)) H) as [Hr Hs].
  destruct (QP.NextGEQ st _ _) as [next st1], (QP.NextGEQ st' _ _) as [next' st1'].
  cbn [fst snd] in *. subst next'.
  destruct (next =? u32_max); by apply IH.
Qed.

Lemma MergeLists_loop_same fuel :
  forall (st st' : QP.store) lists idf_t num_results lists_curr_postings num_lists_remaining
         total_num_results results,
  same_store st st' ->
  let run st :=
    QP.MergeLists_loop alg GetDocLen collection_average_doc_len_ fuel st lists idf_t
      num_results lists_curr_postings num_lists_remaining total_num_results results in
  (run st).1 = (run st').1.
Proof.
  induction fuel as [|fuel IH];
    intros st st' lists idf_t num_results lists_curr_postings num_lists_remaining
           total_num_results results H; [done|].
  cbn zeta. cbn [QP.MergeLists_loop].
  destruct (num_lists_remaining =? 0)%nat; [done|].
  set (top := QP.lowest lists_curr_postings num_lists_remaining).
  set (curr_doc_id := (nth top lists_curr_postings (0, 0%nat)).1).
  destruct (score_complete_doc_same (length lists_curr_postings) st st' lists idf_t
              lists_curr_postings num_lists_remaining top curr_doc_id F32.zero H) as [Hr Hs].
  cbn zeta in Hr, Hs.
  destruct (QP.score_complete_doc _ _ _ st _ _ _ _ _ _ _) as [[[sum ps] n] st1].
  destruct (QP.score_complete_doc _ _ _ st' _ _ _ _ _ _ _) as [[[sum' ps'] n'] st1'].
  cbn [fst snd] in Hr, Hs. injection Hr as <- <- <-.
  by apply IH.
Qed.

Lemma sorted_results_same (X X' : nat * list QP.Result * QP.store) num_results :
  X.1 = X'.1 ->
  (let '(total_num_results, results, st) := X in
   (total_num_results, QP.sort_results alg results num_results total_num_results, st)).1
  = (let '(total_num_results, results, st) := X' in
     (total_num_results, QP.sort_results alg results num_results total_num_results, st)).1.
Proof. destruct X as [[t r] s], X' as [[t' r'] s']. cbn [fst snd]. by intros [= -> ->]. Qed.

Lemma MergeLists_same lists results num_results (st st' : QP.store) :
  same_store st st' ->
  (MergeLists lists results num_results st).1 = (MergeLists lists results num_results st').1.
Proof.
  intros H. unfold QP.MergeLists.
  rewrite (idf_of_lists_same st st' lists H).
  destruct (init_curr_postings_same lists st st' 0%nat H) as [Hr Hs].
  destruct (QP.init_curr_postings st lists 0) as [ps st1].
  destruct (QP.init_curr_postings st' lists 0) as [ps' st1'].
  cbn [fst snd] in Hr, Hs. subst ps'.
  destruct (0 <? length ps)%nat; [|done].
  rewrite (total_postings_same st1 st1' Hs).
  pose proof (MergeLists_loop_same (S (QP.total_postings st1')) st1 st1' lists
                (QP.idf_of_lists log10 collection_total_num_docs_ st' lists) num_results
                ps (length ps) 0%nat results Hs) as Hl.
  exact (sorted_results_same _ _ num_results Hl).
Qed.

(** [ProcessQuery] on two lexicons whose last layers hold the same
    postings and give the same list lengths. *)
Lemma ProcessQuery_same overlapping overlapping' IntersectListsTopPositions query_algorithm_
    query_term_data query_term_data' results num_results :
  query_algorithm_ = QP.kDaatAnd \/ query_algorithm_ = QP.kDaatOr ->
  same_store (QP.open_last_layers overlapping query_term_data)
             (QP.open_last_layers overlapping' query_term_data') ->
  QP.ProcessQuery alg log10 GetDocLen collection_average_doc_len_ collection_total_num_docs_
    overlapping IntersectListsTopPositions query_algorithm_ query_term_data results num_results
  = QP.ProcessQuery alg log10 GetDocLen collection_average_doc_len_ collection_total_num_docs_
      overlapping' IntersectListsTopPositions query_algorithm_ query_term_data' results
      num_results.
Proof.
  intros Halgo H. unfold QP.ProcessQuery.
  assert (Hlen : length query_term_data = length query_term_data').
  { apply Forall2_length in H. unfold QP.open_last_layers in H.
    by rewrite !length_map in H. }
  rewrite <- Hlen.
  destruct Halgo as [-> | ->].
  - unfold QP.IntersectLists.
    rewrite (sort_lists_same _ _ _ H).
    pose proof (IntersectListsMerge_same None
      (QP.sort_lists alg (QP.open_last_layers overlapping' query_term_data')
         (seq 0 (length query_term_data))) results num_results _ _ H) as Hr.
    destruct (IntersectListsMerge None _ _ _ (QP.open_last_layers overlapping _)) as [[t r] s].
    destruct (IntersectListsMerge None _ _ _ (QP.open_last_layers overlapping' _)) as [[t' r'] s'].
    cbn [fst snd] in Hr. by injection Hr as -> ->.
  - pose proof (MergeLists_same (seq 0 (length query_term_data)) results num_results _ _ H) as Hr.
    destruct (MergeLists _ _ _ (QP.open_last_layers overlapping _)) as [[t r] s].
    destruct (MergeLists _ _ _ (QP.open_last_layers overlapping' _)) as [[t' r'] s'].
    cbn [fst snd] in Hr. by injection Hr as -> ->.
Qed.

End SameLists.

Lemma reference_extensional : Stl.extensional Stl.reference.
Proof.
  intros A comp1 comp2 l Hc. cbn [Stl.sort Stl.reference]. unfold Stl.sort_by.
  induction l as [|x l IH]; [done|]. cbn [foldr]. rewrite IH.
  generalize (foldr (Stl.insert_by comp2) [] l). intros l'.
  induction l' as [|y l' IH']; [done|]. cbn [Stl.insert_by]. by rewrite Hc, IH'.
Qed.

Section ScoreAgreement.

Context (alg : Stl.algorithms) (log10 : spec_float -> spec_float) (GetDocLen : Z -> Z)
  (collection_average_doc_len_ collection_total_num_docs_ : Z)
  (IntersectListsTopPositions :
     list nat -> list QP.Result -> nat -> QP.store -> nat * list QP.Result * QP.store)
  (Bm25Score : Layerify.IndexEntry -> spec_float)
  (pow : spec_float -> spec_float -> spec_float) (CHUNK_SIZE num_layers_ : Z)
  (layer_splitting_strategy : Layerify.LayerSplitMode).
Hypothesis Halg : Stl.conforming alg.
Hypothesis Hext : Stl.extensional alg.
Hypothesis Hscore : forall e, TopK.not_nan (Bm25Score e).
Hypothesis Hnum_layers : 0 < num_layers_ <= 8.

Local Abbreviation layerify_list :=
  (Layerify.layerify_list alg Bm25Score pow CHUNK_SIZE num_layers_ true
     layer_splitting_strategy).

(** The cursor on the last layer of an overlapping layered list stands on
    the same postings as the cursor on the list without layers. *)
Lemma OpenList_last_layer score_threshold term postings :
  IndexFiles.inverted_list postings ->
  let plain := IndexFiles.plain_entry score_threshold term postings in
  let layered := IndexFiles.layered_entry term (layerify_list postings) in
  QP.same_list (ListData.OpenList false plain (Lex.num_layers plain - 1) 0)
               (ListData.OpenList true layered (Lex.num_layers layered - 1) 0) /\
  ListData.num_docs_complete_list
    (ListData.OpenList true layered (Lex.num_layers layered - 1) 0)
  = Z.of_nat (length postings).
Proof.
  intros [Hne Hsorted] plain layered.
  destruct (layerify_list_last_layer alg Bm25Score pow CHUNK_SIZE num_layers_
              layer_splitting_strategy Halg Hscore postings Hnum_layers Hne Hsorted)
    as (l & Hlast & Hentries).
  assert (Hlayer : Lex.layer layered (Lex.num_layers layered - 1)
                   = {| Lex.num_docs := Z.of_nat (length postings);
                        Lex.score_threshold := Layerify.score_threshold l;
                        Lex.layer_postings := map IndexFiles.posting postings |}).
  { unfold Lex.layer, Lex.num_layers, layered, IndexFiles.layered_entry. cbn [Lex.layers].
    rewrite length_map.
    set (layers := layerify_list postings) in *.
    assert (Hlen : (0 < length layers)%nat) by (destruct layers; [done|simpl; lia]).
    replace (Z.to_nat (Z.of_nat (length layers) - 1)) with (length layers - 1)%nat by lia.
    rewrite last_lookup in Hlast.
    replace (Init.Nat.pred (length layers)) with (length layers - 1)%nat in Hlast by lia.
    apply nth_lookup_Some with (d := Lex.no_layer).
    rewrite list_lookup_fmap, Hlast. cbn [fmap option_fmap option_map]. by rewrite Hentries. }
  unfold ListData.OpenList, ListData.complete_list_num_docs, Lex.layer_num_docs,
    Lex.layer_score_threshold.
  rewrite Hlayer. cbn [Lex.num_docs Lex.layer_postings ListData.num_docs_complete_list].
  split; [|done].
  unfold QP.same_list. cbn. repeat split; lia.
Qed.

(** X3. The evaluators take the IDF of a term from the length of its
    complete list, by [log10(1 + (N - n + 0.5) / (n + 0.5))]; and on an
    index with overlapping layers, which is the only layered index that
    [LoadIndexProperties] lets DAAT-AND (and DAAT-OR) run on, the standard
    evaluation on the last layers returns exactly what it returns on the
    index without layers: the same count, the same docIDs and the same
    scores. *)
Theorem ProcessQuery_layered_agrees index_overlapping_layers_ query_algorithm_
    (query : list (string * list Layerify.IndexEntry)) score_threshold results num_results :
  query_algorithm_ = QP.kDaatAnd \/ query_algorithm_ = QP.kDaatOr ->
  QP.resolve_query_algorithm query_algorithm_ true index_overlapping_layers_ num_layers_
    = Some query_algorithm_ ->
  Forall (fun '(_, postings) => IndexFiles.inverted_list postings) query ->
  let plain := map (fun '(term, postings) =>
                      IndexFiles.plain_entry score_threshold term postings) query in
  let layered :=
    map (fun '(term, layers) => IndexFiles.layered_entry term layers)
        (Layerify.CreateLayeredIndex alg Bm25Score pow CHUNK_SIZE num_layers_
           index_overlapping_layers_ layer_splitting_strategy query) in
  QP.ProcessQuery alg log10 GetDocLen collection_average_doc_len_ collection_total_num_docs_
    false IntersectListsTopPositions query_algorithm_ plain results num_results
  = QP.ProcessQuery alg log10 GetDocLen collection_average_doc_len_ collection_total_num_docs_
      index_overlapping_layers_ IntersectListsTopPositions query_algorithm_ layered results
      num_results /\
  (forall st lists,
     QP.idf_of_lists log10 collection_total_num_docs_ st lists
     = map (fun list =>
              QP.idf log10 collection_total_num_docs_
                (default 0 (ListData.num_docs_complete_list <$> st !! list))) lists) /\
  Forall2 (fun '(_, postings) l =>
             ListData.num_docs_complete_list l = Z.of_nat (length postings))
          query (QP.open_last_layers index_overlapping_layers_ layered) /\
  (forall n, 0 <= n <= collection_total_num_docs_ -> collection_total_num_docs_ <= u32_max ->
     QP.idf log10 collection_total_num_docs_ n
     = F64.to_f32
         (log10 (F64.add (F64.of_Z 1)
                   (F64.div (F64.add (F64.of_Z (collection_total_num_docs_ - n))
                                     (F64.of_bits 1 (-1)))
                            (F64.add (F64.of_Z n) (F64.of_bits 1 (-1))))))).
Proof.
  intros Halgo Hresolve Hquery plain layered.
  assert (index_overlapping_layers_ = true) as ->.
  { destruct Halgo as [-> | ->]; cbn in Hresolve;
      by destruct index_overlapping_layers_. }
  assert (Hopen :
    Forall2 QP.same_list (QP.open_last_layers false plain) (QP.open_last_layers true layered) /\
    Forall2 (fun '(_, postings) l =>
               ListData.num_docs_complete_list l = Z.of_nat (length postings))
            query (QP.open_last_layers true layered)).
  { unfold plain, layered, QP.open_last_layers, Layerify.CreateLayeredIndex.
    rewrite !map_map. clear plain layered.
    induction Hquery as [|[term postings] query Hp _ IH]; [split; constructor|].
    destruct IH as [IH1 IH2]. cbn [map].
    destruct (OpenList_last_layer score_threshold term postings Hp) as [H1 H2].
    split; constructor; done. }
  destruct Hopen as [Hsame Hcomplete].
  split; [|split; [|split; [done|]]].
  - by apply ProcessQuery_same.
  - intros st lists. unfold QP.idf_of_lists. apply map_ext. intros list.
    by destruct (st !! list).
  - intros n Hn HN. unfold QP.idf, wrap32.
    rewrite Z.mod_small; [done|]. unfold u32_max in HN. lia.
Qed.

End ScoreAgreement.

Lemma LayerifyExample_inverted_list : IndexFiles.inverted_list LayerifyExample.postings.
Proof.
  split; [done|]. unfold LayerifyExample.postings. cbn [seq map].
  repeat (constructor; [|repeat (constructor; [cbn; lia|]); constructor]). constructor.
Qed.

Lemma ProcessQuery_layered_agrees_witness :
  QP.ProcessQuery Stl.reference Toy.log10 (fun _ => 10) 10 404 false
    (fun _ results _ st => (0%nat, results, st)) QP.kDaatAnd
    (map (fun '(term, postings) => IndexFiles.plain_entry F32.zero term postings)
       [("alpha"%string, LayerifyExample.postings)])
    (replicate 10 QP.no_result) 10
  = QP.ProcessQuery Stl.reference Toy.log10 (fun _ => 10) 10 404 true
      (fun _ results _ st => (0%nat, results, st)) QP.kDaatAnd
      (map (fun '(term, layers) => IndexFiles.layered_entry term layers)
         (Layerify.CreateLayeredIndex Stl.reference LayerifyExample.Bm25Score
            LayerifyExample.pow 128 2 true Layerify.kPercentageFixedBounded
            [("alpha"%string, LayerifyExample.postings)]))
      (replicate 10 QP.no_result) 10.
Proof.
  pose proof (ProcessQuery_layered_agrees Stl.reference Toy.log10 (fun _ => 10) 10 404
           (fun _ results _ st => (0%nat, results, st)) LayerifyExample.Bm25Score
           LayerifyExample.pow 128 2 Layerify.kPercentageFixedBounded
           reference_conforming reference_extensional
           (fun e => F32_of_Z_not_nan _) ltac:(lia)
           true QP.kDaatAnd [("alpha"%string, LayerifyExample.postings)] F32.zero
           (replicate 10 QP.no_result) 10%nat (or_introl eq_refl) eq_refl
           ltac:(constructor; [apply LayerifyExample_inverted_list|constructor])) as H.
  exact (proj1 H).
Defined.

(** The query [a b c] of [LayeredExample] with one result asked for: the
    dual-layered algorithm declares early termination and returns
    document 1, while standard DAAT-AND on the last layers returns
    document 2, whose score is higher.  The first layer of [b] meets no
    document of [a], so the second of the three intersections is empty;
    the result of the third one is written to [result_heap[2]] while the
    heap is [result_heap[0 .. 1]]. *)
Lemma LayeredExample_early_termination :
  let s1 := S754_finite false 9648312 (-21) in
  let s2 := S754_finite false 10094061 (-21) in
  QP.outcome LayeredExample.ProcessLayeredQuery = QP.EarlyTerminated /\
  QP.results LayeredExample.ProcessLayeredQuery = [(s1, 1)] /\
  LayeredExample.ProcessQuery = Some (2%nat, 1%nat, [(s2, 2)]) /\
  SFltb s1 s2 = true /\
  QP.seed_result_heap 0 [[(s1, 1)]; [QP.no_result]; [(s2, 2)]] [1; 0; 1]%nat
    (replicate 3 QP.no_heap_entry) 0
  = ([0; 0; 0]%nat,
     [((s1, 1), (0, 1)%nat); QP.no_heap_entry; ((s2, 2), (2, 1)%nat)], 2%nat).
Proof. cbn zeta. repeat split; vm_compute; reflexivity. Qed.

(** ** The layers of a list *)

(** ** The layers of a list, seen from the list sorted by score *)

Section LayerCutsFacts.

Context (alg : Stl.algorithms) (Bm25Score : Layerify.IndexEntry -> spec_float)
  (pow : spec_float -> spec_float -> spec_float) (CHUNK_SIZE num_layers_ : Z)
  (overlapping_layers_ : bool) (layer_splitting_strategy : Layerify.LayerSplitMode).
Hypothesis Halg : Stl.conforming alg.
Hypothesis Hscore : forall e, TopK.not_nan (Bm25Score e).

Local Abbreviation split_layer :=
  (Layerify.split_layer Bm25Score pow CHUNK_SIZE num_layers_ layer_splitting_strategy).
Local Abbreviation layers_loop :=
  (Layerify.layers_loop alg Bm25Score pow CHUNK_SIZE num_layers_ overlapping_layers_
     layer_splitting_strategy).
Local Abbreviation score_at buf idx := (Bm25Score (Layerify.entry_at buf idx)).

Lemma split_layer_min_size buf i total left curr' left' :
  split_layer buf i total left = (curr', left') ->
  0 <= i < 8 -> 0 < left -> left <= total -> CHUNK_SIZE <= left -> CHUNK_SIZE <= curr'.
Proof.
  unfold Layerify.split_layer. intros Hs Hi Hl Ht Hmin.
  pose proof (proposed_layer_size_nonneg pow num_layers_ layer_splitting_strategy
                i total Hi ltac:(lia)) as Hp.
  set (c0 := Z.min (Layerify.proposed_layer_size pow num_layers_ layer_splitting_strategy
                      i total) left) in Hs.
  set (c1 := if (c0 <? CHUNK_SIZE) && (CHUNK_SIZE <=? left) then CHUNK_SIZE else c0) in Hs.
  assert (Hc1 : CHUNK_SIZE <= c1 <= left).
  { unfold c1, c0.
    destruct (Z.ltb_spec (Z.min (Layerify.proposed_layer_size pow num_layers_
                                   layer_splitting_strategy i total) left) CHUNK_SIZE),
             (Z.leb_spec CHUNK_SIZE left); simpl; lia. }
  clearbody c1. clear c0 Hp.
  destruct ((i =? num_layers_ - 1) && (0 <? left - c1)) eqn:Hlast.
  - apply andb_true_iff in Hlast as [_ Hpos%Z.ltb_lt]. injection Hs as <- <-. lia.
  - apply (fix_boundary_spec Bm25Score num_layers_) in Hs; [|lia|lia].
    destruct Hs as (Hsum & Hle & _). lia.
Qed.

Lemma layers_loop_step_full fuel i buf total left :
  0 <= i < 8 -> 0 < left -> left <= total -> total = Z.of_nat (length buf) ->
  exists l buf' left',
    layers_loop (S fuel) i buf total left = l :: layers_loop fuel (i + 1) buf' total left' /\
    0 <= left' < left /\
    (i = num_layers_ - 1 -> left' = 0) /\
    Permutation (Layerify.layer_entries l)
      (drop (Z.to_nat (if overlapping_layers_ then 0 else total - left))
            (take (Z.to_nat (total - left')) buf)) /\
    Stl.is_sorted Layerify.IndexEntryDocIdComparison (Layerify.layer_entries l) /\
    Layerify.score_threshold l = score_at buf (total - left) /\
    (CHUNK_SIZE <= left -> CHUNK_SIZE <= left - left') /\
    Layerify.chunk_max_scores l
      = (Layerify.DumpToIndex alg Bm25Score CHUNK_SIZE
           (S (length (Layerify.layer_entries l))) (Layerify.layer_entries l)).1 /\
    total = Z.of_nat (length buf') /\
    drop (Z.to_nat (total - left')) buf' = drop (Z.to_nat (total - left')) buf /\
    Permutation (take (Z.to_nat (total - left')) buf') (take (Z.to_nat (total - left')) buf).
Proof.
  intros Hi Hl Ht Hlen. cbn [Layerify.layers_loop].
  destruct (Z.leb_spec left 0) as [|_]; [lia|].
  destruct (split_layer buf i total left) as [curr' left'] eqn:Hs.
  pose proof (split_layer_min_size _ _ _ _ _ _ Hs Hi Hl Ht) as Hmin.
  apply (split_layer_spec Bm25Score pow CHUNK_SIZE num_layers_ layer_splitting_strategy Hscore)
    in Hs; [|done..].
  destruct Hs as (Hsum & Hl' & Hc' & Hlast & _).
  replace (total - left' - curr') with (total - left) by lia.
  replace (total - left + curr') with (total - left') by lia.
  set (lstart := if overlapping_layers_ then 0 else total - left).
  set (range := drop (Z.to_nat lstart) (take (Z.to_nat (total - left')) buf)).
  set (sorted := Stl.sort alg _ Layerify.IndexEntryDocIdComparison range).
  destruct (Layerify.DumpToIndex alg Bm25Score CHUNK_SIZE (S (length sorted)) sorted)
    as [max_scores dumped] eqn:Hd.
  assert (Hls : 0 <= lstart <= total - left') by (unfold lstart; destruct overlapping_layers_; lia).
  destruct (Stl.sort_spec _ Halg _ (fun _ => True) Layerify.IndexEntryDocIdComparison range
              IndexEntryDocIdComparison_swo (Forall_True range)) as [Hsorted Hissorted].
  fold sorted in Hsorted, Hissorted.
  assert (Hdumped : Permutation dumped sorted).
  { pose proof (DumpToIndex_perm alg Bm25Score CHUNK_SIZE Halg Hscore
                  (S (length sorted)) sorted ltac:(lia)) as [Hp _].
    by rewrite Hd in Hp. }
  assert (Hrange : Z.of_nat (length range) = total - left' - lstart).
  { unfold range. rewrite length_drop, length_take. lia. }
  assert (Hdlen : length dumped = Z.to_nat (total - left' - lstart)).
  { rewrite (Permutation_length Hdumped), (Permutation_length Hsorted). lia. }
  eexists _, _, left'. split; [reflexivity|].
  cbn [Layerify.layer_entries Layerify.score_threshold Layerify.chunk_max_scores].
  split; [lia|]. split; [done|]. split; [done|]. split; [done|]. split; [done|].
  split; [intros H; specialize (Hmin H); lia|].
  split; [by rewrite Hd|].
  split; [|split].
  - rewrite !length_app, length_take, length_drop, Hdlen. lia.
  - rewrite app_assoc, drop_app_length'; [done|].
    rewrite length_app, length_take, Hdlen. lia.
  - rewrite app_assoc, take_app_length'.
    2:{ rewrite length_app, length_take, Hdlen. lia. }
    rewrite Hdumped, Hsorted. unfold range.
    rewrite <- (take_drop (Z.to_nat lstart) (take (Z.to_nat (total - left')) buf)) at 2.
    rewrite take_take. replace (Z.to_nat lstart `min` Z.to_nat (total - left'))%nat
      with (Z.to_nat lstart) by lia. done.
Qed.

Lemma layers_loop_cut fuel : forall i buf total left B,
  0 <= i -> i + Z.of_nat fuel = num_layers_ -> num_layers_ <= 8 ->
  0 <= left <= total -> total = Z.of_nat (length buf) -> total = Z.of_nat (length B) ->
  (fuel = 0%nat -> left = 0) ->
  drop (Z.to_nat (total - left)) buf = drop (Z.to_nat (total - left)) B ->
  Permutation (take (Z.to_nat (total - left)) buf) (take (Z.to_nat (total - left)) B) ->
  LayerCuts.cut Bm25Score CHUNK_SIZE overlapping_layers_ B left
    (layers_loop fuel i buf total left).
Proof.
  induction fuel as [|fuel IH]; intros i buf total left B Hi Hf Hn Hl Hlen HB H0 Hdrop Htake.
  { rewrite H0 by done. constructor. }
  destruct (Z.leb_spec left 0) as [Hz|Hp].
  { rewrite (layers_loop_nil alg Bm25Score pow CHUNK_SIZE num_layers_ overlapping_layers_
               layer_splitting_strategy) by done.
    replace left with 0 by lia. constructor. }
  destruct (layers_loop_step_full fuel i buf total left) as
    (l & buf' & left' & -> & Hl' & Hlast & Hperm & Hsorted & Hthr & Hmin & _ & Hlen' & Hdrop'
       & Htake'); [lia..|done|].
  assert (Hsplit : forall (X : list Layerify.IndexEntry),
    take (Z.to_nat (total - left')) X
    = take (Z.to_nat (total - left)) X
      ++ take (Z.to_nat (left - left')) (drop (Z.to_nat (total - left)) X)).
  { intros X. rewrite take_take_drop. f_equal. lia. }
  assert (Htake2 : Permutation (take (Z.to_nat (total - left')) buf)
                               (take (Z.to_nat (total - left')) B)).
  { rewrite (Hsplit buf), (Hsplit B), Hdrop, Htake. done. }
  unfold LayerCuts.total_num_postings. 
  apply LayerCuts.cut_layer with (left' := left').
  - done.
  - unfold LayerCuts.total_num_postings. rewrite <- HB. rewrite Hperm.
    destruct overlapping_layers_.
    + change (Z.to_nat 0) with 0%nat. rewrite !drop_0. done.
    + rewrite !skipn_firstn_comm, Hdrop. done.
  - done.
  - unfold LayerCuts.total_num_postings. rewrite <- HB. rewrite Hthr.
    unfold Layerify.entry_at.
    assert (Hn1 : forall (X : list Layerify.IndexEntry),
      nth (Z.to_nat (total - left)) X Layerify.no_entry
      = nth 0 (drop (Z.to_nat (total - left)) X) Layerify.no_entry).
    { intros X. clear. generalize (Z.to_nat (total - left)). intros n. revert X.
      induction n as [|n IHn]; intros [|x X]; simpl; try done. }
    by rewrite !Hn1, Hdrop.
  - done.
  - apply (IH (i + 1) buf' total left' B ltac:(lia) ltac:(lia) Hn ltac:(lia) Hlen' HB).
    + intros ->. apply Hlast. lia.
    + rewrite Hdrop'.
      replace (Z.to_nat (total - left')) with (Z.to_nat (total - left) + Z.to_nat (left - left'))%nat by lia.
      rewrite <- !drop_drop, Hdrop. done.
    + by rewrite Htake'.
Qed.

Lemma layerify_list_cut postings :
  0 < num_layers_ <= 8 ->
  exists B,
    Permutation B postings /\
    Stl.is_sorted (Layerify.doc_id_score_comparator Bm25Score) B /\
    LayerCuts.cut Bm25Score CHUNK_SIZE overlapping_layers_ B (Z.of_nat (length B))
      (Layerify.layerify_list alg Bm25Score pow CHUNK_SIZE num_layers_ overlapping_layers_
         layer_splitting_strategy postings).
Proof.
  intros Hn. unfold Layerify.layerify_list.
  set (B := Stl.sort alg _ (Layerify.doc_id_score_comparator Bm25Score) postings).
  destruct (Stl.sort_spec _ Halg _ (fun _ => True) (Layerify.doc_id_score_comparator Bm25Score)
              postings (doc_id_score_comparator_swo Bm25Score Hscore) (Forall_True postings))
    as [Hperm Hsorted].
  fold B in Hperm, Hsorted. exists B. split; [done|]. split; [done|].
  rewrite <- (Permutation_length Hperm).
  apply layers_loop_cut; try lia; try done.
Qed.

End LayerCutsFacts.

(** *** Consequences for the layers *)

Section CutFacts.

Context (Bm25Score : Layerify.IndexEntry -> spec_float) (CHUNK_SIZE : Z)
  (B : list Layerify.IndexEntry).
Hypothesis Hscore : forall e, TopK.not_nan (Bm25Score e).
Hypothesis HB : Stl.is_sorted (Layerify.doc_id_score_comparator Bm25Score) B.

Local Abbreviation total := (Z.of_nat (length B)).

Lemma sorted_by_score_lookup (p q : nat) e e' :
  (p <= q)%nat -> B !! p = Some e -> B !! q = Some e' ->
  LayerCuts.scores_at_least Bm25Score e e'.
Proof.
  intros Hpq Hp Hq. unfold LayerCuts.scores_at_least.
  destruct (decide (p = q)) as [->|Hne].
  - rewrite Hp in Hq. injection Hq as <-. apply SFltb_irrefl.
  - apply (HB p q e e'); [lia|done|done].
Qed.

Lemma elem_of_range (a b : nat) (e : Layerify.IndexEntry) :
  e ∈ drop a (take b B) <-> exists p, (a <= p < b)%nat /\ B !! p = Some e.
Proof.
  rewrite list_elem_of_lookup. split.
  - intros [k Hk]. rewrite lookup_drop in Hk.
    pose proof (lookup_lt_Some _ _ _ Hk) as Hlt. rewrite length_take in Hlt.
    rewrite lookup_take_lt in Hk by lia. exists (a + k)%nat. split; [lia|done].
  - intros (p & Hp & He). exists (p - a)%nat. rewrite lookup_drop.
    replace (a + (p - a))%nat with p by lia. rewrite lookup_take_lt by lia. done.
Qed.

(** Without overlap: the layers split the sorted list into consecutive
    runs. *)
Lemma cut_partition left layers :
  0 <= left <= total ->
  LayerCuts.cut Bm25Score CHUNK_SIZE false B left layers ->
  Permutation (concat (map Layerify.layer_entries layers)) (drop (Z.to_nat (total - left)) B) /\
  foldr (fun l acc => Z.of_nat (length (Layerify.layer_entries l)) + acc) 0 layers = left.
Proof.
  intros Hl Hcut. induction Hcut as [|left left' l layers Hl' Hperm _ _ _ Hcut IH].
  { rewrite Z.sub_0_r, Nat2Z.id, drop_all. done. }
  destruct (IH ltac:(lia)) as [IH1 IH2]. cbn [map concat foldr].
  unfold LayerCuts.total_num_postings in Hperm. split.
  - rewrite Hperm, IH1. rewrite drop_take_drop; [done|lia].
  - rewrite IH2, (Permutation_length Hperm), length_drop, length_take. lia.
Qed.

(** Without overlap: the threshold of a layer is the highest score in
    it, and no posting of a later layer scores higher than a posting of
    an earlier one. *)
Lemma cut_scores left layers :
  0 <= left <= total ->
  LayerCuts.cut Bm25Score CHUNK_SIZE false B left layers ->
  (forall l e, l ∈ layers -> e ∈ Layerify.layer_entries l ->
     exists p, (Z.to_nat (total - left) <= p)%nat /\ B !! p = Some e) /\
  (forall (j : nat) l, layers !! j = Some l ->
     (exists e, e ∈ Layerify.layer_entries l /\ Layerify.score_threshold l = Bm25Score e) /\
     (forall e, e ∈ Layerify.layer_entries l ->
        SFltb (Layerify.score_threshold l) (Bm25Score e) = false) /\
     (forall (j' : nat) l' e e', (j < j')%nat -> layers !! j' = Some l' ->
        e ∈ Layerify.layer_entries l -> e' ∈ Layerify.layer_entries l' ->
        LayerCuts.scores_at_least Bm25Score e e')).
Proof.
  intros Hl Hcut. induction Hcut as [|left left' l layers Hl' Hperm _ Hthr _ Hcut IH].
  { split; [intros l e Hl0; by apply elem_of_nil in Hl0|intros j l Hj; done]. }
  destruct (IH ltac:(lia)) as [IHin IHj].
  unfold LayerCuts.total_num_postings in Hperm, Hthr.
  assert (Hl_in : forall e, e ∈ Layerify.layer_entries l <->
            exists p, (Z.to_nat (total - left) <= p < Z.to_nat (total - left'))%nat /\
                      B !! p = Some e).
  { intros e. rewrite Hperm. apply elem_of_range. }
  split.
  - intros l0 e Hl0 He. apply elem_of_cons in Hl0 as [->|Hl0].
    + apply Hl_in in He as (p & Hp & Hlook). exists p. split; [lia|done].
    + destruct (IHin l0 e Hl0 He) as (p & Hp & Hlook). exists p. split; [lia|done].
  - intros [|j] l0 Hj.
    + injection Hj as <-.
      destruct (lookup_lt_is_Some_2 B (Z.to_nat (total - left)) ltac:(lia)) as [e0 He0].
      assert (Hentry : Layerify.entry_at B (total - left) = e0).
      { unfold Layerify.entry_at. by apply nth_lookup_Some with (d := Layerify.no_entry) in He0. }
      rewrite Hentry in Hthr. split; [|split].
      * exists e0. split; [|done]. apply Hl_in. exists (Z.to_nat (total - left)).
        split; [lia|done].
      * intros e He. apply Hl_in in He as (p & Hp & Hlook). rewrite Hthr.
        apply (sorted_by_score_lookup (Z.to_nat (total - left)) p); [lia|done|done].
      * intros [|j'] l' e e' Hjj' Hj' He He'; [lia|]. cbn in Hj'.
        apply Hl_in in He as (p & Hp & Hlook).
        destruct (IHin l' e' ltac:(by eapply list_elem_of_lookup_2) He') as (q & Hq & Hlook').
        apply (sorted_by_score_lookup p q); [lia|done|done].
    + cbn in Hj. destruct (IHj j l0 Hj) as (H1 & H2 & H3). split; [done|]. split; [done|].
      intros [|j'] l' e e' Hjj' Hj' He He'; [lia|]. cbn in Hj'.
      apply (H3 j' l' e e'); [lia|done..].
Qed.

(** Without overlap: a layer written while at least [CHUNK_SIZE] postings
    are left holds at least [CHUNK_SIZE] postings. *)
Lemma cut_min_size left layers :
  0 <= left <= total ->
  LayerCuts.cut Bm25Score CHUNK_SIZE false B left layers ->
  forall (j : nat) l, layers !! j = Some l ->
    CHUNK_SIZE <= foldr (fun l acc => Z.of_nat (length (Layerify.layer_entries l)) + acc) 0
                    (drop j layers) ->
    CHUNK_SIZE <= Z.of_nat (length (Layerify.layer_entries l)).
Proof.
  intros Hl Hcut. induction Hcut as [|left left' l layers Hl' Hperm Hs Hthr Hmin Hcut IH];
    intros j l0 Hj Hsum; [done|].
  destruct j as [|j].
  - injection Hj as <-. rewrite drop_0 in Hsum.
    destruct (cut_partition left (l :: layers) Hl
                ltac:(by apply LayerCuts.cut_layer with (left' := left'))) as [_ Hlen].
    rewrite Hlen in Hsum. specialize (Hmin Hsum).
    unfold LayerCuts.total_num_postings in Hperm.
    rewrite (Permutation_length Hperm), length_drop, length_take. lia.
  - cbn in Hj. cbn [drop] in Hsum. apply (IH ltac:(lia) j l0 Hj Hsum).
Qed.

(** With overlap: every layer holds the postings of the layer before it,
    the last one holds them all, and the threshold of a layer bounds the
    scores of the postings that the layers before it do not hold. *)
Lemma cut_overlapping left layers :
  0 <= left <= total ->
  LayerCuts.cut Bm25Score CHUNK_SIZE true B left layers ->
  (forall l e, l ∈ layers -> e ∈ Layerify.layer_entries l -> e ∈ B) /\
  (forall l e, l ∈ layers -> e ∈ take (Z.to_nat (total - left)) B ->
     e ∈ Layerify.layer_entries l) /\
  (forall l, last layers = Some l -> Permutation (Layerify.layer_entries l) B) /\
  (forall (j j' : nat) l l' e, (j < j')%nat -> layers !! j = Some l -> layers !! j' = Some l' ->
     e ∈ Layerify.layer_entries l -> e ∈ Layerify.layer_entries l') /\
  (forall (j : nat) l l' e, layers !! j = Some l -> layers !! S j = Some l' ->
     e ∈ Layerify.layer_entries l' -> ~ e ∈ Layerify.layer_entries l ->
     SFltb (Layerify.score_threshold l') (Bm25Score e) = false) /\
  (forall l e, layers !! 0%nat = Some l -> e ∈ Layerify.layer_entries l ->
     ~ e ∈ take (Z.to_nat (total - left)) B ->
     SFltb (Layerify.score_threshold l) (Bm25Score e) = false) /\
  (0 < left -> total <= foldr (fun l acc => Z.of_nat (length (Layerify.layer_entries l)) + acc)
                          0 layers).
Proof.
  intros Hl Hcut. induction Hcut as [|left left' l layers Hl' Hperm _ Hthr _ Hcut IH].
  { repeat split; try done; try lia; intros l e Hl0; by apply elem_of_nil in Hl0. }
  destruct (IH ltac:(lia)) as (IHB & IHtake & IHlast & IHnest & IHthr & IHfirst & IHsum).
  unfold LayerCuts.total_num_postings in Hperm, Hthr.
  change (Z.to_nat 0) with 0%nat in Hperm. rewrite drop_0 in Hperm.
  assert (Hl_in : forall e, e ∈ Layerify.layer_entries l <-> e ∈ take (Z.to_nat (total - left')) B)
    by (intros e; by rewrite Hperm).
  assert (Htake_mono : forall e, e ∈ take (Z.to_nat (total - left)) B ->
                                 e ∈ take (Z.to_nat (total - left')) B).
  { intros e He. replace (Z.to_nat (total - left'))
      with (Z.to_nat (total - left) + Z.to_nat (left - left'))%nat by lia.
    rewrite <- take_take_drop. apply elem_of_app. by left. }
  assert (Hnew : forall e, e ∈ Layerify.layer_entries l ->
            ~ e ∈ take (Z.to_nat (total - left)) B ->
            SFltb (Layerify.score_threshold l) (Bm25Score e) = false).
  { intros e He Hnot. apply Hl_in in He.
    replace (Z.to_nat (total - left'))
      with (Z.to_nat (total - left) + Z.to_nat (left - left'))%nat in He by lia.
    rewrite <- take_take_drop in He. apply elem_of_app in He as [He|He]; [done|].
    apply list_elem_of_lookup in He as [k Hk].
    pose proof (lookup_lt_Some _ _ _ Hk) as Hlt. rewrite length_take in Hlt.
    rewrite lookup_take_lt in Hk by lia. rewrite lookup_drop in Hk.
    destruct (lookup_lt_is_Some_2 B (Z.to_nat (total - left)) ltac:(lia)) as [e0 He0].
    assert (Hentry : Layerify.entry_at B (total - left) = e0).
    { unfold Layerify.entry_at. by apply nth_lookup_Some with (d := Layerify.no_entry) in He0. }
    rewrite Hthr, Hentry.
    apply (sorted_by_score_lookup (Z.to_nat (total - left)) (Z.to_nat (total - left) + k));
      [lia|done|done]. }
  split; [|split; [|split; [|split; [|split; [|split]]]]].
  - intros l0 e Hl0 He. apply elem_of_cons in Hl0 as [->|Hl0]; [|by apply (IHB l0)].
    apply Hl_in in He. by apply elem_of_take in He as (? & He%list_elem_of_lookup_2 & _).
  - intros l0 e Hl0 He. apply elem_of_cons in Hl0 as [->|Hl0].
    + apply Hl_in. by apply Htake_mono.
    + apply (IHtake l0 e Hl0). by apply Htake_mono.
  - intros l0 Hlast. destruct layers as [|l1 layers].
    + injection Hlast as <-. inversion Hcut; subst.
      rewrite Hperm, Z.sub_0_r, Nat2Z.id, firstn_all. done.
    + apply IHlast. done.
  - intros [|j] [|j'] l0 l' e Hjj' Hj Hj' He; try lia.
    + injection Hj as <-. cbn in Hj'. apply (IHtake l' e); [by eapply list_elem_of_lookup_2|].
      by apply Hl_in.
    + cbn in Hj, Hj'. apply (IHnest j j' l0 l' e); [lia|done..].
  - intros [|j] l0 l' e Hj Hj' He Hnot.
    + injection Hj as <-. cbn in Hj'. apply (IHfirst l' e Hj' He). intros Hin.
      apply Hnot. by apply Hl_in.
    + cbn in Hj, Hj'. by apply (IHthr j l0 l' e).
  - intros l0 e [= <-] He Hnot. by apply Hnew.
  - intros _. cbn [foldr]. rewrite (Permutation_length Hperm), length_take.
    destruct (Z.eq_dec left' 0) as [->|Hne].
    + assert (0 <= foldr (fun l acc => Z.of_nat (length (Layerify.layer_entries l)) + acc) 0 layers).
      { clear. induction layers; simpl; lia. }
      lia.
    + specialize (IHsum ltac:(lia)). lia.
Qed.

End CutFacts.

Section LayerTheorems.

Context (alg : Stl.algorithms) (Bm25Score : Layerify.IndexEntry -> spec_float)
  (pow : spec_float -> spec_float -> spec_float) (CHUNK_SIZE num_layers_ : Z)
  (layer_splitting_strategy : Layerify.LayerSplitMode).
Hypothesis Halg : Stl.conforming alg.
Hypothesis Hscore : forall e, TopK.not_nan (Bm25Score e).
Hypothesis Hnum_layers : 0 < num_layers_ <= 8.

Local Abbreviation layerify_list overlapping_layers_ :=
  (Layerify.layerify_list alg Bm25Score pow CHUNK_SIZE num_layers_ overlapping_layers_
     layer_splitting_strategy).
Local Abbreviation layer_sizes :=
  (foldr (fun l acc => Z.of_nat (length (Layerify.layer_entries l)) + acc) 0).

Lemma layers_loop_length overlapping_layers_ fuel : forall i buf total left,
  (length (Layerify.layers_loop alg Bm25Score pow CHUNK_SIZE num_layers_ overlapping_layers_
             layer_splitting_strategy fuel i buf total left) <= fuel)%nat.
Proof.
  induction fuel as [|fuel IH]; intros i buf total left; [done|].
  cbn [Layerify.layers_loop]. destruct (left <=? 0); [simpl; lia|].
  destruct (Layerify.split_layer _ _ _ _ _ _ _ _ _) as [curr' left'].
  destruct (Layerify.DumpToIndex _ _ _ _ _) as [max_scores dumped].
  cbn [length]. specialize (IH (i + 1) (take (Z.to_nat (if overlapping_layers_ then 0
     else total - left' - curr')) buf ++ dumped ++ drop (Z.to_nat (total - left' - curr' + curr')) buf)
     total left'). lia.
Qed.

Lemma cut_sorted overlapping_layers_ B left layers :
  LayerCuts.cut Bm25Score CHUNK_SIZE overlapping_layers_ B left layers ->
  Forall (fun l => Stl.is_sorted Layerify.IndexEntryDocIdComparison (Layerify.layer_entries l))
         layers.
Proof. induction 1; constructor; done. Qed.

(** X4. Without overlap the layers of a term partition its inverted list:
    together they hold every posting exactly once; every layer is in docID
    order; there are at most [num_layers_] layers. *)
Theorem layerify_list_partition postings :
  let layers := layerify_list false postings in
  Permutation (concat (map Layerify.layer_entries layers)) postings /\
  Forall (fun l => Stl.is_sorted Layerify.IndexEntryDocIdComparison (Layerify.layer_entries l))
         layers /\
  Z.of_nat (length layers) <= num_layers_.
Proof.
  intros layers.
  destruct (layerify_list_cut alg Bm25Score pow CHUNK_SIZE num_layers_ false
              layer_splitting_strategy Halg Hscore postings Hnum_layers) as (B & HB & Hs & Hcut).
  fold layers in Hcut.
  destruct (cut_partition Bm25Score CHUNK_SIZE B (Z.of_nat (length B)) layers ltac:(lia) Hcut)
    as [Hperm _].
  rewrite Z.sub_diag in Hperm. change (Z.to_nat 0) with 0%nat in Hperm. rewrite drop_0 in Hperm.
  split; [by rewrite Hperm|]. split; [by eapply cut_sorted|].
  unfold layers, Layerify.layerify_list.
  pose proof (layers_loop_length false (Z.to_nat num_layers_) 0
                (Stl.sort alg _ (Layerify.doc_id_score_comparator Bm25Score) postings)
                (Z.of_nat (length postings)) (Z.of_nat (length postings))). lia.
Qed.

(** X5. Without overlap the layers are ordered by score: the threshold of
    a layer is the score of one of its postings and no posting of the
    layer scores higher; and no posting of a later layer scores higher
    than a posting of an earlier layer. *)
Theorem layerify_list_score_order postings (j : nat) l :
  let layers := layerify_list false postings in
  layers !! j = Some l ->
  (exists e, e ∈ Layerify.layer_entries l /\ Layerify.score_threshold l = Bm25Score e) /\
  (forall e, e ∈ Layerify.layer_entries l ->
     SFltb (Layerify.score_threshold l) (Bm25Score e) = false) /\
  (forall (j' : nat) l' e e', (j < j')%nat -> layers !! j' = Some l' ->
     e ∈ Layerify.layer_entries l -> e' ∈ Layerify.layer_entries l' ->
     SFltb (Bm25Score e) (Bm25Score e') = false).
Proof.
  intros layers Hj.
  destruct (layerify_list_cut alg Bm25Score pow CHUNK_SIZE num_layers_ false
              layer_splitting_strategy Halg Hscore postings Hnum_layers) as (B & HB & Hs & Hcut).
  fold layers in Hcut.
  destruct (cut_scores Bm25Score CHUNK_SIZE B Hs (Z.of_nat (length B)) layers ltac:(lia) Hcut)
    as [_ H].
  exact (H j l Hj).
Qed.

(** X6. Without overlap, a layer holds at least [CHUNK_SIZE] postings
    whenever it and the layers after it hold that many together. *)
Theorem layerify_list_min_size postings (j : nat) l :
  let layers := layerify_list false postings in
  layers !! j = Some l ->
  CHUNK_SIZE <= layer_sizes (drop j layers) ->
  CHUNK_SIZE <= Z.of_nat (length (Layerify.layer_entries l)).
Proof.
  intros layers Hj.
  destruct (layerify_list_cut alg Bm25Score pow CHUNK_SIZE num_layers_ false
              layer_splitting_strategy Halg Hscore postings Hnum_layers) as (B & HB & Hs & Hcut).
  fold layers in Hcut.
  exact (cut_min_size Bm25Score CHUNK_SIZE B (Z.of_nat (length B)) layers ltac:(lia) Hcut j l Hj).
Qed.

(** X7. With overlap every layer holds the postings of the layers before
    it and the last layer holds the whole list; the threshold of a layer
    bounds the scores of its postings that the layer before it does not
    hold, and the threshold of the first layer bounds every score. *)
Theorem layerify_list_overlapping postings :
  let layers := layerify_list true postings in
  (forall l, last layers = Some l -> Permutation (Layerify.layer_entries l) postings) /\
  (forall (j j' : nat) l l' e, (j < j')%nat -> layers !! j = Some l -> layers !! j' = Some l' ->
     e ∈ Layerify.layer_entries l -> e ∈ Layerify.layer_entries l') /\
  (forall (j : nat) l l' e, layers !! j = Some l -> layers !! S j = Some l' ->
     e ∈ Layerify.layer_entries l' -> ~ e ∈ Layerify.layer_entries l ->
     SFltb (Layerify.score_threshold l') (Bm25Score e) = false) /\
  (forall l e, layers !! 0%nat = Some l -> e ∈ postings ->
     SFltb (Layerify.score_threshold l) (Bm25Score e) = false) /\
  (postings <> [] -> layers <> []).
Proof.
  intros layers.
  destruct (layerify_list_cut alg Bm25Score pow CHUNK_SIZE num_layers_ true
              layer_splitting_strategy Halg Hscore postings Hnum_layers) as (B & HB & Hs & Hcut).
  fold layers in Hcut.
  destruct (cut_overlapping Bm25Score CHUNK_SIZE B Hs (Z.of_nat (length B)) layers
              ltac:(lia) Hcut) as (_ & _ & Hlast & Hnest & Hthr & _ & Hsum).
  split; [|split; [|split; [|split]]].
  - intros l Hl. by rewrite (Hlast l Hl).
  - exact Hnest.
  - exact Hthr.
  - intros l e Hl He. clearbody layers.
    destruct layers as [|l0 layers0]; [done|]. injection Hl as ->.
    inversion Hcut as [|left left' l1 layers1 Hl' Hperm _ Hthr0 _ _ Hleft Hlayers]; subst.
    unfold LayerCuts.total_num_postings in Hthr0. rewrite Z.sub_diag in Hthr0.
    rewrite <- HB in He. apply list_elem_of_lookup in He as [p Hp].
    destruct (lookup_lt_is_Some_2 B 0%nat ltac:(apply lookup_lt_Some in Hp; lia)) as [e0 He0].
    rewrite Hthr0. unfold Layerify.entry_at. change (Z.to_nat 0) with 0%nat.
    rewrite (nth_lookup_Some _ _ Layerify.no_entry _ He0).
    apply (sorted_by_score_lookup Bm25Score B Hs 0%nat p); [lia|done|done].
  - intros Hne Hnil. rewrite Hnil in Hsum. cbn in Hsum.
    assert (0 < Z.of_nat (length B)).
    { rewrite (Permutation_length HB). destruct postings; [done|simpl; lia]. }
    specialize (Hsum ltac:(lia)). lia.
Qed.

(** X8. [WriteMetaFile] does not report an inconsistent posting count when
    the input meta file records the number of postings of the input
    index: without overlap the builder's count is that number, with
    overlap it is not smaller. *)
Theorem posting_count_never_inconsistent overlapping_layers_ index :
  let index_posting_count_ :=
    foldr (fun '(_, postings) acc => Z.of_nat (length postings) + acc) 0 index in
  LayerCuts.posting_count_inconsistent overlapping_layers_ index_posting_count_
    (Layerify.posting_count
       (Layerify.CreateLayeredIndex alg Bm25Score pow CHUNK_SIZE num_layers_
          overlapping_layers_ layer_splitting_strategy index))
  = false.
Proof.
  intros ipc. unfold LayerCuts.posting_count_inconsistent.
  destruct overlapping_layers_; cbn [negb andb orb].
  - apply Z.ltb_ge. unfold ipc, Layerify.posting_count, Layerify.CreateLayeredIndex.
    clear ipc. induction index as [|[term postings] index IH]; [done|].
    cbn [map foldr]. rewrite foldr_layer_lengths.
    destruct (layerify_list_cut alg Bm25Score pow CHUNK_SIZE num_layers_ true
                layer_splitting_strategy Halg Hscore postings Hnum_layers) as (B & HB & Hs & Hcut).
    destruct (cut_overlapping Bm25Score CHUNK_SIZE B Hs (Z.of_nat (length B)) _
                ltac:(lia) Hcut) as (_ & _ & _ & _ & _ & _ & Hsum).
    rewrite <- (Permutation_length HB).
    destruct (Z.eq_dec (Z.of_nat (length B)) 0) as [Hz|Hnz].
    + rewrite Hz.
      assert (0 <= layer_sizes (layerify_list true postings)).
      { generalize (layerify_list true postings). intros ls. induction ls; simpl; lia. }
      lia.
    + specialize (Hsum ltac:(lia)). lia.
  - rewrite orb_false_r. apply negb_false_iff, Z.eqb_eq. unfold ipc.
    symmetry. apply (CreateLayeredIndex_posting_count alg Bm25Score pow CHUNK_SIZE num_layers_
                       layer_splitting_strategy Halg Hscore Hnum_layers).
Qed.

End LayerTheorems.

Lemma layerify_list_partition_witness :
  Permutation (concat (map Layerify.layer_entries (LayerifyExample.layerify_list false)))
              LayerifyExample.postings.
Proof.
  pose proof (layerify_list_partition Stl.reference LayerifyExample.Bm25Score
    LayerifyExample.pow 128 2 Layerify.kPercentageFixedBounded reference_conforming
    ltac:(intros e; apply F32_of_Z_not_nan) ltac:(lia) LayerifyExample.postings) as H.
  exact (proj1 H).
Defined.

Lemma layerify_list_score_order_witness :
  exists l, LayerifyExample.layerify_list false !! 0%nat = Some l /\
    forall e, e ∈ Layerify.layer_entries l ->
      SFltb (Layerify.score_threshold l) (LayerifyExample.Bm25Score e) = false.
Proof.
  eexists. split; [vm_compute; reflexivity|].
  refine (proj1 (proj2 (layerify_list_score_order Stl.reference LayerifyExample.Bm25Score
    LayerifyExample.pow 128 2 Layerify.kPercentageFixedBounded reference_conforming
    ltac:(intros e; apply F32_of_Z_not_nan) ltac:(lia) LayerifyExample.postings 0%nat _ _))).
  vm_compute; reflexivity.
Defined.

Lemma layerify_list_min_size_witness :
  exists l,
    Layerify.layerify_list Stl.reference LayerifyExample.Bm25Score LayerifyExample.pow 2 2
      false Layerify.kPercentageFixedBounded LayerifyExample.postings !! 0%nat = Some l /\
    2 <= Z.of_nat (length (Layerify.layer_entries l)).
Proof.
  eexists. split; [vm_compute; reflexivity|].
  refine (layerify_list_min_size Stl.reference LayerifyExample.Bm25Score
    LayerifyExample.pow 2 2 Layerify.kPercentageFixedBounded reference_conforming
    ltac:(intros e; apply F32_of_Z_not_nan) ltac:(lia) LayerifyExample.postings 0%nat _ _ _).
  - vm_compute; reflexivity.
  - vm_compute. discriminate.
Defined.

Lemma layerify_list_overlapping_witness :
  exists l, last (LayerifyExample.layerify_list true) = Some l /\
    Permutation (Layerify.layer_entries l) LayerifyExample.postings.
Proof.
  pose proof (layerify_list_overlapping Stl.reference LayerifyExample.Bm25Score
    LayerifyExample.pow 128 2 Layerify.kPercentageFixedBounded reference_conforming
    ltac:(intros e; apply F32_of_Z_not_nan) ltac:(lia) LayerifyExample.postings) as H.
  eexists. split; [vm_compute; reflexivity|].
  apply (proj1 H). vm_compute; reflexivity.
Defined.

Lemma posting_count_never_inconsistent_witness :
  LayerCuts.posting_count_inconsistent true 41
    (Layerify.posting_count (LayerifyExample.CreateLayeredIndex true)) = false.
Proof.
  exact (posting_count_never_inconsistent Stl.reference LayerifyExample.Bm25Score
    LayerifyExample.pow 128 2 Layerify.kPercentageFixedBounded reference_conforming
    ltac:(intros e; apply F32_of_Z_not_nan) ltac:(lia) true LayerifyExample.index).
Defined.

(** ** The chunks of a layer *)

Section ChunkFacts.

Context (alg : Stl.algorithms) (Bm25Score : Layerify.IndexEntry -> spec_float)
  (pow : spec_float -> spec_float -> spec_float) (CHUNK_SIZE num_layers_ : Z)
  (overlapping_layers_ : bool) (layer_splitting_strategy : Layerify.LayerSplitMode).
Hypothesis Halg : Stl.conforming alg.
Hypothesis Hscore : forall e, TopK.not_nan (Bm25Score e).

Local Abbreviation chunk_len := (Z.to_nat (Z.max 1 CHUNK_SIZE)).

Local Abbreviation chunk_maximum :=
  (fun (m : spec_float) (chunk : list Layerify.IndexEntry) =>
     (exists e, e ∈ chunk /\ m = Bm25Score e) /\
     (forall e, e ∈ chunk -> SFltb m (Bm25Score e) = false)).

Lemma GetChunkMaxScore_maximum chunk :
  chunk <> [] ->
  chunk_maximum (Layerify.GetChunkMaxScore alg Bm25Score chunk).1 chunk /\
  Permutation (Layerify.GetChunkMaxScore alg Bm25Score chunk).2 chunk.
Proof.
  intros Hne. unfold Layerify.GetChunkMaxScore. cbn [fst snd].
  destruct (Stl.sort_spec _ Halg _ (fun _ => True) (Layerify.doc_id_score_comparator Bm25Score)
              chunk (doc_id_score_comparator_swo Bm25Score Hscore) (Forall_True chunk))
    as [Hperm Hsorted].
  split; [|done].
  destruct (Stl.sort alg _ (Layerify.doc_id_score_comparator Bm25Score) chunk) as [|a s] eqn:Hs.
  { apply Permutation_nil in Hperm. done. }
  cbn [nth]. split.
  - exists a. split; [rewrite <- Hperm; left|done].
  - intros e He. rewrite <- Hperm in He. apply elem_of_cons in He as [->|He].
    + apply SFltb_irrefl.
    + apply is_sorted_inv in Hsorted as [_ Ha]. exact (Ha e He).
Qed.

Lemma DumpToIndex_chunks fuel : forall index_entries,
  (length index_entries < fuel)%nat ->
  Forall2 chunk_maximum (Layerify.DumpToIndex alg Bm25Score CHUNK_SIZE fuel index_entries).1
          (LayerCuts.chunks_of fuel chunk_len index_entries).
Proof.
  induction fuel as [|fuel IH]; intros es Hlen; [lia|].
  cbn [Layerify.DumpToIndex LayerCuts.chunks_of].
  destruct es as [|e es]; [constructor|].
  set (es' := e :: es) in *.
  destruct (Layerify.GetChunkMaxScore alg Bm25Score (take chunk_len es')) as [m c] eqn:Hm.
  destruct (Layerify.DumpToIndex alg Bm25Score CHUNK_SIZE fuel (drop chunk_len es'))
    as [ms rest] eqn:Hd.
  cbn [fst]. constructor.
  - assert (Hne : take chunk_len es' <> []).
    { unfold es'. destruct chunk_len eqn:Hc; [lia|]. done. }
    pose proof (GetChunkMaxScore_maximum _ Hne) as [H _]. rewrite Hm in H. exact H.
  - specialize (IH (drop chunk_len es')). rewrite Hd in IH. apply IH.
    rewrite length_drop. unfold es' in *. cbn [length] in *. lia.
Qed.

Lemma chunks_of_concat fuel (n : nat) : forall index_entries,
  (0 < n)%nat -> (length index_entries < fuel)%nat ->
  concat (LayerCuts.chunks_of fuel n index_entries) = index_entries /\
  Forall (fun chunk => (0 < length chunk <= n)%nat) (LayerCuts.chunks_of fuel n index_entries).
Proof.
  induction fuel as [|fuel IH]; intros es Hn Hlen; [lia|].
  cbn [LayerCuts.chunks_of]. destruct es as [|e es]; [split; [done|constructor]|].
  set (es' := e :: es) in *.
  destruct (IH (drop n es') Hn) as [Hc Hf].
  { rewrite length_drop. unfold es' in *. cbn [length] in *. lia. }
  split.
  - cbn [concat]. rewrite Hc. apply take_drop.
  - constructor; [|done]. rewrite length_take. unfold es'. cbn [length]. lia.
Qed.

Lemma layers_loop_chunk_max_scores fuel : forall i buf total left,
  Forall (fun l => Layerify.chunk_max_scores l
                   = (Layerify.DumpToIndex alg Bm25Score CHUNK_SIZE
                        (S (length (Layerify.layer_entries l))) (Layerify.layer_entries l)).1)
    (Layerify.layers_loop alg Bm25Score pow CHUNK_SIZE num_layers_ overlapping_layers_
       layer_splitting_strategy fuel i buf total left).
Proof.
  induction fuel as [|fuel IH]; intros i buf total left; [constructor|].
  cbn [Layerify.layers_loop]. destruct (left <=? 0); [constructor|].
  destruct (Layerify.split_layer _ _ _ _ _ _ _ _ _) as [curr' left'].
  destruct (Layerify.DumpToIndex _ _ _ _ _) as [max_scores dumped] eqn:Hd.
  constructor; [|apply IH].
  cbn [Layerify.chunk_max_scores Layerify.layer_entries]. by rewrite Hd.
Qed.

(** X9. The maximum score stored with a chunk of a layer is the greatest
    score of the postings of that chunk, where the chunks of a layer are
    its postings in docID order, [CHUNK_SIZE] at a time. *)
Theorem chunk_max_scores_are_maxima postings (j : nat) l :
  0 < CHUNK_SIZE ->
  Layerify.layerify_list alg Bm25Score pow CHUNK_SIZE num_layers_ overlapping_layers_
    layer_splitting_strategy postings !! j = Some l ->
  let chunks := LayerCuts.chunks_of (S (length (Layerify.layer_entries l)))
                  (Z.to_nat CHUNK_SIZE) (Layerify.layer_entries l) in
  concat chunks = Layerify.layer_entries l /\
  Forall (fun chunk => 0 < Z.of_nat (length chunk) <= CHUNK_SIZE) chunks /\
  Forall2 (fun m chunk =>
             (exists e, e ∈ chunk /\ m = Bm25Score e) /\
             (forall e, e ∈ chunk -> SFltb m (Bm25Score e) = false))
          (Layerify.chunk_max_scores l) chunks.
Proof.
  intros Hc Hj chunks.
  pose proof (chunks_of_concat (S (length (Layerify.layer_entries l))) (Z.to_nat CHUNK_SIZE)
                (Layerify.layer_entries l) ltac:(lia) ltac:(lia)) as [Hcat Hlen].
  split; [done|]. split.
  { eapply Forall_impl; [exact Hlen|]. intros c Hcl. cbn beta in Hcl. lia. }
  unfold Layerify.layerify_list in Hj.
  pose proof (layers_loop_chunk_max_scores (Z.to_nat num_layers_) 0
                (Stl.sort alg _ (Layerify.doc_id_score_comparator Bm25Score) postings)
                (Z.of_nat (length postings)) (Z.of_nat (length postings))) as Hall.
  rewrite Forall_lookup in Hall. rewrite (Hall j l Hj).
  pose proof (DumpToIndex_chunks (S (length (Layerify.layer_entries l)))
                (Layerify.layer_entries l) ltac:(lia)) as H.
  replace (Z.to_nat (Z.max 1 CHUNK_SIZE)) with (Z.to_nat CHUNK_SIZE) in H by lia.
  exact H.
Qed.

End ChunkFacts.

(** ** The docID gaps of a layer *)

Lemma doc_id_gaps_decode : forall index_entries prev_doc_id,
  StronglySorted (fun a b => Layerify.doc_id a < Layerify.doc_id b) index_entries ->
  Forall (fun e => prev_doc_id <= Layerify.doc_id e < prev_doc_id + 2^32) index_entries ->
  0 <= prev_doc_id ->
  Forall (fun e => Layerify.doc_id e < 2^32) index_entries ->
  Cursor.decode prev_doc_id (LayerCuts.doc_id_gaps prev_doc_id index_entries)
  = map Layerify.doc_id index_entries.
Proof.
  induction index_entries as [|e es IH]; intros prev Hs Hb Hprev Hr; [done|].
  apply StronglySorted_inv in Hs as [Hs He].
  apply Forall_cons in Hb as [Hbe Hb]. apply Forall_cons in Hr as [Hre Hr].
  cbn [LayerCuts.doc_id_gaps Cursor.decode map]. unfold wrap32.
  rewrite Z.mod_small by lia.
  replace (prev + (Layerify.doc_id e - prev)) with (Layerify.doc_id e) by lia.
  f_equal. apply IH; [done| |lia|done].
  rewrite Forall_forall in He, Hr. apply Forall_forall. intros x Hx.
  specialize (He x Hx). specialize (Hr x Hx). lia.
Qed.

Lemma gaps_asserted_ascending : forall index_entries index_entries_offset prev_doc_id,
  StronglySorted (fun a b => Layerify.doc_id a < Layerify.doc_id b) index_entries ->
  Forall (fun e => 0 <= Layerify.doc_id e < 2^32) index_entries ->
  0 <= prev_doc_id ->
  (index_entries_offset = 0%nat /\ prev_doc_id = 0 \/
   Forall (fun e => prev_doc_id < Layerify.doc_id e) index_entries) ->
  LayerCuts.gaps_asserted index_entries_offset prev_doc_id index_entries = true.
Proof.
  induction index_entries as [|e es IH]; intros off prev Hs Hr Hprev Hfirst; [done|].
  apply StronglySorted_inv in Hs as [Hs He]. apply Forall_cons in Hr as [Hre Hr].
  cbn [LayerCuts.gaps_asserted]. apply andb_true_iff. split.
  - destruct Hfirst as [[-> ->]|Hf].
    + rewrite Z.sub_0_r. unfold wrap32. rewrite Z.mod_small by lia.
      destruct (Z.eq_dec (Layerify.doc_id e) 0) as [->|Hne]; [done|].
      apply orb_true_iff. left. apply negb_true_iff, Z.eqb_neq. done.
    + apply Forall_cons in Hf as [Hf _]. apply orb_true_iff. left.
      apply negb_true_iff, Z.eqb_neq. unfold wrap32. rewrite Z.mod_small by lia. lia.
  - apply IH; [done|done|lia|]. right. done.
Qed.

Lemma sorted_nodup_ascending (l : list Layerify.IndexEntry) :
  Stl.is_sorted Layerify.IndexEntryDocIdComparison l ->
  NoDup (map Layerify.doc_id l) ->
  StronglySorted (fun a b => Layerify.doc_id a < Layerify.doc_id b) l.
Proof.
  induction l as [|a l IH]; intros Hs Hn; [constructor|].
  apply is_sorted_inv in Hs as [Hs Ha]. cbn [map] in Hn. apply NoDup_cons in Hn as [Hna Hn].
  constructor; [by apply IH|]. apply Forall_forall. intros x Hx.
  specialize (Ha x Hx). unfold Layerify.IndexEntryDocIdComparison in Ha.
  apply Z.ltb_ge in Ha.
  assert (Layerify.doc_id x <> Layerify.doc_id a).
  { intros Heq. apply Hna. rewrite <- Heq. apply list_elem_of_fmap. by exists x. }
  lia.
Qed.

Lemma ascending_nodup (l : list Layerify.IndexEntry) :
  StronglySorted (fun a b => Layerify.doc_id a < Layerify.doc_id b) l ->
  NoDup (map Layerify.doc_id l).
Proof.
  induction 1 as [|a l Hs IH Ha]; [constructor|]. cbn [map]. apply NoDup_cons. split; [|done].
  intros Hin. apply list_elem_of_fmap in Hin as (x & Hx & Hin).
  rewrite Forall_forall in Ha. specialize (Ha x Hin). lia.
Qed.

Lemma cut_layer_range Bm25Score CHUNK_SIZE overlapping_layers_ B left layers :
  LayerCuts.cut Bm25Score CHUNK_SIZE overlapping_layers_ B left layers ->
  Forall (fun l => Stl.is_sorted Layerify.IndexEntryDocIdComparison (Layerify.layer_entries l) /\
                   exists a b : nat, Permutation (Layerify.layer_entries l) (drop a (take b B)))
         layers.
Proof.
  induction 1 as [|left left' l layers Hl Hperm Hs Hthr Hmin Hcut IH]; constructor; [|done].
  split; [done|]. by eexists _, _.
Qed.

Section GapFacts.

Context (alg : Stl.algorithms) (Bm25Score : Layerify.IndexEntry -> spec_float)
  (pow : spec_float -> spec_float -> spec_float) (CHUNK_SIZE num_layers_ : Z)
  (overlapping_layers_ : bool) (layer_splitting_strategy : Layerify.LayerSplitMode).
Hypothesis Halg : Stl.conforming alg.
Hypothesis Hscore : forall e, TopK.not_nan (Bm25Score e).
Hypothesis Hnum_layers : 0 < num_layers_ <= 8.

(** X10. For an inverted list with distinct docIDs below 2^32 the docID
    gaps that [DumpToIndex] writes for a layer never trip its assertion
    against duplicate docIDs, and adding them up from 0, as the cursor
    does, gives back the docIDs of the layer, which are strictly
    ascending. *)
Theorem layer_gaps_round_trip postings (j : nat) l :
  NoDup (map Layerify.doc_id postings) ->
  Forall (fun e => 0 <= Layerify.doc_id e < 2^32) postings ->
  Layerify.layerify_list alg Bm25Score pow CHUNK_SIZE num_layers_ overlapping_layers_
    layer_splitting_strategy postings !! j = Some l ->
  LayerCuts.gaps_asserted 0 0 (Layerify.layer_entries l) = true /\
  Cursor.decode 0 (LayerCuts.doc_id_gaps 0 (Layerify.layer_entries l))
  = map Layerify.doc_id (Layerify.layer_entries l) /\
  StronglySorted Z.lt (map Layerify.doc_id (Layerify.layer_entries l)).
Proof.
  intros Hnd Hr Hj.
  destruct (layerify_list_cut alg Bm25Score pow CHUNK_SIZE num_layers_ overlapping_layers_
              layer_splitting_strategy Halg Hscore postings Hnum_layers) as (B & HB & _ & Hcut).
  apply cut_layer_range in Hcut. rewrite Forall_lookup in Hcut.
  destruct (Hcut j l Hj) as (Hs & a & b & Hperm).
  assert (Hsub : forall e, e ∈ Layerify.layer_entries l -> e ∈ postings).
  { intros e He. rewrite Hperm in He. rewrite <- HB.
    eapply elem_of_sublist; [exact He|]. etransitivity; [apply sublist_drop|apply sublist_take]. }
  assert (Hnd' : NoDup (map Layerify.doc_id (Layerify.layer_entries l))).
  { rewrite Hperm. rewrite <- HB in Hnd.
    eapply sublist_NoDup; [exact Hnd|]. apply fmap_sublist.
    etransitivity; [apply sublist_drop|apply sublist_take]. }
  pose proof (sorted_nodup_ascending _ Hs Hnd') as Hasc.
  assert (Hr' : Forall (fun e => 0 <= Layerify.doc_id e < 2^32) (Layerify.layer_entries l)).
  { rewrite Forall_forall in Hr. apply Forall_forall. intros e He. by apply Hr, Hsub. }
  split; [|split].
  - apply gaps_asserted_ascending; [done|done|lia|by left].
  - apply doc_id_gaps_decode; [done| |lia|].
    + eapply Forall_impl; [exact Hr'|]. intros e He. cbn beta in He. lia.
    + eapply Forall_impl; [exact Hr'|]. intros e He. cbn beta in He. lia.
  - clear -Hasc. induction Hasc as [|a0 l0 Hs0 IH Ha]; [constructor|].
    cbn [map]. constructor; [done|]. apply Forall_forall. intros x Hx.
    apply list_elem_of_fmap in Hx as (y & -> & Hy).
    rewrite Forall_forall in Ha. by apply Ha.
Qed.

End GapFacts.

Lemma chunk_max_scores_are_maxima_witness :
  exists l,
    Layerify.layerify_list Stl.reference LayerifyExample.Bm25Score LayerifyExample.pow 2 2
      false Layerify.kPercentageFixedBounded LayerifyExample.postings !! 1%nat = Some l /\
    Forall2 (fun m chunk =>
               (exists e, e ∈ chunk /\ m = LayerifyExample.Bm25Score e) /\
               (forall e, e ∈ chunk -> SFltb m (LayerifyExample.Bm25Score e) = false))
            (Layerify.chunk_max_scores l)
            (LayerCuts.chunks_of (S (length (Layerify.layer_entries l))) (Z.to_nat 2)
               (Layerify.layer_entries l)).
Proof.
  eexists. split; [vm_compute; reflexivity|].
  refine (proj2 (proj2 (chunk_max_scores_are_maxima Stl.reference LayerifyExample.Bm25Score
    LayerifyExample.pow 2 2 false Layerify.kPercentageFixedBounded reference_conforming
    ltac:(intros e; apply F32_of_Z_not_nan) LayerifyExample.postings 1%nat _ ltac:(lia) _))).
  vm_compute; reflexivity.
Defined.

Lemma layer_gaps_round_trip_witness :
  exists l,
    LayerifyExample.layerify_list false !! 1%nat = Some l /\
    Cursor.decode 0 (LayerCuts.doc_id_gaps 0 (Layerify.layer_entries l))
    = map Layerify.doc_id (Layerify.layer_entries l).
Proof.
  eexists. split; [vm_compute; reflexivity|].
  refine (proj1 (proj2 (layer_gaps_round_trip Stl.reference LayerifyExample.Bm25Score
    LayerifyExample.pow 128 2 false Layerify.kPercentageFixedBounded reference_conforming
    ltac:(intros e; apply F32_of_Z_not_nan) ltac:(lia) LayerifyExample.postings 1%nat _
    (ascending_nodup _ (proj2 LayerifyExample_inverted_list)) _ _))).
  - apply Forall_forall. intros e He. unfold LayerifyExample.postings in He.
    apply list_elem_of_fmap in He as (d & -> & Hd). apply elem_of_seq in Hd.
    cbn [Layerify.doc_id]. lia.
  - vm_compute; reflexivity.
Defined.

(** ** [IntersectLists]: the best documents of the conjunction *)

Lemma skip_spec did (ps : list (Z * Z)) :
  Forall (fun p => fst p < did) (take (ListData.skip did ps) ps) /\
  (drop (ListData.skip did ps) ps = [] \/
   exists p rest, drop (ListData.skip did ps) ps = p :: rest /\ did <= fst p).
Proof.
  induction ps as [|p ps [IH1 IH2]]; [split; [constructor|by left]|].
  cbn [ListData.skip]. destruct (fst p <? did) eqn:Hp.
  - apply Z.ltb_lt in Hp. split; [by constructor|]. exact IH2.
  - apply Z.ltb_ge in Hp. split; [constructor|]. right. by exists p, ps.
Qed.

Lemma StronglySorted_app_cons (l1 l2 : list Z) (a : Z) :
  StronglySorted Z.lt (l1 ++ a :: l2) -> Forall (Z.lt a) l2.
Proof.
  induction l1 as [|x l1 IH]; simpl; intros H; apply StronglySorted_inv in H as [H Hx]; auto.
Qed.

Lemma NextGEQ_follows l0 l did d l' :
  StronglySorted Z.lt (Conjunction.docs l0) ->
  Forall (fun d => 0 <= d < u32_max) (Conjunction.docs l0) ->
  Conjunction.follows l0 l did ->
  ListData.NextGEQ l did = (d, l') ->
  Conjunction.follows l0 l' did /\
  ((d = u32_max /\ Forall (fun x => x < did) (Conjunction.docs l0)) \/
   (did <= d < u32_max /\ Conjunction.stands_on l' d /\
    forall x, x ∈ Conjunction.docs l0 -> did <= x -> d <= x)).
Proof.
  intros Hs Hr (Hps & Hn & Hpre) H. unfold ListData.NextGEQ in H. injection H as Hd <-.
  unfold ListData.current_doc_id in Hd.
  cbn [ListData.postings ListData.position] in Hd.
  set (ps := ListData.postings l) in *.
  set (pos := ListData.position l) in *.
  destruct (skip_spec did (drop pos ps)) as [Hskip Hdrop].
  set (n := ListData.skip did (drop pos ps)) in *.
  assert (Hpre' : Forall (fun p => fst p < did) (take (pos + n) ps)).
  { rewrite <- take_take_drop. by apply Forall_app. }
  rewrite drop_drop in Hdrop.
  split.
  { unfold Conjunction.follows. cbn [ListData.postings ListData.position
      ListData.num_docs_complete_list]. done. }
  assert (Hdocs : Conjunction.docs l0 = map fst (take (pos + n) ps) ++ map fst (drop (pos + n) ps)).
  { unfold Conjunction.docs. rewrite <- Hps. fold ps. by rewrite <- map_app, take_drop. }
  destruct Hdrop as [Hnil|(p & rest & Hp & Hge)].
  - left. assert (Hnone : ps !! (pos + n)%nat = None).
    { apply lookup_ge_None. apply (f_equal length) in Hnil.
      rewrite length_drop in Hnil. simpl in Hnil. lia. }
    rewrite Hnone in Hd. split; [done|].
    rewrite Hdocs, Hnil, app_nil_r. apply Forall_fmap.
    eapply Forall_impl; [exact Hpre'|]. done.
  - right. assert (Hsome : ps !! (pos + n)%nat = Some p).
    { rewrite <- (Nat.add_0_r (pos + n)), <- lookup_drop, Hp. done. }
    rewrite Hsome in Hd. subst d.
    rewrite Hp in Hdocs. cbn [map] in Hdocs.
    assert (Hin : fst p ∈ Conjunction.docs l0).
    { rewrite Hdocs. apply elem_of_app. right. left. }
    rewrite Forall_forall in Hr. specialize (Hr _ Hin).
    split; [lia|]. split.
    + exists (snd p), rest. unfold Conjunction.remaining.
      cbn [ListData.postings ListData.position]. fold ps pos n. rewrite Hp. by destruct p.
    + intros x Hx Hle. rewrite Hdocs in Hx. apply elem_of_app in Hx as [Hx|Hx].
      * apply list_elem_of_fmap in Hx as (q & -> & Hq).
        rewrite Forall_forall in Hpre'. specialize (Hpre' q Hq). lia.
      * apply elem_of_cons in Hx as [->|Hx]; [lia|].
        rewrite Hdocs in Hs. apply StronglySorted_app_cons in Hs.
        rewrite Forall_forall in Hs. specialize (Hs x Hx). lia.
Qed.

Lemma NextGEQ_stands_on l did d l' :
  Conjunction.stands_on l did -> ListData.NextGEQ l did = (d, l') ->
  d = did /\ Conjunction.stands_on l' did.
Proof.
  intros (f & rest & Hrem) H. unfold ListData.NextGEQ in H. injection H as Hd <-.
  unfold Conjunction.remaining in Hrem.
  unfold ListData.current_doc_id in Hd. cbn [ListData.postings ListData.position] in Hd.
  rewrite Hrem in Hd. cbn [ListData.skip fst] in Hd. rewrite Z.ltb_irrefl in Hd.
  rewrite Nat.add_0_r in Hd.
  assert (Hsome : ListData.postings l !! ListData.position l = Some (did, f)).
  { rewrite <- (Nat.add_0_r (ListData.position l)), <- lookup_drop, Hrem. done. }
  rewrite Hsome in Hd. split; [done|].
  exists f, rest. unfold Conjunction.remaining. cbn [ListData.postings ListData.position].
  rewrite Hrem. cbn [ListData.skip fst]. rewrite Z.ltb_irrefl, Nat.add_0_r. done.
Qed.

Lemma follows_mono l0 l did did' :
  did <= did' -> Conjunction.follows l0 l did -> Conjunction.follows l0 l did'.
Proof.
  intros Hle (H1 & H2 & H3). split; [done|]. split; [done|].
  eapply Forall_impl; [exact H3|]. intros p Hp. cbn beta in Hp. lia.
Qed.

Lemma stands_on_frequency l0 l did :
  Conjunction.follows l0 l did -> Conjunction.stands_on l did ->
  ListData.GetFreq l = Conjunction.frequency l0 did /\ did ∈ Conjunction.docs l0.
Proof.
  intros (Hps & _ & Hpre) (f & rest & Hrem). unfold Conjunction.remaining in Hrem.
  assert (Hsplit : ListData.postings l0
                   = take (ListData.position l) (ListData.postings l) ++ (did, f) :: rest).
  { rewrite <- Hrem, take_drop. done. }
  split.
  - unfold ListData.GetFreq, Conjunction.frequency.
    assert (Hsome : ListData.postings l !! ListData.position l = Some (did, f)).
    { rewrite <- (Nat.add_0_r (ListData.position l)), <- lookup_drop, Hrem. done. }
    rewrite Hsome, Hsplit. cbn [snd]. clear Hsplit.
    induction Hpre as [|p pre Hp _ IH]; cbn [app find fst].
    + by rewrite Z.eqb_refl.
    + destruct (fst p =? did) eqn:E; [apply Z.eqb_eq in E; lia|]. exact IH.
  - unfold Conjunction.docs. rewrite Hsplit, map_app. apply elem_of_app. right. left.
Qed.

Lemma filter_length_lt (f g : Z -> bool) (l : list Z) (a : Z) :
  (forall x, x ∈ l -> g x = true -> f x = true) ->
  a ∈ l -> f a = true -> g a = false ->
  (length (List.filter g l) < length (List.filter f l))%nat.
Proof.
  intros Himp Ha Hfa Hga.
  assert (Hle : forall l', (forall x, x ∈ l' -> g x = true -> f x = true) ->
            (length (List.filter g l') <= length (List.filter f l'))%nat).
  { induction l' as [|x l' IH]; intros Hi; [done|]. cbn [List.filter].
    assert (IH' := IH (fun y Hy => Hi y (list_elem_of_further _ _ _ Hy))).
    destruct (g x) eqn:Eg.
    - rewrite (Hi x (list_elem_of_here _ _) Eg). cbn [length]. lia.
    - destruct (f x); cbn [length]; lia. }
  induction l as [|x l IH]; [by apply elem_of_nil in Ha|].
  cbn [List.filter]. apply elem_of_cons in Ha as [<-|Ha].
  - rewrite Hfa, Hga. cbn [length].
    specialize (Hle l (fun y Hy => Himp y (list_elem_of_further _ _ _ Hy))). lia.
  - specialize (IH (fun y Hy => Himp y (list_elem_of_further _ _ _ Hy)) Ha).
    destruct (g x) eqn:Eg.
    + rewrite (Himp x (list_elem_of_here _ _) Eg). cbn [length]. lia.
    + destruct (f x); cbn [length]; lia.
Qed.

Lemma total_postings_lookup (st : QP.store) (p : nat) l :
  st !! p = Some l -> (length (ListData.postings l) <= QP.total_postings st)%nat.
Proof.
  revert p. induction st as [|l' st IH]; intros p Hp; [done|].
  cbn [QP.total_postings foldr]. destruct p as [|p]; simpl in Hp.
  - injection Hp as ->. lia.
  - specialize (IH p Hp). unfold QP.total_postings in IH. lia.
Qed.

Lemma ResultCompare_swo :
  Stl.strict_weak_order (fun r : QP.Result => TopK.not_nan (fst r)) QP.ResultCompare.
Proof.
  destruct greater_float_swo as [Hi Ht Hc]. unfold TopK.greater_float in *.
  unfold QP.ResultCompare. split.
  - intros x Hx. by apply Hi.
  - intros x y z Hx Hy Hz. by apply Ht.
  - intros x y z Hx Hy Hz. by apply Hc.
Qed.


Lemma elem_of_matches (ls : list ListData.t) l00 x :
  ls !! 0%nat = Some l00 ->
  x ∈ Conjunction.matches ls <->
  forall (i : nat) l, ls !! i = Some l -> x ∈ Conjunction.docs l.
Proof.
  destruct ls as [|l0 ls']; [done|]. intros _. unfold Conjunction.matches.
  rewrite list_elem_of_In, filter_In, forallb_forall. split.
  - intros [Hin Hall] i l Hl. destruct i as [|i]; simpl in Hl.
    + injection Hl as <-. by apply list_elem_of_In.
    + assert (Hl' : In l ls') by (apply list_elem_of_In; by eapply list_elem_of_lookup_2).
      specialize (Hall l Hl'). unfold Conjunction.contains in Hall.
      apply existsb_exists in Hall as (y & Hy & E). apply Z.eqb_eq in E. subst y.
      by apply list_elem_of_In.
  - intros H. split.
    + apply list_elem_of_In. by apply (H 0%nat).
    + intros l Hl. apply list_elem_of_In, list_elem_of_lookup in Hl as [i Hi].
      unfold Conjunction.contains. apply existsb_exists. exists x.
      split; [|apply Z.eqb_refl]. apply list_elem_of_In. by apply (H (S i)).
Qed.

Lemma matches_docs (ls : list ListData.t) l00 x :
  ls !! 0%nat = Some l00 -> x ∈ Conjunction.matches ls -> x ∈ Conjunction.docs l00.
Proof. intros H0 Hx. by apply (proj1 (elem_of_matches ls l00 x H0) Hx 0%nat). Qed.

Lemma matches_sorted (ls : list ListData.t) l00 :
  ls !! 0%nat = Some l00 -> StronglySorted Z.lt (Conjunction.docs l00) ->
  StronglySorted Z.lt (Conjunction.matches ls).
Proof.
  destruct ls as [|l0 ls']; [done|]. intros [= ->] Hs. by apply StronglySorted_filter.
Qed.

Lemma sorted_head_split (P Q : list Z) (d : Z) :
  StronglySorted Z.lt (P ++ Q) -> d ∈ P ++ Q ->
  Forall (fun x => x < d) P -> Forall (fun x => d <= x) Q ->
  exists Q', Q = d :: Q' /\ Forall (fun x => d + 1 <= x) Q'.
Proof.
  intros Hs Hd HP HQ.
  assert (HsQ : StronglySorted Z.lt Q).
  { clear -Hs. induction P as [|x P IH]; [done|]. simpl in Hs.
    apply StronglySorted_inv in Hs as [Hs _]. by apply IH. }
  apply elem_of_app in Hd as [Hd|Hd].
  { rewrite Forall_forall in HP. specialize (HP d Hd). lia. }
  destruct Q as [|q Q']; [by apply elem_of_nil in Hd|].
  apply StronglySorted_inv in HsQ as [_ Hq].
  apply Forall_cons in HQ as [Hdq HQ].
  assert (d = q) as <-.
  { apply elem_of_cons in Hd as [->|Hd]; [done|].
    rewrite Forall_forall in Hq. specialize (Hq d Hd). lia. }
  exists Q'. split; [done|]. eapply Forall_impl; [exact Hq|]. intros x Hx. cbn beta in Hx. lia.
Qed.

Section IntersectListsFacts.

Context (alg : Stl.algorithms) (log10 : spec_float -> spec_float) (GetDocLen : Z -> Z)
  (collection_average_doc_len_ collection_total_num_docs_ : Z).
Hypothesis Halg : Stl.conforming alg.

Context (lists : list nat) (ls : list ListData.t).
Hypothesis Hlen : length lists = length ls.
Hypothesis Hsorted : Forall (fun l0 => StronglySorted Z.lt (Conjunction.docs l0)) ls.
Hypothesis Hrange : Forall (fun l0 => Forall (fun d => 0 <= d < u32_max) (Conjunction.docs l0)) ls.

Local Abbreviation Inv := (fun (st : QP.store) (did : Z) =>
  forall (i : nat) p l0, lists !! i = Some p -> ls !! i = Some l0 ->
    exists l, st !! p = Some l /\ Conjunction.follows l0 l did).
Local Abbreviation Stand := (fun (st : QP.store) (did : Z) (j : nat) =>
  forall (i : nat) p, (i < j)%nat -> lists !! i = Some p ->
    exists l, st !! p = Some l /\ Conjunction.stands_on l did).

Lemma Inv_mono (st : QP.store) did did' : did <= did' -> Inv st did -> Inv st did'.
Proof.
  intros Hle H i p l0 Hp Hl0. destruct (H i p l0 Hp Hl0) as (l & Hl & Hf).
  exists l. split; [done|]. by eapply follows_mono.
Qed.

Lemma NextGEQ_Inv (st st' : QP.store) did q d (j : nat) l0q :
  Inv st did -> lists !! j = Some q -> ls !! j = Some l0q ->
  QP.NextGEQ st q did = (d, st') ->
  Inv st' did /\ (forall j', Stand st did j' -> Stand st' did j') /\
  ((d = u32_max /\ Forall (fun x => x < did) (Conjunction.docs l0q)) \/
   (did <= d < u32_max /\ (exists l, st' !! q = Some l /\ Conjunction.stands_on l d) /\
    forall x, x ∈ Conjunction.docs l0q -> did <= x -> d <= x)).
Proof.
  intros HI Hq Hl0q H. destruct (HI j q l0q Hq Hl0q) as (l & Hl & Hf).
  unfold QP.NextGEQ in H. rewrite Hl in H.
  destruct (ListData.NextGEQ l did) as [d1 l1] eqn:HN. injection H as <- <-.
  assert (Hlt : (q < length st)%nat) by (by eapply lookup_lt_Some).
  split; [|split].
  - intros i p l0 Hp Hl0. destruct (HI i p l0 Hp Hl0) as (l2 & Hl2 & Hf2).
    destruct (decide (p = q)) as [->|Hne].
    + exists l1. split; [by apply list_lookup_insert_eq|].
      rewrite Hl in Hl2. injection Hl2 as <-.
      rewrite Forall_forall in Hsorted, Hrange.
      assert (Hin : l0 ∈ ls) by (by eapply list_elem_of_lookup_2).
      by destruct (NextGEQ_follows l0 l did d1 l1 (Hsorted _ Hin) (Hrange _ Hin) Hf2 HN).
    + exists l2. split; [|done]. rewrite <- Hl2. by apply list_lookup_insert_ne.
  - intros j' HS i p Hi Hp. destruct (HS i p Hi Hp) as (l2 & Hl2 & Hs2).
    destruct (decide (p = q)) as [->|Hne].
    + exists l1. split; [by apply list_lookup_insert_eq|].
      rewrite Hl in Hl2. injection Hl2 as <-.
      by destruct (NextGEQ_stands_on l did d1 l1 Hs2 HN).
    + exists l2. split; [|done]. rewrite <- Hl2. by apply list_lookup_insert_ne.
  - rewrite Forall_forall in Hsorted, Hrange.
    assert (Hin : l0q ∈ ls) by (by eapply list_elem_of_lookup_2).
    destruct (NextGEQ_follows l0q l did d1 l1 (Hsorted _ Hin) (Hrange _ Hin) Hf HN)
      as [_ [H|(H1 & H2 & H3)]]; [by left|].
    right. split; [done|]. split; [|done]. exists l1. split; [|done].
    by apply list_lookup_insert_eq.
Qed.

Lemma same_doc_id_spec did : forall (n j : nat) (st : QP.store),
  (j + n = length lists)%nat -> Inv st did -> Stand st did j -> did < u32_max ->
  exists d st', QP.same_doc_id st (drop j lists) did = (d, st') /\
    Inv st' did /\ d <= u32_max /\
    ((d = did /\ Stand st' did (length lists)) \/
     (did < d /\ exists (i : nat) l0, ls !! i = Some l0 /\
        forall x, x ∈ Conjunction.docs l0 -> did <= x -> d <= x)).
Proof.
  induction n as [|n IH]; intros j st Hj HI HS Hdid.
  { rewrite drop_ge by lia. exists did, st. split; [done|]. split; [done|]. split; [lia|].
    left. split; [done|]. intros i p Hi. apply HS. lia. }
  destruct (lookup_lt_is_Some_2 lists j ltac:(lia)) as [q Hq].
  destruct (lookup_lt_is_Some_2 ls j ltac:(lia)) as [l0q Hl0q].
  rewrite (drop_S _ _ _ Hq). cbn [QP.same_doc_id].
  destruct (QP.NextGEQ st q did) as [d st1] eqn:HN.
  destruct (NextGEQ_Inv st st1 did q d j l0q HI Hq Hl0q HN) as (HI1 & HS1 & Hcase).
  destruct Hcase as [[-> Hall]|(Hd & (l & Hl & Hst) & Hmin)].
  - destruct (u32_max =? did) eqn:E; [apply Z.eqb_eq in E; lia|].
    exists u32_max, st1. split; [done|]. split; [done|]. split; [lia|]. right.
    split; [lia|]. exists j, l0q. split; [done|]. intros x Hx Hle.
    rewrite Forall_forall in Hall. specialize (Hall x Hx). lia.
  - destruct (d =? did) eqn:E.
    + apply Z.eqb_eq in E. subst d. apply (IH (S j) st1); [lia|done| |done].
      intros i p Hi Hp. destruct (decide (i = j)) as [->|Hne].
      * rewrite Hq in Hp. injection Hp as <-. by exists l.
      * apply (HS1 j HS i p); [lia|done].
    + apply Z.eqb_neq in E. exists d, st1. split; [done|]. split; [done|]. split; [lia|].
      right. split; [lia|]. by exists j, l0q.
Qed.

Lemma bm25_sum_of_score (st0 st : QP.store) did :
  (forall (i : nat) p l0, lists !! i = Some p -> ls !! i = Some l0 -> st0 !! p = Some l0) ->
  Inv st did -> Stand st did (length lists) ->
  QP.bm25_sum_of GetDocLen collection_average_doc_len_ st lists
    (QP.idf_of_lists log10 collection_total_num_docs_ st0 lists) did F32.zero
  = Conjunction.score log10 GetDocLen collection_average_doc_len_ collection_total_num_docs_
      ls did.
Proof.
  intros H0 HI HS. unfold Conjunction.score. generalize F32.zero.
  assert (HF : Forall2 (fun p l0 => st0 !! p = Some l0 /\
                 exists l, st !! p = Some l /\ Conjunction.follows l0 l did /\
                           Conjunction.stands_on l did) lists ls).
  { apply Forall2_same_length_lookup_2; [done|]. intros i p l0 Hp Hl0.
    split; [by eapply H0|].
    destruct (HI i p l0 Hp Hl0) as (l & Hl & Hf).
    destruct (HS i p ltac:(by eapply lookup_lt_Some) Hp) as (l' & Hl' & Hs).
    rewrite Hl in Hl'. injection Hl' as <-. by exists l. }
  clear -HF. induction HF as [|p l0 lists' ls' (Hp0 & l & Hl & Hf & Hs) _ IH]; intros acc; [done|].
  cbn [QP.idf_of_lists map QP.bm25_sum_of fold_left]. rewrite Hp0.
  unfold QP.idf_of_lists in IH. rewrite IH. do 3 f_equal.
  unfold QP.GetFreq. rewrite Hl. by destruct (stands_on_frequency l0 l did Hf Hs).
Qed.


Context (num_results : nat) (p0 : nat) (l00 : ListData.t) (st0 : QP.store).
Hypothesis Hk : (0 < num_results)%nat.
Hypothesis Hp0 : lists !! 0%nat = Some p0.
Hypothesis Hl00 : ls !! 0%nat = Some l00.
Hypothesis Hst0 : forall (i : nat) p l0,
  lists !! i = Some p -> ls !! i = Some l0 -> st0 !! p = Some l0.

Local Abbreviation score :=
  (Conjunction.score log10 GetDocLen collection_average_doc_len_ collection_total_num_docs_ ls).
Local Abbreviation res := (fun d : Z => (score d, d)).
Local Abbreviation kept :=
  (TopK.kept (fun r : QP.Result => TopK.not_nan (fst r)) QP.ResultCompare num_results).

Hypothesis Hnan : forall d, d ∈ Conjunction.matches ls -> TopK.not_nan (score d).

Lemma docs_l00_range x : x ∈ Conjunction.docs l00 -> 0 <= x < u32_max.
Proof.
  intros Hx. rewrite Forall_forall in Hrange.
  assert (Hin : l00 ∈ ls) by (by eapply list_elem_of_lookup_2).
  specialize (Hrange l00 Hin). rewrite Forall_forall in Hrange. by apply Hrange.
Qed.

Lemma IntersectLists_loop_spec :
  forall (fuel : nat) (did : Z) (n : nat) results (st : QP.store) (P Q : list Z),
  0 <= did <= u32_max ->
  Conjunction.matches ls = P ++ Q ->
  Forall (fun x : Z => x < did) P -> Forall (fun x : Z => did <= x) Q ->
  Inv st did -> kept results n (map res P) ->
  (length (List.filter (fun x => (did <=? x)%Z) (Conjunction.docs l00)) < fuel)%nat ->
  exists results' st',
    QP.IntersectLists_loop alg GetDocLen collection_average_doc_len_ fuel None lists
      (QP.idf_of_lists log10 collection_total_num_docs_ st0 lists) num_results
      st did n results
    = (length (Conjunction.matches ls), results', st') /\
    kept results' (length (Conjunction.matches ls)) (map res (Conjunction.matches ls)).
Proof.
  induction fuel as [|fuel IH]; intros did n results st P Q Hdid HPQ HP HQ HI Hkept Hfuel; [lia|].
  assert (Hn : n = length P).
  { destruct Hkept as (_ & Hn & _). by rewrite length_map in Hn. }
  assert (Hdone : Q = [] ->
            kept results (length (Conjunction.matches ls)) (map res (Conjunction.matches ls)) /\
            n = length (Conjunction.matches ls)).
  { intros ->. rewrite app_nil_r in HPQ. rewrite HPQ, <- Hn. done. }
  cbn [QP.IntersectLists_loop].
  destruct (did <? u32_max) eqn:E.
  2:{ apply Z.ltb_ge in E. destruct Hdone as [Hd1 Hd2].
      - destruct Q as [|x Q']; [done|]. apply Forall_cons in HQ as [Hx _].
        assert (Hin : x ∈ Conjunction.matches ls) by (rewrite HPQ; apply elem_of_app; right; left).
        apply (matches_docs ls l00 x Hl00), docs_l00_range in Hin. lia.
      - exists results, st. by rewrite Hd2. }
  apply Z.ltb_lt in E.
  rewrite (nth_lookup_Some _ _ _ _ Hp0).
  destruct (QP.NextGEQ st p0 did) as [d0 st1] eqn:HN. cbv beta iota.
  destruct (NextGEQ_Inv st st1 did p0 d0 0%nat l00 HI Hp0 Hl00 HN) as (HI1 & _ & Hcase).
  destruct Hcase as [[-> Hall]|(Hd0 & (l1 & Hl1 & Hst1) & Hmin)].
  { rewrite Z.eqb_refl. destruct Hdone as [Hd1 Hd2].
    - destruct Q as [|x Q']; [done|]. apply Forall_cons in HQ as [Hx _].
      assert (Hin : x ∈ Conjunction.matches ls) by (rewrite HPQ; apply elem_of_app; right; left).
      apply (matches_docs ls l00 x Hl00) in Hin.
      rewrite Forall_forall in Hall. specialize (Hall x Hin). lia.
    - exists results, st1. by rewrite Hd2. }
  destruct (d0 =? u32_max) eqn:E2; [apply Z.eqb_eq in E2; lia|].
  assert (Hd0in : d0 ∈ Conjunction.docs l00).
  { destruct (HI1 0%nat p0 l00 Hp0 Hl00) as (l & Hl & Hf). rewrite Hl1 in Hl. injection Hl as <-.
    apply (follows_mono _ _ _ d0) in Hf; [|lia].
    by destruct (stands_on_frequency l00 l1 d0 Hf Hst1). }
  assert (HQ0 : Forall (fun x => d0 <= x) Q).
  { apply Forall_forall. intros x Hx. rewrite Forall_forall in HQ.
    apply Hmin; [|by apply HQ].
    apply (matches_docs ls l00 x Hl00). rewrite HPQ. apply elem_of_app. by right. }
  assert (HI1' : Inv st1 d0) by (apply (Inv_mono st1 did d0); [lia|done]).
  assert (HS1 : Stand st1 d0 1%nat).
  { intros i p Hi Hp. assert (i = 0%nat) as -> by lia. rewrite Hp0 in Hp. injection Hp as <-.
    by exists l1. }
  assert (Hlists : (0 < length lists)%nat) by (by eapply lookup_lt_Some).
  destruct (same_doc_id_spec d0 (length lists - 1) 1%nat st1)
    as (d & st2 & Hsame & HI2 & Hd & Hcase); [lia|done|done|lia|].
  rewrite Hsame.
  assert (Hmeasure : forall did', d0 < did' ->
            (length (List.filter (fun x => (did' <=? x)%Z) (Conjunction.docs l00)) < fuel)%nat).
  { intros did' Hlt.
    assert (H := filter_length_lt (fun x => did <=? x) (fun x => did' <=? x)
                   (Conjunction.docs l00) d0).
    cbn beta in H. specialize (H ltac:(intros x _ Hx; apply Z.leb_le in Hx; apply Z.leb_le; lia)
                                 Hd0in ltac:(apply Z.leb_le; lia) ltac:(apply Z.leb_gt; lia)).
    lia. }
  destruct Hcase as [[-> HS2]|(Hlt & i & l0 & Hl0 & Hmin')].
  - rewrite Z.ltb_irrefl. cbv zeta.
    rewrite (bm25_sum_of_score st0 st2 d0 Hst0 HI2 HS2).
    assert (Hin : d0 ∈ Conjunction.matches ls).
    { apply (elem_of_matches ls l00 d0 Hl00). intros i l0 Hl0.
      destruct (lookup_lt_is_Some_2 lists i) as [p Hp].
      { rewrite Hlen. by eapply lookup_lt_Some. }
      destruct (HI2 i p l0 Hp Hl0) as (l & Hl & Hf).
      destruct (HS2 i p ltac:(by eapply lookup_lt_Some) Hp) as (l' & Hl' & Hs).
      rewrite Hl in Hl'. injection Hl' as <-.
      by destruct (stands_on_frequency l0 l d0 Hf Hs). }
    assert (HsI := matches_sorted ls l00 Hl00 ltac:(
      rewrite Forall_forall in Hsorted; apply Hsorted; by eapply list_elem_of_lookup_2)).
    destruct (sorted_head_split P Q d0 ltac:(by rewrite <- HPQ) ltac:(by rewrite <- HPQ)) as (Q' & -> & HQ').
    { eapply Forall_impl; [exact HP|]. intros x Hx. cbn beta in Hx. lia. }
    { done. }
    unfold wrap32. rewrite Z.mod_small by (unfold u32_max in *; lia).
    apply (IH (d0 + 1) (S n) _ st2 (P ++ [d0]) Q').
    + lia.
    + by rewrite <- app_assoc.
    + apply Forall_app. split; [|constructor; [lia|constructor]].
      eapply Forall_impl; [exact HP|]. intros x Hx. cbn beta in Hx. lia.
    + done.
    + apply (Inv_mono st2 d0); [lia|done].
    + rewrite map_app. cbn [map].
      change (QP.update_results alg results n num_results (score d0) d0)
        with (TopK.insert alg QP.ResultCompare QP.no_result (score d0, d0) results n num_results).
      apply (kept_insert alg _ _ QP.no_result Halg ResultCompare_swo); [done| |done].
      cbn [fst]. by apply Hnan.
    + apply Hmeasure. lia.
  - assert (E3 : (d0 <? d) = true) by (apply Z.ltb_lt; lia). rewrite E3.
    apply (IH d n results st2 P Q).
    + lia.
    + done.
    + eapply Forall_impl; [exact HP|]. intros x Hx. cbn beta in Hx. lia.
    + apply Forall_forall. intros x Hx.
      assert (Hin : x ∈ Conjunction.matches ls) by (rewrite HPQ; apply elem_of_app; by right).
      rewrite Forall_forall in HQ0.
      apply Hmin'; [|by apply HQ0].
      by apply (proj1 (elem_of_matches ls l00 x Hl00) Hin i).
    + apply (Inv_mono st2 d0); [lia|done].
    + done.
    + apply Hmeasure. lia.
Qed.

End IntersectListsFacts.

(** X11. [IntersectLists] (DAAT-AND) over freshly opened lists returns the
    number of documents that occur in every list, and leaves in the first
    [min(num_results, total)] slots of [results], in descending order of
    score, documents of the conjunction with their BM25 scores such that
    no document of the conjunction that was left out scores higher than
    one that was kept. *)
Theorem IntersectLists_top_k (alg : Stl.algorithms) (log10 : spec_float -> spec_float)
    (GetDocLen : Z -> Z) (collection_average_doc_len_ collection_total_num_docs_ : Z)
    (lists : list nat) (ls : list ListData.t) (results : list QP.Result)
    (num_results : nat) (st : QP.store) :
  Stl.conforming alg ->
  lists <> [] -> (0 < num_results)%nat -> length results = num_results ->
  Forall2 (fun p l => st !! p = Some l) lists ls ->
  Forall Conjunction.opened ls ->
  (forall d, d ∈ Conjunction.matches ls ->
     TopK.not_nan (Conjunction.score log10 GetDocLen collection_average_doc_len_
                     collection_total_num_docs_ ls d)) ->
  exists results' st',
    QP.IntersectLists alg log10 GetDocLen collection_average_doc_len_
      collection_total_num_docs_ lists results num_results st
    = (length (Conjunction.matches ls), results', st') /\
    let top := take (Nat.min num_results (length (Conjunction.matches ls))) results' in
    Stl.is_sorted QP.ResultCompare top /\
    exists dropped,
      Permutation (top ++ dropped)
        (map (fun d => (Conjunction.score log10 GetDocLen collection_average_doc_len_
                          collection_total_num_docs_ ls d, d))
             (Conjunction.matches ls)) /\
      forall x y, x ∈ dropped -> y ∈ top -> SFltb (fst y) (fst x) = false.
Proof.
  intros Halg Hne Hk Hres HF Hopen Hnan.
  assert (Hlen : length lists = length ls) by (by eapply Forall2_length).
  destruct lists as [|p0 lists'] eqn:Hlists; [done|]. rewrite <- Hlists in *.
  destruct ls as [|l00 ls'] eqn:Hls; [by rewrite Hlists in Hlen|]. rewrite <- Hls in *.
  assert (Hp0 : lists !! 0%nat = Some p0) by (by rewrite Hlists).
  assert (Hl00 : ls !! 0%nat = Some l00) by (by rewrite Hls).
  assert (Hst0 : forall (i : nat) p l0, lists !! i = Some p -> ls !! i = Some l0 ->
            st !! p = Some l0).
  { intros i p l0 Hp Hl0. exact (Forall2_lookup_lr _ _ _ _ _ _ HF Hp Hl0). }
  assert (Hsorted : Forall (fun l0 => StronglySorted Z.lt (Conjunction.docs l0)) ls).
  { eapply Forall_impl; [exact Hopen|]. by intros l (_ & H & _). }
  assert (Hrange : Forall (fun l0 => Forall (fun d => 0 <= d < u32_max) (Conjunction.docs l0)) ls).
  { eapply Forall_impl; [exact Hopen|]. by intros l (_ & _ & H). }
  destruct (IntersectLists_loop_spec alg log10 GetDocLen collection_average_doc_len_
              collection_total_num_docs_ Halg lists ls Hlen Hsorted Hrange num_results p0 l00 st
              Hk Hp0 Hl00 Hst0 Hnan (S (QP.total_postings st)) 0 0%nat results st
              [] (Conjunction.matches ls))
    as (results1 & st1 & Hloop & Hkept).
  { unfold u32_max. lia. }
  { done. }
  { constructor. }
  { apply Forall_forall. intros x Hx.
    apply (matches_docs ls l00 x Hl00) in Hx.
    rewrite Forall_forall in Hrange.
    assert (Hin : l00 ∈ ls) by (by eapply list_elem_of_lookup_2).
    specialize (Hrange l00 Hin). rewrite Forall_forall in Hrange. by apply Hrange. }
  { intros i p l0 Hp Hl0. exists l0. split; [by eapply Hst0|].
    rewrite Forall_forall in Hopen.
    destruct (Hopen l0 ltac:(by eapply list_elem_of_lookup_2)) as (Hpos & _).
    split; [done|]. split; [done|]. rewrite Hpos. constructor. }
  { by apply kept_init. }
  { pose proof (total_postings_lookup st p0 l00 (Hst0 0%nat p0 l00 Hp0 Hl00)) as Hle.
    pose proof (List.filter_length_le (fun x => (0 <=? x)%Z) (Conjunction.docs l00)) as Hf.
    assert (Hd : length (Conjunction.docs l00) = length (ListData.postings l00)).
    { unfold Conjunction.docs. apply length_map. }
    lia. }
  set (total := length (Conjunction.matches ls)) in *.
  unfold QP.IntersectLists, QP.IntersectListsMerge. rewrite Hloop.
  eexists _, st1. split; [reflexivity|]. cbv zeta.
  destruct Hkept as (Hlenr & _ & Hdom & _ & D & Hperm & _ & HD).
  set (m := Nat.min num_results total).
  assert (Hm : Nat.min total num_results = m) by (unfold m; lia).
  rewrite Hm in Hperm, HD.
  assert (Hdomt : Forall (fun r : QP.Result => TopK.not_nan (fst r)) (take m results1)).
  { eapply Permutation_Forall in Hdom; [|symmetry; exact Hperm].
    by apply Forall_app in Hdom as [H _]. }
  destruct (Stl.sort_spec _ Halg _ _ QP.ResultCompare (take m results1) ResultCompare_swo Hdomt)
    as [Hsp Hss].
  assert (Htake : take m (QP.sort_results alg results1 num_results total)
                  = Stl.sort alg _ QP.ResultCompare (take m results1)).
  { unfold QP.sort_results. fold m. apply on_range_take; [lia|].
    rewrite (Permutation_length Hsp), length_take. lia. }
  rewrite Htake. split; [done|]. exists D. split.
  - rewrite <- Hperm. by apply Permutation_app_tail.
  - intros x y Hx Hy. rewrite Hsp in Hy. exact (HD x y Hx Hy).
Qed.

Lemma IntersectLists_top_k_witness :
  exists results' st',
    QP.IntersectLists Stl.reference Toy.log10 Toy.GetDocLen 2 2 [1%nat; 0%nat]
      (replicate 10 QP.no_result) 10
      [ListData.OpenList false Toy.alpha 0 0; ListData.OpenList false Toy.beta 0 1]
    = (1%nat, results', st').
Proof.
  destruct (IntersectLists_top_k Stl.reference Toy.log10 Toy.GetDocLen 2 2 [1%nat; 0%nat]
              [ListData.OpenList false Toy.beta 0 1; ListData.OpenList false Toy.alpha 0 0]
              (replicate 10 QP.no_result) 10
              [ListData.OpenList false Toy.alpha 0 0; ListData.OpenList false Toy.beta 0 1]
              reference_conforming ltac:(discriminate) ltac:(lia) ltac:(reflexivity))
    as (results' & st' & H & _).
  - repeat constructor.
  - repeat constructor; unfold u32_max; cbn; lia.
  - intros d Hd. change (d ∈ [1]) in Hd. apply list_elem_of_singleton in Hd. subst d.
    vm_compute. reflexivity.
  - exists results', st'. exact H.
Defined.

(** ** [IndexDiff]: the positions in which two postings differ *)

Lemma remaining_positions_drop (which : Z) (ps : list Z) : forall i : nat,
  IndexDiff.remaining_positions which ps i (length ps) = map (pair which) (drop i ps).
Proof.
  unfold IndexDiff.remaining_positions.
  induction ps as [|a ps IH]; intros i.
  { by destruct i. }
  destruct i as [|i]; cbn [length drop].
  - rewrite Nat.sub_0_r. cbn [seq map nth]. f_equal.
    rewrite <- seq_shift, map_map. cbn [nth].
    specialize (IH 0%nat). rewrite Nat.sub_0_r, drop_0 in IH. exact IH.
  - rewrite <- seq_shift, map_map. cbn [nth Nat.sub]. apply IH.
Qed.

Section DiffFacts.

(** The position [q] is reported for index [w] when it occurs in exactly
    one of the two lists; [w] names the one that has it. *)
Local Abbreviation differ := (fun (l1 l2 : list Z) (w q : Z) =>
  (w = 1 /\ q ∈ l1 /\ q ∉ l2) \/ (w = 2 /\ q ∈ l2 /\ q ∉ l1)).

Lemma differ_equal (p : Z) (r1 r2 : list Z) w q :
  Forall (Z.lt p) r1 -> Forall (Z.lt p) r2 ->
  differ (p :: r1) (p :: r2) w q <-> differ r1 r2 w q.
Proof.
  intros H1 H2. rewrite Forall_forall in H1, H2. rewrite !elem_of_cons.
  split; intros [(-> & Hin & Hnot)|(-> & Hin & Hnot)].
  - left. split; [done|]. split; [|tauto]. destruct Hin as [->|Hin]; [tauto|done].
  - right. split; [done|]. split; [|tauto]. destruct Hin as [->|Hin]; [tauto|done].
  - left. split; [done|]. split; [tauto|]. intros [->|Hq]; [|done].
    specialize (H1 _ Hin). lia.
  - right. split; [done|]. split; [tauto|]. intros [->|Hq]; [|done].
    specialize (H2 _ Hin). lia.
Qed.

Lemma differ_less (p1 p2 : Z) (r1 r2 : list Z) w q :
  p1 < p2 -> Forall (Z.lt p1) r1 -> Forall (Z.lt p2) r2 ->
  differ (p1 :: r1) (p2 :: r2) w q <-> (w, q) = (1, p1) \/ differ r1 (p2 :: r2) w q.
Proof.
  intros Hlt H1 H2. rewrite Forall_forall in H1, H2. rewrite !elem_of_cons.
  split.
  - intros [(-> & Hin & Hnot)|(-> & Hin & Hnot)].
    + destruct Hin as [->|Hin]; [by left|]. right. left. tauto.
    + right. right. tauto.
  - intros [[= -> ->]|[(-> & Hin & Hnot)|(-> & Hin & Hnot)]].
    + left. split; [done|]. split; [by left|]. intros [->|Hq]; [lia|].
      specialize (H2 _ Hq). lia.
    + left. tauto.
    + right. split; [done|]. split; [tauto|].
      intros [->|Hq]; [|done]. destruct Hin as [->|Hin]; [lia|].
      specialize (H2 _ Hin). lia.
Qed.

Lemma differ_sym (l1 l2 : list Z) w q :
  differ l1 l2 w q <-> differ l2 l1 (3 - w) q.
Proof.
  split; intros [(Hw & H)|(Hw & H)]; [right|left|right|left]; (split; [lia|done]).
Qed.

Context (ps1 ps2 : list Z).
Hypothesis Hs1 : StronglySorted Z.lt ps1.
Hypothesis Hs2 : StronglySorted Z.lt ps2.

Lemma drop_sorted_cons (ps : list Z) (i : nat) :
  StronglySorted Z.lt ps -> (i < length ps)%nat ->
  drop i ps = nth i ps 0 :: drop (S i) ps /\ Forall (Z.lt (nth i ps 0)) (drop (S i) ps).
Proof.
  intros Hs Hi. destruct (lookup_lt_is_Some_2 ps i Hi) as [p Hp].
  rewrite (nth_lookup_Some _ _ _ _ Hp). split; [by apply drop_S|].
  rewrite <- (take_drop i ps), (drop_S _ _ _ Hp) in Hs.
  clear -Hs. induction (take i ps) as [|x l IH]; simpl in Hs;
    apply StronglySorted_inv in Hs as [Hs Hx]; auto.
Qed.

Lemma merge_positions_spec : forall (fuel i1 i2 : nat) out (i1' i2' : nat),
  (i1 <= length ps1)%nat -> (i2 <= length ps2)%nat ->
  (length ps1 - i1 + (length ps2 - i2) <= fuel)%nat ->
  IndexDiff.merge_positions ps1 ps2 (length ps1) (length ps2) fuel i1 i2 = (out, i1', i2') ->
  forall w q,
    (w, q) ∈ out ++ map (pair 1) (drop i1' ps1) ++ map (pair 2) (drop i2' ps2) <->
    differ (drop i1 ps1) (drop i2 ps2) w q.
Proof.
  assert (Hrest : forall (i1 i2 : nat) w q,
            (i1 = length ps1 \/ i2 = length ps2) ->
            (w, q) ∈ [] ++ map (pair 1) (drop i1 ps1) ++ map (pair 2) (drop i2 ps2) <->
            differ (drop i1 ps1) (drop i2 ps2) w q).
  { intros i1 i2 w q Hend. cbn [app]. rewrite elem_of_app, !list_elem_of_fmap.
    destruct Hend as [->| ->]; rewrite drop_all.
    - split.
      + intros [(y & _ & Hy)|(y & [= -> ->] & Hy)]; [by apply elem_of_nil in Hy|].
        right. split; [done|]. split; [done|]. apply not_elem_of_nil.
      + intros [(_ & Hy & _)|(-> & Hy & _)]; [by apply elem_of_nil in Hy|].
        right. by exists q.
    - split.
      + intros [(y & [= -> ->] & Hy)|(y & _ & Hy)]; [|by apply elem_of_nil in Hy].
        left. split; [done|]. split; [done|]. apply not_elem_of_nil.
      + intros [(-> & Hy & _)|(_ & Hy & _)]; [|by apply elem_of_nil in Hy].
        left. by exists q. }
  induction fuel as [|fuel IH]; intros i1 i2 out i1' i2' H1 H2 Hfuel Hm w q.
  { cbn [IndexDiff.merge_positions] in Hm. injection Hm as <- <- <-.
    apply Hrest. left. lia. }
  cbn [IndexDiff.merge_positions] in Hm.
  destruct ((i1 <? length ps1)%nat && (i2 <? length ps2)%nat) eqn:E.
  2:{ injection Hm as <- <- <-. apply Hrest.
      apply andb_false_iff in E as [E|E]; apply Nat.ltb_ge in E; [left|right]; lia. }
  apply andb_true_iff in E as [E1 E2]. apply Nat.ltb_lt in E1, E2.
  destruct (drop_sorted_cons ps1 i1 Hs1 E1) as [Hd1 Hf1].
  destruct (drop_sorted_cons ps2 i2 Hs2 E2) as [Hd2 Hf2].
  set (p1 := nth i1 ps1 0) in *. set (p2 := nth i2 ps2 0) in *.
  rewrite Hd1, Hd2.
  destruct (p1 =? p2) eqn:Eeq.
  - apply Z.eqb_eq in Eeq. rewrite <- Eeq in *.
    rewrite differ_equal by done.
    apply (IH (S i1) (S i2) out i1' i2'); [lia|lia|lia|done].
  - apply Z.eqb_neq in Eeq. destruct (p1 <? p2) eqn:Elt.
    + apply Z.ltb_lt in Elt.
      destruct (IndexDiff.merge_positions ps1 ps2 _ _ fuel (S i1) i2)
        as [[out0 j1] j2] eqn:Hrec.
      injection Hm as <- <- <-.
      rewrite differ_less by done. cbn [app]. rewrite elem_of_cons.
      rewrite (IH (S i1) i2 out0 j1 j2 ltac:(lia) ltac:(lia) ltac:(lia) Hrec w q).
      by rewrite Hd2.
    + apply Z.ltb_ge in Elt. assert (Hgt : (p2 <? p1) = true) by (apply Z.ltb_lt; lia).
      rewrite Hgt in Hm. apply Z.ltb_lt in Hgt.
      destruct (IndexDiff.merge_positions ps1 ps2 _ _ fuel i1 (S i2))
        as [[out0 j1] j2] eqn:Hrec.
      injection Hm as <- <- <-.
      rewrite differ_sym. rewrite differ_less by done. cbn [app]. rewrite elem_of_cons.
      rewrite (IH i1 (S i2) out0 j1 j2 ltac:(lia) ltac:(lia) ltac:(lia) Hrec w q).
      rewrite Hd1. rewrite (differ_sym (p1 :: _)).
      split; (intros [[= Hw Hq]|H]; [left; f_equal; lia|by right]).
Qed.

Lemma sorted_same_elements (l1 l2 : list Z) :
  StronglySorted Z.lt l1 -> StronglySorted Z.lt l2 ->
  (forall x, x ∈ l1 <-> x ∈ l2) -> l1 = l2.
Proof.
  revert l2. induction l1 as [|a l1 IH]; intros l2 H1 H2 Heq.
  { destruct l2 as [|b l2]; [done|]. specialize (Heq b).
    pose proof (proj2 Heq (list_elem_of_here _ _)) as H. by apply elem_of_nil in H. }
  destruct l2 as [|b l2].
  { specialize (Heq a). rewrite elem_of_nil in Heq. exfalso. apply Heq. left. }
  apply StronglySorted_inv in H1 as [H1 Ha]. apply StronglySorted_inv in H2 as [H2 Hb].
  rewrite Forall_forall in Ha, Hb.
  assert (a = b) as <-.
  { pose proof (proj1 (Heq a) (list_elem_of_here _ _)) as Hin.
    pose proof (proj2 (Heq b) (list_elem_of_here _ _)) as Hin'.
    apply elem_of_cons in Hin as [|Hin]; [done|].
    apply elem_of_cons in Hin' as [|Hin']; [done|].
    specialize (Ha _ Hin'). specialize (Hb _ Hin). lia. }
  f_equal. apply IH; [done|done|]. intros x. specialize (Heq x).
  rewrite !elem_of_cons in Heq. split; intros Hx.
  - destruct (proj1 Heq (or_intror Hx)) as [->|]; [|done]. specialize (Ha _ Hx). lia.
  - destruct (proj2 Heq (or_intror Hx)) as [->|]; [|done]. specialize (Hb _ Hx). lia.
Qed.

(** X12. For two ascending position arrays, the merge in [IndexDiff::Diff]
    prints exactly the positions that occur in one of the postings and
    not in the other, each with the number of the index that has it; it
    prints nothing exactly when the two arrays are equal. *)
Theorem diff_positions_symmetric_difference :
  let out := IndexDiff.diff_positions ps1 ps2 (length ps1) (length ps2) in
  (forall w q, (w, q) ∈ out <->
     (w = 1 /\ q ∈ ps1 /\ q ∉ ps2) \/ (w = 2 /\ q ∈ ps2 /\ q ∉ ps1)) /\
  (out = [] <-> ps1 = ps2).
Proof.
  cbv zeta. unfold IndexDiff.diff_positions.
  destruct (IndexDiff.merge_positions ps1 ps2 _ _ _ 0 0) as [[out0 i1] i2] eqn:Hm.
  rewrite !remaining_positions_drop.
  pose proof (merge_positions_spec (length ps1 + length ps2) 0%nat 0%nat out0 i1 i2
                ltac:(lia) ltac:(lia) ltac:(lia) Hm)
    as Hspec.
  rewrite !drop_0 in Hspec. split; [exact Hspec|]. split.
  - intros Hnil. rewrite Hnil in Hspec. apply sorted_same_elements; [done|done|].
    intros x. split; intros Hx.
    + destruct (decide (x ∈ ps2)) as [|Hn]; [done|].
      assert (H : (1, x) ∈ []) by (apply (proj2 (Hspec 1 x)); left; done).
      by apply elem_of_nil in H.
    + destruct (decide (x ∈ ps1)) as [|Hn]; [done|].
      assert (H : (2, x) ∈ []) by (apply (proj2 (Hspec 2 x)); right; done).
      by apply elem_of_nil in H.
  - intros <-. set (out := out0 ++ _ ++ _) in *.
    destruct out as [|[w q] out']; [done|].
    destruct (proj1 (Hspec w q) (list_elem_of_here _ _)) as [(_ & H1 & H2)|(_ & H1 & H2)]; done.
Qed.

End DiffFacts.

Lemma diff_positions_symmetric_difference_witness :
  IndexDiff.diff_positions [1; 3; 5] [3; 4] 3 2 = [] <-> [1; 3; 5] = [3; 4].
Proof.
  refine (proj2 (diff_positions_symmetric_difference [1; 3; 5] [3; 4] _ _));
    repeat (constructor; try lia).
Defined.

(** ** [RunBatchQueries]: the query of a line of the log *)

Lemma find_colon_app (id rest : string) :
  Batch.find_colon id = None ->
  Batch.find_colon (id +:+ String ":" rest) = Some (String.length id).
Proof.
  induction id as [|c id IH]; simpl; [done|].
  destruct (Ascii.eqb c ":") eqn:E; [done|]. intros H.
  destruct (Batch.find_colon id) eqn:Hf; [done|]. by rewrite IH.
Qed.

Lemma length_app_string (s1 s2 : string) :
  String.length (s1 +:+ s2) = (String.length s1 + String.length s2)%nat.
Proof. induction s1 as [|c s1 IH]; simpl; [done|]. by rewrite IH. Qed.

Lemma substring_all (s : string) : substring 0 (String.length s) s = s.
Proof. induction s as [|c s IH]; cbn [substring String.length]; [done|]. by rewrite IH. Qed.

Lemma substring_skip (s1 s2 : string) (n : nat) :
  substring (String.length s1 + n) (String.length s2 - n) (s1 +:+ s2)
  = substring n (String.length s2 - n) s2.
Proof. induction s1 as [|c s1 IH]; simpl; done. Qed.

(** X13. A line [id:query] of the query log is run as [query], where [id]
    is what precedes the first colon; a line without a colon, and a line
    whose first colon is its last character, is run as it stands. *)
Theorem batch_query_strips_id (id : string) :
  Batch.find_colon id = None ->
  (forall q, q <> EmptyString -> Batch.batch_query (id +:+ String ":" q) = q) /\
  Batch.batch_query (id +:+ String ":" EmptyString) = id +:+ String ":" EmptyString /\
  Batch.batch_query id = id.
Proof.
  intros Hid. split; [|split].
  - intros q Hq. unfold Batch.batch_query. rewrite (find_colon_app id q Hid).
    rewrite length_app_string. cbn [String.length].
    destruct q as [|c q]; [done|]. cbn [String.length].
    assert (E : (String.length id <? String.length id + S (S (String.length q)) - 1)%nat = true)
      by (apply Nat.ltb_lt; lia).
    rewrite E.
    replace (String.length id + S (S (String.length q)) - (String.length id + 1))%nat
      with (String.length (String ":" (String c q)) - 1)%nat by (cbn [String.length]; lia).
    rewrite substring_skip. cbn [String.length substring Nat.sub].
    f_equal. apply substring_all.
  - unfold Batch.batch_query. rewrite (find_colon_app id EmptyString Hid).
    rewrite length_app_string. cbn [String.length].
    assert (E : (String.length id <? String.length id + 1 - 1)%nat = false)
      by (apply Nat.ltb_ge; lia).
    by rewrite E.
  - unfold Batch.batch_query. by rewrite Hid.
Qed.

Lemma batch_query_strips_id_witness :
  Batch.batch_query "17:new york:hotels" = "new york:hotels"%string.
Proof.
  exact (proj1 (batch_query_strips_id "17" ltac:(reflexivity)) "new york:hotels"%string
           ltac:(discriminate)).
Defined.

(** ** The algorithms [LoadIndexProperties] lets through *)

Section Dispatch.

Context (alg : Stl.algorithms) (log10 : spec_float -> spec_float) (GetDocLen : Z -> Z)
  (collection_average_doc_len_ collection_total_num_docs_ : Z)
  (index_overlapping_layers_ : bool)
  (IntersectListsTopPositions :
     list nat -> list QP.Result -> nat -> QP.store -> nat * list QP.Result * QP.store)
  (MAX_LIST_LAYERS : nat)
  (stop_words_ : gset string) (lexicon : gmap string Lex.LexiconData)
  (max_num_results_ : nat)
  (ProcessLayeredTaatPrunedEarlyTerminatedQuery :
     list Lex.LexiconData -> nat -> nat * nat * list QP.Result)
  (MergeListsWand MergeListsMaxScore :
     list Lex.LexiconData -> nat -> bool -> nat * nat * list QP.Result).

Local Abbreviation ExecuteQuery := (fun a =>
  QP.ExecuteQuery alg log10 GetDocLen collection_average_doc_len_ collection_total_num_docs_
    index_overlapping_layers_ IntersectListsTopPositions MAX_LIST_LAYERS a stop_words_ lexicon
    max_num_results_ ProcessLayeredTaatPrunedEarlyTerminatedQuery MergeListsWand
    MergeListsMaxScore).


End Dispatch.


(** ** [ProcessLayeredQuery]: seeding the heap of intersection results *)

Local Abbreviation nonempty := (fun n : nat => (0 <? n)%nat).

Lemma seed_result_heap_spec : forall all_results num_intersection_results (i : nat)
    (result_heap : list QP.heap_entry) (result_heap_size : nat) rest heap' size',
  length all_results = length num_intersection_results ->
  QP.seed_result_heap i all_results num_intersection_results result_heap result_heap_size
  = (rest, heap', size') ->
  size' = (result_heap_size + length (List.filter nonempty num_intersection_results))%nat /\
  length heap' = length result_heap /\
  (forall k : nat, (k < i)%nat -> heap' !! k = result_heap !! k) /\
  (forall (k n : nat), num_intersection_results !! k = Some n ->
     (i + k < length result_heap)%nat ->
     heap' !! (i + k)%nat
     = if nonempty n
       then Some (nth 0 (nth k all_results []) QP.no_result, ((i + k)%nat, 1%nat))
       else result_heap !! (i + k)%nat).
Proof.
  induction all_results as [|results_i all_results IH];
    intros [|n_i nir] i heap size rest heap' size' Hlen H; try done.
  { cbn in H. injection H as <- <- <-. cbn. split; [lia|]. split; [done|]. split; [done|].
    intros k n Hk. by rewrite lookup_nil in Hk. }
  cbn [QP.seed_result_heap] in H. cbn [length] in Hlen.
  destruct (0 <? n_i)%nat eqn:E.
  - destruct (QP.seed_result_heap (S i) all_results nir _ (S size))
      as [[rest0 heap0] size0] eqn:Hrec.
    injection H as <- <- <-.
    destruct (IH nir (S i) _ (S size) rest0 heap0 size0 ltac:(lia) Hrec)
      as (Hsize & Hl & Hlow & Hslots).
    rewrite length_insert in Hl, Hslots.
    split; [cbn [List.filter]; rewrite E; cbn [length]; lia|]. split; [done|]. split.
    + intros k Hk. etransitivity; [apply (Hlow k); lia|]. apply list_lookup_insert_ne. lia.
    + intros k n Hk Hik. destruct k as [|k]; cbn in Hk.
      * injection Hk as <-. rewrite E, Nat.add_0_r. rewrite Nat.add_0_r in Hik.
        etransitivity; [apply (Hlow i); lia|].
        cbn [nth]. apply list_lookup_insert_eq. exact Hik.
      * replace (i + S k)%nat with (S i + k)%nat by lia.
        etransitivity; [apply (Hslots k n Hk); lia|]. cbn [nth].
        destruct (nonempty n); [done|]. apply list_lookup_insert_ne. lia.
  - destruct (QP.seed_result_heap (S i) all_results nir heap size)
      as [[rest0 heap0] size0] eqn:Hrec.
    injection H as <- <- <-.
    destruct (IH nir (S i) heap size rest0 heap0 size0 ltac:(lia) Hrec)
      as (Hsize & Hl & Hlow & Hslots).
    split; [cbn [List.filter]; rewrite E; lia|]. split; [done|]. split.
    + intros k Hk. apply Hlow. lia.
    + intros k n Hk Hik. destruct k as [|k]; cbn in Hk.
      * injection Hk as <-. rewrite E, Nat.add_0_r. apply Hlow. lia.
      * replace (i + S k)%nat with (S i + k)%nat by lia.
        etransitivity; [apply (Hslots k n Hk); lia|]. done.
Qed.

Lemma filter_nonempty_lt (l : list nat) (i : nat) :
  l !! i = Some 0%nat -> (length (List.filter nonempty l) < length l)%nat.
Proof.
  revert i. induction l as [|x l IH]; intros i Hi; [done|].
  pose proof (List.filter_length_le nonempty l) as Hle.
  destruct i as [|i]; cbn in Hi.
  - injection Hi as ->. change (List.filter nonempty (0%nat :: l)) with (List.filter nonempty l).
    cbn [length]. lia.
  - specialize (IH i Hi). cbn [List.filter]. destruct (nonempty x); cbn [length]; lia.
Qed.

Lemma first_empty_in_range (l : list nat) (i j n : nat) :
  (i < j)%nat -> l !! i = Some 0%nat -> l !! j = Some (S n) ->
  exists i0 : nat, (i0 < length (List.filter nonempty l))%nat /\ l !! i0 = Some 0%nat.
Proof.
  revert i j. induction l as [|x l IH]; intros i j Hij Hi Hj; [done|].
  destruct j as [|j]; [lia|]. cbn in Hj. destruct x as [|x].
  - exists 0%nat. split; [|done].
    change (List.filter nonempty (0%nat :: l)) with (List.filter nonempty l).
    assert (Hin : S n ∈ List.filter nonempty l).
    { apply list_elem_of_In, filter_In. split; [|done].
      apply list_elem_of_In. by eapply list_elem_of_lookup_2. }
    destruct (List.filter nonempty l); [by apply elem_of_nil in Hin|cbn; lia].
  - destruct i as [|i]; [done|]. cbn in Hi.
    destruct (IH i j ltac:(lia) Hi Hj) as (i0 & Hi0 & Hz).
    exists (S i0). split; [|done].
    change (List.filter nonempty (S x :: l)) with (S x :: List.filter nonempty l).
    cbn [length]. lia.
Qed.

Lemma last_nonempty_out_of_range (l : list nat) : forall (i j n : nat),
  (i < j)%nat -> l !! i = Some 0%nat -> l !! j = Some (S n) ->
  exists j0 m : nat, (length (List.filter nonempty l) <= j0)%nat /\ l !! j0 = Some (S m).
Proof.
  induction l as [|x l IH] using rev_ind; intros i j n Hij Hi Hj; [done|].
  assert (Hjl : (j < length (l ++ [x]))%nat) by (by eapply lookup_lt_Some).
  rewrite length_app in Hjl. cbn in Hjl.
  assert (Hil : l !! i = Some 0%nat).
  { rewrite lookup_app_l in Hi by lia. done. }
  rewrite List.filter_app, length_app.
  destruct x as [|x].
  - assert (Hjl' : l !! j = Some (S n)).
    { destruct (decide (j = length l)) as [->|Hne].
      - rewrite list_lookup_middle in Hj by done. done.
      - rewrite lookup_app_l in Hj by lia. done. }
    destruct (IH i j n Hij Hil Hjl') as (j0 & m & Hj0 & Hm).
    exists j0, m. split; [|].
    { change (List.filter nonempty [0%nat]) with (@nil nat). cbn [length]. lia. } rewrite lookup_app_l; [done|]. by eapply lookup_lt_Some.
  - exists (length l), x. split.
    + pose proof (filter_nonempty_lt l i Hil).
      change (List.filter nonempty [S x]) with [S x]. cbn [length]. lia.
    + by rewrite list_lookup_middle.
Qed.

(** X15. The loop that seeds [result_heap] writes the first result of
    intersection [i] into slot [i], but counts only the intersections
    that have results.  So when an intersection without results comes
    before one with results, the range [0, result_heap_size) that
    [make_heap] and the merge loop work on holds a slot that was never
    written, and leaves out the slot of an intersection that has
    results. *)
Theorem seed_result_heap_skips_slots all_results num_intersection_results
    (i j n : nat) rest result_heap result_heap_size :
  length all_results = length num_intersection_results ->
  QP.seed_result_heap 0 all_results num_intersection_results
    (replicate (length num_intersection_results) QP.no_heap_entry) 0
  = (rest, result_heap, result_heap_size) ->
  (i < j)%nat ->
  num_intersection_results !! i = Some 0%nat ->
  num_intersection_results !! j = Some (S n) ->
  result_heap_size = length (List.filter (fun n => (0 <? n)%nat) num_intersection_results) /\
  (exists i0 : nat, (i0 < result_heap_size)%nat /\
     num_intersection_results !! i0 = Some 0%nat /\
     result_heap !! i0 = Some QP.no_heap_entry) /\
  (exists j0 m : nat, (result_heap_size <= j0)%nat /\
     num_intersection_results !! j0 = Some (S m) /\
     result_heap !! j0
     = Some (nth 0 (nth j0 all_results []) QP.no_result, (j0, 1%nat))).
Proof.
  intros Hlen Hseed Hij Hi Hj.
  destruct (seed_result_heap_spec _ _ _ _ _ _ _ _ Hlen Hseed) as (Hsize & Hl & _ & Hslots).
  rewrite length_replicate in Hl, Hslots. cbn in Hsize. subst result_heap_size.
  split; [done|]. split.
  - destruct (first_empty_in_range _ i j n Hij Hi Hj) as (i0 & Hi0 & Hz).
    exists i0. split; [done|]. split; [done|].
    assert (Hlt : (i0 < length num_intersection_results)%nat) by (by eapply lookup_lt_Some).
    etransitivity; [apply (Hslots i0 0%nat Hz Hlt)|]. cbn. by apply lookup_replicate_2.
  - destruct (last_nonempty_out_of_range _ i j n Hij Hi Hj) as (j0 & m & Hj0 & Hm).
    exists j0, m. split; [done|]. split; [done|].
    assert (Hlt : (j0 < length num_intersection_results)%nat) by (by eapply lookup_lt_Some).
    etransitivity; [apply (Hslots j0 (S m) Hm Hlt)|]. done.
Qed.

Lemma seed_result_heap_skips_slots_witness :
  exists j0 m : nat, (1 <= j0)%nat /\
    [0%nat; 1%nat] !! j0 = Some (S m) /\
    [QP.no_heap_entry; ((F32.of_Z 1, 5), (1%nat, 1%nat))] !! j0
    = Some (nth 0 (nth j0 [[]; [(F32.of_Z 1, 5)]] []) QP.no_result, (j0, 1%nat)).
Proof.
  exact (proj2 (proj2 (seed_result_heap_skips_slots [[]; [(F32.of_Z 1, 5)]] [0%nat; 1%nat]
    0 1 0 [0%nat; 0%nat] [QP.no_heap_entry; ((F32.of_Z 1, 5), (1%nat, 1%nat))] 1
    eq_refl eq_refl ltac:(lia) eq_refl eq_refl))).
Defined.

(** ** [ProcessQuery] in DAAT-AND mode *)

Lemma elem_of_matches_all (ls : list ListData.t) x :
  ls <> [] ->
  x ∈ Conjunction.matches ls <-> forall l, l ∈ ls -> x ∈ Conjunction.docs l.
Proof.
  intros Hne. destruct ls as [|l0 ls'] eqn:Hls; [done|]. rewrite <- Hls.
  rewrite (elem_of_matches ls l0 x ltac:(by rewrite Hls)). split.
  - intros H l Hl. apply list_elem_of_lookup in Hl as [i Hi]. by eapply H.
  - intros H i l Hi. apply H. by eapply list_elem_of_lookup_2.
Qed.

Lemma matches_perm (ls ls' : list ListData.t) :
  Permutation ls ls' ->
  Forall (fun l => StronglySorted Z.lt (Conjunction.docs l)) ls ->
  Conjunction.matches ls = Conjunction.matches ls'.
Proof.
  intros Hp Hs. destruct ls as [|l0 ls0] eqn:Hls.
  { apply Permutation_nil in Hp. by subst. }
  rewrite <- Hls in *.
  assert (Hne : ls <> []) by (by rewrite Hls).
  assert (Hne' : ls' <> []).
  { intros ->. apply Permutation_nil_r in Hp. done. }
  destruct ls' as [|l0' ls0'] eqn:Hls'; [done|]. rewrite <- Hls' in *.
  assert (Hs' : Forall (fun l => StronglySorted Z.lt (Conjunction.docs l)) ls').
  { by rewrite <- Hp. }
  apply sorted_same_elements.
  - apply (matches_sorted ls l0); [by rewrite Hls|].
    rewrite Forall_forall in Hs. apply Hs. rewrite Hls. left.
  - apply (matches_sorted ls' l0'); [by rewrite Hls'|].
    rewrite Forall_forall in Hs'. apply Hs'. rewrite Hls'. left.
  - intros x. rewrite !elem_of_matches_all by done.
    split; intros H l Hl; apply H; [by rewrite Hp|by rewrite <- Hp].
Qed.

Section SortLists.

Context (alg : Stl.algorithms).
Hypothesis Halg : Stl.conforming alg.

Lemma sort_lists_perm (st : QP.store) (lists : list nat) :
  Forall (fun p => is_Some (st !! p)) lists ->
  Permutation (QP.sort_lists alg st lists) lists.
Proof.
  intros Hvalid. unfold QP.sort_lists.
  refine (proj1 (Stl.sort_spec _ Halg _ (fun p => is_Some (st !! p)) _ lists _ Hvalid)).
  unfold ListData.ListCompare. split.
  - intros x [l Hl]. rewrite Hl. apply Z.ltb_irrefl.
  - intros x y z [lx Hx] [ly Hy] [lz Hz]. rewrite Hx, Hy, Hz. intros H1 H2.
    apply Z.ltb_lt in H1, H2. apply Z.ltb_lt. lia.
  - intros x y z [lx Hx] [ly Hy] [lz Hz]. rewrite Hx, Hy, Hz. intros H1 H2.
    apply Z.ltb_ge in H1, H2. apply Z.ltb_ge. lia.
Qed.

End SortLists.

Lemma map_nth_seq {A : Type} (d : A) (l : list A) :
  map (fun p => nth p l d) (seq 0 (length l)) = l.
Proof.
  induction l as [|a l IH]; [done|]. cbn [length seq map nth]. f_equal.
  rewrite <- seq_shift, map_map. exact IH.
Qed.

Lemma IntersectLists_sort_lists (alg : Stl.algorithms) (log10 : spec_float -> spec_float)
    (GetDocLen : Z -> Z) (collection_average_doc_len_ collection_total_num_docs_ : Z)
    (ptrs : list nat) (L : list ListData.t) (results : list QP.Result) (num_results : nat)
    (st : QP.store) :
  let total := length (Conjunction.matches L) in
  Stl.conforming alg ->
  L <> [] -> (0 < num_results)%nat -> length results = num_results ->
  Forall2 (fun p l => st !! p = Some l) ptrs L ->
  Forall Conjunction.opened L ->
  (forall ls d, Permutation ls L -> d ∈ Conjunction.matches L ->
     TopK.not_nan (Conjunction.score log10 GetDocLen collection_average_doc_len_
                     collection_total_num_docs_ ls d)) ->
  exists ls results' st',
    Permutation ls L /\
    QP.IntersectLists alg log10 GetDocLen collection_average_doc_len_
      collection_total_num_docs_ (QP.sort_lists alg st ptrs) results num_results st
    = (total, results', st') /\
    let top := take (Nat.min num_results total) results' in
    Stl.is_sorted QP.ResultCompare top /\
    exists dropped,
      Permutation (top ++ dropped)
        (map (fun d => (Conjunction.score log10 GetDocLen collection_average_doc_len_
                          collection_total_num_docs_ ls d, d))
             (Conjunction.matches L)) /\
      forall x y, x ∈ dropped -> y ∈ top -> SFltb (fst y) (fst x) = false.
Proof.
  intros total Halg Hne Hk Hres HF0 Hopen Hnan.
  assert (Hl0 : exists l0, L !! 0%nat = Some l0) by (destruct L; [done|by eexists]).
  destruct Hl0 as [l0 Hl0].
  assert (Hvalid : Forall (fun p => is_Some (st !! p)) ptrs).
  { apply Forall_forall. intros p Hp. apply list_elem_of_lookup in Hp as [i Hi].
    destruct (Forall2_lookup_l _ _ _ _ _ HF0 Hi) as (l & _ & Hl). by exists l. }
  pose proof (sort_lists_perm alg Halg st ptrs Hvalid) as Hperm.
  set (lists := QP.sort_lists alg st ptrs) in *.
  set (ls := map (fun p => nth p st l0) lists).
  assert (HL' : L = map (fun p => nth p st l0) ptrs).
  { clear -HF0. induction HF0 as [|p l ptrs L Hp _ IH]; [done|]. cbn [map]. f_equal; [|done].
    symmetry. by apply nth_lookup_Some. }
  assert (Hpls : Permutation ls L).
  { unfold ls. rewrite Hperm. by rewrite <- HL'. }
  assert (HF : Forall2 (fun p l => st !! p = Some l) lists ls).
  { unfold ls. apply Forall2_fmap_r, Forall_Forall2_diag, Forall_forall.
    intros p Hp. rewrite Hperm in Hp. rewrite Forall_forall in Hvalid.
    destruct (Hvalid p Hp) as [l Hl]. rewrite Hl. f_equal.
    symmetry. by apply nth_lookup_Some. }
  assert (Hsorted : Forall (fun l => StronglySorted Z.lt (Conjunction.docs l)) ls).
  { rewrite Hpls. eapply Forall_impl; [exact Hopen|]. by intros l (_ & H & _). }
  assert (HM : Conjunction.matches ls = Conjunction.matches L) by (by apply matches_perm).
  destruct (IntersectLists_top_k alg log10 GetDocLen collection_average_doc_len_
              collection_total_num_docs_ lists ls results num_results st Halg)
    as (results' & st' & HI & Htop); [|done|done|done| | |].
  { intros Hnil. rewrite Hnil in Hperm.
    apply Permutation_nil in Hperm. rewrite Hperm in HF0.
    apply Forall2_nil_inv_l in HF0. done. }
  { by rewrite Hpls. }
  { intros d Hd. rewrite HM in Hd. by apply Hnan. }
  rewrite HM in HI, Htop.
  exists ls, results', st'. split; [done|]. split; [exact HI|exact Htop].
Qed.

(** X16. [ProcessQuery] in DAAT-AND mode returns the number of documents
    that occur in the last layer of every query term, whatever the order
    of the terms; the results are the best of these documents, in
    descending order of score, as [IntersectLists] gives them for the
    lists in the order in which the sort by length leaves them, an order
    [ls] of which the statement says only that it permutes the lists. *)
Theorem ProcessQuery_DaatAnd (alg : Stl.algorithms) (log10 : spec_float -> spec_float)
    (GetDocLen : Z -> Z) (collection_average_doc_len_ collection_total_num_docs_ : Z)
    (index_overlapping_layers_ : bool)
    (IntersectListsTopPositions :
       list nat -> list QP.Result -> nat -> QP.store -> nat * list QP.Result * QP.store)
    (query_term_data : list Lex.LexiconData) (results : list QP.Result) (num_results : nat) :
  let st := QP.open_last_layers index_overlapping_layers_ query_term_data in
  let total := length (Conjunction.matches st) in
  Stl.conforming alg ->
  query_term_data <> [] -> (0 < num_results)%nat -> length results = num_results ->
  Forall Conjunction.opened st ->
  (forall ls d, Permutation ls st -> d ∈ Conjunction.matches st ->
     TopK.not_nan (Conjunction.score log10 GetDocLen collection_average_doc_len_
                     collection_total_num_docs_ ls d)) ->
  exists ls results',
    Permutation ls st /\
    QP.ProcessQuery alg log10 GetDocLen collection_average_doc_len_ collection_total_num_docs_
      index_overlapping_layers_ IntersectListsTopPositions QP.kDaatAnd
      query_term_data results num_results
    = Some (total, Nat.min total num_results, results') /\
    let top := take (Nat.min num_results total) results' in
    Stl.is_sorted QP.ResultCompare top /\
    exists dropped,
      Permutation (top ++ dropped)
        (map (fun d => (Conjunction.score log10 GetDocLen collection_average_doc_len_
                          collection_total_num_docs_ ls d, d))
             (Conjunction.matches st)) /\
      forall x y, x ∈ dropped -> y ∈ top -> SFltb (fst y) (fst x) = false.
Proof.
  intros st total Halg Hne Hk Hres Hopen Hnan.
  assert (Hlen : length st = length query_term_data).
  { unfold st, QP.open_last_layers. apply length_map. }
  assert (Hst : st <> []).
  { intros Hnil. rewrite Hnil in Hlen. by destruct query_term_data. }
  destruct (IntersectLists_sort_lists alg log10 GetDocLen collection_average_doc_len_
              collection_total_num_docs_ (seq 0 (length query_term_data)) st results
              num_results st Halg Hst Hk Hres)
    as (ls & results' & st' & Hp & HI & Htop); [|done|done|].
  { rewrite <- Hlen. clear. apply Forall2_same_length_lookup_2; [by rewrite length_seq|].
    intros i p l Hp Hl. apply lookup_seq in Hp as [-> _]. done. }
  exists ls, results'. split; [done|]. split; [|exact Htop].
  unfold QP.ProcessQuery. cbv zeta. fold st. unfold total. rewrite HI. done.
Qed.

Lemma ProcessQuery_DaatAnd_witness :
  exists results',
    QP.ProcessQuery Stl.reference Toy.log10 Toy.GetDocLen 2 2 false
      (fun _ results _ st => (0%nat, results, st)) QP.kDaatAnd [Toy.alpha; Toy.beta]
      (replicate 10 QP.no_result) 10
    = Some (1%nat, 1%nat, results').
Proof.
  destruct (ProcessQuery_DaatAnd Stl.reference Toy.log10 Toy.GetDocLen 2 2 false
              (fun _ results _ st => (0%nat, results, st)) [Toy.alpha; Toy.beta]
              (replicate 10 QP.no_result) 10
              reference_conforming ltac:(discriminate) ltac:(lia) ltac:(reflexivity))
    as (ls & results' & _ & H & _).
  - repeat constructor; unfold u32_max; cbn; lia.
  - intros ls d Hp Hd. change (d ∈ [1]) in Hd. apply list_elem_of_singleton in Hd. subst d.
    symmetry in Hp. apply Permutation_length_2_inv in Hp as [-> | ->]; vm_compute; reflexivity.
  - exists results'. exact H.
Defined.

(** ** [ProcessLayeredQuery]: the re-run on the last layers *)

(** What [NextGEQ] and [ResetList] leave alone: everything but the
    position. *)
Local Abbreviation static := (fmap (M:=list) ListData.ResetList).

Lemma NextGEQ_static (st : QP.store) (p : nat) (d : Z) :
  static (QP.NextGEQ st p d).2 = static st.
Proof.
  unfold QP.NextGEQ. destruct (st !! p) as [l|] eqn:Hl; [|done].
  unfold ListData.NextGEQ. cbn [snd].
  etransitivity; [apply (list_fmap_insert ListData.ResetList st p)|].
  apply list_insert_id. etransitivity; [apply list_lookup_fmap|].
  change (ListData.ResetList <$> (st !! p) = Some (ListData.ResetList l)).
  by rewrite Hl.
Qed.

Lemma ResetList_static (st : QP.store) (p : nat) : static (QP.ResetList st p) = static st.
Proof.
  unfold QP.ResetList. destruct (st !! p) as [l|] eqn:Hl; [|done].
  etransitivity; [apply (list_fmap_insert ListData.ResetList st p)|].
  apply list_insert_id. etransitivity; [apply list_lookup_fmap|].
  change (ListData.ResetList <$> (st !! p) = Some (ListData.ResetList l)).
  by rewrite Hl.
Qed.

Lemma merge_lists_min_static (merge_lists : list nat) : forall (st : QP.store) did m,
  static (QP.merge_lists_min st merge_lists did m).2 = static st.
Proof.
  induction merge_lists as [|p ml IH]; intros st did m; [done|].
  cbn [QP.merge_lists_min]. pose proof (NextGEQ_static st p did) as H.
  destruct (QP.NextGEQ st p did) as [d st1]. cbn [snd] in H. by rewrite IH.
Qed.

Lemma same_doc_id_static (lists : list nat) : forall (st : QP.store) did,
  static (QP.same_doc_id st lists did).2 = static st.
Proof.
  induction lists as [|p lists IH]; intros st did; [done|].
  cbn [QP.same_doc_id]. pose proof (NextGEQ_static st p did) as H.
  destruct (QP.NextGEQ st p did) as [d st1]. cbn [snd] in H.
  destruct (d =? did); [by rewrite IH|done].
Qed.

Section Static.

Context (alg : Stl.algorithms) (log10 : spec_float -> spec_float) (GetDocLen : Z -> Z)
  (collection_average_doc_len_ collection_total_num_docs_ : Z) (MAX_LIST_LAYERS : nat).

Lemma IntersectLists_loop_static (fuel : nat) :
  forall merge_lists lists idf_t num_results (st : QP.store) did n results,
  static (QP.IntersectLists_loop alg GetDocLen collection_average_doc_len_ fuel merge_lists
            lists idf_t num_results st did n results).2 = static st.
Proof.
  induction fuel as [|fuel IH]; intros merge_lists lists idf_t k st did n results; [done|].
  cbn [QP.IntersectLists_loop]. destruct (did <? u32_max); [|done].
  destruct merge_lists as [ml|].
  - pose proof (merge_lists_min_static ml st did u32_max) as H1.
    destruct (QP.merge_lists_min st ml did u32_max) as [m st1]. cbn [snd] in H1.
    destruct (m =? u32_max); [done|].
    pose proof (same_doc_id_static (drop 0 lists) st1 m) as H2.
    destruct (QP.same_doc_id st1 (drop 0 lists) m) as [d st2]. cbn [snd] in H2.
    destruct (m <? d); rewrite IH; congruence.
  - pose proof (NextGEQ_static st (nth 0 lists 0%nat) did) as H1.
    destruct (QP.NextGEQ st (nth 0 lists 0%nat) did) as [m st1]. cbn [snd] in H1.
    destruct (m =? u32_max); [done|].
    pose proof (same_doc_id_static (drop 1 lists) st1 m) as H2.
    destruct (QP.same_doc_id st1 (drop 1 lists) m) as [d st2]. cbn [snd] in H2.
    destruct (m <? d); rewrite IH; congruence.
Qed.

Lemma IntersectLists_static lists results num_results (st : QP.store) :
  static (QP.IntersectLists alg log10 GetDocLen collection_average_doc_len_
            collection_total_num_docs_ lists results num_results st).2 = static st.
Proof.
  unfold QP.IntersectLists, QP.IntersectListsMerge.
  pose proof (IntersectLists_loop_static (S (QP.total_postings st)) None lists
                (QP.idf_of_lists log10 collection_total_num_docs_ st lists) num_results st 0
                0%nat results) as H.
  destruct (QP.IntersectLists_loop _ _ _ _ _ _ _ _ _ _ _ _) as [[t r] st1]. done.
Qed.

Lemma reset_second_layers_static (lists : list nat) : forall st : QP.store,
  static (QP.reset_second_layers st lists) = static st.
Proof.
  induction lists as [|p lists IH]; intros st; [done|]. cbn [QP.reset_second_layers].
  rewrite IH. destruct (st !! p) as [l|]; [|done].
  destruct (ListData.layer_num l =? 1); [apply ResetList_static|done].
Qed.

Lemma first_layer_intersections_static (terms : list nat) :
  forall num_query_terms kMaxNumResults (st : QP.store) total,
  static (QP.first_layer_intersections alg log10 GetDocLen collection_average_doc_len_
            collection_total_num_docs_ MAX_LIST_LAYERS terms num_query_terms kMaxNumResults
            st total).2 = static st.
Proof.
  induction terms as [|i terms IH]; intros q k st total; [done|].
  cbn [QP.first_layer_intersections]. cbv zeta.
  match goal with |- context [QP.IntersectLists ?a ?b ?c ?d ?e ?lists ?r ?k ?st] =>
    pose proof (IntersectLists_static lists r k st) as H1;
    destruct (QP.IntersectLists a b c d e lists r k st) as [[t ri] st1];
    pose proof (reset_second_layers_static lists st1) as H2
  end.
  cbn [snd] in H1.
  match goal with |- context [QP.first_layer_intersections ?a ?b ?c ?d ?e ?f ?ts ?q ?k ?st ?t] =>
    pose proof (IH q k st t) as H3;
    destruct (QP.first_layer_intersections a b c d e f ts q k st t) as [[[ar nir] tt] st2]
  end.
  cbn [snd] in *. congruence.
Qed.

Lemma merge_results_length (fuel : nat) :
  forall all_results nir result_heap size results curr k,
  length (QP.merge_results alg fuel all_results nir result_heap size results curr k).1
  = length results.
Proof.
  induction fuel as [|fuel IH]; intros ar nir heap size results curr k; [done|].
  cbn [QP.merge_results].
  destruct ((size =? 0)%nat || negb (curr <? k)%nat); [done|]. cbv zeta.
  destruct (nth (size - 1) _ QP.no_heap_entry) as [top [ti next]].
  destruct ((curr =? 0)%nat || negb (snd (nth (curr - 1) results QP.no_result) =? snd top));
    destruct (0 <? nth ti nir 0)%nat; rewrite IH; by rewrite ?length_insert.
Qed.

Lemma per_term_first_layers_static num_query_terms kMaxNumResults results (st : QP.store) :
  static (QP.per_term_first_layers alg log10 GetDocLen collection_average_doc_len_
            collection_total_num_docs_ MAX_LIST_LAYERS num_query_terms kMaxNumResults
            results st).2 = static st /\
  length (QP.per_term_first_layers alg log10 GetDocLen collection_average_doc_len_
            collection_total_num_docs_ MAX_LIST_LAYERS num_query_terms kMaxNumResults
            results st).1.2 = length results.
Proof.
  unfold QP.per_term_first_layers.
  pose proof (first_layer_intersections_static (seq 0 num_query_terms) num_query_terms
                kMaxNumResults st 0%nat) as H1.
  destruct (QP.first_layer_intersections _ _ _ _ _ _ _ _ _ _ _) as [[[ar nir] tt] st1].
  destruct (QP.seed_result_heap _ _ _ _ _) as [[nir' heap] size]. cbv zeta.
  match goal with |- context [QP.merge_results ?a ?f ?ar ?n ?h ?s ?r ?c ?k] =>
    pose proof (merge_results_length f ar n h s r c k) as H2;
    destruct (QP.merge_results a f ar n h s r c k) as [results' curr]
  end.
  done.
Qed.

End Static.

Lemma open_term_layers_length ovl MAX i lex :
  length (QP.open_term_layers ovl MAX i lex) = MAX.
Proof. unfold QP.open_term_layers. by rewrite length_map, length_seq. Qed.

Lemma open_all_layers_lookup ovl MAX : forall query_term_data (k i j : nat) lex,
  query_term_data !! i = Some lex -> (j < MAX)%nat ->
  QP.open_all_layers ovl MAX k query_term_data !! QP.layer_ptr MAX i j
  = Some (ListData.OpenList ovl lex
            (if Z.of_nat j <? Lex.num_layers lex then Z.of_nat j else Lex.num_layers lex - 1)
            (Z.of_nat (k + i))).
Proof.
  induction query_term_data as [|lex0 qtd IH]; intros k i j lex Hi Hj; [done|].
  cbn [QP.open_all_layers]. unfold QP.layer_ptr. destruct i as [|i].
  - injection Hi as ->.
    etransitivity; [apply lookup_app_l; rewrite open_term_layers_length; lia|].
    unfold QP.open_term_layers. cbn [Nat.mul Nat.add].
    etransitivity; [apply list_lookup_fmap|].
    rewrite lookup_seq_lt by lia. cbn. by rewrite Nat.add_0_r.
  - cbn in Hi.
    etransitivity; [apply lookup_app_r; rewrite open_term_layers_length; lia|].
    rewrite open_term_layers_length.
    replace (S i * MAX + j - MAX)%nat with (i * MAX + j)%nat by lia.
    etransitivity; [apply (IH (S k) i j lex Hi Hj)|]. do 3 f_equal. lia.
Qed.

Lemma fold_ResetList_static (lists : list nat) : forall st : QP.store,
  static (fold_left QP.ResetList lists st) = static st.
Proof.
  induction lists as [|p lists IH]; intros st; [done|]. cbn [fold_left].
  rewrite IH. apply ResetList_static.
Qed.

Lemma ResetList_position_other (st : QP.store) (p q : nat) :
  (forall l, st !! p = Some l -> ListData.position l = 0%nat) ->
  forall l, QP.ResetList st q !! p = Some l -> ListData.position l = 0%nat.
Proof.
  intros H l. unfold QP.ResetList. destruct (st !! q) as [lq|] eqn:Hq; [|apply H].
  destruct (decide (p = q)) as [->|Hne].
  - intros Hl. assert (Hlt : (q < length st)%nat) by (by eapply lookup_lt_Some).
    pose proof (list_lookup_insert_eq st q (ListData.ResetList lq) Hlt) as Hins.
    pose proof (eq_trans (eq_sym Hins) Hl) as Heq. injection Heq as <-. done.
  - intros Hl. apply H. rewrite <- Hl. symmetry. by apply list_lookup_insert_ne.
Qed.

Lemma ResetList_position (st : QP.store) (p : nat) :
  forall l, QP.ResetList st p !! p = Some l -> ListData.position l = 0%nat.
Proof.
  intros l. unfold QP.ResetList. destruct (st !! p) as [lp|] eqn:Hp; [|congruence].
  intros Hl. assert (Hlt : (p < length st)%nat) by (by eapply lookup_lt_Some).
  pose proof (list_lookup_insert_eq st p (ListData.ResetList lp) Hlt) as Hins.
  pose proof (eq_trans (eq_sym Hins) Hl) as Heq. injection Heq as <-. done.
Qed.

Lemma fold_ResetList_position (lists : list nat) (p : nat) : forall st : QP.store,
  (p ∈ lists \/ forall l, st !! p = Some l -> ListData.position l = 0%nat) ->
  forall l, fold_left QP.ResetList lists st !! p = Some l -> ListData.position l = 0%nat.
Proof.
  induction lists as [|q lists IH]; intros st H.
  { destruct H as [H|H]; [by apply elem_of_nil in H|done]. }
  cbn [fold_left]. apply IH. destruct H as [H|H].
  - apply elem_of_cons in H as [->|H]; [|by left]. right. apply ResetList_position.
  - right. by apply ResetList_position_other.
Qed.

Section StandardIntersection.

Context (alg : Stl.algorithms) (log10 : spec_float -> spec_float) (GetDocLen : Z -> Z)
  (collection_average_doc_len_ collection_total_num_docs_ : Z)
  (index_overlapping_layers_ : bool) (MAX_LIST_LAYERS : nat).
Hypothesis Halg : Stl.conforming alg.

Context (query_term_data : list Lex.LexiconData) (kMaxNumResults : nat).
Hypothesis Hne : query_term_data <> [].
Hypothesis Hk : (0 < kMaxNumResults)%nat.
Hypothesis Hlayers :
  Forall (fun lex => 1 <= Lex.num_layers lex <= Z.of_nat MAX_LIST_LAYERS) query_term_data.

(** The last layer of every query term, as [OpenListLayers] opens it. *)
Local Abbreviation last_layers :=
  (imap (fun (i : nat) lex =>
           ListData.OpenList index_overlapping_layers_ lex (Lex.num_layers lex - 1)
             (Z.of_nat i)) query_term_data).
Local Abbreviation total := (length (Conjunction.matches last_layers)).
Local Abbreviation st0 :=
  (QP.open_all_layers index_overlapping_layers_ MAX_LIST_LAYERS 0 query_term_data).
Local Abbreviation best_of := (fun (ls : list ListData.t) (results : list QP.Result) =>
  let top := take (Nat.min kMaxNumResults total) results in
  Stl.is_sorted QP.ResultCompare top /\
  exists dropped,
    Permutation (top ++ dropped)
      (map (fun d => (Conjunction.score log10 GetDocLen collection_average_doc_len_
                        collection_total_num_docs_ ls d, d))
           (Conjunction.matches last_layers)) /\
    forall x y, x ∈ dropped -> y ∈ top -> SFltb (fst y) (fst x) = false).

Hypothesis Hopen : Forall Conjunction.opened last_layers.
Hypothesis Hnan : forall ls d, Permutation ls last_layers ->
  d ∈ Conjunction.matches last_layers ->
  TopK.not_nan (Conjunction.score log10 GetDocLen collection_average_doc_len_
                  collection_total_num_docs_ ls d).

Lemma standard_intersection_spec (st : QP.store) (results : list QP.Result) :
  static st = static st0 -> length results = kMaxNumResults ->
  exists ls results' st',
    Permutation ls last_layers /\
    QP.standard_intersection alg log10 GetDocLen collection_average_doc_len_
      collection_total_num_docs_ MAX_LIST_LAYERS query_term_data st results kMaxNumResults
    = (total, results', st') /\
    best_of ls results'.
Proof.
  intros Hst Hres. unfold QP.standard_intersection. cbv zeta.
  set (ptrs := imap (fun (i : nat) lex =>
                 QP.layer_ptr MAX_LIST_LAYERS i (Z.to_nat (Lex.num_layers lex - 1)))
                 query_term_data).
  set (st2 := fold_left QP.ResetList ptrs st).
  apply (IntersectLists_sort_lists alg log10 GetDocLen collection_average_doc_len_
           collection_total_num_docs_ ptrs last_layers results kMaxNumResults st2 Halg);
    [|done|done| |done|done].
  { destruct query_term_data; done. }
  assert (Hst2 : static st2 = static st0).
  { unfold st2. by rewrite fold_ResetList_static. }
  apply Forall2_same_length_lookup_2; [unfold ptrs; by rewrite !length_imap|].
  intros i p l Hp Hl. unfold ptrs in Hp.
  rewrite list_lookup_imap in Hp. rewrite list_lookup_imap in Hl.
  destruct (query_term_data !! i) as [lex|] eqn:Hlex; [|done].
  cbn in Hp, Hl. injection Hp as <-. injection Hl as <-.
  rewrite Forall_forall in Hlayers.
  pose proof (Hlayers lex ltac:(by eapply list_elem_of_lookup_2)) as Hnl.
  set (p := QP.layer_ptr MAX_LIST_LAYERS i (Z.to_nat (Lex.num_layers lex - 1))).
  pose proof (open_all_layers_lookup index_overlapping_layers_ MAX_LIST_LAYERS query_term_data
                0 i (Z.to_nat (Lex.num_layers lex - 1)) lex Hlex ltac:(lia)) as H0.
  fold p in H0. rewrite Z2Nat.id in H0 by lia.
  assert (E : (Lex.num_layers lex - 1 <? Lex.num_layers lex) = true) by (apply Z.ltb_lt; lia).
  rewrite E in H0. cbn [Nat.add] in H0.
  assert (Hlt : (p < length st2)%nat).
  { apply (f_equal length) in Hst2. rewrite !length_fmap in Hst2. rewrite Hst2.
    by eapply lookup_lt_Some. }
  destruct (lookup_lt_is_Some_2 st2 p Hlt) as [l2 Hl2].
  etransitivity; [exact Hl2|]. f_equal.
  assert (Hpos : ListData.position l2 = 0%nat).
  { apply (fold_ResetList_position ptrs p st); [|exact Hl2]. left.
    apply list_elem_of_lookup. exists i. unfold ptrs. rewrite list_lookup_imap, Hlex. done. }
  assert (Hr : ListData.ResetList l2 = ListData.ResetList
                 (ListData.OpenList index_overlapping_layers_ lex (Lex.num_layers lex - 1)
                    (Z.of_nat i))).
  { pose proof (eq_trans (list_lookup_fmap ListData.ResetList st2 p)
                  (f_equal (fmap ListData.ResetList) Hl2)) as H2.
    pose proof (eq_trans (list_lookup_fmap ListData.ResetList st0 p)
                  (f_equal (fmap ListData.ResetList) H0)) as H3.
    pose proof (f_equal (fun s : list ListData.t => s !! p) Hst2) as H4. cbn beta in H4.
    pose proof (eq_trans (eq_sym H2) (eq_trans H4 H3)) as H5.
    change (Some (ListData.ResetList l2)
            = Some (ListData.ResetList
                      (ListData.OpenList index_overlapping_layers_ lex
                         (Lex.num_layers lex - 1) (Z.of_nat i)))) in H5.
    exact (Some_inj _ _ H5). }
  destruct l2. cbn in Hpos. subst. exact Hr.
Qed.

Lemma finish_layered_spec outcome t n (st : QP.store) (results : list QP.Result) :
  outcome <> QP.EarlyTerminated ->
  static st = static st0 -> length results = kMaxNumResults ->
  let r := QP.finish_layered alg log10 GetDocLen collection_average_doc_len_
             collection_total_num_docs_ MAX_LIST_LAYERS query_term_data kMaxNumResults
             outcome t n results st in
  QP.outcome r = outcome /\
  QP.run_standard_intersection r = true /\
  QP.total_num_results r = total /\
  QP.num_results r = Nat.min total kMaxNumResults /\
  exists ls, Permutation ls last_layers /\ best_of ls (QP.results r).
Proof.
  intros Ho Hst Hres.
  destruct (standard_intersection_spec st results Hst Hres)
    as (ls & results' & st' & Hp & Hsi & Hbest).
  unfold QP.finish_layered. rewrite Hsi.
  destruct outcome; [done| | |]; cbn; (repeat split; [by exists ls]).
Qed.

(** X17. Whenever [ProcessLayeredQuery] (without the merged first
    layers) does not terminate early, what it returns is the standard
    DAAT-AND answer on the last layers: the total is the number of
    documents that occur in the last layer of every term, and the results
    are the best of them in descending order of score. *)
Theorem ProcessLayeredQuery_standard_intersection query_algorithm_
    (results : list QP.Result) :
  length results = kMaxNumResults ->
  QP.is_merge_daat query_algorithm_ && (2 <? length query_term_data)%nat = false ->
  let r := QP.ProcessLayeredQuery alg log10 GetDocLen collection_average_doc_len_
             collection_total_num_docs_ index_overlapping_layers_ MAX_LIST_LAYERS
             query_algorithm_ query_term_data results kMaxNumResults in
  QP.outcome r <> QP.EarlyTerminated ->
  QP.run_standard_intersection r = true /\
  QP.total_num_results r = total /\
  QP.num_results r = Nat.min total kMaxNumResults /\
  exists ls, Permutation ls last_layers /\ best_of ls (QP.results r).
Proof.
  intros Hres Hmerge. unfold QP.ProcessLayeredQuery. cbv zeta.
  destruct (QP.single_layer_list_idx 0 query_term_data =? -1).
  - rewrite Hmerge.
    destruct (per_term_first_layers_static alg log10 GetDocLen collection_average_doc_len_
                collection_total_num_docs_ MAX_LIST_LAYERS (length query_term_data)
                kMaxNumResults results st0) as [H1 H2].
    destruct (QP.per_term_first_layers _ _ _ _ _ _ _ _ _ _) as [[[t n] results1] st1].
    cbn [fst snd] in H1, H2. rewrite Hres in H2.
    destruct (kMaxNumResults <=? n)%nat; [destruct (SFltb _ _)|].
    + intros Ho. exfalso. apply Ho. done.
    + intros _. by apply (finish_layered_spec QP.ThresholdNotMet t n st1 results1).
    + intros _. by apply (finish_layered_spec QP.NotEnoughResults t n st1 results1).
  - intros _. by apply (finish_layered_spec QP.SingleLayeredTerm).
Qed.

End StandardIntersection.

Lemma ProcessLayeredQuery_standard_intersection_witness :
  QP.total_num_results
    (QP.ProcessLayeredQuery Stl.reference Toy.log10 Toy.GetDocLen 2 2 false 8
       QP.kDualLayeredOverlappingDaat [Toy.alpha; Toy.beta] (replicate 10 QP.no_result) 10)
  = 1%nat.
Proof.
  refine (proj1 (proj2 (ProcessLayeredQuery_standard_intersection Stl.reference Toy.log10
    Toy.GetDocLen 2 2 false 8 reference_conforming [Toy.alpha; Toy.beta] 10
    ltac:(discriminate) ltac:(lia) _ _ _ QP.kDualLayeredOverlappingDaat
    (replicate 10 QP.no_result) ltac:(reflexivity) ltac:(reflexivity) _))).
  - apply Forall_cons; split; [by vm_compute|]. apply Forall_cons; split; [by vm_compute|].
    constructor.
  - repeat constructor; unfold u32_max; cbn; lia.
  - intros ls d Hp Hd. change (d ∈ [1]) in Hd. apply list_elem_of_singleton in Hd. subst d.
    symmetry in Hp. apply Permutation_length_2_inv in Hp as [-> | ->]; vm_compute; reflexivity.
  - vm_compute. discriminate.
Defined.

(** ** [MergeLists]: the best documents of the disjunction *)

Lemma lowest_from_spec (A : list (Z * nat)) : forall (ps : list (Z * nat)) (i top : nat),
  drop i A = ps -> (top < i)%nat -> (i <= length A)%nat ->
  (forall j : nat, (j < top)%nat -> fst (nth top A (0, 0%nat)) < fst (nth j A (0, 0%nat))) ->
  (forall j : nat, (top <= j < i)%nat ->
     fst (nth top A (0, 0%nat)) <= fst (nth j A (0, 0%nat))) ->
  let r := QP.lowest_from ps i top (fst (nth top A (0, 0%nat))) in
  (r < length A)%nat /\
  (forall j : nat, (j < r)%nat -> fst (nth r A (0, 0%nat)) < fst (nth j A (0, 0%nat))) /\
  (forall j : nat, (r <= j < length A)%nat ->
     fst (nth r A (0, 0%nat)) <= fst (nth j A (0, 0%nat))).
Proof.
  induction ps as [|p ps IH]; intros i top Hd Ht Hi Hlow Hge; cbn [QP.lowest_from].
  { assert (length A <= i)%nat.
    { apply (f_equal length) in Hd. rewrite length_drop in Hd. simpl in Hd. lia. }
    cbv zeta. split; [lia|]. split; [done|]. intros j Hj. apply Hge. lia. }
  assert (Hlt : (i < length A)%nat).
  { apply (f_equal length) in Hd. rewrite length_drop in Hd. simpl in Hd. lia. }
  assert (Hp : nth i A (0, 0%nat) = p).
  { destruct (lookup_lt_is_Some_2 A i Hlt) as [q Hq]. rewrite (drop_S _ _ _ Hq) in Hd.
    injection Hd as -> _. by apply nth_lookup_Some. }
  assert (Hd' : drop (S i) A = ps).
  { destruct (lookup_lt_is_Some_2 A i Hlt) as [q Hq]. rewrite (drop_S _ _ _ Hq) in Hd.
    by injection Hd. }
  destruct (fst p <? fst (nth top A (0, 0%nat))) eqn:E.
  - apply Z.ltb_lt in E. rewrite <- Hp. rewrite <- Hp in E.
    apply (IH (S i) i Hd'); [lia|lia| |].
    + intros j Hj. destruct (decide (j < top)%nat) as [Hjt|Hjt].
      * specialize (Hlow j Hjt). lia.
      * specialize (Hge j ltac:(lia)). lia.
    + intros j Hj. assert (j = i) as -> by lia. lia.
  - apply Z.ltb_ge in E. apply (IH (S i) top Hd'); [lia|lia|done|].
    intros j Hj. destruct (decide (j = i)) as [->|Hne]; [by rewrite Hp|].
    apply Hge. lia.
Qed.

Lemma lowest_spec (arr : list (Z * nat)) (n : nat) :
  (0 < n <= length arr)%nat ->
  let A := take n arr in
  let r := QP.lowest arr n in
  (r < n)%nat /\
  (forall j : nat, (j < r)%nat -> fst (nth r A (0, 0%nat)) < fst (nth j A (0, 0%nat))) /\
  (forall j : nat, (r <= j < n)%nat ->
     fst (nth r A (0, 0%nat)) <= fst (nth j A (0, 0%nat))).
Proof.
  intros Hn A r. unfold r, QP.lowest. fold A.
  assert (HlA : length A = n) by (unfold A; rewrite length_take; lia).
  destruct A as [|p ps] eqn:HA; [simpl in HlA; lia|]. rewrite <- HA in *.
  assert (Hp : fst p = fst (nth 0 A (0, 0%nat))) by (by rewrite HA).
  rewrite Hp. rewrite <- HlA.
  apply (lowest_from_spec A ps 1 0); [by rewrite HA|lia|lia| |].
  - intros j Hj. lia.
  - intros j Hj. assert (j = 0%nat) as -> by lia. lia.
Qed.

Lemma take_swap_remove {A : Type} (d y : A) (arr : list A) (n t : nat) :
  (t < n <= length arr)%nat ->
  let arr1 := <[t := y]> arr in
  let arr2 := <[t := nth (n - 1) arr1 d]> arr1 in
  length arr2 = length arr /\
  take t arr2 = take t arr /\
  exists post', Permutation post' (drop (S t) (take n arr)) /\
                take (n - 1) arr2 = take t arr ++ post'.
Proof.
  intros Hn arr1 arr2. unfold arr2, arr1. rewrite !length_insert. split; [done|].
  split; [by rewrite !take_insert_ge by lia|].
  destruct (decide (t = n - 1)%nat) as [->|Hne].
  - exists []. split.
    + rewrite drop_ge; [done|]. rewrite length_take. lia.
    + rewrite !take_insert_ge by lia. by rewrite app_nil_r.
  - rewrite list_insert_insert_eq.
    assert (Hnth : nth (n - 1) (<[t := y]> arr) d = nth (n - 1) arr d).
    { destruct (lookup_lt_is_Some_2 arr (n - 1) ltac:(lia)) as [z Hz].
      rewrite (nth_lookup_Some _ _ _ _ Hz). apply nth_lookup_Some.
      rewrite list_lookup_insert_ne by lia. done. }
    rewrite Hnth.
    destruct (lookup_lt_is_Some_2 arr (n - 1) ltac:(lia)) as [z Hz].
    rewrite (nth_lookup_Some _ _ _ _ Hz).
    destruct (lookup_lt_is_Some_2 arr t ltac:(lia)) as [x Hx].
    exists (z :: drop (S t) (take (n - 1) arr)). split.
    + replace n with (S (n - 1)) at 2 by lia. rewrite (take_S_r _ _ _ Hz).
      rewrite drop_app_le by (rewrite length_take; lia).
      by rewrite Permutation_cons_append.
    + rewrite take_insert_lt by lia.
      rewrite <- (take_drop t (take (n - 1) arr)) at 1.
      rewrite take_take. replace (t `min` (n - 1))%nat with t by lia.
      assert (Hx' : take (n - 1) arr !! t = Some x).
      { rewrite lookup_take_lt by lia. done. }
      rewrite (drop_S _ _ _ Hx').
      rewrite insert_app_r_alt by (rewrite length_take; lia).
      rewrite length_take. replace (t - t `min` length arr)%nat with 0%nat by lia. done.
Qed.

Lemma stands_on_follows l0 l d :
  StronglySorted Z.lt (Conjunction.docs l0) ->
  ListData.postings l = ListData.postings l0 ->
  ListData.num_docs_complete_list l = ListData.num_docs_complete_list l0 ->
  Conjunction.stands_on l d -> Conjunction.follows l0 l d.
Proof.
  intros Hs Hp Hn (f & rest & Hrem). split; [done|]. split; [done|].
  unfold Conjunction.remaining in Hrem. unfold Conjunction.docs in Hs.
  rewrite <- Hp, <- (take_drop (ListData.position l) (ListData.postings l)), Hrem in Hs.
  rewrite map_app in Hs. cbn [map fst] in Hs.
  set (pre := take (ListData.position l) (ListData.postings l)) in *.
  clearbody pre. clear -Hs. induction pre as [|x pre IH]; [constructor|].
  cbn [map app] in Hs. apply StronglySorted_inv in Hs as [Hs Hx]. constructor; [|by apply IH].
  rewrite Forall_forall in Hx. apply Hx. apply elem_of_app. right. left.
Qed.

Lemma sum_postings_le (lists : list nat) : forall (st : QP.store) (ls : list ListData.t),
  NoDup lists -> Forall2 (fun p l => st !! p = Some l) lists ls ->
  (length (concat (map Conjunction.docs ls)) <= QP.total_postings st)%nat.
Proof.
  induction lists as [|p lists IH]; intros st ls Hnd HF.
  { apply Forall2_nil_inv_l in HF as ->. cbn. lia. }
  apply Forall2_cons_inv_l in HF as (l & ls' & Hl & HF & ->).
  apply NoDup_cons in Hnd as [Hp Hnd].
  set (empty := {| ListData.layer_num := 0; ListData.num_docs := 0;
                   ListData.num_docs_complete_list := 0;
                   ListData.score_threshold := F32.zero; ListData.term_num := 0;
                   ListData.postings := []; ListData.position := 0 |}).
  assert (Hsplit : forall (st : QP.store) (p : nat) l, st !! p = Some l ->
            QP.total_postings st
            = (length (ListData.postings l) + QP.total_postings (<[p := empty]> st))%nat).
  { assert (Hcons : forall x (st : QP.store), QP.total_postings (x :: st)
              = (length (ListData.postings x) + QP.total_postings st)%nat) by done.
    clear -Hcons. induction st as [|x st IH]; intros p l Hl; [done|].
    destruct p as [|p]; cbn in Hl.
    - injection Hl as ->. change (<[0%nat := empty]> (l :: st)) with (empty :: st).
      rewrite !Hcons. cbn [ListData.postings empty length]. lia.
    - change (<[S p := empty]> (x :: st)) with (x :: <[p := empty]> st).
      rewrite !Hcons. rewrite (IH p l Hl). apply Nat.add_shuffle3. }
  rewrite (Hsplit st p l Hl). cbn [map concat]. rewrite length_app.
  assert (Hd : length (Conjunction.docs l) = length (ListData.postings l)).
  { unfold Conjunction.docs. apply length_map. }
  specialize (IH (<[p := empty]> st) ls' Hnd). rewrite Hd.
  apply Nat.add_le_mono_l. apply IH.
  apply Forall2_same_length_lookup_2; [by eapply Forall2_length|].
  intros i q l' Hq Hl'. rewrite <- (Forall2_lookup_lr _ _ _ _ _ _ HF Hq Hl').
  apply list_lookup_insert_ne. intros <-. apply Hp. by eapply list_elem_of_lookup_2.
Qed.

Lemma NoDup_snd_remove {A B : Type} (pre post post' : list (A * B)) (e : A * B) :
  NoDup (map snd (pre ++ e :: post)) -> Permutation post' post ->
  NoDup (map snd (pre ++ post')) /\
  (forall x, x ∈ pre ++ post' -> snd x <> snd e).
Proof.
  intros Hnd Hp. rewrite map_app in Hnd. cbn [map] in Hnd.
  apply NoDup_app in Hnd as (H1 & H2 & H3). apply NoDup_cons in H3 as [H3 H4].
  split.
  - rewrite map_app, Hp. apply NoDup_app. split; [done|]. split; [|done].
    intros x Hx Hx'. apply (H2 x Hx). by right.
  - intros x Hx Heq. apply elem_of_app in Hx as [Hx|Hx].
    + apply (H2 (snd x)); [apply list_elem_of_fmap; by exists x|]. rewrite Heq. left.
    + apply H3. rewrite <- Heq. apply list_elem_of_fmap. exists x. split; [done|].
      by rewrite <- Hp.
Qed.

Lemma filter_perm {A : Type} (f : A -> bool) (l l' : list A) :
  Permutation l l' -> Permutation (List.filter f l) (List.filter f l').
Proof.
  induction 1 as [|x l l' _ IH|x y l|l l' l'' _ IH1 _ IH2]; cbn [List.filter].
  - done.
  - destruct (f x); [by constructor|done].
  - destruct (f x), (f y); try done. apply perm_swap.
  - by etransitivity.
Qed.

Lemma NoDup_list_filter {A : Type} (f : A -> bool) (l : list A) :
  NoDup l -> NoDup (List.filter f l).
Proof.
  induction 1 as [|x l Hx Hl IH]; cbn [List.filter]; [constructor|].
  destruct (f x); [|done]. constructor; [|done].
  intros Hin. apply Hx. apply list_elem_of_In, filter_In in Hin as [Hin _].
  by apply list_elem_of_In.
Qed.

Lemma list_filter_sublist {A : Type} (f : A -> bool) (l : list A) :
  sublist (List.filter f l) l.
Proof.
  induction l as [|x l IH]; cbn [List.filter]; [constructor|].
  destruct (f x); [by apply sublist_skip|by apply sublist_cons].
Qed.

Lemma sorted_snoc (l : list Z) (x : Z) :
  StronglySorted Z.lt l -> Forall (fun y => y < x) l -> StronglySorted Z.lt (l ++ [x]).
Proof.
  induction 1 as [|a l Hs IH Ha]; intros Hx; cbn [app].
  { constructor; constructor. }
  apply Forall_cons in Hx as [Hax Hx]. constructor; [by apply IH|].
  apply Forall_app. split; [done|]. by constructor.
Qed.

Section MergeListsFacts.

Context (alg : Stl.algorithms) (log10 : spec_float -> spec_float) (GetDocLen : Z -> Z)
  (collection_average_doc_len_ collection_total_num_docs_ : Z).
Hypothesis Halg : Stl.conforming alg.

Context (lists : list nat) (ls : list ListData.t) (st0 : QP.store).
Hypothesis Hlen : length lists = length ls.
Hypothesis Hnd : NoDup lists.
Hypothesis Hsorted : Forall (fun l0 => StronglySorted Z.lt (Conjunction.docs l0)) ls.
Hypothesis Hrange : Forall (fun l0 => Forall (fun d => 0 <= d < u32_max) (Conjunction.docs l0)) ls.
Hypothesis Hst0 : forall (i : nat) p l0,
  lists !! i = Some p -> ls !! i = Some l0 -> st0 !! p = Some l0.

Local Abbreviation idf_t := (QP.idf_of_lists log10 collection_total_num_docs_ st0 lists).
Local Abbreviation dflt := (0, 0%nat).
Local Abbreviation score :=
  (Disjunction.score log10 GetDocLen collection_average_doc_len_ collection_total_num_docs_ ls).

(** An entry of [lists_curr_postings]: the list [snd e] stands on the
    docID [fst e], and has passed only docIDs below [B]. *)
Local Abbreviation entry_ok := (fun (st : QP.store) (B : Z) (e : Z * nat) =>
  exists p l0 l, lists !! snd e = Some p /\ ls !! snd e = Some l0 /\ st !! p = Some l /\
    Conjunction.follows l0 l B /\ Conjunction.stands_on l (fst e)).
(** The list [i] has no docID from [B] on. *)
Local Abbreviation gone := (fun (B : Z) (i : nat) =>
  forall l0, ls !! i = Some l0 -> Forall (fun x => x < B) (Conjunction.docs l0)).

Lemma sorted_of (i : nat) l0 : ls !! i = Some l0 -> StronglySorted Z.lt (Conjunction.docs l0).
Proof.
  intros H. rewrite Forall_forall in Hsorted. apply Hsorted. by eapply list_elem_of_lookup_2.
Qed.

Lemma range_of (i : nat) l0 x :
  ls !! i = Some l0 -> x ∈ Conjunction.docs l0 -> 0 <= x < u32_max.
Proof.
  intros H Hx. rewrite Forall_forall in Hrange.
  specialize (Hrange l0 ltac:(by eapply list_elem_of_lookup_2)).
  rewrite Forall_forall in Hrange. by apply Hrange.
Qed.

Lemma idf_nth (i : nat) p l0 :
  lists !! i = Some p -> ls !! i = Some l0 ->
  nth i idf_t F32.zero
  = QP.idf log10 collection_total_num_docs_ (ListData.num_docs_complete_list l0).
Proof.
  intros Hp Hl0. apply nth_lookup_Some. unfold QP.idf_of_lists.
  rewrite list_lookup_fmap, Hp. cbn. by rewrite (Hst0 i p l0 Hp Hl0).
Qed.

Lemma entry_ok_other (st : QP.store) B e (i : nat) p l' :
  lists !! i = Some p -> snd e <> i ->
  entry_ok st B e -> entry_ok (<[p := l']> st) B e.
Proof.
  intros Hp Hne (q & l0 & l & Hq & Hl0 & Hl & Hf & Hs).
  exists q, l0, l. split; [done|]. split; [done|]. split; [|done].
  rewrite <- Hl. apply list_lookup_insert_ne. intros <-.
  apply Hne. by apply (NoDup_lookup lists (snd e) i p).
Qed.

Lemma entry_ok_mono (st : QP.store) B B' e :
  B <= B' -> entry_ok st B e -> entry_ok st B' e.
Proof.
  intros Hle (q & l0 & l & Hq & Hl0 & Hl & Hf & Hs).
  exists q, l0, l. repeat (split; [done|]). split; [|done]. by eapply follows_mono.
Qed.

Lemma entry_ok_doc (st : QP.store) B e :
  entry_ok st B e ->
  exists l0, ls !! snd e = Some l0 /\ fst e ∈ Conjunction.docs l0 /\ 0 <= fst e < u32_max.
Proof.
  intros (q & l0 & l & Hq & Hl0 & Hl & (Hps & Hn & Hpre) & Hs).
  exists l0. split; [done|].
  pose proof (stands_on_follows l0 l (fst e) (sorted_of _ _ Hl0) Hps Hn Hs) as Hf.
  destruct (stands_on_frequency l0 l (fst e) Hf Hs) as [_ Hin].
  split; [done|]. by eapply range_of.
Qed.

(** An entry that passed only docIDs below [B] and stands on a docID
    above [d >= B] belongs to a list without [d]. *)
Lemma entry_ok_absent (st : QP.store) B e d :
  entry_ok st B e -> B <= d < fst e ->
  forall l0, ls !! snd e = Some l0 -> d ∉ Conjunction.docs l0.
Proof.
  intros (q & l0 & l & Hq & Hl0 & Hl & (Hps & Hn & Hpre) & (f & rest & Hrem)) Hd l0' Hl0'.
  rewrite Hl0 in Hl0'. injection Hl0' as <-.
  pose proof (sorted_of _ _ Hl0) as Hs. unfold Conjunction.docs in *.
  unfold Conjunction.remaining in Hrem.
  rewrite <- Hps, <- (take_drop (ListData.position l) (ListData.postings l)), Hrem in Hs |- *.
  rewrite map_app in Hs |- *. cbn [map fst] in Hs |- *.
  intros Hin. apply elem_of_app in Hin as [Hin|Hin].
  - apply list_elem_of_fmap in Hin as (x & -> & Hx).
    rewrite Forall_forall in Hpre. specialize (Hpre x Hx). lia.
  - apply elem_of_cons in Hin as [->|Hin]; [lia|].
    apply StronglySorted_app_cons in Hs. rewrite Forall_forall in Hs.
    specialize (Hs d Hin). lia.
Qed.

Lemma score_snoc scored (i : nat) l0 d :
  ls !! i = Some l0 ->
  score (scored ++ [i]) d
  = F32.add (score scored d)
      (QP.bm25 collection_average_doc_len_
         (QP.idf log10 collection_total_num_docs_ (ListData.num_docs_complete_list l0))
         (Conjunction.frequency l0 d) (GetDocLen d)).
Proof. intros Hl0. unfold Disjunction.score. rewrite fold_left_app. cbn. by rewrite Hl0. Qed.


Lemma nth_take_lookup (arr : list (Z * nat)) (n j : nat) e :
  take n arr !! j = Some e -> (j < n)%nat /\ nth j arr dflt = e.
Proof.
  intros H. assert (Hj : (j < n)%nat).
  { apply lookup_lt_Some in H. rewrite length_take in H. lia. }
  split; [done|]. rewrite lookup_take_lt in H by done. by apply nth_lookup_Some.
Qed.

Section Inner.

Context (curr : Z) (H : list nat).
Hypothesis Hcurr : 0 <= curr < u32_max.

Lemma score_complete_doc_exit (st : QP.store) (arr : list (Z * nat)) (n : nat) scored :
  (n <= length arr)%nat ->
  Forall (entry_ok st (curr + 1)) (take n arr) ->
  (forall j : nat, (j < n)%nat -> curr < fst (nth j arr dflt)) ->
  Permutation (scored ++ map snd (List.filter (fun e => fst e =? curr)
                                    (drop n (take n arr)))) H ->
  Permutation scored H /\
  Forall (fun e => curr + 1 <= fst e) (take n arr).
Proof.
  intros Hn Hok Hlow Hperm. split.
  - rewrite drop_ge in Hperm by (rewrite length_take; lia). cbn in Hperm.
    by rewrite app_nil_r in Hperm.
  - apply Forall_lookup. intros j e He. apply nth_take_lookup in He as [Hj <-].
    specialize (Hlow j Hj). lia.
Qed.

Lemma score_complete_doc_spec : forall (fuel : nat) (st : QP.store) (arr : list (Z * nat))
    (n t : nat) scored,
  (n - t <= fuel)%nat -> (t <= n <= length arr)%nat ->
  Forall (entry_ok st (curr + 1)) (take n arr) ->
  Forall (fun e => curr <= fst e) (take n arr) ->
  NoDup (map snd (take n arr)) ->
  (forall i : nat, (i < length ls)%nat -> i ∉ map snd (take n arr) -> gone (curr + 1) i) ->
  (forall j : nat, (j < t)%nat -> curr < fst (nth j arr dflt)) ->
  Permutation (scored ++ map snd (List.filter (fun e => fst e =? curr)
                                    (drop t (take n arr)))) H ->
  exists scored' arr' (n' : nat) (st' : QP.store),
    QP.score_complete_doc GetDocLen collection_average_doc_len_ fuel st lists idf_t
      arr n t curr (score scored curr)
    = (score scored' curr, arr', n', st') /\
    Permutation scored' H /\ (n' <= length arr')%nat /\ length arr' = length arr /\
    Forall (entry_ok st' (curr + 1)) (take n' arr') /\
    Forall (fun e => curr + 1 <= fst e) (take n' arr') /\
    NoDup (map snd (take n' arr')) /\
    (forall i : nat, (i < length ls)%nat -> i ∉ map snd (take n' arr') -> gone (curr + 1) i).
Proof.
  induction fuel as [|fuel IH]; intros st arr n t scored Hfuel Htn Hok Hge Hnodup Hgone Hlow Hperm.
  { assert (t = n) as -> by lia. cbn [QP.score_complete_doc].
    destruct (score_complete_doc_exit st arr n scored ltac:(lia) Hok Hlow Hperm) as [H1 H2].
    exists scored, arr, n, st. repeat (split; [done || lia|]). done. }
  cbn [QP.score_complete_doc]. destruct (t =? n)%nat eqn:Etn.
  { apply Nat.eqb_eq in Etn. subst t.
    destruct (score_complete_doc_exit st arr n scored ltac:(lia) Hok Hlow Hperm) as [H1 H2].
    exists scored, arr, n, st. repeat (split; [done || lia|]). done. }
  apply Nat.eqb_neq in Etn. assert (Ht : (t < n)%nat) by lia.
  set (A := take n arr) in *.
  assert (HlA : length A = n) by (unfold A; rewrite length_take; lia).
  destruct (lookup_lt_is_Some_2 A t ltac:(lia)) as [[d i] He].
  pose proof (proj2 (nth_take_lookup arr n t (d, i) He)) as Hnth. rewrite Hnth.
  pose proof (take_drop_middle A t (d, i) He) as HA.
  set (pre := take t A) in *. set (post := drop (S t) A) in *.
  assert (Hlpre : length pre = t) by (unfold pre; rewrite length_take; lia).
  assert (Hpre_arr : pre = take t arr).
  { unfold pre, A. rewrite take_take. f_equal. lia. }
  assert (Hdrop : drop t A = (d, i) :: post) by (by apply drop_S).
  rewrite Hdrop in Hperm. cbn [List.filter fst] in Hperm.
  pose proof (proj1 (Forall_lookup _ _) Hok t (d, i) He) as (p & l0 & l & Hp & Hl0 & Hl & Hf & Hs).
  pose proof (proj1 (Forall_lookup _ _) Hge t (d, i) He) as Hd. cbn [fst snd] in *.
  destruct (d =? curr) eqn:Ed.
  - apply Z.eqb_eq in Ed. subst d. cbn [map snd] in Hperm. cbv zeta.
    rewrite (nth_lookup_Some _ _ _ _ Hp).
    rewrite (idf_nth i p l0 Hp Hl0).
    assert (Hfreq : QP.GetFreq st p = Conjunction.frequency l0 curr).
    { unfold QP.GetFreq. rewrite Hl.
      destruct Hf as (Hps & Hncl & _).
      pose proof (stands_on_follows l0 l curr (sorted_of _ _ Hl0) Hps Hncl Hs) as Hf'.
      by destruct (stands_on_frequency l0 l curr Hf' Hs). }
    rewrite Hfreq, <- (score_snoc scored i l0 curr Hl0).
    unfold wrap32. rewrite Z.mod_small by (unfold u32_max in Hcurr; lia).
    unfold QP.NextGEQ. rewrite Hl.
    destruct (ListData.NextGEQ l (curr + 1)) as [next l'] eqn:HN.
    destruct (NextGEQ_follows l0 l (curr + 1) next l' (sorted_of _ _ Hl0)
                ltac:(apply Forall_forall; intros x Hx; by eapply range_of) Hf HN)
      as (Hf' & Hcase).
    assert (Hlt : (p < length st)%nat) by (by eapply lookup_lt_Some).
    set (st' := <[p := l']> st).
    assert (Hl' : st' !! p = Some l') by (by apply list_lookup_insert_eq).
    assert (Hothers : forall x, x ∈ pre ++ post -> entry_ok st' (curr + 1) x /\ curr <= fst x
                                                   /\ snd x <> i).
    { intros x Hx.
      destruct (NoDup_snd_remove pre post post (curr, i) ltac:(by rewrite HA) ltac:(done))
        as [_ Hsnd].
      specialize (Hsnd x Hx). cbn [snd] in Hsnd.
      assert (Hin : x ∈ A).
      { rewrite <- HA. apply elem_of_app in Hx as [Hx|Hx]; apply elem_of_app; [by left|].
        right. by right. }
      rewrite Forall_forall in Hok, Hge. split; [|split; [by apply Hge|done]].
      apply (entry_ok_other st (curr + 1) x i p l' Hp Hsnd). by apply Hok. }
    destruct Hcase as [[-> Hall]|(Hnext & Hs' & _)].
    + rewrite Z.eqb_refl.
      destruct (take_swap_remove dflt (u32_max, i) arr n t ltac:(lia))
        as (Hl2 & Ht2 & post' & Hpost' & Htake2).
      fold A post in Hpost'. rewrite <- Hpre_arr in Htake2.
      set (arr2 := <[t := nth (n - 1) (<[t := (u32_max, i)]> arr) dflt]>
                     (<[t := (u32_max, i)]> arr)) in *.
      assert (HA' : Permutation (pre ++ post') (pre ++ post)) by (by rewrite Hpost').
      destruct (NoDup_snd_remove pre post post' (curr, i) ltac:(by rewrite HA) Hpost')
        as [Hnodup' _].
      destruct (IH st' arr2 (n - 1)%nat t (scored ++ [i])) as
        (scored' & arr' & n' & st'' & Heq & Hsc & Hn' & Hlen' & Hok' & Hge' & Hnd' & Hgone');
        [lia|lia| | | | | | |].
      * rewrite Htake2. apply Forall_forall. intros x Hx. rewrite HA' in Hx.
        by destruct (Hothers x Hx).
      * rewrite Htake2. apply Forall_forall. intros x Hx. rewrite HA' in Hx.
        by destruct (Hothers x Hx) as (_ & ? & _).
      * by rewrite Htake2.
      * intros i' Hi' Hnot. destruct (decide (i' = i)) as [->|Hne].
        { intros l0' Hl0'. rewrite Hl0 in Hl0'. by injection Hl0' as <-. }
        apply Hgone; [done|]. intros Hin. apply Hnot. rewrite Htake2, HA'.
        fold A in Hin. rewrite <- HA in Hin. rewrite map_app in Hin |- *. cbn [map] in Hin.
        apply elem_of_app in Hin as [Hin|Hin]; apply elem_of_app; [by left|].
        apply elem_of_cons in Hin as [->|Hin]; [done|by right].
      * intros j Hj. assert (Hj' : nth j arr2 dflt = nth j arr dflt).
        { destruct (lookup_lt_is_Some_2 arr j ltac:(lia)) as [z Hz].
          rewrite (nth_lookup_Some _ _ _ _ Hz). apply nth_lookup_Some.
          assert (Hz' : take t arr2 !! j = Some z).
          { rewrite Ht2. rewrite lookup_take_lt by done. done. }
          rewrite lookup_take_lt in Hz' by done. done. }
        rewrite Hj'. by apply Hlow.
      * rewrite Htake2, drop_app_length' by done. rewrite <- Hperm.
        rewrite <- app_assoc. cbn [app]. apply Permutation_app_head. constructor.
        apply Permutation_map, filter_perm. done.
      * exists scored', arr', n', st''. split; [exact Heq|]. split; [done|]. split; [done|].
        split; [by rewrite Hlen'|]. done.
    + assert (E : (next =? u32_max) = false) by (apply Z.eqb_neq; lia). rewrite E.
      set (arr1 := <[t := (next, i)]> arr).
      assert (HA1 : take n arr1 = pre ++ (next, i) :: post).
      { unfold arr1. rewrite take_insert_lt by done. fold A. rewrite <- HA at 1.
        rewrite insert_app_r_alt by lia. rewrite Hlpre, Nat.sub_diag. done. }
      destruct (IH st' arr1 n (S t) (scored ++ [i])) as
        (scored' & arr' & n' & st'' & Heq & Hsc & Hn' & Hlen' & Hok' & Hge' & Hnd' & Hgone');
        [lia|unfold arr1; rewrite length_insert; lia| | | | | | |].
      * rewrite HA1. apply Forall_forall. intros x Hx.
        apply elem_of_app in Hx as [Hx|Hx].
        { apply Hothers. apply elem_of_app. by left. }
        apply elem_of_cons in Hx as [->|Hx].
        { exists p, l0, l'. done. }
        apply Hothers. apply elem_of_app. by right.
      * rewrite HA1. apply Forall_forall. intros x Hx.
        apply elem_of_app in Hx as [Hx|Hx].
        { apply Hothers. apply elem_of_app. by left. }
        apply elem_of_cons in Hx as [->|Hx]; [cbn; lia|].
        apply Hothers. apply elem_of_app. by right.
      * rewrite HA1. rewrite <- HA in Hnodup. by rewrite map_app in Hnodup |- *.
      * intros i' Hi' Hnot. apply Hgone; [done|]. intros Hin. apply Hnot.
        rewrite HA1. fold A in Hin. rewrite <- HA in Hin. by rewrite map_app in Hin |- *.
      * intros j Hj. destruct (decide (j = t)) as [->|Hne].
        { assert (Hz : arr1 !! t = Some (next, i)).
          { unfold arr1. apply list_lookup_insert_eq. lia. }
          rewrite (nth_lookup_Some _ _ _ _ Hz). cbn. lia. }
        assert (Hj' : nth j arr1 dflt = nth j arr dflt).
        { destruct (lookup_lt_is_Some_2 arr j ltac:(lia)) as [z Hz].
          rewrite (nth_lookup_Some _ _ _ _ Hz). apply nth_lookup_Some.
          unfold arr1. rewrite list_lookup_insert_ne by done. done. }
        rewrite Hj'. apply Hlow. lia.
      * rewrite HA1.
        replace (drop (S t) (pre ++ (next, i) :: post)) with post.
        2:{ rewrite drop_app_ge by lia. rewrite Hlpre.
            replace (S t - t)%nat with 1%nat by lia. done. }
        rewrite <- Hperm. rewrite <- app_assoc. done.
      * exists scored', arr', n', st''. split; [exact Heq|]. split; [done|]. split; [done|].
        split; [|done]. rewrite Hlen'. unfold arr1. by rewrite length_insert.
  - apply Z.eqb_neq in Ed.
    destruct (IH st arr n (S t) scored) as
      (scored' & arr' & n' & st'' & Heq & Hrest); [lia|lia|done|done|done|done| | |].
    + intros j Hj. destruct (decide (j = t)) as [->|Hne]; [rewrite Hnth; cbn; lia|].
      apply Hlow. lia.
    + fold A. fold post. done.
    + exists scored', arr', n', st''. split; [exact Heq|done].
Qed.

End Inner.


Context (num_results : nat).
Hypothesis Hk : (0 < num_results)%nat.

Local Abbreviation in_some_list := (fun d : Z =>
  exists (i : nat) l0, ls !! i = Some l0 /\ d ∈ Conjunction.docs l0).
Local Abbreviation result_ok := (fun r : QP.Result =>
  in_some_list (snd r) /\
  exists order, Permutation order (Disjunction.holders ls (snd r)) /\
                fst r = score order (snd r)).
Local Abbreviation kept :=
  (TopK.kept (fun r : QP.Result => TopK.not_nan (fst r)) QP.ResultCompare num_results).

Hypothesis Hnan : forall d order, in_some_list d ->
  Permutation order (Disjunction.holders ls d) -> TopK.not_nan (score order d).

Lemma elem_of_holders (i : nat) d :
  i ∈ Disjunction.holders ls d <-> exists l0, ls !! i = Some l0 /\ d ∈ Conjunction.docs l0.
Proof.
  unfold Disjunction.holders. rewrite list_elem_of_In, filter_In, <- list_elem_of_In.
  rewrite elem_of_seq. split.
  - intros [Hi Hc]. destruct (ls !! i) as [l0|]; [|done]. exists l0. split; [done|].
    unfold Conjunction.contains in Hc. apply existsb_exists in Hc as (y & Hy & E).
    apply Z.eqb_eq in E. subst y. by apply list_elem_of_In.
  - intros (l0 & Hl0 & Hd). split; [apply lookup_lt_Some in Hl0; lia|]. rewrite Hl0.
    unfold Conjunction.contains. apply existsb_exists. exists d.
    split; [by apply list_elem_of_In|apply Z.eqb_refl].
Qed.

Lemma pending_holders (st : QP.store) (arr : list (Z * nat)) (n r : nat) B :
  let A := take n arr in
  let curr := fst (nth r arr dflt) in
  (r < n <= length arr)%nat ->
  Forall (entry_ok st B) A -> Forall (fun e => B <= fst e) A ->
  NoDup (map snd A) ->
  (forall i : nat, (i < length ls)%nat -> i ∉ map snd A -> gone B i) ->
  (forall j : nat, (j < r)%nat -> curr < fst (nth j A dflt)) ->
  (forall j : nat, (r <= j < n)%nat -> curr <= fst (nth j A dflt)) ->
  Permutation (map snd (List.filter (fun e => fst e =? curr) (drop r A)))
              (Disjunction.holders ls curr).
Proof.
  intros A curr Hr Hok Hge Hnodup Hgone Hlow Hmin.
  assert (HlA : length A = n) by (unfold A; rewrite length_take; lia).
  assert (Hcurr_ge : forall e, e ∈ A -> curr <= fst e).
  { intros e He. apply list_elem_of_lookup in He as [j Hj].
    assert (Hjn : (j < n)%nat) by (apply lookup_lt_Some in Hj; lia).
    rewrite <- (nth_lookup_Some _ _ dflt _ Hj).
    destruct (decide (j < r)%nat); [specialize (Hlow j ltac:(lia)); lia|apply Hmin; lia]. }
  assert (HB : B <= curr).
  { destruct (lookup_lt_is_Some_2 A r ltac:(lia)) as [e He].
    pose proof (proj1 (Forall_lookup _ _) Hge r e He) as H1.
    apply nth_take_lookup in He as [_ He]. unfold curr. by rewrite He. }
  apply NoDup_Permutation.
  - assert (Hsub : sublist (map snd (List.filter (fun e => fst e =? curr) (drop r A)))
                           (map snd A)).
    { apply fmap_sublist. etransitivity; [apply list_filter_sublist|apply sublist_drop]. }
    by eapply sublist_NoDup.
  - apply NoDup_list_filter, NoDup_seq.
  - intros i. rewrite elem_of_holders. split.
    + intros Hi. apply list_elem_of_fmap in Hi as (e & -> & He).
      apply list_elem_of_In, filter_In in He as [He Ee]. apply Z.eqb_eq in Ee.
      apply list_elem_of_In in He.
      assert (HeA : e ∈ A) by (eapply elem_of_sublist; [exact He|apply sublist_drop]).
      rewrite Forall_forall in Hok.
      destruct (entry_ok_doc st B e (Hok e HeA)) as (l0 & Hl0 & Hin & _).
      exists l0. by rewrite <- Ee.
    + intros (l0 & Hl0 & Hd).
      destruct (decide (i ∈ map snd A)) as [Hin|Hnot].
      2:{ specialize (Hgone i ltac:(by eapply lookup_lt_Some) Hnot l0 Hl0).
          rewrite Forall_forall in Hgone. specialize (Hgone curr Hd). lia. }
      apply list_elem_of_fmap in Hin as (e & -> & He).
      apply list_elem_of_fmap. exists e. split; [done|].
      specialize (Hcurr_ge e He).
      assert (Hfst : fst e = curr).
      { destruct (decide (fst e = curr)) as [|Hne]; [done|].
        rewrite Forall_forall in Hok.
        exfalso. apply (entry_ok_absent st B e curr (Hok e He) ltac:(lia) l0 Hl0 Hd). }
      apply list_elem_of_In, filter_In. split; [|by apply Z.eqb_eq].
      apply list_elem_of_In. apply list_elem_of_lookup in He as [j Hj].
      assert (Hjr : (r <= j)%nat).
      { destruct (decide (r <= j)%nat); [done|].
        specialize (Hlow j ltac:(lia)). rewrite (nth_lookup_Some _ _ _ _ Hj) in Hlow. lia. }
      apply list_elem_of_lookup. exists (j - r)%nat. rewrite lookup_drop.
      by replace (r + (j - r))%nat with j by lia.
Qed.

Lemma MergeLists_loop_spec : forall (fuel : nat) (st : QP.store) (arr : list (Z * nat))
    (n : nat) results (Sdone : list QP.Result) (B : Z),
  0 <= B <= u32_max -> (n <= length arr)%nat ->
  Forall (entry_ok st B) (take n arr) -> Forall (fun e => B <= fst e) (take n arr) ->
  NoDup (map snd (take n arr)) ->
  (forall i : nat, (i < length ls)%nat -> i ∉ map snd (take n arr) -> gone B i) ->
  StronglySorted Z.lt (map snd Sdone) -> Forall (fun r : QP.Result => snd r < B) Sdone ->
  (forall d, d < B -> in_some_list d -> d ∈ map snd Sdone) ->
  Forall result_ok Sdone ->
  kept results (length Sdone) Sdone ->
  (length (List.filter (fun x => (B <=? x)%Z) (concat (map Conjunction.docs ls))) < fuel)%nat ->
  exists (S : list QP.Result) results' (st' : QP.store),
    QP.MergeLists_loop alg GetDocLen collection_average_doc_len_ fuel st lists idf_t
      num_results arr n (length Sdone) results
    = (length S, results', st') /\
    StronglySorted Z.lt (map snd S) /\
    (forall d, in_some_list d -> d ∈ map snd S) /\
    Forall result_ok S /\
    kept results' (length S) S.
Proof.
  induction fuel as [|fuel IH];
    intros st arr n results Sdone B HB Hn Hok Hge Hnodup Hgone Hsorted_S HltB Hcomplete Hres
           Hkept Hfuel; [lia|].
  cbn [QP.MergeLists_loop]. destruct (n =? 0)%nat eqn:En.
  { apply Nat.eqb_eq in En. subst n. exists Sdone, results, st.
    split; [done|]. split; [done|]. split; [|done].
    intros d (i & l0 & Hl0 & Hd). apply Hcomplete; [|by exists i, l0].
    specialize (Hgone i ltac:(by eapply lookup_lt_Some) ltac:(rewrite take_0; apply not_elem_of_nil)
                  l0 Hl0).
    rewrite Forall_forall in Hgone. by apply Hgone. }
  apply Nat.eqb_neq in En. cbv zeta.
  destruct (lowest_spec arr n ltac:(lia)) as (Hr & Hlow & Hmin).
  set (r := QP.lowest arr n) in *. set (A := take n arr) in *.
  destruct (lookup_lt_is_Some_2 A r ltac:(unfold A; rewrite length_take; lia)) as [e He].
  pose proof (proj2 (nth_take_lookup arr n r e He)) as Hnth.
  assert (HnthA : nth r A dflt = e) by (by apply nth_lookup_Some).
  rewrite HnthA in Hlow, Hmin. rewrite Hnth.
  set (curr := fst e) in *.
  pose proof (proj1 (Forall_lookup _ _) Hok r e He) as Hoke.
  pose proof (proj1 (Forall_lookup _ _) Hge r e He) as HBc. cbn beta in HBc.
  destruct (entry_ok_doc st B e Hoke) as (l0e & Hl0e & Hine & Hrangee).
  fold curr in Hine, Hrangee, HBc.
  assert (Hin_curr : in_some_list curr) by (by exists (snd e), l0e).
  assert (Hlow_arr : forall j : nat, (j < r)%nat -> curr < fst (nth j arr dflt)).
  { intros j Hj. specialize (Hlow j Hj).
    destruct (lookup_lt_is_Some_2 A j ltac:(unfold A; rewrite length_take; lia)) as [z Hz].
    rewrite (nth_lookup_Some _ _ _ _ Hz) in Hlow.
    apply nth_take_lookup in Hz as [_ ->]. done. }
  pose proof (pending_holders st arr n r B ltac:(lia) Hok Hge Hnodup Hgone) as Hpend.
  cbv zeta in Hpend. rewrite Hnth in Hpend. fold A curr in Hpend.
  specialize (Hpend Hlow Hmin).
  destruct (score_complete_doc_spec curr (Disjunction.holders ls curr) Hrangee
              (length arr) st arr n r []) as
    (scored & arr' & n' & st' & Heq & Hsc & Hn' & Hlen' & Hok' & Hge' & Hnd' & Hgone');
    [lia|lia| | |done| |done|done|].
  { eapply Forall_impl; [exact Hok|]. intros x Hx.
    apply (entry_ok_mono st B (curr + 1)); [unfold curr in *; lia|done]. }
  { apply Forall_lookup. intros j x Hx.
    assert (Hjn : (j < n)%nat).
    { apply lookup_lt_Some in Hx. unfold A in Hx. rewrite length_take in Hx. lia. }
    rewrite <- (nth_lookup_Some A j dflt x Hx).
    destruct (decide (j < r)%nat) as [Hjr|Hjr].
    - specialize (Hlow j Hjr). lia.
    - apply Hmin; lia. }
  { intros i Hi Hnot l0 Hl0. specialize (Hgone i Hi Hnot l0 Hl0).
    eapply Forall_impl; [exact Hgone|]. intros x Hx. cbn beta in Hx. lia. }
  change (score [] curr) with F32.zero in Heq. rewrite Heq.
  set (new := (score scored curr, curr) : QP.Result).
  replace (S (length Sdone)) with (length (Sdone ++ [new])) by (rewrite length_app; cbn; lia).
  apply (IH st' arr' n' _ (Sdone ++ [new]) (curr + 1)).
  - lia.
  - done.
  - done.
  - done.
  - done.
  - done.
  - rewrite map_app. cbn [map]. apply sorted_snoc; [done|].
    apply Forall_fmap. eapply Forall_impl; [exact HltB|]. intros x Hx. cbn in *. lia.
  - apply Forall_app. split; [|constructor; [cbn; lia|constructor]].
    eapply Forall_impl; [exact HltB|]. intros x Hx. cbn beta in Hx. lia.
  - intros d Hd Hind. rewrite map_app. apply elem_of_app.
    destruct (decide (d < B)) as [HdB|HdB]; [left; by apply Hcomplete|].
    right. cbn. apply list_elem_of_singleton.
    destruct (decide (d = curr)) as [|Hne]; [done|]. exfalso.
    destruct Hind as (i & l0 & Hl0 & Hdl).
    destruct (decide (i ∈ map snd A)) as [Hin|Hnot].
    + apply list_elem_of_fmap in Hin as (x & -> & Hx).
      assert (Hcx : curr <= fst x).
      { apply list_elem_of_lookup in Hx as [j Hj].
        assert (Hjn : (j < n)%nat).
        { apply lookup_lt_Some in Hj. unfold A in Hj. rewrite length_take in Hj. lia. }
        rewrite <- (nth_lookup_Some A j dflt x Hj).
        destruct (decide (j < r)%nat); [specialize (Hlow j ltac:(lia)); lia|apply Hmin; lia]. }
      rewrite Forall_forall in Hok.
      apply (entry_ok_absent st B x d (Hok x Hx) ltac:(lia) l0 Hl0 Hdl).
    + specialize (Hgone i ltac:(by eapply lookup_lt_Some) Hnot l0 Hl0).
      rewrite Forall_forall in Hgone. specialize (Hgone d Hdl). lia.
  - apply Forall_app. split; [done|]. constructor; [|constructor].
    split; [done|]. exists scored. done.
  - rewrite length_app. cbn [length]. rewrite Nat.add_1_r.
    change (QP.update_results alg results (length Sdone) num_results (score scored curr) curr)
      with (TopK.insert alg QP.ResultCompare QP.no_result new results (length Sdone)
              num_results).
    apply (kept_insert alg _ _ QP.no_result Halg ResultCompare_swo); [done| |done].
    cbn [fst new]. by apply Hnan.
  - assert (H := filter_length_lt (fun x => B <=? x) (fun x => curr + 1 <=? x)
                   (concat (map Conjunction.docs ls)) curr).
    cbn beta in H. specialize (H ltac:(intros x _ Hx; apply Z.leb_le in Hx; apply Z.leb_le; lia)).
    assert (Hc : curr ∈ concat (map Conjunction.docs ls)).
    { apply list_elem_of_In, in_concat. exists (Conjunction.docs l0e).
      split; [|by apply list_elem_of_In]. apply in_map. apply list_elem_of_In.
      by eapply list_elem_of_lookup_2. }
    specialize (H Hc ltac:(apply Z.leb_le; lia) ltac:(apply Z.leb_gt; lia)). lia.
Qed.


Hypothesis Hpos : Forall (fun l0 => ListData.position l0 = 0%nat) ls.

Lemma init_curr_postings_spec : forall (todo : list nat) (i : nat) (st : QP.store),
  drop i lists = todo ->
  (forall (j : nat) p l0, (i <= j)%nat -> lists !! j = Some p -> ls !! j = Some l0 ->
     st !! p = Some l0) ->
  exists arr (st' : QP.store),
    QP.init_curr_postings st todo i = (arr, st') /\
    Forall (entry_ok st' 0) arr /\ Forall (fun e => 0 <= fst e) arr /\
    Forall (fun e : Z * nat => (i <= snd e)%nat) arr /\ NoDup (map snd arr) /\
    (forall j : nat, (i <= j < length ls)%nat -> j ∉ map snd arr -> gone 0 j) /\
    (forall q : nat, (forall j : nat, (i <= j)%nat -> lists !! j <> Some q) ->
       st' !! q = st !! q) /\
    ListData.ResetList <$> st' = ListData.ResetList <$> st.
Proof.
  induction todo as [|p rest IH]; intros i st Hdrop Hfresh.
  { exists [], st. cbn [QP.init_curr_postings]. repeat (split; [done || constructor|]).
    split; [|done]. intros j Hj _.
    apply (f_equal length) in Hdrop. rewrite length_drop in Hdrop. cbn in Hdrop. lia. }
  assert (Hi : (i < length lists)%nat).
  { apply (f_equal length) in Hdrop. rewrite length_drop in Hdrop. cbn in Hdrop. lia. }
  destruct (lookup_lt_is_Some_2 lists i Hi) as [p' Hp].
  rewrite (drop_S _ _ _ Hp) in Hdrop. injection Hdrop as -> Hdrop.
  destruct (lookup_lt_is_Some_2 ls i ltac:(lia)) as [l0 Hl0].
  pose proof (Hfresh i p l0 ltac:(lia) Hp Hl0) as Hl.
  cbn [QP.init_curr_postings].
  pose proof (NextGEQ_static st p 0) as Hstat.
  unfold QP.NextGEQ in *. rewrite Hl in *.
  destruct (ListData.NextGEQ l0 0) as [d l'] eqn:HN. cbn [snd] in Hstat.
  assert (Hf0 : Conjunction.follows l0 l0 0).
  { split; [done|]. split; [done|]. rewrite Forall_forall in Hpos.
    rewrite (Hpos l0 ltac:(by eapply list_elem_of_lookup_2)). constructor. }
  destruct (NextGEQ_follows l0 l0 0 d l' (sorted_of _ _ Hl0)
              ltac:(apply Forall_forall; intros x Hx; by eapply range_of) Hf0 HN)
    as (Hf' & Hcase).
  assert (Hlt : (p < length st)%nat) by (by eapply lookup_lt_Some).
  set (st1 := <[p := l']> st) in *.
  assert (Hother : forall (j : nat) q, j <> i -> lists !! j = Some q -> st1 !! q = st !! q).
  { intros j q Hne Hq. apply list_lookup_insert_ne. intros <-.
    apply Hne. by apply (NoDup_lookup lists j i p). }
  destruct (IH (S i) st1 Hdrop) as
    (arr & st' & Heq & Hok & Hge & Hidx & Hnodup & Hgone & Hsame & Hstat').
  { intros j q l0j Hj Hq Hl0j. rewrite (Hother j q ltac:(lia) Hq).
    apply (Hfresh j q l0j ltac:(lia) Hq Hl0j). }
  rewrite Heq.
  assert (Hp_st' : st' !! p = Some l').
  { rewrite Hsame; [by apply list_lookup_insert_eq|].
    intros j Hj Hq. assert (j = i) by (by apply (NoDup_lookup lists j i p)). lia. }
  assert (Hi_notin : i ∉ map snd arr).
  { intros Hin. apply list_elem_of_fmap in Hin as (e & He & Hin).
    rewrite Forall_forall in Hidx. specialize (Hidx e Hin). cbn beta in Hidx. lia. }
  assert (Hsame' : forall q : nat, (forall j : nat, (i <= j)%nat -> lists !! j <> Some q) ->
            st' !! q = st !! q).
  { intros q Hq. rewrite Hsame by (intros j Hj; apply Hq; lia).
    apply list_lookup_insert_ne. intros <-. by apply (Hq i). }
  assert (Hstat2 : ListData.ResetList <$> st' = ListData.ResetList <$> st).
  { etransitivity; [exact Hstat'|exact Hstat]. }
  destruct Hcase as [[-> Hall]|(Hd & Hs' & _)].
  - assert (E : (u32_max <? u32_max) = false) by apply Z.ltb_irrefl. rewrite E.
    exists arr, st'. split; [done|]. split; [done|]. split; [done|]. split.
    { eapply Forall_impl; [exact Hidx|]. intros e He. cbn beta in He. lia. }
    split; [done|]. split; [|done].
    intros j Hj Hnot. destruct (decide (j = i)) as [->|Hne].
    + intros l0' Hl0'. rewrite Hl0 in Hl0'. by injection Hl0' as <-.
    + apply Hgone; [lia|done].
  - assert (E : (d <? u32_max) = true) by (apply Z.ltb_lt; lia). rewrite E.
    exists ((d, i) :: arr), st'. split; [done|]. split.
    { constructor; [|done]. exists p, l0, l'. done. }
    split; [constructor; [cbn; lia|done]|]. split.
    { constructor; [cbn; lia|]. eapply Forall_impl; [exact Hidx|].
      intros e He. cbn beta in He. lia. }
    split; [cbn [map snd]; by constructor|]. split; [|done].
    intros j Hj Hnot. cbn [map snd] in Hnot. apply not_elem_of_cons in Hnot as [Hne Hnot].
    apply Hgone; [lia|done].
Qed.

End MergeListsFacts.

Lemma total_postings_static (st st' : QP.store) :
  ListData.ResetList <$> st = ListData.ResetList <$> st' ->
  QP.total_postings st = QP.total_postings st'.
Proof.
  assert (H : forall st : QP.store,
            QP.total_postings st = QP.total_postings (ListData.ResetList <$> st)).
  { intros st2. induction st2 as [|x st2 IH]; [done|].
    change (QP.total_postings (x :: st2))
      with (length (ListData.postings x) + QP.total_postings st2)%nat.
    rewrite IH. done. }
  intros Heq. rewrite (H st), (H st'). by rewrite Heq.
Qed.

(** [MergeLists] over freshly opened lists behind distinct pointers: the
    documents scored, their scores and the top of [results], which keeps
    its length. *)
Lemma MergeLists_spec_length (alg : Stl.algorithms) (log10 : spec_float -> spec_float)
    (GetDocLen : Z -> Z) (collection_average_doc_len_ collection_total_num_docs_ : Z)
    (lists : list nat) (ls : list ListData.t) (results : list QP.Result)
    (num_results : nat) (st : QP.store) :
  Stl.conforming alg ->
  (0 < num_results)%nat -> length results = num_results ->
  NoDup lists ->
  Forall2 (fun p l => st !! p = Some l) lists ls ->
  Forall Conjunction.opened ls ->
  (forall d order, (exists l, l ∈ ls /\ d ∈ Conjunction.docs l) ->
     Permutation order (Disjunction.holders ls d) ->
     TopK.not_nan (Disjunction.score log10 GetDocLen collection_average_doc_len_
                     collection_total_num_docs_ ls order d)) ->
  exists (S : list QP.Result) results' st',
    QP.MergeLists alg log10 GetDocLen collection_average_doc_len_
      collection_total_num_docs_ lists results num_results st
    = (length S, results', st') /\
    length results' = num_results /\
    StronglySorted Z.lt (map snd S) /\
    (forall d, d ∈ map snd S <-> exists l, l ∈ ls /\ d ∈ Conjunction.docs l) /\
    Forall (fun r : QP.Result =>
              exists order, Permutation order (Disjunction.holders ls (snd r)) /\
                fst r = Disjunction.score log10 GetDocLen collection_average_doc_len_
                          collection_total_num_docs_ ls order (snd r)) S /\
    let top := take (Nat.min num_results (length S)) results' in
    Stl.is_sorted QP.ResultCompare top /\
    exists dropped,
      Permutation (top ++ dropped) S /\
      forall x y, x ∈ dropped -> y ∈ top -> SFltb (fst y) (fst x) = false.
Proof.
  intros Halg Hk Hres Hnd HF Hopen Hnan.
  assert (Hlen : length lists = length ls) by (by eapply Forall2_length).
  assert (Hst0 : forall (i : nat) p l0, lists !! i = Some p -> ls !! i = Some l0 ->
            st !! p = Some l0).
  { intros i p l0 Hp Hl0. exact (Forall2_lookup_lr _ _ _ _ _ _ HF Hp Hl0). }
  assert (Hsorted : Forall (fun l0 => StronglySorted Z.lt (Conjunction.docs l0)) ls).
  { eapply Forall_impl; [exact Hopen|]. by intros l (_ & H & _). }
  assert (Hrange : Forall (fun l0 => Forall (fun d => 0 <= d < u32_max) (Conjunction.docs l0)) ls).
  { eapply Forall_impl; [exact Hopen|]. by intros l (_ & _ & H). }
  assert (Hpos : Forall (fun l0 => ListData.position l0 = 0%nat) ls).
  { eapply Forall_impl; [exact Hopen|]. by intros l (H & _). }
  assert (Hin_some : forall d, (exists (i : nat) l0, ls !! i = Some l0 /\ d ∈ Conjunction.docs l0)
                               <-> exists l, l ∈ ls /\ d ∈ Conjunction.docs l).
  { intros d. split.
    - intros (i & l0 & Hl0 & Hd). exists l0. split; [by eapply list_elem_of_lookup_2|done].
    - intros (l & Hl & Hd). apply list_elem_of_lookup in Hl as [i Hi]. by exists i, l. }
  assert (Hnan' : forall d order,
            (exists (i : nat) l0, ls !! i = Some l0 /\ d ∈ Conjunction.docs l0) ->
            Permutation order (Disjunction.holders ls d) ->
            TopK.not_nan (Disjunction.score log10 GetDocLen collection_average_doc_len_
                            collection_total_num_docs_ ls order d)).
  { intros d order Hd. apply Hnan. by apply Hin_some. }
  destruct (init_curr_postings_spec lists ls Hlen Hnd Hsorted Hrange num_results Hk Hpos lists 0%nat st
              (drop_0 _)) as
    (arr & st1 & Hinit & Hok & Hge & _ & Hnodup & Hgone & _ & Hstat).
  { intros j p l0 _. apply Hst0. }
  unfold QP.MergeLists. rewrite Hinit.
  assert (Hfinish : forall (S : list QP.Result),
            StronglySorted Z.lt (map snd S) ->
            (forall d, (exists (i : nat) l0, ls !! i = Some l0 /\ d ∈ Conjunction.docs l0) ->
                       d ∈ map snd S) ->
            Forall (fun r : QP.Result =>
                      (exists (i : nat) l0, ls !! i = Some l0 /\ snd r ∈ Conjunction.docs l0) /\
                      exists order, Permutation order (Disjunction.holders ls (snd r)) /\
                        fst r = Disjunction.score log10 GetDocLen collection_average_doc_len_
                                  collection_total_num_docs_ ls order (snd r)) S ->
            (forall d, d ∈ map snd S <-> exists l, l ∈ ls /\ d ∈ Conjunction.docs l) /\
            Forall (fun r : QP.Result =>
                      exists order, Permutation order (Disjunction.holders ls (snd r)) /\
                        fst r = Disjunction.score log10 GetDocLen collection_average_doc_len_
                                  collection_total_num_docs_ ls order (snd r)) S).
  { intros S Hs Hc Hr. split.
    - intros d. rewrite <- Hin_some. split; [|apply Hc].
      intros Hd. apply list_elem_of_fmap in Hd as (r & -> & Hr').
      rewrite Forall_forall in Hr. by destruct (Hr r Hr').
    - eapply Forall_impl; [exact Hr|]. by intros r [_ H]. }
  destruct (0 <? length arr)%nat eqn:En.
  2:{ apply Nat.ltb_ge in En. assert (arr = []) as -> by (destruct arr; [done|cbn in En; lia]).
      exists [], results, st1. split; [done|]. split; [done|]. split; [constructor|].
      destruct (Hfinish []) as [H1 H2]; [constructor| |constructor|].
      { intros d (i & l0 & Hl0 & Hd).
        specialize (Hgone i ltac:(split; [lia|by eapply lookup_lt_Some])
                      ltac:(apply not_elem_of_nil) l0 Hl0).
        rewrite Forall_forall in Hgone. rewrite Forall_forall in Hrange.
        specialize (Hgone d Hd).
        specialize (Hrange l0 ltac:(by eapply list_elem_of_lookup_2)).
        rewrite Forall_forall in Hrange. specialize (Hrange d Hd). lia. }
      split; [done|]. split; [done|]. cbn. rewrite Nat.min_0_r, take_0.
      split; [apply is_sorted_nil|]. exists []. split; [done|].
      intros x y Hx. by apply elem_of_nil in Hx. }
  destruct (MergeLists_loop_spec alg log10 GetDocLen collection_average_doc_len_
              collection_total_num_docs_ Halg lists ls st Hlen Hnd Hsorted Hrange Hst0
              num_results Hk Hnan' (S (QP.total_postings st1)) st1 arr (length arr) results
              [] 0) as (S & results1 & st2 & Hloop & HsS & HcS & HrS & Hkept).
  { unfold u32_max. lia. }
  { lia. }
  { by rewrite firstn_all. }
  { by rewrite firstn_all. }
  { by rewrite firstn_all. }
  { intros i Hi. rewrite firstn_all. apply Hgone. lia. }
  { constructor. }
  { constructor. }
  { intros d Hd (i & l0 & Hl0 & Hin). rewrite Forall_forall in Hrange.
    specialize (Hrange l0 ltac:(by eapply list_elem_of_lookup_2)).
    rewrite Forall_forall in Hrange. specialize (Hrange d Hin). lia. }
  { constructor. }
  { by apply kept_init. }
  { pose proof (sum_postings_le lists st ls Hnd HF) as Hsum.
    rewrite (total_postings_static st1 st Hstat).
    pose proof (List.filter_length_le (fun x => (0 <=? x)%Z)
                  (concat (map Conjunction.docs ls))). lia. }
  cbn [length] in Hloop. rewrite Hloop.
  exists S, (QP.sort_results alg results1 num_results (length S)), st2.
  split; [done|].
  destruct (Hfinish S HsS HcS HrS) as [H1 H2].
  destruct Hkept as (Hlenr & _ & Hdom & _ & D & Hperm & _ & HD).
  set (m := Nat.min num_results (length S)).
  assert (Hm : Nat.min (length S) num_results = m) by (unfold m; lia).
  rewrite Hm in Hperm, HD.
  assert (Hdomt : Forall (fun r : QP.Result => TopK.not_nan (fst r)) (take m results1)).
  { eapply Permutation_Forall in Hdom; [|symmetry; exact Hperm].
    by apply Forall_app in Hdom as [H _]. }
  destruct (Stl.sort_spec _ Halg _ _ QP.ResultCompare (take m results1) ResultCompare_swo Hdomt)
    as [Hsp Hss].
  split.
  { unfold QP.sort_results, Stl.on_range. fold m.
    rewrite length_app, (Permutation_length Hsp), length_take, length_drop. lia. }
  split; [done|]. split; [done|]. split; [done|]. cbv zeta.
  assert (Htake : take m (QP.sort_results alg results1 num_results (length S))
                  = Stl.sort alg _ QP.ResultCompare (take m results1)).
  { unfold QP.sort_results. fold m. apply on_range_take; [lia|].
    rewrite (Permutation_length Hsp), length_take. lia. }
  rewrite Htake. split; [done|]. exists D. split.
  - rewrite <- Hperm. by apply Permutation_app_tail.
  - intros x y Hx Hy. rewrite Hsp in Hy. exact (HD x y Hx Hy).
Qed.

(** [MergeLists] over freshly opened lists behind distinct pointers: the
    documents scored, their scores and the top of [results]. *)
Lemma MergeLists_spec (alg : Stl.algorithms) (log10 : spec_float -> spec_float)
    (GetDocLen : Z -> Z) (collection_average_doc_len_ collection_total_num_docs_ : Z)
    (lists : list nat) (ls : list ListData.t) (results : list QP.Result)
    (num_results : nat) (st : QP.store) :
  Stl.conforming alg ->
  (0 < num_results)%nat -> length results = num_results ->
  NoDup lists ->
  Forall2 (fun p l => st !! p = Some l) lists ls ->
  Forall Conjunction.opened ls ->
  (forall d order, (exists l, l ∈ ls /\ d ∈ Conjunction.docs l) ->
     Permutation order (Disjunction.holders ls d) ->
     TopK.not_nan (Disjunction.score log10 GetDocLen collection_average_doc_len_
                     collection_total_num_docs_ ls order d)) ->
  exists (S : list QP.Result) results' st',
    QP.MergeLists alg log10 GetDocLen collection_average_doc_len_
      collection_total_num_docs_ lists results num_results st
    = (length S, results', st') /\
    StronglySorted Z.lt (map snd S) /\
    (forall d, d ∈ map snd S <-> exists l, l ∈ ls /\ d ∈ Conjunction.docs l) /\
    Forall (fun r : QP.Result =>
              exists order, Permutation order (Disjunction.holders ls (snd r)) /\
                fst r = Disjunction.score log10 GetDocLen collection_average_doc_len_
                          collection_total_num_docs_ ls order (snd r)) S /\
    let top := take (Nat.min num_results (length S)) results' in
    Stl.is_sorted QP.ResultCompare top /\
    exists dropped,
      Permutation (top ++ dropped) S /\
      forall x y, x ∈ dropped -> y ∈ top -> SFltb (fst y) (fst x) = false.
Proof.
  intros Halg Hk Hres Hnd HF Hopen Hnan.
  destruct (MergeLists_spec_length alg log10 GetDocLen collection_average_doc_len_
              collection_total_num_docs_ lists ls results num_results st
              Halg Hk Hres Hnd HF Hopen Hnan) as (S & results' & st' & HM & _ & Hrest).
  exists S, results', st'. split; [exact HM|exact Hrest].
Qed.

(** X18. [MergeLists] (DAAT-OR) over freshly opened lists behind distinct
    pointers returns the number of documents that occur in at least one
    list.  Every such document is scored once, with the sum of the BM25
    term scores of the lists that hold it (added in some order of these
    lists), and the first [min(num_results, total)] slots of [results]
    hold, in descending order of score, documents of which none scores
    lower than a document that was left out. *)
Theorem MergeLists_top_k (alg : Stl.algorithms) (log10 : spec_float -> spec_float)
    (GetDocLen : Z -> Z) (collection_average_doc_len_ collection_total_num_docs_ : Z)
    (lists : list nat) (ls : list ListData.t) (results : list QP.Result)
    (num_results : nat) (st : QP.store) :
  Stl.conforming alg ->
  (0 < num_results)%nat -> length results = num_results ->
  NoDup lists ->
  Forall2 (fun p l => st !! p = Some l) lists ls ->
  Forall Conjunction.opened ls ->
  (forall d order, (exists l, l ∈ ls /\ d ∈ Conjunction.docs l) ->
     Permutation order (Disjunction.holders ls d) ->
     TopK.not_nan (Disjunction.score log10 GetDocLen collection_average_doc_len_
                     collection_total_num_docs_ ls order d)) ->
  exists (S : list QP.Result) results' st',
    QP.MergeLists alg log10 GetDocLen collection_average_doc_len_
      collection_total_num_docs_ lists results num_results st
    = (length S, results', st') /\
    StronglySorted Z.lt (map snd S) /\
    (forall d, d ∈ map snd S <-> exists l, l ∈ ls /\ d ∈ Conjunction.docs l) /\
    Forall (fun r : QP.Result =>
              exists order, Permutation order (Disjunction.holders ls (snd r)) /\
                fst r = Disjunction.score log10 GetDocLen collection_average_doc_len_
                          collection_total_num_docs_ ls order (snd r)) S /\
    let top := take (Nat.min num_results (length S)) results' in
    Stl.is_sorted QP.ResultCompare top /\
    exists dropped,
      Permutation (top ++ dropped) S /\
      forall x y, x ∈ dropped -> y ∈ top -> SFltb (fst y) (fst x) = false.
Proof. apply MergeLists_spec. Qed.

Lemma MergeLists_top_k_witness :
  exists (S : list QP.Result) results' st',
    QP.MergeLists Stl.reference Toy.log10 Toy.GetDocLen 2 2 [0%nat; 1%nat]
      (replicate 10 QP.no_result) 10
      [ListData.OpenList false Toy.alpha 0 0; ListData.OpenList false Toy.beta 0 1]
    = (length S, results', st') /\
    StronglySorted Z.lt (map snd S) /\
    (forall d, d ∈ map snd S <->
       exists l, l ∈ [ListData.OpenList false Toy.alpha 0 0; ListData.OpenList false Toy.beta 0 1]
                 /\ d ∈ Conjunction.docs l).
Proof.
  destruct (MergeLists_top_k Stl.reference Toy.log10 Toy.GetDocLen 2 2 [0%nat; 1%nat]
              [ListData.OpenList false Toy.alpha 0 0; ListData.OpenList false Toy.beta 0 1]
              (replicate 10 QP.no_result) 10
              [ListData.OpenList false Toy.alpha 0 0; ListData.OpenList false Toy.beta 0 1]
              reference_conforming ltac:(lia) ltac:(reflexivity))
    as (S & results' & st' & H & Hs & Hd & _).
  - apply NoDup_cons. split; [|apply NoDup_singleton].
    intros Hin. apply list_elem_of_singleton in Hin. discriminate.
  - repeat constructor.
  - repeat constructor; unfold u32_max; cbn; lia.
  - intros d order (l & Hl & Hd) Hperm.
    assert (Hcase : d = 1 \/ d = 2).
    { apply elem_of_cons in Hl as [->|Hl].
      - change (d ∈ [1; 2]) in Hd. apply elem_of_cons in Hd as [->|Hd]; [by left|].
        apply list_elem_of_singleton in Hd. by right.
      - apply list_elem_of_singleton in Hl. subst l.
        change (d ∈ [1]) in Hd. apply list_elem_of_singleton in Hd. by left. }
    destruct Hcase as [-> | ->].
    + change (order ≡ₚ [0%nat; 1%nat]) in Hperm. symmetry in Hperm.
      apply Permutation_length_2_inv in Hperm as [-> | ->]; vm_compute; reflexivity.
    + change (order ≡ₚ [0%nat]) in Hperm. symmetry in Hperm.
      apply Permutation_length_1_inv in Hperm as ->. vm_compute; reflexivity.
  - exists S, results', st'. split; [exact H|]. split; [exact Hs|exact Hd].
Defined.

Lemma sorted_lt_NoDup (l : list Z) : StronglySorted Z.lt l -> NoDup l.
Proof.
  induction 1 as [|a l Hs IH Ha]; [constructor|]. apply NoDup_cons. split; [|done].
  intros Hin. rewrite Forall_forall in Ha. specialize (Ha a Hin). lia.
Qed.

(** X19. [ProcessQuery] in DAAT-OR mode opens the last layer of every
    query term and returns the number of documents that occur in at least
    one of them, which is never less than the number of documents that
    occur in all of them; [*num_results] becomes the smaller of this total
    and the number asked for, and the results are the best of these
    documents in descending order of score. *)
Theorem ProcessQuery_DaatOr (alg : Stl.algorithms) (log10 : spec_float -> spec_float)
    (GetDocLen : Z -> Z) (collection_average_doc_len_ collection_total_num_docs_ : Z)
    (index_overlapping_layers_ : bool)
    (IntersectListsTopPositions :
       list nat -> list QP.Result -> nat -> QP.store -> nat * list QP.Result * QP.store)
    (query_term_data : list Lex.LexiconData) (results : list QP.Result) (num_results : nat) :
  let st := QP.open_last_layers index_overlapping_layers_ query_term_data in
  Stl.conforming alg ->
  (0 < num_results)%nat -> length results = num_results ->
  Forall Conjunction.opened st ->
  (forall d order, (exists l, l ∈ st /\ d ∈ Conjunction.docs l) ->
     Permutation order (Disjunction.holders st d) ->
     TopK.not_nan (Disjunction.score log10 GetDocLen collection_average_doc_len_
                     collection_total_num_docs_ st order d)) ->
  exists (S : list QP.Result) results',
    QP.ProcessQuery alg log10 GetDocLen collection_average_doc_len_ collection_total_num_docs_
      index_overlapping_layers_ IntersectListsTopPositions QP.kDaatOr
      query_term_data results num_results
    = Some (length S, Nat.min (length S) num_results, results') /\
    StronglySorted Z.lt (map snd S) /\
    (forall d, d ∈ map snd S <-> exists l, l ∈ st /\ d ∈ Conjunction.docs l) /\
    (length (Conjunction.matches st) <= length S)%nat /\
    Forall (fun r : QP.Result =>
              exists order, Permutation order (Disjunction.holders st (snd r)) /\
                fst r = Disjunction.score log10 GetDocLen collection_average_doc_len_
                          collection_total_num_docs_ st order (snd r)) S /\
    let top := take (Nat.min num_results (length S)) results' in
    Stl.is_sorted QP.ResultCompare top /\
    exists dropped,
      Permutation (top ++ dropped) S /\
      forall x y, x ∈ dropped -> y ∈ top -> SFltb (fst y) (fst x) = false.
Proof.
  intros st Halg Hk Hres Hopen Hnan.
  assert (Hlen : length st = length query_term_data).
  { unfold st, QP.open_last_layers. apply length_map. }
  destruct (MergeLists_spec alg log10 GetDocLen collection_average_doc_len_
              collection_total_num_docs_ (seq 0 (length query_term_data)) st results
              num_results st Halg Hk Hres)
    as (S & results' & st' & HM & Hs & Hd & Hsc & Htop); [| |done|done|].
  { apply NoDup_seq. }
  { rewrite <- Hlen. clear. apply Forall2_same_length_lookup_2; [by rewrite length_seq|].
    intros i p l Hp Hl. apply lookup_seq in Hp as [-> _]. done. }
  exists S, results'. split.
  { unfold QP.ProcessQuery. fold st. by rewrite HM. }
  split; [done|]. split; [done|]. split; [|split; [done|exact Htop]].
  enough (Hle : (length (Conjunction.matches st) <= length (map snd S))%nat)
    by (by rewrite length_map in Hle).
  destruct st as [|l00 st0] eqn:Hst; [cbn; lia|]. rewrite <- Hst in *.
  assert (H0 : st !! 0%nat = Some l00) by (by rewrite Hst).
  apply submseteq_length, NoDup_submseteq.
  - apply sorted_lt_NoDup, (matches_sorted st l00 H0).
    rewrite Forall_forall in Hopen.
    by destruct (Hopen l00 ltac:(by eapply list_elem_of_lookup_2)) as (_ & H & _).
  - intros d Hin. apply Hd. exists l00. split; [by eapply list_elem_of_lookup_2|].
    by eapply matches_docs.
Qed.

Lemma ProcessQuery_DaatOr_witness :
  exists (S : list QP.Result) results',
    QP.ProcessQuery Stl.reference Toy.log10 Toy.GetDocLen 2 2 false
      (fun _ results _ st => (0%nat, results, st)) QP.kDaatOr [Toy.alpha; Toy.beta]
      (replicate 10 QP.no_result) 10
    = Some (length S, Nat.min (length S) 10, results') /\
    StronglySorted Z.lt (map snd S) /\
    (1 <= length S)%nat.
Proof.
  destruct (ProcessQuery_DaatOr Stl.reference Toy.log10 Toy.GetDocLen 2 2 false
              (fun _ results _ st => (0%nat, results, st)) [Toy.alpha; Toy.beta]
              (replicate 10 QP.no_result) 10
              reference_conforming ltac:(lia) ltac:(reflexivity))
    as (S & results' & H & Hs & _ & Hle & _).
  - repeat constructor; unfold u32_max; cbn; lia.
  - intros d order (l & Hl & Hd) Hperm.
    assert (Hcase : d = 1 \/ d = 2).
    { apply elem_of_cons in Hl as [->|Hl].
      - change (d ∈ [1; 2]) in Hd. apply elem_of_cons in Hd as [->|Hd]; [by left|].
        apply list_elem_of_singleton in Hd. by right.
      - apply list_elem_of_singleton in Hl. subst l.
        change (d ∈ [1]) in Hd. apply list_elem_of_singleton in Hd. by left. }
    destruct Hcase as [-> | ->].
    + change (order ≡ₚ [0%nat; 1%nat]) in Hperm. symmetry in Hperm.
      apply Permutation_length_2_inv in Hperm as [-> | ->]; vm_compute; reflexivity.
    + change (order ≡ₚ [0%nat]) in Hperm. symmetry in Hperm.
      apply Permutation_length_1_inv in Hperm as ->. vm_compute; reflexivity.
  - exists S, results'. split; [exact H|]. split; [exact Hs|exact Hle].
Defined.

(** ** The terms [ExecuteQuery] looks up *)

Section ExecuteQueryLookups.
Context (alg : Stl.algorithms) (log10 : spec_float -> spec_float) (GetDocLen : Z -> Z)
  (collection_average_doc_len_ collection_total_num_docs_ : Z)
  (index_overlapping_layers_ : bool)
  (IntersectListsTopPositions :
     list nat -> list QP.Result -> nat -> QP.store -> nat * list QP.Result * QP.store)
  (MAX_LIST_LAYERS : nat) (query_algorithm_ : QP.QueryAlgorithm)
  (stop_words_ : gset string) (lexicon : gmap string Lex.LexiconData)
  (max_num_results_ : nat)
  (ProcessLayeredTaatPrunedEarlyTerminatedQuery :
     list Lex.LexiconData -> nat -> nat * nat * list QP.Result)
  (MergeListsWand MergeListsMaxScore :
     list Lex.LexiconData -> nat -> bool -> nat * nat * list QP.Result).

Local Abbreviation ExecuteQuery :=
  (QP.ExecuteQuery alg log10 GetDocLen collection_average_doc_len_
     collection_total_num_docs_ index_overlapping_layers_ IntersectListsTopPositions
     MAX_LIST_LAYERS query_algorithm_ stop_words_ lexicon max_num_results_
     ProcessLayeredTaatPrunedEarlyTerminatedQuery MergeListsWand MergeListsMaxScore).

Hypothesis Halg : Stl.conforming alg.

(** Whatever [ExecuteQuery] does next, the terms it looks up are the
    sorted words of the line without repetitions, and an evaluator gets
    the entries that were found, in that order. *)
Lemma ExecuteQuery_lookups (line : string) (e : QP.execution) :
  ExecuteQuery line = Some e ->
  QP.lexicon_lookups e
  = QP.unique (Stl.sort alg _ String.ltb (QP.query_words stop_words_ line)) /\
  forall a query_term_data, QP.evaluator_call e = Some (a, query_term_data) ->
    a = query_algorithm_ /\
    query_term_data = omap (fun w => lexicon !! w) (QP.lexicon_lookups e).
Proof.
  unfold QP.ExecuteQuery.
  destruct (QP.query_words stop_words_ line) as [|w words] eqn:Ew.
  { intros [= <-]. split; [|done]. cbn [QP.lexicon_lookups QP.no_execution].
    destruct (sort_strings alg Halg []) as [Hp _].
    symmetry in Hp. apply Permutation_nil in Hp. by rewrite Hp. }
  cbn [length Nat.eqb].
  destruct (QP.processing_semantics query_algorithm_) as [semantics|]; [|done].
  match goal with |- context [Nat.eqb ?a ?b] => destruct (Nat.eqb a b) end.
  - match goal with |- context [QP.run_query_algorithm ?a1 ?a2 ?a3 ?a4 ?a5 ?a6 ?a7 ?a8 ?a9 ?a10
                                  ?a11 ?a12 ?a13 ?a14] =>
      destruct (QP.run_query_algorithm a1 a2 a3 a4 a5 a6 a7 a8 a9 a10 a11 a12 a13 a14)
        as [[[t n] r]|] end; [|done].
    intros [= <-]. cbn [QP.lexicon_lookups QP.evaluator_call]. split; [done|].
    by intros a q [= <- <-].
  - intros [= <-]. by split.
Qed.

(** X20. The terms that [ExecuteQuery] looks up in the lexicon are in
    strictly ascending order, so none is looked up twice; they are the
    white-space separated words of the lower-cased query line that are not
    stop words; none is empty or holds white space or an upper-case
    letter.  An evaluator that runs gets the entries found for these
    terms, in this order. *)
Theorem ExecuteQuery_lookup_terms (line : string) (e : QP.execution) :
  ExecuteQuery line = Some e ->
  StronglySorted QP.str_lt (QP.lexicon_lookups e) /\
  (forall w, w ∈ QP.lexicon_lookups e <->
             w ∈ QP.extract_terms (QP.lower_case line) EmptyString /\ w ∉ stop_words_) /\
  Forall (fun w => w <> EmptyString /\ QP.no_space w /\ QP.all_lower w)
         (QP.lexicon_lookups e) /\
  forall a query_term_data, QP.evaluator_call e = Some (a, query_term_data) ->
    a = query_algorithm_ /\
    query_term_data = omap (fun w => lexicon !! w) (QP.lexicon_lookups e).
Proof.
  intros He. destruct (ExecuteQuery_lookups line e He) as [Hl Hcall].
  assert (Hiff : forall w, w ∈ QP.lexicon_lookups e <->
             w ∈ QP.extract_terms (QP.lower_case line) EmptyString /\ w ∉ stop_words_).
  { intros w. rewrite Hl, (unique_sort_elem alg Halg). split.
    - apply (query_words_elem alg stop_words_ Halg).
    - intros [H1 H2]. by apply query_words_intro. }
  split; [|split; [exact Hiff|split; [|exact Hcall]]].
  - rewrite Hl. apply unique_strictly_sorted, is_sorted_StronglySorted, sort_strings, Halg.
  - apply Forall_forall. intros w Hw. apply Hiff in Hw as [Hw _].
    destruct (extract_terms_elem _ _ _ no_space_empty Hw) as (Hne & Hsp & Hch).
    split; [done|]. split; [done|]. intros c Hc. destruct (Hch c Hc) as [H|H].
    + by apply elem_of_nil in H.
    + by apply (lower_case_all_lower line).
Qed.

End ExecuteQueryLookups.

Lemma ExecuteQuery_lookup_terms_witness :
  exists e, Toy.ExecuteQuery QP.kDaatOr {["the"]} "the Beta  ALPHA beta" = Some e /\
    StronglySorted QP.str_lt (QP.lexicon_lookups e) /\
    QP.evaluator_call e
    = Some (QP.kDaatOr, omap (fun w => Toy.lexicon !! w) (QP.lexicon_lookups e)).
Proof.
  destruct (Toy.ExecuteQuery QP.kDaatOr {["the"]} "the Beta  ALPHA beta") as [e|] eqn:E.
  - exists e. split; [reflexivity|].
    destruct (ExecuteQuery_lookup_terms Stl.reference Toy.log10 Toy.GetDocLen
      (IndexProperties.collection_average_doc_len_ Toy.properties)
      (IndexProperties.collection_total_num_docs_ Toy.properties)
      false (fun _ results _ st => (0%nat, results, st)) 8 QP.kDaatOr {["the"]} Toy.lexicon 10
      Toy.not_modelled (fun q k _ => Toy.not_modelled q k) (fun q k _ => Toy.not_modelled q k)
      reference_conforming "the Beta  ALPHA beta" e E) as (Hs & _ & _ & Hcall).
    split; [exact Hs|].
    destruct (QP.evaluator_call e) as [[a q]|] eqn:Ec.
    + destruct (Hcall a q eq_refl) as [-> ->]. reflexivity.
    + exfalso. revert Ec. revert E. unfold Toy.ExecuteQuery.
      intros E. vm_compute in E. injection E as <-. discriminate.
  - exfalso. vm_compute in E. discriminate.
Defined.

(** ** The accumulator table of the term-at-a-time evaluator *)

(** What [KthScore] returns after the scores [ss] (as C4 has it, for the
    callers that start from any threshold). *)
Lemma KthScore_calls_threshold (alg : Stl.algorithms) (k : nat)
    (scores0 ss : list spec_float) (last : spec_float) :
  Stl.conforming alg -> (0 < k)%nat -> length scores0 = k ->
  ss <> [] -> Forall TopK.not_nan ss ->
  let r := fst (TopK.KthScore_calls alg k ss scores0 0 last) in
  ((k <= length ss)%nat -> TopK.is_kth_largest k ss r) /\
  ((length ss < k)%nat -> r = TopK.neg_max_float).
Proof.
  intros Halg Hk Hlen Hne Hnan r.
  destruct (TopK.KthScore_calls alg k ss scores0 0 last) as [r' a'] eqn:Hrun.
  subst r. simpl.
  destruct (KthScore_calls_kept alg Halg k ss Hk Hnan scores0 0%nat [] last r' a'
              (kept_init TopK.not_nan TopK.greater_float k scores0 Hlen) Hrun) as [Hkept Hret].
  simpl in Hkept, Hret. specialize (Hret Hne). split.
  - intros Hle. rewrite Hret.
    assert ((length ss <? k)%nat = false) as -> by (apply Nat.ltb_ge; lia).
    by apply kept_kth_largest.
  - intros Hlt. rewrite Hret.
    by assert ((length ss <? k)%nat = true) as -> by (apply Nat.ltb_lt; lia).
Qed.

Lemma contains_docs (did : Z) (l : ListData.t) :
  Conjunction.contains did l = true <-> did ∈ Conjunction.docs l.
Proof.
  unfold Conjunction.contains. rewrite existsb_exists. split.
  - intros (x & Hx & E). apply Z.eqb_eq in E. subst x. by apply list_elem_of_In.
  - intros H. exists did. split; [by apply list_elem_of_In|apply Z.eqb_refl].
Qed.

Lemma NextGEQ_fields l did :
  ListData.term_num (ListData.NextGEQ l did).2 = ListData.term_num l /\
  ListData.num_docs_complete_list (ListData.NextGEQ l did).2
  = ListData.num_docs_complete_list l /\
  ListData.postings (ListData.NextGEQ l did).2 = ListData.postings l.
Proof. done. Qed.

Section ListLayerAnd.

Context (alg : Stl.algorithms) (log10 : spec_float -> spec_float) (GetDocLen : Z -> Z)
  (collection_average_doc_len_ collection_total_num_docs_ : Z).
Context (l0 : ListData.t).
Hypothesis Hsorted : StronglySorted Z.lt (Conjunction.docs l0).
Hypothesis Hrange : Forall (fun d => 0 <= d < u32_max) (Conjunction.docs l0).

Local Abbreviation updated :=
  (Taat.updated log10 GetDocLen collection_average_doc_len_ collection_total_num_docs_ l0).
Local Abbreviation idf_t :=
  (QP.idf log10 collection_total_num_docs_ (ListData.num_docs_complete_list l0)).

(** One look-up: the cursor finds the document of the accumulator exactly
    when the list holds it. *)
Lemma lookup_accumulator (l : ListData.t) (acc : Taat.Accumulator) d l' :
  0 <= Taat.doc_id acc < u32_max ->
  Conjunction.follows l0 l (Taat.doc_id acc) ->
  ListData.term_num l = ListData.term_num l0 ->
  ListData.NextGEQ l (Taat.doc_id acc) = (d, l') ->
  Conjunction.follows l0 l' (Taat.doc_id acc) /\
  ListData.term_num l' = ListData.term_num l0 /\
  (if d =? Taat.doc_id acc
   then {| Taat.doc_id := Taat.doc_id acc;
           Taat.curr_score :=
             F32.add (Taat.curr_score acc)
               (Taat.partial_bm25_sum GetDocLen collection_average_doc_len_ idf_t l' d);
           Taat.term_bitmap := Z.lor (Taat.term_bitmap acc) (Taat.term_bit l') |}
   else acc) = updated acc.
Proof.
  intros Hd Hf Ht HN.
  destruct (NextGEQ_follows l0 l _ d l' Hsorted Hrange Hf HN) as (Hf' & Hcase).
  pose proof (NextGEQ_fields l (Taat.doc_id acc)) as (Ht' & _ & _).
  rewrite HN in Ht'. cbn [snd] in Ht'.
  split; [done|]. split; [congruence|].
  unfold Taat.updated.
  destruct (Z.eqb_spec d (Taat.doc_id acc)) as [->|Hne].
  - destruct Hcase as [[Hmax _]|(_ & Hst & _)]; [lia|].
    destruct (stands_on_frequency l0 l' _ Hf' Hst) as [Hfreq Hin].
    apply contains_docs in Hin. rewrite Hin.
    unfold Taat.partial_bm25_sum, Taat.term_bit. rewrite Hfreq. do 2 f_equal. congruence.
  - destruct (Conjunction.contains (Taat.doc_id acc) l0) eqn:Hc; [|done]. exfalso.
    apply contains_docs in Hc.
    destruct Hcase as [[_ Hall]|(Hge & _ & Hmin)].
    + rewrite Forall_forall in Hall. specialize (Hall _ Hc). lia.
    + specialize (Hmin _ Hc ltac:(lia)). lia.
Qed.

Lemma ProcessListLayerAnd_loop_spec (num_accumulators k : nat) :
  forall (fuel : nat) (l : ListData.t) (accumulators : list Taat.Accumulator)
         (top_k_scores : list spec_float) (accumulator_offset num_top_k_scores : nat)
         (threshold : spec_float),
    (accumulator_offset + fuel = num_accumulators)%nat ->
    (num_accumulators <= length accumulators)%nat ->
    StronglySorted Z.le
      (map Taat.doc_id (take fuel (drop accumulator_offset accumulators))) ->
    Forall (fun a => 0 <= Taat.doc_id a < u32_max)
      (take fuel (drop accumulator_offset accumulators)) ->
    (forall a, a ∈ take fuel (drop accumulator_offset accumulators) ->
       Conjunction.follows l0 l (Taat.doc_id a)) ->
    ListData.postings l = ListData.postings l0 ->
    ListData.num_docs_complete_list l = ListData.num_docs_complete_list l0 ->
    ListData.term_num l = ListData.term_num l0 ->
    let rest := map updated (take fuel (drop accumulator_offset accumulators)) in
    let calls :=
      TopK.KthScore_calls alg k (map Taat.curr_score rest) top_k_scores num_top_k_scores
        threshold in
    exists l',
      Taat.ProcessListLayerAnd_loop alg GetDocLen collection_average_doc_len_ fuel l
        accumulators num_accumulators top_k_scores k idf_t accumulator_offset
        num_top_k_scores threshold
      = (calls.1, take accumulator_offset accumulators ++ rest
                  ++ drop num_accumulators accumulators, calls.2, l').
Proof.
  induction fuel as [|fuel IH];
    intros l accumulators top_k_scores j n threshold Hj Hlen Hs Hr Hf Hp Hncl Ht.
  { exists l. rewrite Nat.add_0_r in Hj. subst j.
    cbn [Taat.ProcessListLayerAnd_loop]. cbn zeta. rewrite take_0.
    cbn [map TopK.KthScore_calls fst snd app]. by rewrite take_drop. }
  cbn zeta.
  assert (Hjlt : (j < length accumulators)%nat) by lia.
  destruct (lookup_lt_is_Some_2 accumulators j Hjlt) as [acc Hacc].
  assert (Hdrop : drop j accumulators = acc :: drop (S j) accumulators)
    by (by apply drop_S).
  rewrite Hdrop in *. rewrite firstn_cons in *. cbn [map] in *.
  apply StronglySorted_inv in Hs as [Hs Hle].
  apply Forall_cons in Hr as [Hra Hr].
  cbn [Taat.ProcessListLayerAnd_loop].
  assert ((j <? num_accumulators)%nat = true) as -> by (apply Nat.ltb_lt; lia).
  rewrite (nth_lookup_Some _ _ Taat.no_accumulator _ Hacc).
  destruct (ListData.NextGEQ l (Taat.doc_id acc)) as [d l'] eqn:HN.
  pose proof (NextGEQ_fields l (Taat.doc_id acc)) as (_ & Hncl' & Hp').
  rewrite HN in Hncl', Hp'. cbn [snd] in Hncl', Hp'.
  destruct (lookup_accumulator l acc d l' Hra (Hf acc ltac:(left)) Ht HN)
    as (Hf' & Ht' & Hupd).
  assert (Hnext : forall a, a ∈ take fuel (drop (S j) accumulators) ->
            Conjunction.follows l0 l' (Taat.doc_id a)).
  { intros a Ha. apply (follows_mono l0 l' (Taat.doc_id acc)); [|done].
    rewrite Forall_forall in Hle. apply Hle. apply list_elem_of_fmap. by exists a. }
  destruct (d =? Taat.doc_id acc) eqn:Ed.
  - rewrite <- Hupd.
    match goal with |- context [TopK.KthScore alg ?s top_k_scores n k] =>
      destruct (TopK.KthScore alg s top_k_scores n k) as [thr' top'] eqn:EK end.
    match goal with |- context [<[j := ?a]> accumulators] => set (acc' := a) in * end.
    destruct (IH l' (<[j := acc']> accumulators) top' (S j) (S n) thr') as [l'' Hrun].
    + lia.
    + by rewrite length_insert.
    + by rewrite drop_insert_lt by lia.
    + by rewrite drop_insert_lt by lia.
    + rewrite drop_insert_lt by lia. done.
    + congruence.
    + congruence.
    + done.
    + exists l''. rewrite Hrun. cbn zeta. rewrite drop_insert_lt by lia.
      cbn [map Taat.curr_score TopK.KthScore_calls]. rewrite EK.
      rewrite (take_S_r _ _ acc') by (by apply list_lookup_insert_eq).
      rewrite take_insert_ge by lia. rewrite drop_insert_lt by lia.
      rewrite <- app_assoc. done.
  - rewrite <- Hupd.
    destruct (TopK.KthScore alg (Taat.curr_score acc) top_k_scores n k)
      as [thr' top'] eqn:EK.
    destruct (IH l' accumulators top' (S j) (S n) thr') as [l'' Hrun];
      [lia|done|done|done|done|congruence|congruence|done|].
    exists l''. rewrite Hrun. cbn zeta.
    cbn [map Taat.curr_score TopK.KthScore_calls]. rewrite EK.
    rewrite (take_S_r _ _ acc) by done. rewrite <- app_assoc. done.
Qed.

End ListLayerAnd.

(** X21. [ProcessListLayerAnd], for a freshly opened list and a table
    whose accumulators are in docID order, neither adds nor removes an
    accumulator and keeps their order: the accumulators of the documents
    that the list holds get the BM25 term score added and the bit of the
    term set, the others are left as they are.  The threshold returned is
    what [KthScore] gives for all the scores of the table, passed in table
    order: with [k] accumulators or more, the k-th largest of them. *)
Theorem ProcessListLayerAnd_updates (alg : Stl.algorithms)
    (log10 : spec_float -> spec_float) (GetDocLen : Z -> Z)
    (collection_average_doc_len_ collection_total_num_docs_ : Z)
    (l0 : ListData.t) (accumulators : list Taat.Accumulator) (num_accumulators : nat)
    (top_k_scores : list spec_float) (k : nat) :
  Stl.conforming alg -> (0 < k)%nat -> length top_k_scores = k ->
  Conjunction.opened l0 ->
  (num_accumulators <= length accumulators)%nat ->
  StronglySorted Z.le (map Taat.doc_id (take num_accumulators accumulators)) ->
  Forall (fun a => 0 <= Taat.doc_id a < u32_max) (take num_accumulators accumulators) ->
  let table :=
    map (Taat.updated log10 GetDocLen collection_average_doc_len_
           collection_total_num_docs_ l0) (take num_accumulators accumulators) in
  Forall (fun a => TopK.not_nan (Taat.curr_score a)) table ->
  exists threshold top_k_scores' l',
    Taat.ProcessListLayerAnd alg log10 GetDocLen collection_average_doc_len_
      collection_total_num_docs_ l0 accumulators num_accumulators top_k_scores k
    = (threshold, table ++ drop num_accumulators accumulators, top_k_scores', l') /\
    (threshold, top_k_scores')
    = TopK.KthScore_calls alg k (map Taat.curr_score table) top_k_scores 0 F32.zero /\
    ((k <= num_accumulators)%nat ->
     TopK.is_kth_largest k (map Taat.curr_score table) threshold) /\
    ((0 < num_accumulators < k)%nat -> threshold = TopK.neg_max_float) /\
    (num_accumulators = 0%nat -> threshold = F32.zero).
Proof.
  intros Halg Hk Hlenk (Hpos & Hsorted & Hrange) Hlen Hs Hr table Hnan.
  destruct (ProcessListLayerAnd_loop_spec alg log10 GetDocLen collection_average_doc_len_
              collection_total_num_docs_ l0 Hsorted Hrange num_accumulators k
              num_accumulators l0 accumulators top_k_scores 0%nat 0%nat F32.zero)
    as [l' Hrun]; try done.
  { intros a _. split; [done|]. split; [done|]. rewrite Hpos. constructor. }
  rewrite drop_0 in Hrun. cbn zeta in Hrun. fold table in Hrun. cbn [take app] in Hrun.
  destruct (TopK.KthScore_calls alg k (map Taat.curr_score table) top_k_scores 0 F32.zero)
    as [threshold top'] eqn:Hcalls.
  exists threshold, top', l'. split; [exact Hrun|]. split; [done|].
  assert (Hlt : length table = num_accumulators).
  { unfold table. rewrite length_map, length_take. lia. }
  destruct (decide (num_accumulators = 0%nat)) as [H0|H0].
  { split; [lia|]. split; [lia|]. intros _.
    assert (table = []) as Ht by (apply length_zero_iff_nil; lia).
    rewrite Ht in Hcalls. cbn in Hcalls. congruence. }
  pose proof (KthScore_calls_threshold alg k top_k_scores (map Taat.curr_score table)
                F32.zero Halg Hk Hlenk) as Hthr.
  rewrite Hcalls in Hthr. cbn [fst] in Hthr.
  destruct Hthr as [Hge Hlt'].
  { intros Hnil. apply (f_equal length) in Hnil. rewrite length_map in Hnil.
    cbn in Hnil. lia. }
  { by apply Forall_fmap. }
  rewrite length_map, Hlt in Hge, Hlt'.
  split; [done|]. split; [|lia]. intros [_ H]. by apply Hlt'.
Qed.

Lemma ProcessListLayerAnd_updates_witness :
  let l0 := ListData.OpenList false Toy.alpha 0 0 in
  let accumulators :=
    [ {| Taat.doc_id := 1; Taat.curr_score := F32.of_Z 1; Taat.term_bitmap := 2 |};
      {| Taat.doc_id := 3; Taat.curr_score := F32.of_Z 2; Taat.term_bitmap := 2 |} ] in
  let table := map (Taat.updated Toy.log10 Toy.GetDocLen 2 2 l0) accumulators in
  exists threshold top_k_scores' l',
    Taat.ProcessListLayerAnd Stl.reference Toy.log10 Toy.GetDocLen 2 2 l0 accumulators 2
      [F32.zero; F32.zero] 2
    = (threshold, table ++ [], top_k_scores', l') /\
    TopK.is_kth_largest 2 (map Taat.curr_score table) threshold.
Proof.
  intros l0 accumulators table.
  destruct (ProcessListLayerAnd_updates Stl.reference Toy.log10 Toy.GetDocLen 2 2 l0
              accumulators 2 [F32.zero; F32.zero] 2 reference_conforming
              ltac:(lia) ltac:(reflexivity))
    as (threshold & top' & l' & Hrun & _ & Hk & _).
  - split; [reflexivity|]. split.
    + repeat constructor.
    + repeat constructor; unfold u32_max; cbn; lia.
  - cbn. lia.
  - cbn. repeat constructor; lia.
  - cbn. repeat constructor; unfold u32_max; cbn; lia.
  - repeat constructor; vm_compute; reflexivity.
  - exists threshold, top', l'. split; [exact Hrun|]. apply Hk. lia.
Defined.

Section Prune.

Context (term_upperbounds : list spec_float) (num_query_terms : nat)
  (threshold : spec_float) (accumulators0 : list Taat.Accumulator) (num_accumulators : nat).
Hypothesis Hlen0 : (num_accumulators <= length accumulators0)%nat.

Local Abbreviation upperbound := (Taat.acc_upperbound term_upperbounds num_query_terms).
Local Abbreviation kept :=
  (fun acc : Taat.Accumulator => negb (SFltb (upperbound acc) threshold)).
Local Abbreviation settled :=
  (fun acc : Taat.Accumulator =>
     negb (SFltb (Taat.curr_score acc) threshold && SFltb threshold (upperbound acc))).

Lemma prune_loop_spec :
  forall (fuel : nat) (accumulators : list Taat.Accumulator) (j num_invalidated : nat)
         (condition_one : bool),
    (j + fuel = num_accumulators)%nat ->
    length accumulators = length accumulators0 ->
    (num_invalidated <= j)%nat ->
    take (j - num_invalidated) accumulators = List.filter kept (take j accumulators0) ->
    drop j accumulators = drop j accumulators0 ->
    exists accumulators',
      Taat.prune_loop fuel term_upperbounds num_query_terms threshold accumulators
        num_accumulators j num_invalidated condition_one
      = (accumulators',
         length (List.filter kept (take num_accumulators accumulators0)),
         condition_one && forallb settled (drop j (take num_accumulators accumulators0))) /\
      take (length (List.filter kept (take num_accumulators accumulators0))) accumulators'
      = List.filter kept (take num_accumulators accumulators0) /\
      drop num_accumulators accumulators' = drop num_accumulators accumulators0 /\
      length accumulators' = length accumulators0.
Proof.
  induction fuel as [|fuel IH]; intros accumulators j inv c Hj Hlen Hinv Htake Hdrop.
  { rewrite Nat.add_0_r in Hj. subst j. exists accumulators.
    assert (Hn : length (List.filter kept (take num_accumulators accumulators0))
                 = (num_accumulators - inv)%nat).
    { rewrite <- Htake, length_take. lia. }
    cbn [Taat.prune_loop]. rewrite Hn.
    rewrite drop_ge by (rewrite length_take; lia). cbn [forallb]. rewrite andb_true_r.
    done. }
  assert (Hjlt : (j < length accumulators0)%nat) by lia.
  destruct (lookup_lt_is_Some_2 accumulators0 j Hjlt) as [acc Hacc0].
  assert (Hacc : accumulators !! j = Some acc).
  { rewrite <- (Nat.add_0_r j), <- lookup_drop, Hdrop, lookup_drop, Nat.add_0_r. done. }
  assert (Hji : (j - inv)%nat = length (List.filter kept (take j accumulators0))).
  { rewrite <- Htake, length_take. lia. }
  cbn [Taat.prune_loop].
  assert ((j <? num_accumulators)%nat = true) as -> by (apply Nat.ltb_lt; lia).
  rewrite (nth_lookup_Some _ _ Taat.no_accumulator _ Hacc). cbn zeta.
  assert (Htj : take (S j) accumulators0 = take j accumulators0 ++ [acc])
    by (by apply take_S_r).
  assert (Hcond : forall c' : bool,
            c' = c && settled acc ->
            c' && forallb settled (drop (S j) (take num_accumulators accumulators0))
            = c && forallb settled (drop j (take num_accumulators accumulators0))).
  { intros c' ->.
    rewrite (drop_S (take num_accumulators accumulators0) acc j)
      by (rewrite lookup_take_lt by lia; done).
    cbn [forallb]. by rewrite andb_assoc. }
  assert (Hc' : (if c && SFltb (Taat.curr_score acc) threshold
                       && SFltb threshold (upperbound acc) then false else c)
                = c && settled acc).
  { destruct c, (SFltb (Taat.curr_score acc) threshold),
             (SFltb threshold (upperbound acc)); done. }
  rewrite Hc'.
  assert (HdropS : drop (S j) accumulators = drop (S j) accumulators0).
  { apply (f_equal (drop 1)) in Hdrop. rewrite !drop_drop in Hdrop.
    by rewrite Nat.add_1_r in Hdrop. }
  destruct (SFltb (upperbound acc) threshold) eqn:Eub.
  - destruct (IH accumulators (S j) (S inv) (c && settled acc)) as (accs' & Hrun & Hrest);
      [lia|done|lia| | |].
    + replace (S j - S inv)%nat with (j - inv)%nat by lia.
      rewrite Htj, List.filter_app. cbn [List.filter]. rewrite Eub. cbn [negb].
      by rewrite app_nil_r.
    + exact HdropS.
    + exists accs'. split; [|exact Hrest]. rewrite Hrun. f_equal. by apply Hcond.
  - destruct (IH (<[(j - inv)%nat := acc]> accumulators) (S j) inv (c && settled acc))
      as (accs' & Hrun & Hrest); [lia|by rewrite length_insert|lia| | |].
    + replace (S j - inv)%nat with (S (j - inv)) by lia.
      rewrite (take_S_r _ _ acc) by (apply list_lookup_insert_eq; lia).
      rewrite take_insert_ge by lia. rewrite Htake, Htj, List.filter_app.
      cbn [List.filter]. by rewrite Eub.
    + rewrite drop_insert_lt by lia. exact HdropS.
    + exists accs'. split; [|exact Hrest]. rewrite Hrun. f_equal. by apply Hcond.
Qed.

End Prune.

(** X22. Pruning the accumulator table compacts it in place to exactly
    the accumulators whose upper bound is not below the threshold, in
    their order (so the table stays in docID order, and an accumulator
    whose bound is NaN is never removed); the slots after the first
    [num_accumulators] are not touched.  The first early-termination
    condition holds when no accumulator scores below the threshold while
    its upper bound is above it. *)
Theorem prune_keeps_possible_accumulators (term_upperbounds : list spec_float)
    (num_query_terms : nat) (threshold : spec_float)
    (accumulators : list Taat.Accumulator) (num_accumulators : nat) :
  (num_accumulators <= length accumulators)%nat ->
  let upperbound := Taat.acc_upperbound term_upperbounds num_query_terms in
  let survivors :=
    List.filter (fun acc => negb (SFltb (upperbound acc) threshold))
      (take num_accumulators accumulators) in
  exists accumulators',
    Taat.prune term_upperbounds num_query_terms threshold accumulators num_accumulators
    = (accumulators', length survivors,
       forallb (fun acc => negb (SFltb (Taat.curr_score acc) threshold
                                 && SFltb threshold (upperbound acc)))
               (take num_accumulators accumulators)) /\
    take (length survivors) accumulators' = survivors /\
    drop num_accumulators accumulators' = drop num_accumulators accumulators /\
    length accumulators' = length accumulators /\
    (StronglySorted Z.le (map Taat.doc_id (take num_accumulators accumulators)) ->
     StronglySorted Z.le (map Taat.doc_id (take (length survivors) accumulators'))).
Proof.
  intros Hlen upperbound survivors.
  destruct (prune_loop_spec term_upperbounds num_query_terms threshold accumulators
              num_accumulators Hlen num_accumulators accumulators 0 0 true)
    as (accs' & Hrun & Htake & Hdrop & Hlen'); [lia|done|lia|done|done|].
  exists accs'. unfold Taat.prune. rewrite Hrun, drop_0.
  split; [done|]. split; [done|]. split; [done|]. split; [done|].
  intros Hs. fold upperbound in Htake. fold survivors in Htake. rewrite Htake.
  unfold survivors. clear -Hs. induction (take num_accumulators accumulators) as [|a l IH].
  - constructor.
  - cbn [map] in Hs. apply StronglySorted_inv in Hs as [Hs Ha]. cbn [List.filter].
    destruct (negb (SFltb (upperbound a) threshold)); [|by apply IH].
    cbn [map]. constructor; [by apply IH|].
    rewrite Forall_forall in *. intros x Hx. apply Ha.
    apply list_elem_of_fmap in Hx as (y & -> & Hy). apply list_elem_of_fmap. exists y.
    split; [done|]. apply list_elem_of_In, filter_In in Hy as [Hy _].
    by apply list_elem_of_In.
Qed.

Lemma prune_keeps_possible_accumulators_witness :
  let a1 := {| Taat.doc_id := 1; Taat.curr_score := F32.of_Z 1; Taat.term_bitmap := 1 |} in
  let a2 := {| Taat.doc_id := 2; Taat.curr_score := F32.of_Z 5; Taat.term_bitmap := 3 |} in
  let a3 := {| Taat.doc_id := 4; Taat.curr_score := F32.of_Z 2; Taat.term_bitmap := 2 |} in
  exists accumulators',
    Taat.prune [F32.of_Z 2; F32.of_Z 1] 2 (F32.of_Z 3) [a1; a2; a3] 3
    = (accumulators', 2%nat, false) /\
    take 2 accumulators' = [a2; a3].
Proof.
  intros a1 a2 a3.
  destruct (prune_keeps_possible_accumulators [F32.of_Z 2; F32.of_Z 1] 2 (F32.of_Z 3)
              [a1; a2; a3] 3 ltac:(cbn; lia)) as (accumulators' & Hrun & Ht & _).
  exists accumulators'. split; [exact Hrun|exact Ht].
Defined.

(** *** [ProcessListLayer] *)

Lemma KthScore_calls_app (alg : Stl.algorithms) (k : nat) (a b : list spec_float) :
  forall (top : list spec_float) (n : nat) (thr : spec_float),
    TopK.KthScore_calls alg k (a ++ b) top n thr
    = TopK.KthScore_calls alg k b (TopK.KthScore_calls alg k a top n thr).2
        (n + length a) (TopK.KthScore_calls alg k a top n thr).1.
Proof.
  induction a as [|s a IH]; intros top n thr.
  - cbn. by rewrite Nat.add_0_r.
  - cbn [app TopK.KthScore_calls length].
    destruct (TopK.KthScore alg s top n k) as [thr' top'].
    rewrite IH. by rewrite Nat.add_succ_r.
Qed.

Lemma AccumulatorCompare_swo :
  Stl.strict_weak_order (fun _ => True) Taat.AccumulatorCompare.
Proof.
  unfold Taat.AccumulatorCompare. split.
  - intros x _. apply Z.ltb_irrefl.
  - intros x y z _ _ _ H1 H2. apply Z.ltb_lt in H1, H2. apply Z.ltb_lt. lia.
  - intros x y z _ _ _ H1 H2. apply Z.ltb_ge in H1, H2. apply Z.ltb_ge. lia.
Qed.

Lemma ascending_is_sorted (l : list Taat.Accumulator) :
  StronglySorted Z.lt (map Taat.doc_id l) -> Stl.is_sorted Taat.AccumulatorCompare l.
Proof.
  induction l as [|a l IH]; intros Hs; [apply is_sorted_nil|].
  cbn [map] in Hs. apply StronglySorted_inv in Hs as [Hs Ha].
  apply is_sorted_cons; [by apply IH|]. intros x Hx.
  rewrite Forall_forall in Ha. unfold Taat.AccumulatorCompare. apply Z.ltb_ge.
  specialize (Ha (Taat.doc_id x) ltac:(apply list_elem_of_fmap; by exists x)). lia.
Qed.

Lemma is_sorted_ascending (l : list Taat.Accumulator) :
  Stl.is_sorted Taat.AccumulatorCompare l -> NoDup (map Taat.doc_id l) ->
  StronglySorted Z.lt (map Taat.doc_id l).
Proof.
  induction l as [|a l IH]; intros Hs Hn; [constructor|].
  apply is_sorted_inv in Hs as [Hs Ha]. cbn [map] in *.
  apply NoDup_cons in Hn as [Hna Hn].
  constructor; [by apply IH|]. apply Forall_forall. intros d Hd.
  apply list_elem_of_fmap in Hd as (x & -> & Hx).
  specialize (Ha x Hx). unfold Taat.AccumulatorCompare in Ha. apply Z.ltb_ge in Ha.
  assert (Taat.doc_id x <> Taat.doc_id a).
  { intros Heq. apply Hna. rewrite <- Heq. apply list_elem_of_fmap. by exists x. }
  lia.
Qed.

(** Two tables in docID order with the same accumulators are the same. *)
Lemma ascending_perm_eq (l1 : list Taat.Accumulator) :
  forall l2, StronglySorted Z.lt (map Taat.doc_id l1) ->
    StronglySorted Z.lt (map Taat.doc_id l2) -> Permutation l1 l2 -> l1 = l2.
Proof.
  induction l1 as [|a1 l1 IH]; intros l2 H1 H2 Hp.
  { by apply Permutation_nil in Hp. }
  destruct l2 as [|a2 l2].
  { symmetry in Hp. by apply Permutation_nil in Hp. }
  cbn [map] in *.
  apply StronglySorted_inv in H1 as [H1 Ha1]. apply StronglySorted_inv in H2 as [H2 Ha2].
  rewrite Forall_forall in Ha1, Ha2.
  assert (a1 = a2) as <-.
  { assert (Hin1 : a1 ∈ a2 :: l2) by (rewrite <- Hp; left).
    assert (Hin2 : a2 ∈ a1 :: l1) by (rewrite Hp; left).
    apply elem_of_cons in Hin1 as [?|Hin1]; [done|].
    apply elem_of_cons in Hin2 as [?|Hin2]; [done|]. exfalso.
    specialize (Ha1 (Taat.doc_id a2) ltac:(apply list_elem_of_fmap; by exists a2)).
    specialize (Ha2 (Taat.doc_id a1) ltac:(apply list_elem_of_fmap; by exists a1)). lia. }
  f_equal. apply IH; [done|done|]. by apply Permutation_cons_inv in Hp.
Qed.

Lemma sorted_lt_app (l1 l2 : list Z) :
  StronglySorted Z.lt l1 -> StronglySorted Z.lt l2 ->
  (forall x y, x ∈ l1 -> y ∈ l2 -> x < y) -> StronglySorted Z.lt (l1 ++ l2).
Proof.
  induction l1 as [|a l1 IH]; intros H1 H2 H; [done|].
  apply StronglySorted_inv in H1 as [H1 Ha]. cbn [app]. constructor.
  - apply IH; [done|done|]. intros x y Hx Hy. apply H; [by right|done].
  - apply Forall_app. split; [done|]. apply Forall_forall. intros y Hy.
    apply H; [left|done].
Qed.

Lemma sorted_lt_app_inv (l1 l2 : list Z) :
  StronglySorted Z.lt (l1 ++ l2) ->
  StronglySorted Z.lt l1 /\ StronglySorted Z.lt l2 /\
  (forall x y, x ∈ l1 -> y ∈ l2 -> x < y).
Proof.
  induction l1 as [|a l1 IH]; intros H.
  { split; [constructor|]. split; [done|]. intros x y Hx. by apply elem_of_nil in Hx. }
  cbn [app] in H. apply StronglySorted_inv in H as [H Ha].
  destruct (IH H) as (H1 & H2 & H12). apply Forall_app in Ha as [Ha1 Ha2].
  split; [by constructor|]. split; [done|]. intros x y Hx Hy.
  apply elem_of_cons in Hx as [->|Hx]; [|by apply H12].
  rewrite Forall_forall in Ha2. by apply Ha2.
Qed.

Section ListLayerOr.

Context (alg : Stl.algorithms) (log10 : spec_float -> spec_float) (GetDocLen : Z -> Z)
  (collection_average_doc_len_ collection_total_num_docs_ : Z).
Context (l0 : ListData.t).
Hypothesis Hsorted : StronglySorted Z.lt (Conjunction.docs l0).
Hypothesis Hrange : Forall (fun d => 0 <= d < u32_max) (Conjunction.docs l0).
Context (olds : list Taat.Accumulator) (k : nat) (top0 : list spec_float).
Hypothesis Holds : StronglySorted Z.lt (map Taat.doc_id olds).

Local Abbreviation n := (length olds).
Local Abbreviation updated :=
  (Taat.updated log10 GetDocLen collection_average_doc_len_ collection_total_num_docs_ l0).
Local Abbreviation inserted :=
  (Taat.inserted log10 GetDocLen collection_average_doc_len_ collection_total_num_docs_ l0).
Local Abbreviation idf_t :=
  (QP.idf log10 collection_total_num_docs_ (ListData.num_docs_complete_list l0)).
Local Abbreviation is_new :=
  (fun d : Z => negb (existsb (fun a => Taat.doc_id a =? d) olds)).

Lemma is_new_spec (d : Z) : is_new d = true <-> d ∉ map Taat.doc_id olds.
Proof.
  rewrite negb_true_iff. split.
  - intros H Hin. apply list_elem_of_fmap in Hin as (a & -> & Ha).
    assert (existsb (fun a0 => Taat.doc_id a0 =? Taat.doc_id a) olds = true); [|congruence].
    apply existsb_exists. exists a. split; [by apply list_elem_of_In|apply Z.eqb_refl].
  - intros H. destruct (existsb _ olds) eqn:E; [|done]. exfalso. apply H.
    apply existsb_exists in E as (a & Ha & E). apply Z.eqb_eq in E. subst d.
    apply list_elem_of_fmap. exists a. split; [done|by apply list_elem_of_In].
Qed.

(** The inner loop stops at the first old accumulator that is not below
    [curr_doc_id]. *)
Lemma pass_accumulators_spec (accumulators : list Taat.Accumulator) (d : Z) :
  forall (fuel idx ntop : nat) (thr : spec_float) (top : list spec_float),
    (n <= idx + fuel)%nat -> (idx <= n)%nat ->
    (forall i : nat, (idx <= i < n)%nat -> accumulators !! i = olds !! i) ->
    exists idx' : nat,
      (idx <= idx' <= n)%nat /\
      let passed := take (idx' - idx) (drop idx olds) in
      let calls := TopK.KthScore_calls alg k (map Taat.curr_score passed) top ntop thr in
      Taat.pass_accumulators alg fuel accumulators n d top k idx ntop thr
      = (idx', (ntop + (idx' - idx))%nat, calls.1, calls.2) /\
      Forall (fun a => Taat.doc_id a < d) passed /\
      Forall (fun a => d <= Taat.doc_id a) (drop idx' olds).
Proof.
  induction fuel as [|fuel IH]; intros idx ntop thr top Hfuel Hidx Hsame.
  { exists idx. split; [lia|]. cbn zeta. rewrite Nat.sub_diag, take_0.
    cbn [Taat.pass_accumulators map TopK.KthScore_calls fst snd].
    rewrite Nat.add_0_r. split; [done|]. split; [constructor|].
    rewrite drop_ge by lia. constructor. }
  cbn [Taat.pass_accumulators].
  destruct (Nat.ltb_spec idx n) as [Hlt|Hge]; cbn [andb].
  2:{ exists idx. split; [lia|]. cbn zeta. rewrite Nat.sub_diag, take_0.
      cbn [map TopK.KthScore_calls fst snd]. rewrite Nat.add_0_r.
      split; [done|]. split; [constructor|]. rewrite drop_ge by lia. constructor. }
  destruct (lookup_lt_is_Some_2 olds idx Hlt) as [a Ha].
  assert (Hacc : accumulators !! idx = Some a) by (rewrite Hsame by lia; done).
  rewrite (nth_lookup_Some _ _ Taat.no_accumulator _ Hacc).
  assert (Hdrop : drop idx olds = a :: drop (S idx) olds) by (by apply drop_S).
  destruct (Z.ltb_spec (Taat.doc_id a) d) as [Hlo|Hhi].
  - destruct (TopK.KthScore alg (Taat.curr_score a) top ntop k) as [thr' top'] eqn:EK.
    destruct (IH (S idx) (S ntop) thr' top') as (idx' & Hle & Hrun & Hp & Hd);
      [lia|lia|intros i Hi; apply Hsame; lia|].
    exists idx'. split; [lia|]. cbn zeta in *.
    replace (idx' - idx)%nat with (S (idx' - S idx)) by lia.
    rewrite Hdrop, firstn_cons. cbn [map TopK.KthScore_calls]. rewrite EK.
    rewrite Hrun. split; [f_equal; f_equal; f_equal; lia|]. split; [by constructor|done].
  - exists idx. split; [lia|]. cbn zeta. rewrite Nat.sub_diag, take_0.
    cbn [map TopK.KthScore_calls fst snd]. rewrite Nat.add_0_r.
    split; [done|]. split; [constructor|]. rewrite Hdrop.
    constructor; [done|]. apply Forall_forall. intros x Hx.
    assert (Hs : StronglySorted Z.lt (map Taat.doc_id (drop idx olds))).
    { rewrite <- (take_drop idx olds), map_app in Holds.
      by apply sorted_lt_app_inv in Holds as (_ & H & _). }
    rewrite Hdrop in Hs. cbn [map] in Hs. apply StronglySorted_inv in Hs as [_ Hs].
    rewrite Forall_forall in Hs.
    specialize (Hs (Taat.doc_id x) ltac:(apply list_elem_of_fmap; by exists x)). lia.
Qed.


Local Abbreviation news seen := (map inserted (List.filter is_new seen)).

Lemma updated_doc_id (a : Taat.Accumulator) : Taat.doc_id (updated a) = Taat.doc_id a.
Proof. unfold Taat.updated. by destruct (Conjunction.contains _ _). Qed.

Lemma updated_absent (a : Taat.Accumulator) :
  Taat.doc_id a ∉ Conjunction.docs l0 -> updated a = a.
Proof.
  intros H. unfold Taat.updated.
  destruct (Conjunction.contains (Taat.doc_id a) l0) eqn:E; [|done].
  by apply contains_docs in E.
Qed.

Lemma map_updated_absent (l : list Taat.Accumulator) :
  Forall (fun a => Taat.doc_id a ∉ Conjunction.docs l0) l -> map updated l = l.
Proof.
  induction 1 as [|a l Ha _ IH]; [done|]. cbn [map]. by rewrite IH, updated_absent.
Qed.

Lemma map_doc_id_updated (l : list Taat.Accumulator) :
  map Taat.doc_id (map updated l) = map Taat.doc_id l.
Proof. induction l as [|a l IH]; [done|]. cbn [map]. by rewrite IH, updated_doc_id. Qed.

Lemma map_doc_id_news (seen : list Z) :
  map Taat.doc_id (news seen) = List.filter is_new seen.
Proof.
  generalize (List.filter is_new seen). intros l.
  induction l as [|a l IH]; [done|]. cbn [map]. by rewrite IH.
Qed.

(** What one posting does to the table. *)
Lemma resize_spec (accumulators : list Taat.Accumulator) (m : nat) :
  (m <= length accumulators)%nat -> (0 < length accumulators)%nat ->
  let accumulators' :=
    if (length accumulators <=? m)%nat then Taat.resize accumulators m else accumulators in
  (length accumulators <= length accumulators')%nat /\
  (m < length accumulators')%nat /\
  take m accumulators' = take m accumulators.
Proof.
  intros Hm H0. cbn zeta. destruct (Nat.leb_spec (length accumulators) m) as [Hle|Hgt].
  - unfold Taat.resize. rewrite length_app, length_take, length_replicate.
    split; [lia|]. split; [lia|]. apply take_app_length'. rewrite length_take. lia.
  - split; [lia|]. split; [lia|done].
Qed.

Lemma list_filter_all {A : Type} (f : A -> bool) (l : list A) :
  Forall (fun x => f x = true) l -> List.filter f l = l.
Proof. induction 1 as [|x l Hx _ IH]; [done|]. cbn. by rewrite Hx, IH. Qed.

Lemma list_filter_none {A : Type} (f : A -> bool) (l : list A) :
  Forall (fun x => f x = false) l -> List.filter f l = [].
Proof. induction 1 as [|x l Hx _ IH]; [done|]. cbn. by rewrite Hx, IH. Qed.

Lemma olds_same (accumulators : list Taat.Accumulator) (idx : nat) :
  (idx <= n)%nat ->
  take n accumulators = map updated (take idx olds) ++ drop idx olds ->
  forall i : nat, (idx <= i < n)%nat -> accumulators !! i = olds !! i.
Proof.
  intros Hidx Htake i Hi.
  rewrite <- (lookup_take_lt accumulators n i) by lia. rewrite Htake.
  rewrite lookup_app_r by (rewrite length_map, length_take; lia).
  rewrite length_map, length_take, lookup_drop. f_equal. lia.
Qed.

Lemma drop_sorted (i : nat) : StronglySorted Z.lt (map Taat.doc_id (drop i olds)).
Proof.
  pose proof Holds as H. rewrite <- (take_drop i olds), map_app in H.
  by apply sorted_lt_app_inv in H as (_ & H' & _).
Qed.

Lemma take_sorted (i : nat) : StronglySorted Z.lt (map Taat.doc_id (take i olds)).
Proof.
  pose proof Holds as H. rewrite <- (take_drop i olds), map_app in H.
  by apply sorted_lt_app_inv in H as (H' & _).
Qed.

Lemma ProcessListLayer_loop_spec :
  forall (fuel : nat) (l : ListData.t) (accumulators : list Taat.Accumulator) (m : nat)
         (top : list spec_float) (idx : nat) (c : Z) (ntop : nat) (thr : spec_float)
         (seen todo : list Z) (F : list Taat.Accumulator),
    Conjunction.docs l0 = seen ++ todo ->
    Forall (fun x => x < c) seen -> Forall (fun x => c <= x) todo ->
    (length todo < fuel)%nat ->
    c = List.last seen (-1) + 1 ->
    Conjunction.follows l0 l c -> ListData.term_num l = ListData.term_num l0 ->
    (idx <= n)%nat -> (n <= m <= length accumulators)%nat ->
    (0 < length accumulators)%nat ->
    Forall (fun a => Taat.doc_id a < c) (take idx olds) ->
    Forall (fun a => c <= Taat.doc_id a) (drop idx olds) ->
    take n accumulators = map updated (take idx olds) ++ drop idx olds ->
    take (m - n) (drop n accumulators) = news seen ->
    ntop = length F ->
    TopK.KthScore_calls alg k (map Taat.curr_score F) top0 0 F32.zero = (thr, top) ->
    StronglySorted Z.lt (map Taat.doc_id F) ->
    Forall (fun a => Taat.doc_id a < c) F ->
    Permutation F (map updated (take idx olds) ++ news seen) ->
    exists accumulators' (m' : nat) thr' top' l' F',
      Taat.ProcessListLayer_loop alg GetDocLen collection_average_doc_len_ fuel l
        accumulators m top k idf_t n idx c ntop thr
      = (thr', accumulators', m', top', l') /\
      (n <= m' <= length accumulators')%nat /\
      (length accumulators <= length accumulators')%nat /\
      take n accumulators' = map updated olds /\
      take (m' - n) (drop n accumulators') = news (Conjunction.docs l0) /\
      TopK.KthScore_calls alg k (map Taat.curr_score F') top0 0 F32.zero = (thr', top') /\
      StronglySorted Z.lt (map Taat.doc_id F') /\
      Permutation F'
        (List.filter (fun a => Taat.doc_id a <=? List.last (Conjunction.docs l0) (-1))
           (map updated olds ++ news (Conjunction.docs l0))).
Proof.
  induction fuel as [|fuel IH];
    intros l accumulators m top idx c ntop thr seen todo F
           Hdocs Hdone Htodo Hfuel Hc Hf Hterm Hidx Hm H0 Hlo Hhi Htake Hnew Hntop HF HsF HcF HpF;
    [lia|].
  assert (Hdone_range : Forall (fun d => 0 <= d < u32_max) seen).
  { pose proof Hrange as H. rewrite Hdocs in H. by apply Forall_app in H as [H _]. }
  assert (Hc_range : 0 <= c <= u32_max).
  { subst c. destruct seen as [|x seen' _] using rev_ind; [cbn; unfold u32_max; lia|].
    rewrite last_last. apply Forall_app in Hdone_range as [_ H].
    apply Forall_cons in H as [H _]. lia. }
  cbn [Taat.ProcessListLayer_loop].
  destruct (ListData.NextGEQ l c) as [d l1] eqn:HN.
  pose proof (NextGEQ_fields l c) as (Hterm1 & _ & _).
  rewrite HN in Hterm1. cbn [snd] in Hterm1. rewrite Hterm in Hterm1.
  destruct (NextGEQ_follows l0 l c d l1 Hsorted Hrange Hf HN) as (Hf1 & Hcase).
  destruct (Z.ltb_spec d u32_max) as [Hd|Hd].
  2:{ (* the list is exhausted *)
    destruct Hcase as [[_ Hall]|[Hlt _]]; [|lia].
    assert (todo = []) as ->.
    { destruct todo as [|x todo']; [done|]. exfalso.
      apply Forall_cons in Htodo as [Hx _]. rewrite Forall_forall in Hall.
      specialize (Hall x ltac:(rewrite Hdocs; apply elem_of_app; right; left)). lia. }
    rewrite app_nil_r in Hdocs. subst seen.
    assert (Habsent : Forall (fun a => Taat.doc_id a ∉ Conjunction.docs l0) (drop idx olds)).
    { eapply Forall_impl; [exact Hhi|]. intros a Ha Hin. cbn beta in Ha.
      rewrite Forall_forall in Hall. specialize (Hall _ Hin). lia. }
    exists accumulators, m, thr, top, l1, F.
    split; [done|]. split; [done|]. split; [lia|]. split.
    { rewrite Htake. rewrite <- (map_updated_absent _ Habsent) at 1.
      by rewrite <- map_app, take_drop. }
    split; [done|]. split; [done|]. split; [done|].
    rewrite HpF. rewrite List.filter_app.
    rewrite <- (take_drop idx olds) at 2. rewrite map_app, List.filter_app.
    rewrite (list_filter_all _ (map updated (take idx olds))).
    2:{ apply Forall_forall. intros a Ha. apply list_elem_of_fmap in Ha as (b & -> & Hb).
        rewrite updated_doc_id. rewrite Forall_forall in Hlo. specialize (Hlo b Hb).
        apply Z.leb_le. lia. }
    rewrite (list_filter_none _ (map updated (drop idx olds))).
    2:{ apply Forall_forall. intros a Ha. apply list_elem_of_fmap in Ha as (b & -> & Hb).
        rewrite updated_doc_id. rewrite Forall_forall in Hhi. specialize (Hhi b Hb).
        apply Z.leb_gt. lia. }
    rewrite app_nil_r.
    rewrite (list_filter_all _ (news (Conjunction.docs l0))); [done|].
    apply Forall_forall. intros a Ha. apply list_elem_of_fmap in Ha as (x & -> & Hx).
    apply list_elem_of_In, filter_In in Hx as [Hx _]. apply list_elem_of_In in Hx.
    rewrite Forall_forall in Hall. specialize (Hall x Hx). apply Z.leb_le. cbn. lia. }
  (* a posting [d] *)
  destruct Hcase as [[Hmax _]|(Hcd & Hst & Hmin)]; [lia|].
  assert (Hfd : Conjunction.follows l0 l1 d) by (by eapply follows_mono; [|exact Hf1]; lia).
  destruct (stands_on_frequency l0 l1 d Hfd Hst) as [Hfreq Hin].
  destruct (sorted_head_split seen todo d) as (todo' & -> & Htodo').
  { by rewrite <- Hdocs. }
  { by rewrite <- Hdocs. }
  { eapply Forall_impl; [exact Hdone|]. intros x Hx. cbn beta in Hx. lia. }
  { apply Forall_forall. intros x Hx. rewrite Forall_forall in Htodo.
    apply Hmin; [rewrite Hdocs; apply elem_of_app; by right|by apply Htodo]. }
  destruct (pass_accumulators_spec accumulators d n idx ntop thr top)
    as (idx' & Hidx' & Hpass & HP & Hhi'); [lia|lia|by apply olds_same|].
  cbn zeta in Hpass, HP. rewrite Hpass.
  set (P := take (idx' - idx) (drop idx olds)) in *.
  assert (HlenP : length P = (idx' - idx)%nat).
  { unfold P. rewrite length_take, length_drop. lia. }
  assert (HtakeP : take idx' olds = take idx olds ++ P).
  { unfold P. rewrite take_take_drop. f_equal. lia. }
  assert (HdropP : drop idx olds = P ++ drop idx' olds).
  { unfold P. rewrite <- (take_drop (idx' - idx) (drop idx olds)) at 1.
    rewrite drop_drop. do 2 f_equal. lia. }
  assert (HPc : Forall (fun a => c <= Taat.doc_id a) P).
  { rewrite HdropP in Hhi. by apply Forall_app in Hhi as [H _]. }
  assert (HPabsent : Forall (fun a => Taat.doc_id a ∉ Conjunction.docs l0) P).
  { apply Forall_forall. intros a Ha Hina.
    rewrite Forall_forall in HP. rewrite Forall_forall in HPc.
    specialize (HP a Ha). specialize (HPc a Ha).
    rewrite Hdocs in Hina. apply elem_of_app in Hina as [Hina|Hina].
    - rewrite Forall_forall in Hdone. specialize (Hdone _ Hina). lia.
    - apply elem_of_cons in Hina as [Hina|Hina]; [lia|].
      rewrite Forall_forall in Htodo'. specialize (Htodo' _ Hina). lia. }
  assert (HPu : map updated P = P) by (by apply map_updated_absent).
  assert (Hmid : take n accumulators = map updated (take idx' olds) ++ drop idx' olds).
  { rewrite Htake, HtakeP, HdropP, map_app, HPu. by rewrite <- app_assoc. }
  assert (Hlo' : Forall (fun a => Taat.doc_id a < d) (take idx' olds)).
  { rewrite HtakeP. apply Forall_app. split; [|done].
    eapply Forall_impl; [exact Hlo|]. intros a Ha. cbn beta in Ha. lia. }
  assert (Hwrap : wrap32 (d + 1) = d + 1).
  { unfold wrap32. rewrite Z.mod_small; [done|]. unfold u32_max in *. lia. }
  rewrite Hwrap.
  assert (Hdocs' : Conjunction.docs l0 = (seen ++ [d]) ++ todo').
  { by rewrite <- app_assoc. }
  assert (Hdone' : Forall (fun x => x < d + 1) (seen ++ [d])).
  { apply Forall_app. split.
    - eapply Forall_impl; [exact Hdone|]. intros x Hx. cbn beta in Hx. lia.
    - repeat constructor. lia. }
  assert (Hfuel' : (length todo' < fuel)%nat) by (cbn [length] in Hfuel; lia).
  assert (Hc' : d + 1 = List.last (seen ++ [d]) (-1) + 1) by (by rewrite last_last).
  assert (Hf' : Conjunction.follows l0 l1 (d + 1)) by (by eapply follows_mono; [|exact Hfd]; lia).
  assert (Hpartial : Taat.partial_bm25_sum GetDocLen collection_average_doc_len_ idf_t l1 d
                     = QP.bm25 collection_average_doc_len_ idf_t
                         (Conjunction.frequency l0 d) (GetDocLen d)).
  { unfold Taat.partial_bm25_sum. by rewrite Hfreq. }
  assert (Hbit : Taat.term_bit l1 = Taat.term_bit l0).
  { unfold Taat.term_bit. congruence. }
  rewrite Hpartial, Hbit.
  assert (HsP : StronglySorted Z.lt (map Taat.doc_id P)).
  { pose proof (drop_sorted idx) as H. rewrite HdropP, map_app in H.
    by apply sorted_lt_app_inv in H as (H' & _). }
  assert (Hchain : forall x thr2 top2,
            TopK.KthScore alg (Taat.curr_score x)
              (TopK.KthScore_calls alg k (map Taat.curr_score P) top ntop thr).2
              (ntop + (idx' - idx))
              k = (thr2, top2) ->
            TopK.KthScore_calls alg k (map Taat.curr_score (F ++ P ++ [x])) top0 0 F32.zero
            = (thr2, top2)).
  { intros x thr2 top2 HK.
    rewrite map_app, KthScore_calls_app, HF. cbn [fst snd].
    rewrite map_app, KthScore_calls_app. rewrite !length_map, HlenP, <- Hntop.
    cbn [map TopK.KthScore_calls plus]. rewrite HK. done. }
  assert (HsF' : forall x, Taat.doc_id x = d ->
            StronglySorted Z.lt (map Taat.doc_id (F ++ P ++ [x]))).
  { intros x Hx. rewrite !map_app. apply sorted_lt_app; [done| |].
    - apply sorted_lt_app; [done|repeat constructor|].
      intros y z Hy Hz. apply list_elem_of_singleton in Hz. subst z.
      apply list_elem_of_fmap in Hy as (a & -> & Ha).
      rewrite Forall_forall in HP. specialize (HP a Ha). cbn [map]. lia.
    - intros y z Hy Hz. apply list_elem_of_fmap in Hy as (a & -> & Ha).
      rewrite Forall_forall in HcF. specialize (HcF a Ha).
      apply elem_of_app in Hz as [Hz|Hz].
      + apply list_elem_of_fmap in Hz as (b & -> & Hb).
        rewrite Forall_forall in HPc. specialize (HPc b Hb). lia.
      + apply list_elem_of_singleton in Hz. subst z. cbn [map]. lia. }
  assert (HcF' : forall x, Taat.doc_id x = d ->
            Forall (fun a => Taat.doc_id a < d + 1) (F ++ P ++ [x])).
  { intros x Hx. apply Forall_app. split; [|apply Forall_app; split].
    - eapply Forall_impl; [exact HcF|]. intros a Ha. cbn beta in Ha. lia.
    - eapply Forall_impl; [exact HP|]. intros a Ha. cbn beta in Ha. lia.
    - repeat constructor. lia. }
  match goal with |- context [(idx' <? n)%nat && ?t] => destruct ((idx' <? n)%nat && t) eqn:Etest end.
  - (* the document has an accumulator *)
    apply andb_true_iff in Etest as [Elt Eeq]. apply Nat.ltb_lt in Elt.
    destruct (lookup_lt_is_Some_2 olds idx' Elt) as [a Ha].
    assert (Hacc : accumulators !! idx' = Some a).
    { rewrite (olds_same accumulators idx Hidx Htake idx') by lia. done. }
    rewrite (nth_lookup_Some _ _ Taat.no_accumulator _ Hacc) in *.
    apply Z.eqb_eq in Eeq.
    assert (Hdrop' : drop idx' olds = a :: drop (S idx') olds) by (by apply drop_S).
    assert (Hupd : {| Taat.doc_id := Taat.doc_id a;
                      Taat.curr_score :=
                        F32.add (Taat.curr_score a)
                          (QP.bm25 collection_average_doc_len_ idf_t
                             (Conjunction.frequency l0 d) (GetDocLen d));
                      Taat.term_bitmap := Z.lor (Taat.term_bitmap a) (Taat.term_bit l0) |}
                   = updated a).
    { unfold Taat.updated. rewrite Eeq.
      by rewrite (proj2 (contains_docs d l0) Hin). }
    rewrite Hupd.
    destruct (TopK.KthScore alg (Taat.curr_score (updated a))
                (TopK.KthScore_calls alg k (map Taat.curr_score P) top ntop thr).2
                (ntop + (idx' - idx)) k) as [thr2 top2] eqn:HK.
    assert (Hnotnew : is_new d = false).
    { apply negb_false_iff, existsb_exists. exists a.
      split; [apply list_elem_of_In; by eapply list_elem_of_lookup_2|by apply Z.eqb_eq]. }
    cbn beta in Hnotnew.
    destruct (IH l1 (<[idx' := updated a]> accumulators) m top2 (S idx') (d + 1)
                (S (ntop + (idx' - idx))) thr2 (seen ++ [d]) todo' (F ++ P ++ [updated a]))
      as (accs2 & m2 & thr3 & top3 & l3 & F3 & Hrun & Hm2 & Hlen2 & Ht2 & Hn2 & HF3 & HsF3 & HpF3);
      try done.
    + rewrite length_insert. lia.
    + by rewrite length_insert.
    + rewrite (take_S_r _ _ a) by done. apply Forall_app. split.
      * eapply Forall_impl; [exact Hlo'|]. intros b Hb. cbn beta in Hb. lia.
      * repeat constructor. lia.
    + pose proof (drop_sorted idx') as H. rewrite Hdrop' in H. cbn [map] in H.
      apply StronglySorted_inv in H as [_ H]. apply Forall_forall. intros b Hb.
      rewrite Forall_forall in H.
      specialize (H (Taat.doc_id b) ltac:(apply list_elem_of_fmap; by exists b)). lia.
    + rewrite take_insert_lt by lia. rewrite Hmid, Hdrop'.
      rewrite insert_app_r_alt by (rewrite length_map, length_take; lia).
      rewrite length_map, length_take.
      replace (idx' - idx' `min` n)%nat with 0%nat by lia. cbn [list_insert].
      rewrite (take_S_r _ _ a) by done. rewrite map_app. cbn [map].
      by rewrite <- app_assoc.
    + rewrite drop_insert_lt by lia. rewrite Hnew, List.filter_app. cbn [List.filter].
      rewrite Hnotnew. by rewrite app_nil_r.
    + rewrite !length_app, HlenP. cbn [length]. lia.
    + apply Hchain. done.
    + apply HsF'. by rewrite updated_doc_id.
    + apply HcF'. by rewrite updated_doc_id.
    + rewrite HpF. rewrite (take_S_r _ _ a) by done. rewrite HtakeP, !map_app, HPu.
      cbn [map]. rewrite List.filter_app. cbn [List.filter]. rewrite Hnotnew, app_nil_r.
      rewrite <- !app_assoc. apply Permutation_app_head.
      rewrite (app_assoc P). apply Permutation_app_comm.
    + exists accs2, m2, thr3, top3, l3, F3. rewrite length_insert in Hlen2.
      split; [exact Hrun|]. done.
  - (* a new accumulator *)
    assert (Hne : Forall (fun a => d + 1 <= Taat.doc_id a) (drop idx' olds)).
    { destruct (drop idx' olds) as [|a rest] eqn:Hdrop'; [constructor|].
      assert (Ha : olds !! idx' = Some a).
      { rewrite <- (Nat.add_0_r idx'), <- lookup_drop, Hdrop'. done. }
      assert (Elt : (idx' < n)%nat) by (by eapply lookup_lt_Some).
      assert (Hacc : accumulators !! idx' = Some a).
      { rewrite (olds_same accumulators idx Hidx Htake idx') by lia. done. }
      rewrite (nth_lookup_Some _ _ Taat.no_accumulator _ Hacc) in Etest.
      apply andb_false_iff in Etest as [E|E]; [apply Nat.ltb_ge in E; lia|].
      apply Z.eqb_neq in E.
      pose proof (drop_sorted idx') as H. rewrite Hdrop' in H. cbn [map] in H.
      apply StronglySorted_inv in H as [_ H].
      apply Forall_cons in Hhi' as [Hhia _].
      constructor; [lia|]. apply Forall_forall. intros b Hb. rewrite Forall_forall in H.
      specialize (H (Taat.doc_id b) ltac:(apply list_elem_of_fmap; by exists b)). lia. }
    assert (Hisnew : is_new d = true).
    { apply (proj2 (is_new_spec d)). intros Hd'. apply list_elem_of_fmap in Hd' as (a & Hda & Ha).
      rewrite <- (take_drop idx' olds) in Ha. apply elem_of_app in Ha as [Ha|Ha].
      - rewrite Forall_forall in Hlo'. specialize (Hlo' a Ha). lia.
      - rewrite Forall_forall in Hne. specialize (Hne a Ha). lia. }
    cbn beta in Hisnew.
    pose proof (resize_spec accumulators m ltac:(lia) H0) as (HlenR & HmR & HtakeR).
    cbn zeta in HlenR, HmR, HtakeR.
    set (accsR := if (length accumulators <=? m)%nat then Taat.resize accumulators m
                  else accumulators) in *.
    change ({| Taat.doc_id := d;
               Taat.curr_score :=
                 QP.bm25 collection_average_doc_len_ idf_t (Conjunction.frequency l0 d)
                   (GetDocLen d);
               Taat.term_bitmap := Taat.term_bit l0 |}) with (inserted d).
    destruct (TopK.KthScore alg (Taat.curr_score (inserted d))
                (TopK.KthScore_calls alg k (map Taat.curr_score P) top ntop thr).2
                (ntop + (idx' - idx)) k) as [thr2 top2] eqn:HK.
    destruct (IH l1 (<[m := inserted d]> accsR) (S m) top2 idx' (d + 1)
                (S (ntop + (idx' - idx))) thr2 (seen ++ [d]) todo' (F ++ P ++ [inserted d]))
      as (accs2 & m2 & thr3 & top3 & l3 & F3 & Hrun & Hm2 & Hlen2 & Ht2 & Hn2 & HF3 & HsF3 & HpF3);
      try done.
    + lia.
    + rewrite length_insert. lia.
    + rewrite length_insert. lia.
    + eapply Forall_impl; [exact Hlo'|]. intros b Hb. cbn beta in Hb. lia.
    + rewrite take_insert_ge by lia. rewrite <- Hmid.
      transitivity (take n (take m accsR)).
      * rewrite take_take. f_equal. lia.
      * rewrite HtakeR, take_take. f_equal. lia.
    + rewrite drop_insert_ge by lia.
      replace (S m - n)%nat with (S (m - n)) by lia.
      rewrite (take_S_r _ _ (inserted d)).
      2:{ apply list_lookup_insert_eq. rewrite length_drop. lia. }
      rewrite take_insert_ge by lia.
      rewrite List.filter_app. cbn [List.filter]. rewrite Hisnew, map_app. cbn [map].
      f_equal. rewrite <- Hnew. rewrite !take_drop_commute.
      replace (n + (m - n))%nat with m by lia. by rewrite HtakeR.
    + rewrite !length_app, HlenP. cbn [length]. lia.
    + apply Hchain. done.
    + by apply HsF'.
    + by apply HcF'.
    + rewrite HpF. rewrite HtakeP, !map_app, HPu.
      rewrite List.filter_app. cbn [List.filter]. rewrite Hisnew, map_app. cbn [map].
      rewrite <- !app_assoc. apply Permutation_app_head.
      rewrite !app_assoc. apply Permutation_app_tail. apply Permutation_app_comm.
    + exists accs2, m2, thr3, top3, l3, F3. rewrite length_insert in Hlen2.
      split; [exact Hrun|]. split; [done|]. split; [lia|]. done.
Qed.

End ListLayerOr.

Lemma ascending_filter (f : Taat.Accumulator -> bool) (l : list Taat.Accumulator) :
  StronglySorted Z.lt (map Taat.doc_id l) ->
  StronglySorted Z.lt (map Taat.doc_id (List.filter f l)).
Proof.
  induction l as [|a l IH]; intros Hs; [constructor|].
  cbn [map] in Hs. apply StronglySorted_inv in Hs as [Hs Ha]. cbn [List.filter].
  destruct (f a); [|by apply IH]. cbn [map]. constructor; [by apply IH|].
  rewrite Forall_forall in *. intros x Hx. apply Ha.
  apply list_elem_of_fmap in Hx as (y & -> & Hy). apply list_elem_of_fmap. exists y.
  split; [done|]. apply list_elem_of_In, filter_In in Hy as [Hy _]. by apply list_elem_of_In.
Qed.

(** X23. [ProcessListLayer], for a freshly opened list and a table whose
    first [num_accumulators] accumulators are in ascending docID order,
    leaves a table in ascending docID order that holds the old
    accumulators (those of documents in the list with the BM25 term score
    added and the bit of the term set) and one new accumulator for every
    other document of the list; the array is never shorter than before and
    long enough for them.  The threshold returned is what [KthScore] gives
    for the scores of the accumulators up to the last docID of the list,
    in docID order: the old accumulators after it are not counted. *)
Theorem ProcessListLayer_merges (alg : Stl.algorithms) (inplace_merge : Taat.inplace_merge_t)
    (log10 : spec_float -> spec_float) (GetDocLen : Z -> Z)
    (collection_average_doc_len_ collection_total_num_docs_ : Z)
    (l0 : ListData.t) (accumulators : list Taat.Accumulator) (num_accumulators : nat)
    (top_k_scores : list spec_float) (k : nat) :
  Stl.conforming alg -> Taat.inplace_merge_conforming inplace_merge ->
  Conjunction.opened l0 ->
  (0 < length accumulators)%nat -> (num_accumulators <= length accumulators)%nat ->
  StronglySorted Z.lt (map Taat.doc_id (take num_accumulators accumulators)) ->
  Forall (fun a => 0 <= Taat.doc_id a < u32_max) (take num_accumulators accumulators) ->
  let olds := take num_accumulators accumulators in
  let table :=
    map (Taat.updated log10 GetDocLen collection_average_doc_len_
           collection_total_num_docs_ l0) olds
    ++ map (Taat.inserted log10 GetDocLen collection_average_doc_len_
              collection_total_num_docs_ l0)
         (List.filter (fun d => negb (existsb (fun a => Taat.doc_id a =? d) olds))
            (Conjunction.docs l0)) in
  exists accumulators' threshold top_k_scores' l',
    Taat.ProcessListLayer alg inplace_merge log10 GetDocLen collection_average_doc_len_
      collection_total_num_docs_ l0 accumulators num_accumulators top_k_scores k
    = Some (threshold, accumulators', length table, top_k_scores', l') /\
    (length accumulators <= length accumulators')%nat /\
    (length table <= length accumulators')%nat /\
    Permutation (take (length table) accumulators') table /\
    StronglySorted Z.lt (map Taat.doc_id (take (length table) accumulators')) /\
    (threshold, top_k_scores')
    = TopK.KthScore_calls alg k
        (map Taat.curr_score
           (List.filter
              (fun a => Taat.doc_id a <=? List.last (Conjunction.docs l0) (-1))
              (take (length table) accumulators')))
        top_k_scores 0 F32.zero.
Proof.
  intros Halg Hmerge (Hpos & Hsorted & Hrange) H0 Hnum Holds Holdr olds table.
  assert (Hn : length olds = num_accumulators).
  { unfold olds. rewrite length_take. lia. }
  unfold Taat.ProcessListLayer.
  assert ((0 <? length accumulators)%nat && (num_accumulators <=? length accumulators)%nat
          = true) as ->.
  { apply andb_true_iff. split; [by apply Nat.ltb_lt|by apply Nat.leb_le]. }
  destruct (ProcessListLayer_loop_spec alg log10 GetDocLen collection_average_doc_len_
              collection_total_num_docs_ l0 Hsorted Hrange olds k top_k_scores Holds
              (S (length (ListData.postings l0))) l0 accumulators num_accumulators
              top_k_scores 0%nat 0 0%nat F32.zero [] (Conjunction.docs l0) [])
    as (accsL & m' & thr' & top' & l' & F' & Hrun & Hm' & HlenL & HtakeL & HnewL & HF' & HsF'
        & HpF'); try done.
  { eapply Forall_impl; [exact Hrange|]. intros x Hx. cbn beta in Hx. lia. }
  { unfold Conjunction.docs. rewrite length_map. lia. }
  { split; [done|]. split; [done|]. rewrite Hpos. constructor. }
  { lia. }
  { lia. }
  { rewrite drop_0. eapply Forall_impl; [exact Holdr|]. intros a Ha. cbn beta in Ha. lia. }
  { rewrite take_0, drop_0. cbn [map app]. by rewrite Hn. }
  { rewrite Hn, Nat.sub_diag, take_0. done. }
  { constructor. }
  rewrite Hn in *. rewrite Hrun.
  set (U := map (Taat.updated log10 GetDocLen collection_average_doc_len_
                   collection_total_num_docs_ l0) olds) in *.
  set (W := map (Taat.inserted log10 GetDocLen collection_average_doc_len_
                   collection_total_num_docs_ l0)
              (List.filter (fun d => negb (existsb (fun a => Taat.doc_id a =? d) olds))
                 (Conjunction.docs l0))) in *.
  assert (HlenU : length U = num_accumulators) by (unfold U; by rewrite length_map).
  assert (HlenW : length W = (m' - num_accumulators)%nat).
  { rewrite <- HnewL, length_take, length_drop. lia. }
  assert (Hm'' : m' = length table).
  { unfold table. rewrite length_app, HlenU, HlenW. lia. }
  destruct (Stl.sort_spec _ Halg _ _ Taat.AccumulatorCompare W AccumulatorCompare_swo
              ltac:(by apply Forall_True)) as [HpW HsW].
  set (sorted_new := Stl.sort alg Taat.Accumulator Taat.AccumulatorCompare W) in *.
  assert (HlenS : length sorted_new = (m' - num_accumulators)%nat).
  { by rewrite (Permutation_length HpW). }
  assert (Hsortnew : Taat.sort_new_accumulators alg accsL num_accumulators m'
                     = U ++ sorted_new ++ drop m' accsL).
  { unfold Taat.sort_new_accumulators, Stl.on_range. rewrite HtakeL, HnewL.
    rewrite drop_drop. do 3 f_equal. lia. }
  rewrite Hsortnew. unfold Stl.on_range.
  assert (Htk : take m' (U ++ sorted_new ++ drop m' accsL) = U ++ sorted_new).
  { rewrite app_assoc. apply take_app_length'. rewrite length_app, HlenU, HlenS. lia. }
  assert (Hdr : drop m' (U ++ sorted_new ++ drop m' accsL) = drop m' accsL).
  { rewrite app_assoc. apply drop_app_length'. rewrite length_app, HlenU, HlenS. lia. }
  rewrite Htk, Hdr.
  assert (HsU : StronglySorted Z.lt (map Taat.doc_id U)).
  { unfold U. by rewrite (map_doc_id_updated log10 GetDocLen collection_average_doc_len_
                            collection_total_num_docs_ l0). }
  destruct (Hmerge _ (fun _ => True) Taat.AccumulatorCompare num_accumulators
              (U ++ sorted_new) AccumulatorCompare_swo ltac:(by apply Forall_True))
    as [Hpm Hsm].
  { rewrite take_app_length' by done. by apply ascending_is_sorted. }
  { rewrite drop_app_length' by done. done. }
  set (merged := inplace_merge Taat.Accumulator Taat.AccumulatorCompare num_accumulators
                   (U ++ sorted_new)) in *.
  assert (Hptable : Permutation merged table).
  { rewrite Hpm. unfold table. fold U. fold W. by rewrite HpW. }
  assert (Hlenm : length merged = length table) by (by rewrite Hptable).
  assert (Hnodup : NoDup (map Taat.doc_id table)).
  { unfold table. fold U. fold W. rewrite map_app. apply NoDup_app. split; [|split].
    - by apply sorted_lt_NoDup.
    - intros x Hx HxW. unfold U in Hx.
      rewrite (map_doc_id_updated log10 GetDocLen collection_average_doc_len_
                 collection_total_num_docs_ l0) in Hx.
      unfold W in HxW.
      rewrite (map_doc_id_news log10 GetDocLen collection_average_doc_len_
                 collection_total_num_docs_ l0 olds (Conjunction.docs l0)) in HxW.
      apply list_elem_of_In, filter_In in HxW as [_ HxW].
      by apply (is_new_spec olds x) in HxW.
    - unfold W.
      rewrite (map_doc_id_news log10 GetDocLen collection_average_doc_len_
                 collection_total_num_docs_ l0 olds (Conjunction.docs l0)).
      by apply NoDup_list_filter, sorted_lt_NoDup. }
  assert (Hsmerged : StronglySorted Z.lt (map Taat.doc_id merged)).
  { apply is_sorted_ascending; [done|].
    assert (Hpmap : map Taat.doc_id merged ≡ₚ map Taat.doc_id table)
      by (by apply Permutation_map).
    by rewrite Hpmap. }
  assert (Htakem : take (length table) (merged ++ drop m' accsL) = merged).
  { by apply take_app_length'. }
  exists (merged ++ drop m' accsL), thr', top', l'.
  rewrite <- Hm'' at 1. split; [done|]. rewrite Htakem.
  split; [rewrite length_app, length_drop; lia|].
  split; [rewrite length_app, length_drop; lia|].
  split; [done|]. split; [done|].
  rewrite <- HF'. do 2 f_equal.
  apply ascending_perm_eq; [done|by apply ascending_filter|].
  rewrite HpF'. apply filter_perm. symmetry. exact Hptable.
Qed.

Lemma reference_inplace_merge_conforming :
  Taat.inplace_merge_conforming Taat.reference_inplace_merge.
Proof.
  intros A dom comp middle l Hswo Hdom _ _. unfold Taat.reference_inplace_merge.
  exact (Stl.sort_spec _ reference_conforming A dom comp l Hswo Hdom).
Qed.

Lemma ProcessListLayer_merges_witness :
  let l0 := ListData.OpenList false Toy.alpha 0 0 in
  let old := {| Taat.doc_id := 2; Taat.curr_score := F32.of_Z 1; Taat.term_bitmap := 2 |} in
  let table :=
    [Taat.updated Toy.log10 Toy.GetDocLen 2 2 l0 old;
     Taat.inserted Toy.log10 Toy.GetDocLen 2 2 l0 1] in
  exists accumulators' threshold top_k_scores' l',
    Taat.ProcessListLayer Stl.reference Taat.reference_inplace_merge Toy.log10
      Toy.GetDocLen 2 2 l0 [old] 1 [F32.zero; F32.zero] 2
    = Some (threshold, accumulators', 2%nat, top_k_scores', l') /\
    Permutation (take 2 accumulators') table /\
    StronglySorted Z.lt (map Taat.doc_id (take 2 accumulators')).
Proof.
  intros l0 old table.
  destruct (ProcessListLayer_merges Stl.reference Taat.reference_inplace_merge Toy.log10
              Toy.GetDocLen 2 2 l0 [old] 1 [F32.zero; F32.zero] 2 reference_conforming
              reference_inplace_merge_conforming)
    as (accumulators' & threshold & top' & l' & Hrun & _ & _ & Hp & Hs & _).
  - split; [reflexivity|]. split.
    + repeat constructor.
    + repeat constructor; unfold u32_max; cbn; lia.
  - cbn. lia.
  - cbn. lia.
  - cbn. repeat constructor.
  - cbn. repeat constructor; unfold u32_max; cbn; lia.
  - exists accumulators', threshold, top', l'.
    split; [exact Hrun|]. split; [exact Hp|exact Hs].
Defined.

(** ** WAND and MaxScore on a query of one term *)

Lemma holders_single (l : ListData.t) (d : Z) :
  d ∈ Conjunction.docs l -> Disjunction.holders [l] d = [0%nat].
Proof.
  intros Hd. unfold Disjunction.holders. cbn.
  by rewrite (proj2 (contains_docs d l) Hd).
Qed.

Section OneTerm.

Context (alg : Stl.algorithms) (log10 : spec_float -> spec_float) (GetDocLen : Z -> Z)
  (collection_average_doc_len_ collection_total_num_docs_ : Z)
  (index_overlapping_layers_ : bool).
Hypothesis Halg : Stl.conforming alg.

Local Abbreviation score l :=
  (Disjunction.score log10 GetDocLen collection_average_doc_len_
     collection_total_num_docs_ [l] [0%nat]).

(** The outcome of [MergeLists] on one list: [S] holds every document of
    the list with its score, and the top of [results] the best of them. *)
Local Abbreviation outcome :=
  (fun (l : ListData.t) (k : nat) (S results' : list QP.Result) =>
   length results' = k /\
   map snd S = Conjunction.docs l /\
   Forall (fun r : QP.Result => fst r = score l (snd r)) S /\
   Stl.is_sorted QP.ResultCompare (take (Nat.min k (length S)) results') /\
   exists dropped,
     Permutation (take (Nat.min k (length S)) results' ++ dropped) S /\
     forall x y, x ∈ dropped -> y ∈ take (Nat.min k (length S)) results' ->
       SFltb (fst y) (fst x) = false).

Lemma merge_one_layer_spec (lex : Lex.LexiconData) (layer_num : Z)
    (results : list QP.Result) (k : nat) :
  let l := ListData.OpenList index_overlapping_layers_ lex layer_num 0 in
  (0 < k)%nat -> length results = k -> Conjunction.opened l ->
  (forall d, d ∈ Conjunction.docs l -> TopK.not_nan (score l d)) ->
  exists (S : list QP.Result) results',
    Pruned.merge_one_layer alg log10 GetDocLen collection_average_doc_len_
      collection_total_num_docs_ index_overlapping_layers_ lex layer_num results k
    = (length S, results') /\ outcome l k S results'.
Proof.
  intros l Hk Hres Hopen Hnan.
  destruct (MergeLists_spec_length alg log10 GetDocLen collection_average_doc_len_
              collection_total_num_docs_ [0%nat] [l] results k [l] Halg Hk Hres)
    as (S & results' & st' & HM & Hlen & Hs & Hd & Hsc & Hsorted & Htop).
  { apply NoDup_singleton. }
  { constructor; [done|constructor]. }
  { constructor; [exact Hopen|constructor]. }
  { intros d order (l' & Hl' & Hdl) Hperm.
    apply list_elem_of_singleton in Hl'. subst l'.
    rewrite (holders_single l d Hdl) in Hperm. symmetry in Hperm.
    apply Permutation_length_1_inv in Hperm as ->. by apply Hnan. }
  exists S, results'. split.
  { unfold Pruned.merge_one_layer. fold l. by rewrite HM. }
  split; [done|]. split; [|split; [|split; [exact Hsorted|exact Htop]]].
  - apply sorted_same_elements; [done|by destruct Hopen as (_ & H & _)|].
    intros d. rewrite Hd. split.
    + intros (l' & Hl' & Hdl). apply list_elem_of_singleton in Hl'. by subst l'.
    + intros Hdl. exists l. split; [by left|done].
  - rewrite Forall_forall in Hsc. apply Forall_forall. intros r Hr.
    destruct (Hsc r Hr) as (order & Hperm & Hscore).
    assert (Hin : snd r ∈ Conjunction.docs l).
    { destruct (proj1 (Hd (snd r))) as (l' & Hl' & Hdl).
      - apply list_elem_of_fmap. by exists r.
      - apply list_elem_of_singleton in Hl'. by subst l'. }
    rewrite (holders_single l _ Hin) in Hperm. symmetry in Hperm.
    apply Permutation_length_1_inv in Hperm as ->. done.
Qed.

(** Sorting the top of [results] once more leaves the outcome as it is. *)
Lemma sort_results_outcome (l : ListData.t) (k : nat) (S results' : list QP.Result) :
  (forall d, d ∈ Conjunction.docs l -> TopK.not_nan (score l d)) ->
  outcome l k S results' ->
  outcome l k S (QP.sort_results alg results' k (length S)).
Proof.
  intros Hnan (Hlen & Hdocs & Hsc & Hsorted & D & Hperm & HD).
  set (m := Nat.min k (length S)) in *.
  assert (Hdom : Forall (fun r : QP.Result => TopK.not_nan (fst r)) (take m results')).
  { apply Forall_forall. intros r Hr.
    assert (HrS : r ∈ S) by (rewrite <- Hperm; apply elem_of_app; by left).
    rewrite Forall_forall in Hsc. rewrite (Hsc r HrS). apply Hnan.
    rewrite <- Hdocs. apply list_elem_of_fmap. by exists r. }
  destruct (Stl.sort_spec _ Halg _ _ QP.ResultCompare (take m results') ResultCompare_swo Hdom)
    as [Hsp Hss].
  assert (Htake : take m (QP.sort_results alg results' k (length S))
                  = Stl.sort alg _ QP.ResultCompare (take m results')).
  { unfold QP.sort_results. fold m. apply on_range_take; [lia|].
    rewrite (Permutation_length Hsp), length_take. lia. }
  split.
  { unfold QP.sort_results, Stl.on_range. fold m.
    rewrite length_app, (Permutation_length Hsp), length_take, length_drop. lia. }
  split; [done|]. split; [done|]. rewrite Htake. split; [done|].
  exists D. split.
  - by rewrite Hsp.
  - intros x y Hx Hy. rewrite Hsp in Hy. by apply HD.
Qed.

End OneTerm.

(** X24. For a query of one term, [MergeListsWand] and
    [MergeListsMaxScore] run the DAAT-OR evaluator on the first layer of
    the term and, when the term has two layers and the first holds fewer
    than [k] documents, once more on its last layer.  They return the
    number of documents of the layer used last (so the size of the first
    layer when it holds [k] documents or more), and the results are the
    best of the documents of that layer, in descending order of score. *)
Theorem pruned_one_term (alg : Stl.algorithms) (log10 : spec_float -> spec_float)
    (GetDocLen : Z -> Z) (collection_average_doc_len_ collection_total_num_docs_ : Z)
    (several_terms :
       list Lex.LexiconData -> list QP.Result -> nat -> bool -> nat * list QP.Result)
    (lex : Lex.LexiconData) (results : list QP.Result) (k : nat) (two_tiered : bool) :
  let first := ListData.OpenList true lex 0 0 in
  let last := ListData.OpenList true lex (Lex.num_layers lex - 1) 0 in
  let used :=
    if (Lex.num_layers lex =? 2) && (length (Conjunction.docs first) <? k)%nat
    then last else first in
  let score :=
    Disjunction.score log10 GetDocLen collection_average_doc_len_
      collection_total_num_docs_ [used] [0%nat] in
  Stl.conforming alg -> (0 < k)%nat -> length results = k ->
  Conjunction.opened first -> Conjunction.opened last ->
  (forall l d, l ∈ [first; last] -> d ∈ Conjunction.docs l ->
     TopK.not_nan (Disjunction.score log10 GetDocLen collection_average_doc_len_
                     collection_total_num_docs_ [l] [0%nat] d)) ->
  exists (S : list QP.Result) results',
    Pruned.MergeListsWand alg log10 GetDocLen collection_average_doc_len_
      collection_total_num_docs_ true true 2 several_terms [lex] results k two_tiered
    = Some (length S, Nat.min (length S) k, results') /\
    Pruned.MergeListsMaxScore alg log10 GetDocLen collection_average_doc_len_
      collection_total_num_docs_ true true 2 several_terms [lex] results k two_tiered
    = Some (length S, Nat.min (length S) k, results') /\
    map snd S = Conjunction.docs used /\
    Forall (fun r : QP.Result => fst r = score (snd r)) S /\
    let top := take (Nat.min k (length S)) results' in
    Stl.is_sorted QP.ResultCompare top /\
    exists dropped,
      Permutation (top ++ dropped) S /\
      forall x y, x ∈ dropped -> y ∈ top -> SFltb (fst y) (fst x) = false.
Proof.
  intros first last used score Halg Hk Hres Hfirst Hlast Hnan.
  subst score used. subst first last. cbn zeta.
  set (first := ListData.OpenList true lex 0 0) in *.
  set (last := ListData.OpenList true lex (Lex.num_layers lex - 1) 0) in *.
  set (used := if (Lex.num_layers lex =? 2) && (length (Conjunction.docs first) <? k)%nat
               then last else first) in *.
  assert (Hnan1 : forall d, d ∈ Conjunction.docs first ->
            TopK.not_nan (Disjunction.score log10 GetDocLen collection_average_doc_len_
                            collection_total_num_docs_ [first] [0%nat] d)).
  { intros d Hd. apply Hnan; [left|done]. }
  assert (Hnan2 : forall d, d ∈ Conjunction.docs last ->
            TopK.not_nan (Disjunction.score log10 GetDocLen collection_average_doc_len_
                            collection_total_num_docs_ [last] [0%nat] d)).
  { intros d Hd. apply Hnan; [right; left|done]. }
  destruct (merge_one_layer_spec alg log10 GetDocLen collection_average_doc_len_
              collection_total_num_docs_ true Halg lex 0 results k Hk Hres Hfirst Hnan1)
    as (S1 & results1 & Hrun1 & Hout1).
  assert (Hused : exists (S : list QP.Result) results',
            Pruned.one_term alg log10 GetDocLen collection_average_doc_len_
              collection_total_num_docs_ true true lex results k = (length S, results') /\
            length results' = k /\
            map snd S = Conjunction.docs used /\
            Forall (fun r : QP.Result =>
                      fst r = Disjunction.score log10 GetDocLen collection_average_doc_len_
                                collection_total_num_docs_ [used] [0%nat] (snd r)) S /\
            Stl.is_sorted QP.ResultCompare (take (Nat.min k (length S)) results') /\
            exists dropped,
              Permutation (take (Nat.min k (length S)) results' ++ dropped) S /\
              forall x y, x ∈ dropped -> y ∈ take (Nat.min k (length S)) results' ->
                SFltb (fst y) (fst x) = false).
  { unfold Pruned.one_term. cbn [andb].
    assert (Hlen1 : length S1 = length (Conjunction.docs first)).
    { destruct Hout1 as (_ & Hd & _). fold first in Hd. by rewrite <- Hd, length_map. }
    fold first in Hrun1, Hout1. unfold used. rewrite <- Hlen1.
    destruct (Lex.num_layers lex =? 2) eqn:E2; cbn [andb].
    - rewrite Hrun1. destruct (length S1 <? k)%nat eqn:Elt.
      + destruct Hout1 as (Hlenr & _).
        destruct (merge_one_layer_spec alg log10 GetDocLen collection_average_doc_len_
                    collection_total_num_docs_ true Halg lex (Lex.num_layers lex - 1)
                    results1 k Hk Hlenr Hlast Hnan2) as (S2 & results2 & Hrun2 & Hout2).
        exists S2, results2. split; [exact Hrun2|exact Hout2].
      + exists S1, results1. split; [done|exact Hout1].
    - exists S1, results1. split; [exact Hrun1|]. exact Hout1. }
  destruct Hused as (S & results' & Hrun & Hout).
  assert (Hnanu : forall d, d ∈ Conjunction.docs used ->
            TopK.not_nan (Disjunction.score log10 GetDocLen collection_average_doc_len_
                            collection_total_num_docs_ [used] [0%nat] d)).
  { unfold used. destruct (_ && _); [exact Hnan2|exact Hnan1]. }
  pose proof (sort_results_outcome alg log10 GetDocLen collection_average_doc_len_
                collection_total_num_docs_ Halg used k S results' Hnanu Hout)
    as (_ & Hdocs & Hsc & Hsorted & Htop).
  exists S, (QP.sort_results alg results' k (length S)).
  assert (Heq : Pruned.MergeListsPruned alg log10 GetDocLen collection_average_doc_len_
                  collection_total_num_docs_ true true 2 several_terms [lex] results k
                  two_tiered
                = Some (length S, Nat.min (length S) k,
                        QP.sort_results alg results' k (length S))).
  { unfold Pruned.MergeListsPruned. cbn [andb Z.eqb Pos.eqb]. by rewrite Hrun. }
  split; [exact Heq|]. split; [exact Heq|]. split; [done|]. split; [done|].
  split; [exact Hsorted|exact Htop].
Qed.

Lemma pruned_one_term_witness :
  exists (S : list QP.Result) results',
    Pruned.MergeListsWand Stl.reference Toy.log10 LayeredExample.GetDocLen 10 34
      true true 2 (fun _ results _ _ => (0%nat, results)) [LayeredExample.a]
      (replicate 2 QP.no_result) 2 false
    = Some (length S, Nat.min (length S) 2, results') /\
    map snd S = [1; 2; 4].
Proof.
  destruct (pruned_one_term Stl.reference Toy.log10 LayeredExample.GetDocLen 10 34
              (fun _ results _ _ => (0%nat, results)) LayeredExample.a
              (replicate 2 QP.no_result) 2 false reference_conforming
              ltac:(lia) ltac:(reflexivity))
    as (S & results' & Hrun & _ & Hdocs & _).
  - split; [reflexivity|]. split.
    + change (StronglySorted Z.lt [1]). repeat constructor.
    + change (Forall (fun d => 0 <= d < u32_max) [1]).
      repeat constructor; unfold u32_max; lia.
  - split; [reflexivity|]. split.
    + change (StronglySorted Z.lt [1; 2; 4]). repeat constructor; lia.
    + change (Forall (fun d => 0 <= d < u32_max) [1; 2; 4]).
      repeat constructor; unfold u32_max; lia.
  - intros l d Hl Hd. apply elem_of_cons in Hl as [->|Hl].
    + change (d ∈ [1]) in Hd. apply list_elem_of_singleton in Hd. subst d.
      vm_compute. reflexivity.
    + apply list_elem_of_singleton in Hl. subst l.
      change (d ∈ [1; 2; 4]) in Hd.
      apply elem_of_cons in Hd as [->|Hd]; [vm_compute; reflexivity|].
      apply elem_of_cons in Hd as [->|Hd]; [vm_compute; reflexivity|].
      apply list_elem_of_singleton in Hd. subst d. vm_compute. reflexivity.
  - exists S, results'. split; [exact Hrun|exact Hdocs].
Defined.

(** ** From the query line to the ranked results *)

Lemma omap_all_Some {A B : Type} (f : A -> option B) (l : list A) :
  Forall (fun x => is_Some (f x)) l -> length (omap f l) = length l.
Proof.
  induction 1 as [|x l [y Hy] _ IH]; [done|]. csimpl. rewrite Hy. csimpl. by rewrite IH.
Qed.

Section EndToEnd.
Context (alg : Stl.algorithms) (log10 : spec_float -> spec_float) (GetDocLen : Z -> Z)
  (collection_average_doc_len_ collection_total_num_docs_ : Z)
  (index_overlapping_layers_ : bool)
  (IntersectListsTopPositions :
     list nat -> list QP.Result -> nat -> QP.store -> nat * list QP.Result * QP.store)
  (MAX_LIST_LAYERS : nat)
  (stop_words_ : gset string) (lexicon : gmap string Lex.LexiconData)
  (max_num_results_ : nat)
  (ProcessLayeredTaatPrunedEarlyTerminatedQuery :
     list Lex.LexiconData -> nat -> nat * nat * list QP.Result)
  (MergeListsWand MergeListsMaxScore :
     list Lex.LexiconData -> nat -> bool -> nat * nat * list QP.Result).

Local Abbreviation ExecuteQuery := (fun query_algorithm_ =>
  QP.ExecuteQuery alg log10 GetDocLen collection_average_doc_len_
     collection_total_num_docs_ index_overlapping_layers_ IntersectListsTopPositions
     MAX_LIST_LAYERS query_algorithm_ stop_words_ lexicon max_num_results_
     ProcessLayeredTaatPrunedEarlyTerminatedQuery MergeListsWand MergeListsMaxScore).
Local Abbreviation ProcessQuery :=
  (QP.ProcessQuery alg log10 GetDocLen collection_average_doc_len_
     collection_total_num_docs_ index_overlapping_layers_ IntersectListsTopPositions).
Local Abbreviation terms := (fun line : string =>
  QP.unique (Stl.sort alg _ String.ltb (QP.query_words stop_words_ line))).

(** What [ExecuteQuery] reports once [ProcessQuery] has run on the entries
    of the terms. *)
Lemma ExecuteQuery_ProcessQuery (a : QP.QueryAlgorithm) (line : string)
    (t n : nat) (r : list QP.Result) :
  let query_term_data := omap (fun w => lexicon !! w) (terms line) in
  QP.query_words stop_words_ line <> [] ->
  (a = QP.kDaatOr \/
   a = QP.kDaatAnd /\ Forall (fun w => is_Some (lexicon !! w)) (terms line)) ->
  ProcessQuery a query_term_data (replicate max_num_results_ QP.no_result) max_num_results_
  = Some (t, n, r) ->
  ExecuteQuery a line
  = Some {| QP.lexicon_lookups := terms line;
            QP.evaluator_call := Some (a, query_term_data);
            QP.results_size := n;
            QP.reported_total_num_results := t;
            QP.ranked_results := take n r |}.
Proof.
  intros qtd Hne Ha Hrun. cbn beta. unfold QP.ExecuteQuery.
  assert ((length (QP.query_words stop_words_ line) =? 0)%nat = false) as ->.
  { apply Nat.eqb_neq. intros H. by apply length_zero_iff_nil in H. }
  fold qtd.
  destruct Ha as [->|[-> Hall]]; cbn [QP.processing_semantics].
  - rewrite Nat.eqb_refl. unfold QP.run_query_algorithm. by rewrite Hrun.
  - assert (Hlen : length qtd = length (terms line)).
    { unfold qtd. by apply omap_all_Some. }
    cbn beta in Hlen. rewrite Hlen, Nat.eqb_refl. unfold QP.run_query_algorithm.
    by rewrite Hrun.
Qed.


Hypothesis Halg : Stl.conforming alg.

(** X25. A query under [kDaatOr], from the line to the ranked results:
    the terms of the line that the lexicon knows are looked up, the last
    layer of each is opened, and the number of documents reported is the
    number of documents that occur in at least one of these layers.  The
    ranked results are the [min(total, max_num_results_)] best of these
    documents with their BM25 scores, in descending order of score. *)
Theorem ExecuteQuery_DaatOr_ranking (line : string) :
  let query_term_data := omap (fun w => lexicon !! w) (terms line) in
  let st := QP.open_last_layers index_overlapping_layers_ query_term_data in
  QP.query_words stop_words_ line <> [] ->
  (0 < max_num_results_)%nat ->
  Forall Conjunction.opened st ->
  (forall d order, (exists l, l ∈ st /\ d ∈ Conjunction.docs l) ->
     Permutation order (Disjunction.holders st d) ->
     TopK.not_nan (Disjunction.score log10 GetDocLen collection_average_doc_len_
                     collection_total_num_docs_ st order d)) ->
  exists (e : QP.execution) (S : list QP.Result),
    ExecuteQuery QP.kDaatOr line = Some e /\
    QP.evaluator_call e = Some (QP.kDaatOr, query_term_data) /\
    QP.reported_total_num_results e = length S /\
    QP.results_size e = Nat.min (length S) max_num_results_ /\
    length (QP.ranked_results e) = QP.results_size e /\
    StronglySorted Z.lt (map snd S) /\
    (forall d, d ∈ map snd S <-> exists l, l ∈ st /\ d ∈ Conjunction.docs l) /\
    Forall (fun r : QP.Result =>
              exists order, Permutation order (Disjunction.holders st (snd r)) /\
                fst r = Disjunction.score log10 GetDocLen collection_average_doc_len_
                          collection_total_num_docs_ st order (snd r)) S /\
    Stl.is_sorted QP.ResultCompare (QP.ranked_results e) /\
    exists dropped,
      Permutation (QP.ranked_results e ++ dropped) S /\
      forall x y, x ∈ dropped -> y ∈ QP.ranked_results e -> SFltb (fst y) (fst x) = false.
Proof.
  intros qtd st Hne Hk Hopen Hnan.
  assert (Hlen : length st = length qtd).
  { unfold st, QP.open_last_layers. apply length_map. }
  destruct (MergeLists_spec_length alg log10 GetDocLen collection_average_doc_len_
              collection_total_num_docs_ (seq 0 (length qtd)) st
              (replicate max_num_results_ QP.no_result) max_num_results_ st Halg Hk)
    as (S & results' & st' & HM & Hlenr & Hs & Hd & Hsc & Hsorted & Htop);
    [by rewrite length_replicate|apply NoDup_seq| |done|done|].
  { rewrite <- Hlen. clear. apply Forall2_same_length_lookup_2; [by rewrite length_seq|].
    intros i p l Hp Hl. apply lookup_seq in Hp as [-> _]. done. }
  assert (Hrun : ProcessQuery QP.kDaatOr qtd (replicate max_num_results_ QP.no_result)
                   max_num_results_
                 = Some (length S, Nat.min (length S) max_num_results_, results')).
  { unfold QP.ProcessQuery. fold st. by rewrite HM. }
  pose proof (ExecuteQuery_ProcessQuery QP.kDaatOr line _ _ _ Hne (or_introl eq_refl) Hrun)
    as He.
  eexists _, S. split; [exact He|]. cbn [QP.evaluator_call QP.reported_total_num_results
    QP.results_size QP.ranked_results].
  rewrite (Nat.min_comm (length S)).
  split; [done|]. split; [done|]. split; [done|].
  split; [rewrite length_take; lia|].
  split; [done|]. split; [done|]. split; [done|]. split; [exact Hsorted|exact Htop].
Qed.

(** X26. A query under [kDaatAnd] all of whose terms the lexicon knows,
    from the line to the ranked results: the number of documents reported
    is the number of documents that occur in the last layer of every
    term, and the ranked results are the [min(total, max_num_results_)]
    best of these documents, in descending order of score, each with its
    BM25 score summed over the terms in the order in which the sort by
    list length leaves them, an order [ls] of which the statement says
    only that it permutes the lists. *)
Theorem ExecuteQuery_DaatAnd_ranking (line : string) :
  let query_term_data := omap (fun w => lexicon !! w) (terms line) in
  let st := QP.open_last_layers index_overlapping_layers_ query_term_data in
  let total := length (Conjunction.matches st) in
  QP.query_words stop_words_ line <> [] ->
  Forall (fun w => is_Some (lexicon !! w)) (terms line) ->
  (0 < max_num_results_)%nat ->
  Forall Conjunction.opened st ->
  (forall ls d, Permutation ls st -> d ∈ Conjunction.matches st ->
     TopK.not_nan (Conjunction.score log10 GetDocLen collection_average_doc_len_
                     collection_total_num_docs_ ls d)) ->
  exists (e : QP.execution) (ls : list ListData.t),
    Permutation ls st /\
    ExecuteQuery QP.kDaatAnd line = Some e /\
    QP.evaluator_call e = Some (QP.kDaatAnd, query_term_data) /\
    QP.reported_total_num_results e = total /\
    QP.results_size e = Nat.min total max_num_results_ /\
    Stl.is_sorted QP.ResultCompare (QP.ranked_results e) /\
    exists dropped,
      Permutation (QP.ranked_results e ++ dropped)
        (map (fun d => (Conjunction.score log10 GetDocLen collection_average_doc_len_
                          collection_total_num_docs_ ls d, d))
             (Conjunction.matches st)) /\
      forall x y, x ∈ dropped -> y ∈ QP.ranked_results e -> SFltb (fst y) (fst x) = false.
Proof.
  intros qtd st total Hne Hall Hk Hopen Hnan.
  assert (Hlen : length st = length qtd).
  { unfold st, QP.open_last_layers. apply length_map. }
  assert (Hterms : terms line <> []).
  { destruct (QP.query_words stop_words_ line) as [|w ws] eqn:Ew; [done|].
    intros Hnil. cbn beta in Hnil.
    assert (Hw : w ∈ QP.unique (Stl.sort alg _ String.ltb (w :: ws))).
    { apply (unique_sort_elem alg Halg). left. }
    rewrite Hnil in Hw. by apply elem_of_nil in Hw. }
  assert (Hst : st <> []).
  { intros Hnil. rewrite Hnil in Hlen. cbn in Hlen. unfold qtd in Hlen.
    rewrite (omap_all_Some _ _ Hall) in Hlen. symmetry in Hlen.
    by apply length_zero_iff_nil in Hlen. }
  destruct (IntersectLists_sort_lists alg log10 GetDocLen collection_average_doc_len_
              collection_total_num_docs_ (seq 0 (length qtd)) st
              (replicate max_num_results_ QP.no_result) max_num_results_ st Halg Hst Hk)
    as (ls & results' & st' & Hp & HI & Hsorted & Htop);
    [by rewrite length_replicate| |done|done|].
  { rewrite <- Hlen. clear. apply Forall2_same_length_lookup_2; [by rewrite length_seq|].
    intros i p l Hp Hl. apply lookup_seq in Hp as [-> _]. done. }
  assert (Hrun : ProcessQuery QP.kDaatAnd qtd (replicate max_num_results_ QP.no_result)
                   max_num_results_
                 = Some (total, Nat.min total max_num_results_, results')).
  { unfold QP.ProcessQuery. cbv zeta. fold st. unfold total. by rewrite HI. }
  pose proof (ExecuteQuery_ProcessQuery QP.kDaatAnd line _ _ _ Hne
                (or_intror (conj eq_refl Hall)) Hrun) as He.
  eexists _, ls. split; [done|]. split; [exact He|].
  cbn [QP.evaluator_call QP.reported_total_num_results QP.results_size QP.ranked_results].
  rewrite (Nat.min_comm total).
  split; [done|]. split; [done|]. split; [done|]. split; [exact Hsorted|exact Htop].
Qed.

End EndToEnd.

Lemma toy_alpha_beta_layers :
  QP.open_last_layers false
    (omap (fun w => Toy.lexicon !! w)
       (QP.unique (Stl.sort Stl.reference _ String.ltb (QP.query_words ∅ "alpha beta"))))
  = [ListData.OpenList false Toy.alpha 0 0; ListData.OpenList false Toy.beta 0 0].
Proof. vm_compute. reflexivity. Qed.

Lemma toy_alpha_beta_opened :
  Forall Conjunction.opened
    [ListData.OpenList false Toy.alpha 0 0; ListData.OpenList false Toy.beta 0 0].
Proof. repeat constructor; unfold u32_max; cbn; lia. Qed.

Lemma ExecuteQuery_DaatOr_ranking_witness :
  exists e, Toy.ExecuteQuery QP.kDaatOr ∅ "alpha beta" = Some e /\
    QP.evaluator_call e = Some (QP.kDaatOr, [Toy.alpha; Toy.beta]) /\
    length (QP.ranked_results e) = QP.results_size e /\
    Stl.is_sorted QP.ResultCompare (QP.ranked_results e).
Proof.
  destruct (ExecuteQuery_DaatOr_ranking Stl.reference Toy.log10 Toy.GetDocLen
      (IndexProperties.collection_average_doc_len_ Toy.properties)
      (IndexProperties.collection_total_num_docs_ Toy.properties)
      false (fun _ results _ st => (0%nat, results, st)) 8 ∅ Toy.lexicon 10
      Toy.not_modelled (fun q k _ => Toy.not_modelled q k) (fun q k _ => Toy.not_modelled q k)
      reference_conforming "alpha beta")
    as (e & S & He & Hcall & _ & _ & Hlen & _ & _ & _ & Hsorted & _).
  - vm_compute. discriminate.
  - lia.
  - rewrite toy_alpha_beta_layers. exact toy_alpha_beta_opened.
  - rewrite toy_alpha_beta_layers. intros d order (l & Hl & Hd) Hperm.
    assert (Hcase : d = 1 \/ d = 2).
    { apply elem_of_cons in Hl as [->|Hl].
      - change (d ∈ [1; 2]) in Hd. apply elem_of_cons in Hd as [->|Hd]; [by left|].
        apply list_elem_of_singleton in Hd. by right.
      - apply list_elem_of_singleton in Hl. subst l.
        change (d ∈ [1]) in Hd. apply list_elem_of_singleton in Hd. by left. }
    destruct Hcase as [-> | ->].
    + change (order ≡ₚ [0%nat; 1%nat]) in Hperm. symmetry in Hperm.
      apply Permutation_length_2_inv in Hperm as [-> | ->]; vm_compute; reflexivity.
    + change (order ≡ₚ [0%nat]) in Hperm. symmetry in Hperm.
      apply Permutation_length_1_inv in Hperm as ->. vm_compute; reflexivity.
  - exists e. split; [exact He|]. split; [exact Hcall|]. split; [exact Hlen|exact Hsorted].
Defined.

Lemma ExecuteQuery_DaatAnd_ranking_witness :
  exists e, Toy.ExecuteQuery QP.kDaatAnd ∅ "alpha beta" = Some e /\
    QP.evaluator_call e = Some (QP.kDaatAnd, [Toy.alpha; Toy.beta]) /\
    QP.reported_total_num_results e = 1%nat /\
    Stl.is_sorted QP.ResultCompare (QP.ranked_results e).
Proof.
  destruct (ExecuteQuery_DaatAnd_ranking Stl.reference Toy.log10 Toy.GetDocLen
      (IndexProperties.collection_average_doc_len_ Toy.properties)
      (IndexProperties.collection_total_num_docs_ Toy.properties)
      false (fun _ results _ st => (0%nat, results, st)) 8 ∅ Toy.lexicon 10
      Toy.not_modelled (fun q k _ => Toy.not_modelled q k) (fun q k _ => Toy.not_modelled q k)
      reference_conforming "alpha beta")
    as (e & ls & _ & He & Hcall & Htotal & _ & Hsorted & _).
  - vm_compute. discriminate.
  - assert (Hterms : QP.unique (Stl.sort Stl.reference _ String.ltb
                                  (QP.query_words ∅ "alpha beta")) = ["alpha"; "beta"])
      by (vm_compute; reflexivity).
    rewrite Hterms. repeat constructor; by eexists.
  - lia.
  - rewrite toy_alpha_beta_layers. exact toy_alpha_beta_opened.
  - rewrite toy_alpha_beta_layers. intros ls d Hp Hd.
    change (d ∈ [1]) in Hd. apply list_elem_of_singleton in Hd. subst d.
    symmetry in Hp. apply Permutation_length_2_inv in Hp as [-> | ->]; vm_compute; reflexivity.
  - exists e. split; [exact He|]. split; [exact Hcall|]. split; [exact Htotal|exact Hsorted].
Defined.
